(** * Eris: persistence of Lua 5.2 object graphs

    A shallow embedding of [eris.c] (Eris for Lua 5.2.2): the writer
    ([persist], [persist_keyed], [persist_typed] and the [p_*] codecs), the
    reader ([unpersist], [u_permanent] and the [u_*] codecs) and the library
    entry points ([unchecked_persist], [unchecked_unpersist], [l_persist],
    [l_unpersist]), followed by the properties of the persistence format.

    Conventions of the embedding.
    - The Lua heap is a list of objects; an address is an index into it and
      allocation appends.  Strings are values (Lua compares them by content).
    - The C stack discipline of the source (the [/* ... obj */] comments) is
      turned into explicit arguments and results.  The one place where the
      source reads "whatever is on top of the stack" ([registerobject] in
      [u_permanent], the prototype shell of [u_proto]) is kept: the readers
      take the value on top of the stack at entry as argument [top].
    - The configuration is the one compiled into the source:
      [generatePath = 0] (so [pushpath]/[poppath] do nothing),
      [passIOToPersist = 0], [writeDebugInformation = 1] and
      [persistKey = "__persist"].
    - [eris_error] never returns: it is the [Err] result, carrying the message
      without the [luaL_where] position prefix.  Behaviour that is undefined in
      C (a NULL dereference, a misaligned stack offset) is the [Undef] result.
    - The platform is LP64 little-endian: [int] has 4 bytes, [size_t],
      [ptrdiff_t], [void*] and [lua_Number] have 8, [short] has 2.  A
      [lua_Number] is carried as its 8-byte image. *)

From Stdlib Require Import ZArith List String Strings.Byte Bool Lia DecimalString.
From stdpp Require Import base list.
Import ListNotations.
Local Open Scope Z_scope.

Set Default Proof Using "Type".

(** ** Fixed-width words, least significant byte first *)

Definition byte_of_Z (z : Z) : byte :=
  match Byte.of_N (Z.to_N (z mod 256)) with
  | Some b => b
  | None => Byte.x00
  end.

Definition Z_of_byte (b : byte) : Z := Z.of_N (Byte.to_N b).

Fixpoint le_encode (n : nat) (z : Z) : list byte :=
  match n with
  | O => []
  | S n' => byte_of_Z z :: le_encode n' (z / 256)
  end.

Fixpoint le_decode (bs : list byte) : Z :=
  match bs with
  | [] => 0
  | b :: r => Z_of_byte b + 256 * le_decode r
  end.

(** Reinterpretation of a [w]-byte word as a signed integer. *)
Definition to_signed (w : nat) (u : Z) : Z :=
  if u <? 2 ^ (8 * Z.of_nat w - 1) then u else u - 2 ^ (8 * Z.of_nat w).

Definition sizeof_lu_byte : nat := 1.
Definition sizeof_short : nat := 2.
Definition sizeof_int : nat := 4.
Definition sizeof_size_t : nat := 8.
Definition sizeof_ptrdiff_t : nat := 8.
Definition sizeof_voidp : nat := 8.
Definition sizeof_lua_Number : nat := 8.
Definition sizeof_Instruction : nat := 4.
Definition sizeof_TValue : Z := 16.

(** ** Lua type tags (lua.h, lobject.h of Lua 5.2) and the Eris tags *)

Definition LUA_TNIL : Z := 0.
Definition LUA_TBOOLEAN : Z := 1.
Definition LUA_TLIGHTUSERDATA : Z := 2.
Definition LUA_TNUMBER : Z := 3.
Definition LUA_TSTRING : Z := 4.
Definition LUA_TTABLE : Z := 5.
Definition LUA_TFUNCTION : Z := 6.
Definition LUA_TUSERDATA : Z := 7.
Definition LUA_TTHREAD : Z := 8.
Definition LUA_NUMTAGS : Z := 9.
Definition LUA_TPROTO : Z := LUA_NUMTAGS.
Definition LUA_TUPVAL : Z := LUA_NUMTAGS + 1.
Definition LUA_TOTALTAGS : Z := LUA_TUPVAL + 2.

Definition ERIS_PERMANENT : Z := LUA_TOTALTAGS + 1.
Definition ERIS_REFERENCE_OFFSET : Z := ERIS_PERMANENT + 1.

(** Bits of [CallInfo.callstatus] (lstate.h of Lua 5.2.2). *)
Definition CIST_LUA : Z := 1.
Definition CIST_YIELDED : Z := 8.
Definition CIST_YPCALL : Z := 16.
Definition CIST_HOOKYIELD : Z := 128.

Definition persistKey : list byte :=
  list_byte_of_string "__persist".

Definition kTypenames : list string :=
  [ "nil"; "boolean"; "lightuserdata"; "number"; "string";
    "table"; "function"; "userdata"; "thread"; "proto"; "upval" ]%string.

Definition typename (t : Z) : string :=
  if t <? 0 then "?"%string else nth (Z.to_nat t) kTypenames "?"%string.

Definition string_of_Z (z : Z) : string := NilZero.string_of_int (Z.to_int z).

(** ** Values and heap objects *)

Definition addr := nat.

(** A C pointer: a raw word, the address of a collectable object (a [Proto*]
    or [UpVal*] used as surrogate key), or the address of one upvalue slot of
    a Lua closure (an [UpVal**]). *)
Inductive pointer :=
| PRaw (w : Z)
| PObj (a : addr)
| PSlot (cl : addr) (k : nat).

Inductive value :=
| VNil
| VBool (b : bool)
| VLight (p : pointer)
| VNum (bits : Z)
| VStr (s : list byte)
| VTable (a : addr)
| VLCF (f : Z)
| VCCl (a : addr)
| VLCl (a : addr)
| VUdata (a : addr)
| VThread (a : addr).

Definition lua_type (v : value) : Z :=
  match v with
  | VNil => LUA_TNIL
  | VBool _ => LUA_TBOOLEAN
  | VLight _ => LUA_TLIGHTUSERDATA
  | VNum _ => LUA_TNUMBER
  | VStr _ => LUA_TSTRING
  | VTable _ => LUA_TTABLE
  | VLCF _ | VCCl _ | VLCl _ => LUA_TFUNCTION
  | VUdata _ => LUA_TUSERDATA
  | VThread _ => LUA_TTHREAD
  end.

Definition lua_isnil (v : value) : bool :=
  match v with VNil => true | _ => false end.

Definition lua_isfunction (v : value) : bool := lua_type v =? LUA_TFUNCTION.

Definition lua_toboolean (v : value) : bool :=
  match v with VNil | VBool false => false | _ => true end.

Record table := mkTable {
  t_pairs : list (value * value);
  t_meta : option addr
}.

Record udata := mkUdata {
  u_block : list byte;
  u_meta : option addr
}.

Record cclosure := mkCClosure {
  c_f : Z;
  c_upvals : list value
}.

Record lclosure := mkLClosure {
  l_p : option addr;
  l_upvals : list (option addr)
}.

Record upvaldesc := mkUpvaldesc {
  ud_name : option (list byte);
  ud_instack : Z;
  ud_idx : Z
}.

Record locvar := mkLocVar {
  lv_varname : option (list byte);
  lv_startpc : Z;
  lv_endpc : Z
}.

Record proto := mkProto {
  p_linedefined : Z;
  p_lastlinedefined : Z;
  p_numparams : Z;
  p_is_vararg : Z;
  p_maxstacksize : Z;
  p_code : list Z;
  p_k : list value;
  p_p : list addr;
  p_upvalues : list upvaldesc;
  p_source : option (list byte);
  p_lineinfo : list Z;
  p_locvars : list locvar
}.

(** Where [UpVal.v] points: at the upvalue's own [u.value] (closed) or at a
    slot of a thread's stack (open). *)
Inductive uvloc :=
| UvClosed
| UvOpen (th : addr) (level : nat).

Record upval := mkUpVal {
  uv_v : uvloc;
  uv_value : value
}.

Inductive ci_u :=
| CiL (base : Z) (savedpc : Z)
| CiC (status : Z) (ctx : Z) (k : Z) (old_errfunc : Z) (old_allowhook : Z).

(** [ci_func], [ci_top] and [base] are kept as [savestack] offsets (bytes from
    the stack base); [savedpc] as an instruction index into the code of the
    frame's function. *)
Record callinfo := mkCallInfo {
  ci_func : Z;
  ci_top : Z;
  ci_nresults : Z;
  ci_callstatus : Z;
  ci_extra : Z;
  ci_union : ci_u
}.

(** [th_stack] holds the slots below [top]; [th_ci] the frames from
    [base_ci] to the current one; [th_openupval] the open upvalues, by
    decreasing level. *)
Record thread := mkThread {
  th_status : Z;
  th_nCcalls : Z;
  th_allowhook : Z;
  th_nny : Z;
  th_errorJmp : Z;
  th_errfunc : Z;
  th_stacksize : Z;
  th_stack : list value;
  th_ci : list callinfo;
  th_openupval : list addr
}.

Inductive obj :=
| OTable (t : table)
| OUdata (u : udata)
| OCCl (c : cclosure)
| OLCl (l : lclosure)
| OProto (p : proto)
| OUpVal (u : upval)
| OThread (t : thread).

Definition heap := list obj.

(** ** Raw equality and tables (lvm.c, ltable.c of Lua 5.2) *)

#[global] Instance byte_eq_decision : EqDecision byte := Byte.byte_eq_dec.

#[global] Instance pointer_eq_decision : EqDecision pointer.
Proof. solve_decision. Defined.

#[global] Instance value_eq_decision : EqDecision value.
Proof. solve_decision. Defined.

(** A [lua_Number] is an IEEE-754 binary64 image. *)
Definition luai_numisnan (x : Z) : bool :=
  ((x / 2 ^ 52) mod 2 ^ 11 =? 2047) && negb (x mod 2 ^ 52 =? 0).

Definition num_iszero (x : Z) : bool := x mod 2 ^ 63 =? 0.

Definition luai_numeq (x y : Z) : bool :=
  negb (luai_numisnan x) && negb (luai_numisnan y) &&
  ((x =? y) || (num_iszero x && num_iszero y)).

(** The binary64 image of an integer (exact for [|i| < 2^53]), as
    [lua_rawgeti] and [lua_rawseti] build their key. *)
Definition cast_num (i : Z) : Z :=
  if i =? 0 then 0
  else
    let a := Z.abs i in
    let e := Z.log2 a in
    (if i <? 0 then 2 ^ 63 else 0) + (e + 1023) * 2 ^ 52 + (a * 2 ^ (52 - e) - 2 ^ 52).

Definition luaV_rawequalobj (x y : value) : bool :=
  match x, y with
  | VNum a, VNum b => luai_numeq a b
  | _, _ => bool_decide (x = y)
  end.

Fixpoint luaH_get (ps : list (value * value)) (k : value) : value :=
  match ps with
  | [] => VNil
  | (k', v) :: r => if luaV_rawequalobj k' k then v else luaH_get r k
  end.

(** Storing: an existing key is updated in place, a new key is appended, and
    storing nil removes the pair ([lua_next] skips it). *)
Fixpoint luaH_set (ps : list (value * value)) (k v : value) : list (value * value) :=
  match ps with
  | [] => if lua_isnil v then [] else [(k, v)]
  | (k', v') :: r =>
      if luaV_rawequalobj k' k
      then (if lua_isnil v then r else (k', v) :: r)
      else (k', v') :: luaH_set r k v
  end.

Definition key_isnan (k : value) : bool :=
  match k with VNum x => luai_numisnan x | _ => false end.

Definition set_pairs (t : table) (ps : list (value * value)) : table :=
  {| t_pairs := ps; t_meta := t_meta t |}.

Definition set_meta (t : table) (m : option addr) : table :=
  {| t_pairs := t_pairs t; t_meta := m |}.

Definition empty_table : table := {| t_pairs := []; t_meta := None |}.

(** ** Results and the state-and-error monad *)

Inductive res (A : Type) : Type :=
| Ok (a : A)
| Err (msg : string)
| Undef
| OutOfFuel.
Arguments Ok {A} a.
Arguments Err {A} msg.
Arguments Undef {A}.
Arguments OutOfFuel {A}.

Definition M (S A : Type) : Type := S -> res (A * S).

Definition ret {S A : Type} (a : A) : M S A := fun s => Ok (a, s).

Definition bind {S A B : Type} (m : M S A) (f : A -> M S B) : M S B :=
  fun s =>
    match m s with
    | Ok (a, s') => f a s'
    | Err e => Err e
    | Undef => Undef
    | OutOfFuel => OutOfFuel
    end.

Definition eris_error {S A : Type} (msg : string) : M S A := fun _ => Err msg.
Definition undefined {S A : Type} : M S A := fun _ => Undef.
Definition out_of_fuel {S A : Type} : M S A := fun _ => OutOfFuel.
Definition gets {S A : Type} (f : S -> A) : M S A := fun s => Ok (f s, s).
Definition modify {S : Type} (f : S -> S) : M S unit := fun s => Ok (tt, f s).

Definition lift_opt {S A : Type} (o : option A) : M S A :=
  match o with Some a => ret a | None => undefined end.

Declare Scope eris_scope.
Delimit Scope eris_scope with eris.
Notation "x <- m ;; k" := (bind m (fun x => k))
  (at level 100, m at next level, right associativity) : eris_scope.
Notation "m ;; k" := (bind m (fun _ => k))
  (at level 100, right associativity) : eris_scope.
Local Open Scope eris_scope.

Fixpoint for_each {S A : Type} (f : A -> M S unit) (l : list A) : M S unit :=
  match l with
  | [] => ret tt
  | x :: r => f x ;; for_each f r
  end.

(** [for (i = lo; i < lo + n; ++i) body(i)] *)
Fixpoint for_range {S : Type} (f : Z -> M S unit) (lo : Z) (n : nat) : M S unit :=
  match n with
  | O => ret tt
  | S n' => f lo ;; for_range f (lo + 1) n'
  end.

(** ** The services of the Lua VM that are not part of eris.c *)

Class LuaHost := {
  (** [lua_call] of a function value on arguments, one result *)
  lua_call : value -> list value -> heap -> res (value * heap);
  (** [luaL_len] of a table without [__len] ([luaH_getn]): some border *)
  luaL_len : table -> Z;
  (** the [eris_perm*lib] functions of the patched Lua libraries, which add
      the continuation functions of the libraries to the perms table *)
  populateperms : bool -> addr -> heap -> heap
}.

(** ** Heap access *)

Definition heap_table (h : heap) (a : addr) : option table :=
  match h !! a with Some (OTable t) => Some t | _ => None end.
Definition heap_udata (h : heap) (a : addr) : option udata :=
  match h !! a with Some (OUdata u) => Some u | _ => None end.
Definition heap_ccl (h : heap) (a : addr) : option cclosure :=
  match h !! a with Some (OCCl c) => Some c | _ => None end.
Definition heap_lcl (h : heap) (a : addr) : option lclosure :=
  match h !! a with Some (OLCl c) => Some c | _ => None end.
Definition heap_proto (h : heap) (a : addr) : option proto :=
  match h !! a with Some (OProto p) => Some p | _ => None end.
Definition heap_upval (h : heap) (a : addr) : option upval :=
  match h !! a with Some (OUpVal u) => Some u | _ => None end.
Definition heap_thread (h : heap) (a : addr) : option thread :=
  match h !! a with Some (OThread t) => Some t | _ => None end.

Definition heap_alloc (h : heap) (o : obj) : addr * heap := (length h, h ++ [o]).

(** [lua_getmetatable] of a table or userdata (the per-type metatables of
    the other kinds are not consulted by eris.c). *)
Definition lua_getmetatable (h : heap) (v : value) : option addr :=
  match v with
  | VTable a => match heap_table h a with Some t => t_meta t | None => None end
  | VUdata a => match heap_udata h a with Some u => u_meta u | None => None end
  | _ => None
  end.

Definition lua_rawget (h : heap) (t : addr) (k : value) : value :=
  match heap_table h t with
  | Some tb => luaH_get (t_pairs tb) k
  | None => VNil
  end.

(** [lua_gettable] on the perms table, which is taken to have no [__index]
    metamethod. *)
Definition lua_gettable (h : heap) (t : addr) (k : value) : value := lua_rawget h t k.

Definition lua_tocfunction (h : heap) (v : value) : Z :=
  match v with
  | VLCF f => f
  | VCCl a => match heap_ccl h a with Some c => c_f c | None => 0 end
  | _ => 0
  end.

Definition lua_iscfunction (v : value) : bool :=
  match v with VLCF _ | VCCl _ => true | _ => false end.

(** The value an upvalue currently holds ([*uv->v]). *)
Definition upval_get (h : heap) (u : upval) : option value :=
  match uv_v u with
  | UvClosed => Some (uv_value u)
  | UvOpen th level =>
      match heap_thread h th with
      | Some t => th_stack t !! level
      | None => None
      end
  end.

(** ** Writer state and the in-memory writer *)

(** [Mbuffer]: [buffer] holds the [n] bytes written so far, [buffsize] is
    the capacity. *)
Record Mbuffer := mkMbuffer {
  buffer : list byte;
  buffsize : Z
}.

Definition eris_bufflen (b : Mbuffer) : Z := Z.of_nat (length (buffer b)).

Definition SIZE_MOD : Z := 2 ^ 64.

(** [writer]: [None] is the non-zero return (capacity overflow).  The
    userdata that anchors the new block is not entered into the heap. *)
Definition writer (p : list byte) (buff : Mbuffer) : option Mbuffer :=
  let sz := Z.of_nat (length p) in
  let size := eris_bufflen buff in
  let capacity := buffsize buff in
  if (capacity - size) mod SIZE_MOD <? sz then
    let newcapacity := (capacity * 2) mod SIZE_MOD in
    let newcapacity :=
      if (newcapacity - size) mod SIZE_MOD <? sz
      then (capacity + sz) mod SIZE_MOD else newcapacity in
    if newcapacity <=? capacity then None
    else Some {| buffer := buffer buff ++ p; buffsize := newcapacity |}
  else Some {| buffer := buffer buff ++ p; buffsize := capacity |}.

(** [PersistInfo], together with the part of the Lua stack the writer
    addresses by index: the perms table (index 1) and the reference table
    (index 2, a map from keys to ids).  [pi_running] is the identity of the
    thread [pi->L] that runs the call. *)
Record PersistInfo := mkPersistInfo {
  pi_L : heap;
  pi_running : addr;
  pi_perms : addr;
  pi_reftbl : list (value * Z);
  pi_refcount : Z;
  pi_ud : Mbuffer
}.

Definition W := M PersistInfo.

Definition pi_set_L (h : heap) (pi : PersistInfo) : PersistInfo :=
  {| pi_L := h; pi_running := pi_running pi; pi_perms := pi_perms pi;
     pi_reftbl := pi_reftbl pi; pi_refcount := pi_refcount pi; pi_ud := pi_ud pi |}.

Definition pi_set_ud (b : Mbuffer) (pi : PersistInfo) : PersistInfo :=
  {| pi_L := pi_L pi; pi_running := pi_running pi; pi_perms := pi_perms pi;
     pi_reftbl := pi_reftbl pi; pi_refcount := pi_refcount pi; pi_ud := b |}.

(** [lua_pushinteger(++(pi->refcount)); lua_rawset(pi->L, 2)] *)
Definition pi_bind_ref (refkey : value) (pi : PersistInfo) : PersistInfo :=
  {| pi_L := pi_L pi; pi_running := pi_running pi; pi_perms := pi_perms pi;
     pi_reftbl := (refkey, pi_refcount pi + 1) :: pi_reftbl pi;
     pi_refcount := pi_refcount pi + 1; pi_ud := pi_ud pi |}.

Fixpoint reftbl_get (rt : list (value * Z)) (k : value) : option Z :=
  match rt with
  | [] => None
  | (k', i) :: r => if luaV_rawequalobj k' k then Some i else reftbl_get r k
  end.

Definition WRITE_RAW (bs : list byte) : W unit :=
  fun pi =>
    match writer bs (pi_ud pi) with
    | Some b => Ok (tt, pi_set_ud b pi)
    | None => Err "could not write data"%string
    end.

Definition WRITE_VALUE (x : Z) (size : nat) : W unit := WRITE_RAW (le_encode size x).

Definition write_lu_byte (x : Z) : W unit := WRITE_VALUE x sizeof_lu_byte.
Definition write_short (x : Z) : W unit := WRITE_VALUE x sizeof_short.
Definition write_ushort (x : Z) : W unit := WRITE_VALUE x sizeof_short.
Definition write_int (x : Z) : W unit := WRITE_VALUE x sizeof_int.
Definition write_size_t (x : Z) : W unit := WRITE_VALUE x sizeof_size_t.
Definition write_ptrdiff_t (x : Z) : W unit := WRITE_VALUE x sizeof_ptrdiff_t.
Definition write_lua_Number (x : Z) : W unit := WRITE_VALUE x sizeof_lua_Number.
Definition write_voidp (x : Z) : W unit := WRITE_VALUE x sizeof_voidp.

Definition Z_of_bool (b : bool) : Z := if b then 1 else 0.

(** The word of a pointer.  Objects are laid out in blocks of 4096 bytes by
    address; only raw words come from user data. *)
Definition pointer_word (p : pointer) : Z :=
  match p with
  | PRaw w => w
  | PObj a => 4096 * (Z.of_nat a + 1)
  | PSlot cl k => 4096 * (Z.of_nat cl + 1) + 8 * (Z.of_nat k + 1)
  end.

Definition lua_touserdata (v : value) : pointer :=
  match v with
  | VLight p => p
  | VUdata a => PObj a
  | _ => PRaw 0
  end.

Definition lua_tonumber (v : value) : Z :=
  match v with VNum x => x | _ => 0 end.

Definition pushtstring (ts : option (list byte)) : value :=
  match ts with Some s => VStr s | None => VNil end.

(** ** The writer *)

Section Writer.
Context {host : LuaHost}.
(** The recursive calls of [persist] and [persist_keyed]. *)
Variable rec_persist : value -> W unit.
Variable rec_persist_keyed : value -> value -> Z -> W unit.

Definition p_boolean (v : value) : W unit :=
  write_lu_byte (Z_of_bool (lua_toboolean v)).

Definition p_pointer (v : value) : W unit :=
  write_voidp (pointer_word (lua_touserdata v)).

Definition p_number (v : value) : W unit :=
  write_lua_Number (lua_tonumber v).

Definition p_string (v : value) : W unit :=
  match v with
  | VStr s => write_size_t (Z.of_nat (length s)) ;; WRITE_RAW s
  | _ => undefined
  end.

Definition p_metatable (obj : value) : W unit :=
  h <- gets pi_L ;;
  rec_persist (match lua_getmetatable h obj with
               | Some mt => VTable mt
               | None => VNil
               end).

(** The pairs are those [lua_next] yields for the table as it is when the
    loop starts. *)
Definition p_literaltable (obj : value) : W unit :=
  h <- gets pi_L ;;
  t <- lift_opt (match obj with VTable a => heap_table h a | _ => None end) ;;
  for_each (fun kv : value * value => rec_persist (fst kv) ;; rec_persist (snd kv))
           (t_pairs t) ;;
  rec_persist VNil ;;
  p_metatable obj.

Definition p_literaluserdata (obj : value) : W unit :=
  h <- gets pi_L ;;
  u <- lift_opt (match obj with VUdata a => heap_udata h a | _ => None end) ;;
  write_size_t (Z.of_nat (length (u_block u))) ;;
  WRITE_RAW (u_block u) ;;
  p_metatable obj.

Definition p_special_literal (allow : bool) (literal : value -> W unit)
    (obj : value) : W unit :=
  if allow then write_lu_byte 0 ;; literal obj
  else if lua_type obj =? LUA_TTABLE
       then eris_error "attempt to persist forbidden table"
       else eris_error "literally persisting userdata is disabled by default".

Definition p_special (literal : value -> W unit) (obj : value) : W unit :=
  let allow := lua_type obj =? LUA_TTABLE in
  h <- gets pi_L ;;
  match lua_getmetatable h obj with
  | Some mt =>
      let pk := lua_rawget h mt (VStr persistKey) in
      if lua_type pk =? LUA_TNIL then p_special_literal allow literal obj
      else if lua_type pk =? LUA_TBOOLEAN
      then p_special_literal (lua_toboolean pk) literal obj
      else if lua_type pk =? LUA_TFUNCTION
      then
        func <- (fun pi =>
                   match lua_call pk [obj] (pi_L pi) with
                   | Ok (r, h') => Ok (r, pi_set_L h' pi)
                   | Err e => Err e
                   | Undef => Undef
                   | OutOfFuel => OutOfFuel
                   end) ;;
        (if lua_isfunction func then ret tt
         else eris_error "__persist did not return a function") ;;
        write_lu_byte 1 ;;
        rec_persist func
      else eris_error "%d not nil, boolean, or function"
  | None => p_special_literal allow literal obj
  end.

Definition p_table (obj : value) : W unit := p_special p_literaltable obj.
Definition p_userdata (obj : value) : W unit := p_special p_literaluserdata obj.

Definition p_proto (obj : value) : W unit :=
  h <- gets pi_L ;;
  p <- lift_opt (match lua_touserdata obj with
                 | PObj a => heap_proto h a
                 | _ => None
                 end) ;;
  write_int (p_linedefined p) ;;
  write_int (p_lastlinedefined p) ;;
  write_lu_byte (p_numparams p) ;;
  write_lu_byte (p_is_vararg p) ;;
  write_lu_byte (p_maxstacksize p) ;;
  write_int (Z.of_nat (length (p_code p))) ;;
  WRITE_RAW (flat_map (le_encode sizeof_Instruction) (p_code p)) ;;
  write_int (Z.of_nat (length (p_k p))) ;;
  for_each rec_persist (p_k p) ;;
  write_int (Z.of_nat (length (p_p p))) ;;
  for_each (fun cp : addr =>
              rec_persist_keyed (VLight (PObj cp)) (VLight (PObj cp)) LUA_TPROTO)
           (p_p p) ;;
  write_int (Z.of_nat (length (p_upvalues p))) ;;
  for_each (fun d : upvaldesc =>
              write_lu_byte (ud_instack d) ;; write_lu_byte (ud_idx d))
           (p_upvalues p) ;;
  write_lu_byte 1 ;;
  rec_persist (pushtstring (p_source p)) ;;
  write_int (Z.of_nat (length (p_lineinfo p))) ;;
  WRITE_RAW (flat_map (le_encode sizeof_int) (p_lineinfo p)) ;;
  write_int (Z.of_nat (length (p_locvars p))) ;;
  for_each (fun lv : locvar =>
              write_int (lv_startpc lv) ;;
              write_int (lv_endpc lv) ;;
              rec_persist (pushtstring (lv_varname lv)))
           (p_locvars p) ;;
  for_each (fun d : upvaldesc => rec_persist (pushtstring (ud_name d)))
           (p_upvalues p).

Definition p_upval (obj : value) : W unit := rec_persist obj.

(** One round of the upvalue loop of a Lua closure in [p_closure]: the
    value of the upvalue is persisted under the address of the [UpVal]. *)
Definition p_closure_upvalue (ou : option addr) : W unit :=
  uv <- lift_opt ou ;;
  h <- gets pi_L ;;
  u <- lift_opt (heap_upval h uv) ;;
  v <- lift_opt (upval_get h u) ;;
  rec_persist_keyed v (VLight (PObj uv)) LUA_TUPVAL.

Definition p_closure (obj : value) : W unit :=
  match obj with
  | VLCF _ => eris_error "Attempt to persist a light C function (%p)"
  | VCCl a =>
      h <- gets pi_L ;;
      cl <- lift_opt (heap_ccl h a) ;;
      write_lu_byte 1 ;;
      write_lu_byte (Z.of_nat (length (c_upvals cl))) ;;
      rec_persist (VLCF (c_f cl)) ;;
      for_each rec_persist (c_upvals cl)
  | VLCl a =>
      h <- gets pi_L ;;
      cl <- lift_opt (heap_lcl h a) ;;
      write_lu_byte 0 ;;
      write_lu_byte (Z.of_nat (length (l_upvals cl))) ;;
      p <- lift_opt (l_p cl) ;;
      rec_persist_keyed (VLight (PObj p)) (VLight (PObj p)) LUA_TPROTO ;;
      for_each p_closure_upvalue (l_upvals cl)
  | _ => eris_error "Attempt to persist unknown function type"
  end.

Definition eris_isLua (ci : callinfo) : bool :=
  Z.testbit (ci_callstatus ci) 0.

(** The value in the stack slot at a [savestack] offset. *)
Definition stack_at (stack : list value) (off : Z) : option value :=
  if (0 <=? off) && (off mod sizeof_TValue =? 0)
  then stack !! Z.to_nat (off / sizeof_TValue)
  else None.

(** One frame of the call-info loop; [last] is
    [ci->next == thread->ci->next]. *)
Definition p_callinfo (stack : list value) (ci : callinfo) (last : bool) : W unit :=
  write_size_t (ci_func ci) ;;
  write_size_t (ci_top ci) ;;
  write_short (ci_nresults ci) ;;
  write_lu_byte (ci_callstatus ci) ;;
  write_ptrdiff_t (ci_extra ci) ;;
  (if Z.land (ci_callstatus ci) CIST_HOOKYIELD =? 0 then ret tt
   else eris_error "cannot persist yielded hooks") ;;
  (if eris_isLua ci then
     h <- gets pi_L ;;
     _ <- lift_opt (match stack_at stack (ci_func ci) with
                    | Some (VLCl c) =>
                        match heap_lcl h c with
                        | Some cl => l_p cl
                        | None => None
                        end
                    | _ => None
                    end) ;;
     match ci_union ci with
     | CiL base savedpc => write_size_t base ;; write_size_t savedpc
     | CiC _ _ _ _ _ => undefined
     end
   else
     match ci_union ci with
     | CiC status ctx k _ _ =>
         write_lu_byte status ;;
         if Z.land (ci_callstatus ci) (Z.lor CIST_YPCALL CIST_YIELDED) =? 0
         then ret tt
         else write_int ctx ;; rec_persist (VLCF k)
     | CiL _ _ => undefined
     end) ;;
  write_lu_byte (Z_of_bool last).

Fixpoint p_callinfos (stack : list value) (cis : list callinfo) : W unit :=
  match cis with
  | [] => ret tt
  | [ci] => p_callinfo stack ci true
  | ci :: rest => p_callinfo stack ci false ;; p_callinfos stack rest
  end.

(** [p_thread] after the check against the running thread.  The
    [eris_assert]s on [nny], [errorJmp] and [errfunc] are compiled out
    ([#if 0]) and so are no part of it. *)
Definition p_thread_body (t : thread) : W unit :=
  write_lu_byte (th_status t) ;;
  write_ushort (th_nCcalls t) ;;
  write_lu_byte (th_allowhook t) ;;
  write_int (th_stacksize t) ;;
  write_size_t (Z.of_nat (length (th_stack t))) ;;
  for_each rec_persist (th_stack t) ;;
  match th_ci t with
  | [] => undefined
  | cis => p_callinfos (th_stack t) cis
  end ;;
  for_each (fun uv : addr =>
              h' <- gets pi_L ;;
              u <- lift_opt (heap_upval h' uv) ;;
              match uv_v u with
              | UvOpen _ level =>
                  write_size_t (sizeof_TValue * Z.of_nat level) ;;
                  v <- lift_opt (th_stack t !! level) ;;
                  rec_persist_keyed v (VLight (PObj uv)) LUA_TUPVAL
              | UvClosed => undefined
              end)
           (th_openupval t) ;;
  write_size_t (SIZE_MOD - 1).

Definition p_thread (obj : value) : W unit :=
  match obj with
  | VThread a =>
      running <- gets pi_running ;;
      if bool_decide (a = running)
      then eris_error "cannot persist currently running thread"
      else
        h <- gets pi_L ;;
        t <- lift_opt (heap_thread h a) ;;
        p_thread_body t
  | _ => undefined
  end.

(** The [switch] of [persist_typed]. *)
Definition persist_typed_switch (type : Z) (obj : value) : W unit :=
  if type =? LUA_TBOOLEAN then p_boolean obj
  else if type =? LUA_TLIGHTUSERDATA then p_pointer obj
  else if type =? LUA_TNUMBER then p_number obj
  else if type =? LUA_TSTRING then p_string obj
  else if type =? LUA_TTABLE then p_table obj
  else if type =? LUA_TFUNCTION then p_closure obj
  else if type =? LUA_TUSERDATA then p_userdata obj
  else if type =? LUA_TTHREAD then p_thread obj
  else if type =? LUA_TPROTO then p_proto obj
  else if type =? LUA_TUPVAL then p_upval obj
  else eris_error "trying to persist unknown type".

Definition persist_typed (type : Z) (obj : value) : W unit :=
  write_int type ;; persist_typed_switch type obj.

(** [persist_keyed] from the point where the key has its id: the perms
    table is consulted and the permanent key or the body is written. *)
Definition persist_keyed_new (obj refkey : value) (type : Z) : W unit :=
  h <- gets pi_L ;;
  perms <- gets pi_perms ;;
  let permkey := lua_gettable h perms refkey in
  if lua_isnil permkey then persist_typed type obj
  else
    write_int ERIS_PERMANENT ;;
    write_int (lua_type obj) ;;
    rec_persist permkey.

Definition persist_keyed_body (obj refkey : value) (type : Z) : W unit :=
  rt <- gets pi_reftbl ;;
  match reftbl_get rt refkey with
  | Some reference => write_int (reference + ERIS_REFERENCE_OFFSET)
  | None =>
      modify (pi_bind_ref refkey) ;;
      persist_keyed_new obj refkey type
  end.

Definition persist_body (obj : value) : W unit :=
  let type := lua_type obj in
  if type =? LUA_TNIL then write_int type
  else if (type =? LUA_TBOOLEAN) || (type =? LUA_TLIGHTUSERDATA)
          || (type =? LUA_TNUMBER)
  then persist_typed type obj
  else rec_persist_keyed obj obj type.
End Writer.

(** Each call of [persist] or [persist_keyed] takes one unit of fuel. *)
Fixpoint persist_fix {host : LuaHost} (fuel : nat)
    : (value -> W unit) * (value -> value -> Z -> W unit) :=
  match fuel with
  | O => (fun _ => out_of_fuel, fun _ _ _ => out_of_fuel)
  | S n =>
      let r := persist_fix n in
      (persist_body (fst r) (snd r), persist_keyed_body (fst r) (snd r))
  end.

Definition persist {host : LuaHost} (fuel : nat) : value -> W unit :=
  fst (persist_fix fuel).
Definition persist_keyed {host : LuaHost} (fuel : nat) : value -> value -> Z -> W unit :=
  snd (persist_fix fuel).

(** ** Reader state *)

(** [UnpersistInfo], with the perms table (stack index 1) and the reference
    table (stack index 2, ids to objects); [upi_zio] is what is left of the
    input. *)
Record UnpersistInfo := mkUnpersistInfo {
  upi_L : heap;
  upi_perms : addr;
  upi_reftbl : list (Z * value);
  upi_refcount : Z;
  upi_zio : list byte
}.

Definition R := M UnpersistInfo.

Definition upi_set_L (h : heap) (upi : UnpersistInfo) : UnpersistInfo :=
  {| upi_L := h; upi_perms := upi_perms upi; upi_reftbl := upi_reftbl upi;
     upi_refcount := upi_refcount upi; upi_zio := upi_zio upi |}.

Definition upi_set_zio (z : list byte) (upi : UnpersistInfo) : UnpersistInfo :=
  {| upi_L := upi_L upi; upi_perms := upi_perms upi; upi_reftbl := upi_reftbl upi;
     upi_refcount := upi_refcount upi; upi_zio := z |}.

(** [lua_rawseti(upi->L, 2, reference)] *)
Definition upi_set_ref (reference : Z) (v : value) (upi : UnpersistInfo) : UnpersistInfo :=
  {| upi_L := upi_L upi; upi_perms := upi_perms upi;
     upi_reftbl := (reference, v) :: upi_reftbl upi;
     upi_refcount := upi_refcount upi; upi_zio := upi_zio upi |}.

Definition upi_incr_refcount (upi : UnpersistInfo) : UnpersistInfo :=
  {| upi_L := upi_L upi; upi_perms := upi_perms upi; upi_reftbl := upi_reftbl upi;
     upi_refcount := upi_refcount upi + 1; upi_zio := upi_zio upi |}.

(** [lua_rawgeti(upi->L, 2, reference)]; an absent entry is nil. *)
Fixpoint reftbl_rawgeti (rt : list (Z * value)) (i : Z) : value :=
  match rt with
  | [] => VNil
  | (j, v) :: r => if j =? i then v else reftbl_rawgeti r i
  end.

Definition registerobject (obj : value) : R Z :=
  modify upi_incr_refcount ;;
  reference <- gets upi_refcount ;;
  modify (upi_set_ref reference obj) ;;
  ret reference.

Definition READ_RAW (size : Z) : R (list byte) :=
  fun upi =>
    if (0 <=? size) && (size <=? Z.of_nat (length (upi_zio upi)))
    then Ok (take (Z.to_nat size) (upi_zio upi),
             upi_set_zio (drop (Z.to_nat size) (upi_zio upi)) upi)
    else Err "could not read data"%string.

Definition READ_VALUE (size : nat) : R Z :=
  bs <- READ_RAW (Z.of_nat size) ;; ret (le_decode bs).

Definition read_lu_byte : R Z := READ_VALUE sizeof_lu_byte.
Definition read_ushort : R Z := READ_VALUE sizeof_short.
Definition read_size_t : R Z := READ_VALUE sizeof_size_t.
Definition read_lua_Number : R Z := READ_VALUE sizeof_lua_Number.
Definition read_voidp : R Z := READ_VALUE sizeof_voidp.
Definition read_short : R Z :=
  u <- READ_VALUE sizeof_short ;; ret (to_signed sizeof_short u).
Definition read_int : R Z :=
  u <- READ_VALUE sizeof_int ;; ret (to_signed sizeof_int u).
Definition read_ptrdiff_t : R Z :=
  u <- READ_VALUE sizeof_ptrdiff_t ;; ret (to_signed sizeof_ptrdiff_t u).

(** [n] words of [size] bytes each *)
Fixpoint decode_words (size : nat) (n : nat) (bs : list byte) : list Z :=
  match n with
  | O => []
  | S n' => le_decode (take size bs) :: decode_words size n' (drop size bs)
  end.

(** A vector of [n] elements: [luaM_reallocvector] fails on a negative count. *)
Definition eris_reallocvector (n : Z) : R unit :=
  if n <? 0 then eris_error "memory allocation error: block too big" else ret tt.

Definition new_object (o : obj) : R addr :=
  h <- gets upi_L ;;
  modify (upi_set_L (h ++ [o])) ;;
  ret (length h).

Definition update_object (a : addr) (o : obj) : R unit :=
  h <- gets upi_L ;;
  modify (upi_set_L (<[a := o]> h)).

Definition the_table (a : addr) : R table :=
  h <- gets upi_L ;; lift_opt (heap_table h a).
Definition the_proto (a : addr) : R proto :=
  h <- gets upi_L ;; lift_opt (heap_proto h a).
Definition the_thread (a : addr) : R thread :=
  h <- gets upi_L ;; lift_opt (heap_thread h a).
Definition the_lcl (a : addr) : R lclosure :=
  h <- gets upi_L ;; lift_opt (heap_lcl h a).
Definition the_upval (a : addr) : R upval :=
  h <- gets upi_L ;; lift_opt (heap_upval h a).

(** [lua_rawset]: a key that is not in the table goes through
    [luaH_newkey], which rejects nil and NaN. *)
Definition lua_rawset (t : addr) (k v : value) : R unit :=
  tb <- the_table t ;;
  (if lua_isnil (luaH_get (t_pairs tb) k) then
     if lua_isnil k then eris_error "table index is nil"
     else if key_isnan k then eris_error "table index is NaN"
     else ret tt
   else ret tt) ;;
  update_object t (OTable (set_pairs tb (luaH_set (t_pairs tb) k v))).

Definition lua_rawseti (t : addr) (i : Z) (v : value) : R unit :=
  tb <- the_table t ;;
  update_object t (OTable (set_pairs tb (luaH_set (t_pairs tb) (VNum (cast_num i)) v))).

Definition lua_rawgeti (t : addr) (i : Z) : R value :=
  tb <- the_table t ;; ret (luaH_get (t_pairs tb) (VNum (cast_num i))).

(** [lua_setmetatable] of a table or userdata. *)
Definition lua_setmetatable (obj : value) (mt : addr) : R unit :=
  h <- gets upi_L ;;
  match obj with
  | VTable a =>
      t <- lift_opt (heap_table h a) ;; update_object a (OTable (set_meta t (Some mt)))
  | VUdata a =>
      u <- lift_opt (heap_udata h a) ;;
      update_object a (OUdata {| u_block := u_block u; u_meta := Some mt |})
  | _ => undefined
  end.

(** The first index from [i] on that holds nil
    ([for (i = 3;; ++i)] in [u_closure]). *)
Fixpoint first_free (ps : list (value * value)) (i : Z) (fuel : nat) : option Z :=
  match fuel with
  | O => None
  | S n =>
      if lua_isnil (luaH_get ps (VNum (cast_num i))) then Some i
      else first_free ps (i + 1) n
  end.

Definition empty_proto : proto :=
  {| p_linedefined := 0; p_lastlinedefined := 0; p_numparams := 0;
     p_is_vararg := 0; p_maxstacksize := 0; p_code := []; p_k := []; p_p := [];
     p_upvalues := []; p_source := None; p_lineinfo := []; p_locvars := [] |}.

(** [lua_newthread]: the fields the reader does not overwrite keep the
    values of [preinit_state]. *)
Definition new_thread : thread :=
  {| th_status := 0; th_nCcalls := 0; th_allowhook := 1; th_nny := 1;
     th_errorJmp := 0; th_errfunc := 0; th_stacksize := 40; th_stack := [VNil];
     th_ci := []; th_openupval := [] |}.

(** [luaF_findupval]: the open upvalue of thread [th] at [level], creating
    it in front of the first one below [level] when there is none. *)
Fixpoint find_open (h : heap) (th : addr) (level : nat) (l : list addr)
    : option addr :=
  match l with
  | [] => None
  | u :: r =>
      match heap_upval h u with
      | Some {| uv_v := UvOpen _ lv |} =>
          if bool_decide (lv = level) then Some u else find_open h th level r
      | _ => find_open h th level r
      end
  end.

Fixpoint insert_open (h : heap) (level : nat) (nu : addr) (l : list addr)
    : list addr :=
  match l with
  | [] => [nu]
  | u :: r =>
      match heap_upval h u with
      | Some {| uv_v := UvOpen _ lv |} =>
          if (level <? lv)%nat then u :: insert_open h level nu r else nu :: u :: r
      | _ => u :: insert_open h level nu r
      end
  end.

Definition set_th_stack (t : thread) (st : list value) : thread :=
  {| th_status := th_status t; th_nCcalls := th_nCcalls t;
     th_allowhook := th_allowhook t; th_nny := th_nny t;
     th_errorJmp := th_errorJmp t; th_errfunc := th_errfunc t;
     th_stacksize := th_stacksize t; th_stack := st; th_ci := th_ci t;
     th_openupval := th_openupval t |}.

Definition set_th_ci (t : thread) (cis : list callinfo) : thread :=
  {| th_status := th_status t; th_nCcalls := th_nCcalls t;
     th_allowhook := th_allowhook t; th_nny := th_nny t;
     th_errorJmp := th_errorJmp t; th_errfunc := th_errfunc t;
     th_stacksize := th_stacksize t; th_stack := th_stack t; th_ci := cis;
     th_openupval := th_openupval t |}.

Definition set_th_openupval (t : thread) (l : list addr) : thread :=
  {| th_status := th_status t; th_nCcalls := th_nCcalls t;
     th_allowhook := th_allowhook t; th_nny := th_nny t;
     th_errorJmp := th_errorJmp t; th_errfunc := th_errfunc t;
     th_stacksize := th_stacksize t; th_stack := th_stack t; th_ci := th_ci t;
     th_openupval := l |}.

Definition eris_findupval (th : addr) (level : nat) : R addr :=
  t <- the_thread th ;;
  h <- gets upi_L ;;
  match find_open h th level (th_openupval t) with
  | Some u => ret u
  | None =>
      nu <- new_object (OUpVal {| uv_v := UvOpen th level; uv_value := VNil |}) ;;
      update_object th (OThread (set_th_openupval t
                                   (insert_open h level nu (th_openupval t)))) ;;
      ret nu
  end.

(** ** The reader *)

Section Reader.
Context {host : LuaHost}.
(** The recursive call of [unpersist]; its argument is the value on top of
    the Lua stack when the call is made. *)
Variable rec_unpersist : value -> R value.

Definition u_boolean : R value :=
  b <- read_lu_byte ;; ret (VBool (negb (b =? 0))).

Definition u_pointer : R value :=
  w <- read_voidp ;; ret (VLight (PRaw w)).

Definition u_number : R value :=
  x <- read_lua_Number ;; ret (VNum x).

(** The temporary userdata that holds the bytes is not entered into the
    heap. *)
Definition u_string : R value :=
  length <- read_size_t ;;
  value <- READ_RAW length ;;
  registerobject (VStr value) ;;
  ret (VStr value).

Definition u_metatable (obj : value) : R unit :=
  mt <- rec_unpersist obj ;;
  match mt with
  | VTable m => lua_setmetatable obj m
  | VNil => ret tt
  | _ => eris_error "bad metatable, not nil or table"
  end.

(** The [for (;;)] loop of [u_literaltable]; every round consumes input,
    so the length of the input bounds the number of rounds. *)
Fixpoint u_literaltable_pairs (rounds : nat) (tbl : addr) : R unit :=
  match rounds with
  | O => out_of_fuel
  | S n =>
      key <- rec_unpersist (VTable tbl) ;;
      if lua_isnil key then ret tt
      else
        v <- rec_unpersist key ;;
        (if lua_isnil v then eris_error "bad table value, got a nil value"
         else lua_rawset tbl key v) ;;
        u_literaltable_pairs n tbl
  end.

Definition u_literaltable (top : value) : R value :=
  tbl <- new_object (OTable empty_table) ;;
  registerobject (VTable tbl) ;;
  zio <- gets upi_zio ;;
  u_literaltable_pairs (S (length zio)) tbl ;;
  u_metatable (VTable tbl) ;;
  ret (VTable tbl).

Definition u_literaluserdata (top : value) : R value :=
  size <- read_size_t ;;
  value <- READ_RAW size ;;
  ud <- new_object (OUdata {| u_block := value; u_meta := None |}) ;;
  registerobject (VUdata ud) ;;
  u_metatable (VUdata ud) ;;
  ret (VUdata ud).

Definition u_special (top : value) (type : Z) (literal : value -> R value)
    : R value :=
  special <- read_lu_byte ;;
  if special =? 0 then literal top
  else
    reference <- registerobject VNil ;;
    spfunc <- rec_unpersist top ;;
    (if lua_isfunction spfunc then ret tt
     else eris_error "invalid restore function") ;;
    obj <- (fun upi =>
              match lua_call spfunc [] (upi_L upi) with
              | Ok (r, h') => Ok (r, upi_set_L h' upi)
              | Err e => Err e
              | Undef => Undef
              | OutOfFuel => OutOfFuel
              end) ;;
    (if lua_type obj =? type then ret tt
     else eris_error ("bad unpersist function (" ++ typename type
                      ++ " expected, returned " ++ typename (lua_type obj)
                      ++ ")")) ;;
    modify (upi_set_ref reference obj) ;;
    ret obj.

Definition u_table (top : value) : R value := u_special top LUA_TTABLE u_literaltable.
Definition u_userdata (top : value) : R value :=
  u_special top LUA_TUSERDATA u_literaluserdata.

Definition update_proto (a : addr) (f : proto -> proto) : R unit :=
  p <- the_proto a ;; update_object a (OProto (f p)).

(** [copytstring] of the value just read: a string is copied; for anything
    else [lua_tolstring] does not give a block to copy. *)
Definition copytstring (v : value) : R (list byte) :=
  match v with VStr s => ret s | _ => undefined end.

Definition u_proto (top : value) : R value :=
  a <- lift_opt (match lua_touserdata top with PObj a => Some a | _ => None end) ;;
  _ <- the_proto a ;;
  registerobject top ;;
  linedefined <- read_int ;;
  lastlinedefined <- read_int ;;
  numparams <- read_lu_byte ;;
  is_vararg <- read_lu_byte ;;
  maxstacksize <- read_lu_byte ;;
  sizecode <- read_int ;;
  eris_reallocvector sizecode ;;
  code <- READ_RAW (sizecode * Z.of_nat sizeof_Instruction) ;;
  update_proto a (fun p =>
    {| p_linedefined := linedefined; p_lastlinedefined := lastlinedefined;
       p_numparams := numparams; p_is_vararg := is_vararg;
       p_maxstacksize := maxstacksize;
       p_code := decode_words sizeof_Instruction (Z.to_nat sizecode) code;
       p_k := []; p_p := p_p p; p_upvalues := p_upvalues p;
       p_source := p_source p; p_lineinfo := p_lineinfo p;
       p_locvars := p_locvars p |}) ;;
  sizek <- read_int ;;
  eris_reallocvector sizek ;;
  for_range (fun _ =>
               v <- rec_unpersist top ;;
               update_proto a (fun p =>
                 {| p_linedefined := p_linedefined p;
                    p_lastlinedefined := p_lastlinedefined p;
                    p_numparams := p_numparams p; p_is_vararg := p_is_vararg p;
                    p_maxstacksize := p_maxstacksize p; p_code := p_code p;
                    p_k := p_k p ++ [v]; p_p := p_p p;
                    p_upvalues := p_upvalues p; p_source := p_source p;
                    p_lineinfo := p_lineinfo p; p_locvars := p_locvars p |}))
            0 (Z.to_nat sizek) ;;
  sizep <- read_int ;;
  eris_reallocvector sizep ;;
  update_proto a (fun p =>
    {| p_linedefined := p_linedefined p; p_lastlinedefined := p_lastlinedefined p;
       p_numparams := p_numparams p; p_is_vararg := p_is_vararg p;
       p_maxstacksize := p_maxstacksize p; p_code := p_code p; p_k := p_k p;
       p_p := []; p_upvalues := p_upvalues p; p_source := p_source p;
       p_lineinfo := p_lineinfo p; p_locvars := p_locvars p |}) ;;
  for_range (fun _ =>
               np <- new_object (OProto empty_proto) ;;
               r <- rec_unpersist (VLight (PObj np)) ;;
               cp <- lift_opt (match lua_touserdata r with
                               | PObj c => Some c
                               | _ => None
                               end) ;;
               update_proto a (fun p =>
                 {| p_linedefined := p_linedefined p;
                    p_lastlinedefined := p_lastlinedefined p;
                    p_numparams := p_numparams p; p_is_vararg := p_is_vararg p;
                    p_maxstacksize := p_maxstacksize p; p_code := p_code p;
                    p_k := p_k p; p_p := p_p p ++ [cp];
                    p_upvalues := p_upvalues p; p_source := p_source p;
                    p_lineinfo := p_lineinfo p; p_locvars := p_locvars p |}))
            0 (Z.to_nat sizep) ;;
  sizeupvalues <- read_int ;;
  eris_reallocvector sizeupvalues ;;
  update_proto a (fun p =>
    {| p_linedefined := p_linedefined p; p_lastlinedefined := p_lastlinedefined p;
       p_numparams := p_numparams p; p_is_vararg := p_is_vararg p;
       p_maxstacksize := p_maxstacksize p; p_code := p_code p; p_k := p_k p;
       p_p := p_p p; p_upvalues := []; p_source := p_source p;
       p_lineinfo := p_lineinfo p; p_locvars := p_locvars p |}) ;;
  for_range (fun _ =>
               instack <- read_lu_byte ;;
               idx <- read_lu_byte ;;
               update_proto a (fun p =>
                 {| p_linedefined := p_linedefined p;
                    p_lastlinedefined := p_lastlinedefined p;
                    p_numparams := p_numparams p; p_is_vararg := p_is_vararg p;
                    p_maxstacksize := p_maxstacksize p; p_code := p_code p;
                    p_k := p_k p; p_p := p_p p;
                    p_upvalues := p_upvalues p ++
                      [{| ud_name := None; ud_instack := instack; ud_idx := idx |}];
                    p_source := p_source p; p_lineinfo := p_lineinfo p;
                    p_locvars := p_locvars p |}))
            0 (Z.to_nat sizeupvalues) ;;
  debug <- read_lu_byte ;;
  (** Without debug information the source returns without pushing the
      prototype, which leaves the Lua stack one value short. *)
  if debug =? 0 then undefined
  else
    src <- rec_unpersist top ;;
    source <- copytstring src ;;
    sizelineinfo <- read_int ;;
    eris_reallocvector sizelineinfo ;;
    lineinfo <- READ_RAW (sizelineinfo * Z.of_nat sizeof_int) ;;
    update_proto a (fun p =>
      {| p_linedefined := p_linedefined p; p_lastlinedefined := p_lastlinedefined p;
         p_numparams := p_numparams p; p_is_vararg := p_is_vararg p;
         p_maxstacksize := p_maxstacksize p; p_code := p_code p; p_k := p_k p;
         p_p := p_p p; p_upvalues := p_upvalues p; p_source := Some source;
         p_lineinfo := map (to_signed sizeof_int)
                           (decode_words sizeof_int (Z.to_nat sizelineinfo) lineinfo);
         p_locvars := [] |}) ;;
    sizelocvars <- read_int ;;
    eris_reallocvector sizelocvars ;;
    for_range (fun _ =>
                 startpc <- read_int ;;
                 endpc <- read_int ;;
                 nm <- rec_unpersist top ;;
                 varname <- copytstring nm ;;
                 update_proto a (fun p =>
                   {| p_linedefined := p_linedefined p;
                      p_lastlinedefined := p_lastlinedefined p;
                      p_numparams := p_numparams p; p_is_vararg := p_is_vararg p;
                      p_maxstacksize := p_maxstacksize p; p_code := p_code p;
                      p_k := p_k p; p_p := p_p p; p_upvalues := p_upvalues p;
                      p_source := p_source p; p_lineinfo := p_lineinfo p;
                      p_locvars := p_locvars p ++
                        [{| lv_varname := Some varname; lv_startpc := startpc;
                            lv_endpc := endpc |}] |}))
              0 (Z.to_nat sizelocvars) ;;
    pr <- the_proto a ;;
    for_range (fun i =>
                 nm <- rec_unpersist top ;;
                 name <- copytstring nm ;;
                 update_proto a (fun p =>
                   {| p_linedefined := p_linedefined p;
                      p_lastlinedefined := p_lastlinedefined p;
                      p_numparams := p_numparams p; p_is_vararg := p_is_vararg p;
                      p_maxstacksize := p_maxstacksize p; p_code := p_code p;
                      p_k := p_k p; p_p := p_p p;
                      p_upvalues :=
                        alter (fun d => {| ud_name := Some name;
                                           ud_instack := ud_instack d;
                                           ud_idx := ud_idx d |})
                              (Z.to_nat i) (p_upvalues p);
                      p_source := p_source p; p_lineinfo := p_lineinfo p;
                      p_locvars := p_locvars p |}))
              0 (length (p_upvalues pr)) ;;
    ret top.

Definition u_upval (top : value) : R value :=
  tbl <- new_object (OTable empty_table) ;;
  registerobject (VTable tbl) ;;
  v <- rec_unpersist (VTable tbl) ;;
  lua_rawseti tbl 1 v ;;
  ret (VTable tbl).

(** [lua_pushcclosure(f, n)] on [n] nils: without upvalues the result is
    a light C function. *)
Definition lua_pushcclosure (f : Z) (nups : Z) : R value :=
  if nups =? 0 then ret (VLCF f)
  else
    a <- new_object (OCCl {| c_f := f; c_upvals := replicate (Z.to_nat nups) VNil |}) ;;
    ret (VCCl a).

(** [lua_setupvalue] on a C closure; it does nothing when the function
    has no such upvalue. *)
Definition lua_setupvalue (func : value) (nup : Z) (v : value) : R unit :=
  match func with
  | VCCl a =>
      h <- gets upi_L ;;
      cl <- lift_opt (heap_ccl h a) ;;
      update_object a (OCCl {| c_f := c_f cl;
                               c_upvals := <[Z.to_nat (nup - 1) := v]> (c_upvals cl) |})
  | _ => ret tt
  end.

Definition set_lcl_upval (cl : addr) (k : nat) (uv : addr) : R unit :=
  c <- the_lcl cl ;;
  (if (k <? length (l_upvals c))%nat then ret tt else undefined) ;;
  update_object cl (OLCl {| l_p := l_p c;
                            l_upvals := <[k := Some uv]> (l_upvals c) |}).

(** One round of the upvalue loop of a Lua closure in [u_closure]. *)
Definition u_closure_upvalue (cl : addr) (nup : Z) : R unit :=
  r <- rec_unpersist (VLCl cl) ;;
  tbl <- lift_opt (match r with VTable t => Some t | _ => None end) ;;
  stored <- lua_rawgeti tbl 2 ;;
  uv <- (if lua_isnil stored then
           nuv <- new_object (OUpVal {| uv_v := UvClosed; uv_value := VNil |}) ;;
           set_lcl_upval cl (Z.to_nat (nup - 1)) nuv ;;
           lua_rawseti tbl 2 (VLight (PObj nuv)) ;;
           ret nuv
         else
           ouv <- lift_opt (match lua_touserdata stored with
                            | PObj u => Some u
                            | _ => None
                            end) ;;
           set_lcl_upval cl (Z.to_nat (nup - 1)) ouv ;;
           ret ouv) ;;
  (** Always update the value of the upvalue. *)
  obj <- lua_rawgeti tbl 1 ;;
  u <- the_upval uv ;;
  update_object uv (OUpVal {| uv_v := uv_v u; uv_value := obj |}) ;;
  (** Add our reference to the upvalue to the list. *)
  t <- the_table tbl ;;
  if 2 <=? luaL_len t
  then lua_rawseti tbl (luaL_len t + 1) (VLight (PSlot cl (Z.to_nat (nup - 1))))
  else
    i <- lift_opt (first_free (t_pairs t) 3 (S (length (t_pairs t)))) ;;
    lua_rawseti tbl i (VLight (PSlot cl (Z.to_nat (nup - 1)))).

Definition u_closure (top : value) : R value :=
  isCClosure <- read_lu_byte ;;
  nups <- read_lu_byte ;;
  if negb (isCClosure =? 0) then
    cf <- rec_unpersist top ;;
    h <- gets upi_L ;;
    ccl <- lua_pushcclosure (lua_tocfunction h cf) nups ;;
    registerobject ccl ;;
    for_range (fun nup =>
                 v <- rec_unpersist ccl ;;
                 lua_setupvalue ccl nup v)
              1 (Z.to_nat nups) ;;
    ret ccl
  else
    cl <- new_object (OLCl {| l_p := None;
                              l_upvals := replicate (Z.to_nat nups) None |}) ;;
    registerobject (VLCl cl) ;;
    np <- new_object (OProto empty_proto) ;;
    c <- the_lcl cl ;;
    update_object cl (OLCl {| l_p := Some np; l_upvals := l_upvals c |}) ;;
    r <- rec_unpersist (VLight (PObj np)) ;;
    p <- lift_opt (match lua_touserdata r with PObj a => Some a | _ => None end) ;;
    _ <- the_proto p ;;
    c <- the_lcl cl ;;
    update_object cl (OLCl {| l_p := Some p; l_upvals := l_upvals c |}) ;;
    for_range (u_closure_upvalue cl) 1 (Z.to_nat nups) ;;
    ret (VLCl cl).

Definition update_thread (a : addr) (f : thread -> thread) : R unit :=
  t <- the_thread a ;; update_object a (OThread (f t)).

(** The call-info loop of [u_thread]; the frame read is appended to the
    frames of the thread ([luaE_extendCI]). *)
Fixpoint u_thread_callinfos (rounds : nat) (th : addr) : R unit :=
  match rounds with
  | O => out_of_fuel
  | S n =>
      func <- read_size_t ;;
      top <- read_size_t ;;
      nresults <- read_short ;;
      callstatus <- read_lu_byte ;;
      extra <- read_ptrdiff_t ;;
      u <- (if Z.testbit callstatus 0 then
              t <- the_thread th ;;
              h <- gets upi_L ;;
              _ <- lift_opt (match stack_at (th_stack t) func with
                             | Some (VLCl c) =>
                                 match heap_lcl h c with
                                 | Some cl => l_p cl
                                 | None => None
                                 end
                             | _ => None
                             end) ;;
              base <- read_size_t ;;
              savedpc <- read_size_t ;;
              ret (CiL base savedpc)
            else
              status <- read_lu_byte ;;
              if Z.land callstatus (Z.lor CIST_YPCALL CIST_YIELDED) =? 0
              then ret (CiC status 0 0 0 0)
              else
                ctx <- read_int ;;
                k <- rec_unpersist (VThread th) ;;
                if lua_iscfunction k then
                  h <- gets upi_L ;;
                  ret (CiC status ctx (lua_tocfunction h k) 0 0)
                else eris_error "bad C continuation function") ;;
      update_thread th (fun t =>
        set_th_ci t (th_ci t ++
          [{| ci_func := func; ci_top := top; ci_nresults := nresults;
              ci_callstatus := callstatus; ci_extra := extra; ci_union := u |}])) ;;
      last <- read_lu_byte ;;
      if last =? 0 then u_thread_callinfos n th else ret tt
  end.

(** Patching of the closures that were bound to the closed upvalue: the
    slots [3 .. n] of the upvalue's table hold their [UpVal**]. *)
Definition u_thread_patch (tbl : addr) (nuv : addr) (i : Z) : R unit :=
  bp <- lua_rawgeti tbl i ;;
  match lua_touserdata bp with
  | PSlot cl k => set_lcl_upval cl k nuv
  | _ => undefined
  end.

Fixpoint u_thread_openupvals (rounds : nat) (th : addr) : R unit :=
  match rounds with
  | O => out_of_fuel
  | S n =>
      offset <- read_size_t ;;
      if offset =? SIZE_MOD - 1 then ret tt
      else
        r <- rec_unpersist (VThread th) ;;
        tbl <- lift_opt (match r with VTable t => Some t | _ => None end) ;;
        (if offset mod sizeof_TValue =? 0 then ret tt else undefined) ;;
        nuv <- eris_findupval th (Z.to_nat (offset / sizeof_TValue)) ;;
        stored <- lua_rawgeti tbl 2 ;;
        (if lua_isnil stored then ret tt
         else
           t <- the_table tbl ;;
           for_range (u_thread_patch tbl nuv) 3 (Z.to_nat (luaL_len t - 2))) ;;
        lua_rawseti tbl 2 (VLight (PObj nuv)) ;;
        u_thread_openupvals n th
  end.

Definition u_thread (top : value) : R value :=
  th <- new_object (OThread new_thread) ;;
  registerobject (VThread th) ;;
  status <- read_lu_byte ;;
  nCcalls <- read_ushort ;;
  allowhook <- read_lu_byte ;;
  stacksize <- read_int ;;
  eris_reallocvector stacksize ;;
  n <- read_size_t ;;
  (if n <=? stacksize then ret tt else undefined) ;;
  update_thread th (fun t =>
    {| th_status := status; th_nCcalls := nCcalls; th_allowhook := allowhook;
       th_nny := th_nny t; th_errorJmp := th_errorJmp t;
       th_errfunc := th_errfunc t; th_stacksize := stacksize;
       th_stack := replicate (Z.to_nat n) VNil; th_ci := [];
       th_openupval := th_openupval t |}) ;;
  for_range (fun o =>
               v <- rec_unpersist (VThread th) ;;
               update_thread th (fun t =>
                 set_th_stack t (<[Z.to_nat o := v]> (th_stack t))))
            0 (Z.to_nat n) ;;
  zio <- gets upi_zio ;;
  u_thread_callinfos (S (length zio)) th ;;
  zio' <- gets upi_zio ;;
  u_thread_openupvals (S (length zio')) th ;;
  ret (VThread th).

Definition u_permanent (top : value) : R value :=
  type <- read_int ;;
  reference <- registerobject top ;;
  permkey <- rec_unpersist top ;;
  h <- gets upi_L ;;
  perms <- gets upi_perms ;;
  let obj := lua_gettable h perms permkey in
  (if lua_isnil obj then eris_error "bad permanent value (no value)"
   else if negb (lua_type obj =? type)
   then eris_error ("bad permanent value (" ++ typename type ++ " expected, got "
                    ++ typename (lua_type obj) ++ ")")
   else ret tt) ;;
  modify (upi_set_ref reference obj) ;;
  ret obj.

Definition unpersist_body (top : value) : R value :=
  typeOrReference <- read_int ;;
  if ERIS_REFERENCE_OFFSET <? typeOrReference then
    let reference := typeOrReference - ERIS_REFERENCE_OFFSET in
    rt <- gets upi_reftbl ;;
    let obj := reftbl_rawgeti rt reference in
    if lua_isnil obj
    then eris_error ("invalid reference #" ++ string_of_Z reference)
    else ret obj
  else
    let type := typeOrReference in
    if type =? LUA_TNIL then ret VNil
    else if type =? LUA_TBOOLEAN then u_boolean
    else if type =? LUA_TLIGHTUSERDATA then u_pointer
    else if type =? LUA_TNUMBER then u_number
    else if type =? LUA_TSTRING then u_string
    else if type =? LUA_TTABLE then u_table top
    else if type =? LUA_TFUNCTION then u_closure top
    else if type =? LUA_TUSERDATA then u_userdata top
    else if type =? LUA_TTHREAD then u_thread top
    else if type =? LUA_TPROTO then u_proto top
    else if type =? LUA_TUPVAL then u_upval top
    else if type =? ERIS_PERMANENT then u_permanent top
    else eris_error ("trying to unpersist unknown type " ++ string_of_Z type).
End Reader.

(** Each call of [unpersist] takes one unit of fuel. *)
Fixpoint unpersist {host : LuaHost} (fuel : nat) (top : value) : R value :=
  match fuel with
  | O => out_of_fuel
  | S n => unpersist_body (unpersist n) top
  end.

(** ** Library functions *)

(** [unchecked_persist]: the stack holds [perms] and [rootobj]; the result is
    the writer's buffer and the heap.  The reference table is created empty
    and [refcount] starts at 0. *)
Definition unchecked_persist {host : LuaHost} (fuel : nat) (h : heap)
    (running perms : addr) (rootobj : value) (ud : Mbuffer) : res (Mbuffer * heap) :=
  let pi := {| pi_L := populateperms false perms h; pi_running := running;
               pi_perms := perms; pi_reftbl := []; pi_refcount := 0; pi_ud := ud |} in
  match persist fuel rootobj pi with
  | Ok (_, pi') => Ok (pi_ud pi', pi_L pi')
  | Err e => Err e
  | Undef => Undef
  | OutOfFuel => OutOfFuel
  end.

(** [unchecked_unpersist]: the stack holds [perms] and, above the reference
    table, what the caller left there; [top] is the topmost of these. *)
Definition unchecked_unpersist {host : LuaHost} (fuel : nat) (h : heap)
    (perms : addr) (top : value) (zio : list byte) : res (value * heap) :=
  let upi := {| upi_L := populateperms true perms h; upi_perms := perms;
                upi_reftbl := []; upi_refcount := 0; upi_zio := zio |} in
  match unpersist fuel top upi with
  | Ok (rootobj, upi') => Ok (rootobj, upi_L upi')
  | Err e => Err e
  | Undef => Undef
  | OutOfFuel => OutOfFuel
  end.

Definition luaL_typename (v : value) : string := typename (lua_type v).

(** [luaL_checktype(L, 1, LUA_TTABLE)]; the message follows lauxlib.c. *)
Definition check_perms {A : Type} (fname : string) (args : list value)
    (k : addr -> res A) : res A :=
  match args with
  | VTable perms :: _ => k perms
  | v :: _ => Err ("bad argument #1 to '" ++ fname ++ "' (table expected, got "
                   ++ luaL_typename v ++ ")")
  | [] => Err ("bad argument #1 to '" ++ fname ++ "' (table expected, got no value)")
  end.

(** [l_persist] on the arguments [args] of the Lua call. *)
Definition l_persist {host : LuaHost} (fuel : nat) (h : heap) (running : addr)
    (args : list value) : res (value * heap) :=
  let run (h1 : heap) (perms : addr) (rootobj : value) :=
    match unchecked_persist fuel h1 running perms rootobj
            {| buffer := []; buffsize := 0 |} with
    | Ok (buff, h2) => Ok (VStr (buffer buff), h2)
    | Err e => Err e
    | Undef => Undef
    | OutOfFuel => OutOfFuel
    end in
  match args with
  | [rootobj] => run (h ++ [OTable empty_table]) (length h) rootobj
  | _ =>
      check_perms "persist" args (fun perms =>
        match args with
        | _ :: rootobj :: _ => run h perms rootobj
        | _ => Err "bad argument #2 to 'persist' (value expected)"%string
        end)
  end.

(** [luaL_checklstring(L, 2, ...)]; a number, which [lua_tolstring] would
    format, is not covered. *)
Definition check_string {A : Type} (fname : string) (arg : option value)
    (k : list byte -> res A) : res A :=
  match arg with
  | Some (VStr s) => k s
  | Some (VNum _) => Undef
  | Some v => Err ("bad argument #2 to '" ++ fname ++ "' (string expected, got "
                   ++ luaL_typename v ++ ")")
  | None => Err ("bad argument #2 to '" ++ fname ++ "' (string expected, got no value)")
  end.

Definition l_unpersist {host : LuaHost} (fuel : nat) (h : heap)
    (args : list value) : res (value * heap) :=
  match args with
  | [str] =>
      check_string "unpersist" (Some str) (fun s =>
        unchecked_unpersist fuel (h ++ [OTable empty_table]) (length h) (VStr s) s)
  | _ =>
      check_perms "unpersist" args (fun perms =>
        check_string "unpersist" (args !! 1%nat) (fun s =>
          unchecked_unpersist fuel h perms (VStr s) s))
  end.

(** ** A host without callable functions *)

(** The least border of a table. *)
Definition least_border (t : table) : Z :=
  match first_free (t_pairs t) 1 (S (length (t_pairs t))) with
  | Some i => i - 1
  | None => 0
  end.

Definition plain_host : LuaHost :=
  {| lua_call := fun _ _ _ => Err "attempt to call a value"%string;
     luaL_len := least_border;
     populateperms := fun _ _ h => h |}.

(** * Vocabulary of the properties *)

(** The kinds [persist] writes inline. *)
Definition is_simple (v : value) : bool :=
  match v with
  | VNil | VBool _ | VLight _ | VNum _ => true
  | _ => false
  end.

(** The framing word and body of a simple value. *)
Definition inline_bytes (v : value) : list byte :=
  le_encode sizeof_int (lua_type v) ++
  match v with
  | VBool b => le_encode sizeof_lu_byte (Z_of_bool b)
  | VLight p => le_encode sizeof_voidp (pointer_word p)
  | VNum x => le_encode sizeof_lua_Number x
  | _ => []
  end.

(** The bytes written so far. *)
Definition pi_out (pi : PersistInfo) : list byte := buffer (pi_ud pi).

(** A run of a computation keeps the relation [Q] between the state before
    and the state after. *)
Definition preserves {S A : Type} (Q : S -> S -> Prop) (m : M S A) : Prop :=
  forall s a s', m s = Ok (a, s') -> Q s s'.

(** Well-formed writer reference table: ids are in [1 .. refcount] and no id
    is shared by two keys. *)
Definition pi_wf (pi : PersistInfo) : Prop :=
  0 <= pi_refcount pi /\
  (forall k i, reftbl_get (pi_reftbl pi) k = Some i -> 1 <= i <= pi_refcount pi) /\
  (forall k1 k2 i,
      reftbl_get (pi_reftbl pi) k1 = Some i ->
      reftbl_get (pi_reftbl pi) k2 = Some i ->
      luaV_rawequalobj k1 k2 = true).

(** How the writer state evolves: output is appended, ids are only added,
    and every new id is paid for by at least four bytes of output. *)
Definition pi_ext (pi pi' : PersistInfo) : Prop :=
  pi_perms pi' = pi_perms pi /\
  pi_running pi' = pi_running pi /\
  pi_refcount pi <= pi_refcount pi' /\
  (exists bs, pi_out pi' = pi_out pi ++ bs /\
              4 * (pi_refcount pi' - pi_refcount pi) <= Z.of_nat (length bs)) /\
  (forall k i, reftbl_get (pi_reftbl pi) k = Some i ->
               reftbl_get (pi_reftbl pi') k = Some i) /\
  (forall k i, reftbl_get (pi_reftbl pi') k = Some i ->
               reftbl_get (pi_reftbl pi) k = Some i \/ pi_refcount pi < i).

Definition pi_step (pi pi' : PersistInfo) : Prop :=
  pi_ext pi pi' /\ (pi_wf pi -> pi_wf pi').

(** How the reader state evolves: input is consumed from the front, and the
    slots of the ids issued so far keep their objects. *)
Definition upi_ext (upi upi' : UnpersistInfo) : Prop :=
  upi_perms upi' = upi_perms upi /\
  upi_refcount upi <= upi_refcount upi' /\
  (exists bs, upi_zio upi = bs ++ upi_zio upi') /\
  (forall i, i <= upi_refcount upi ->
             reftbl_rawgeti (upi_reftbl upi') i = reftbl_rawgeti (upi_reftbl upi) i).

Definition persist_pair {host : LuaHost} (n : nat) (kv : value * value) : W unit :=
  persist n (fst kv) ;; persist n (snd kv).

Definition set_th_err (t : thread) (errorJmp errfunc : Z) : thread :=
  {| th_status := th_status t; th_nCcalls := th_nCcalls t;
     th_allowhook := th_allowhook t; th_nny := th_nny t;
     th_errorJmp := errorJmp; th_errfunc := errfunc;
     th_stacksize := th_stacksize t; th_stack := th_stack t; th_ci := th_ci t;
     th_openupval := th_openupval t |}.

Definition hook_yielded (ci : callinfo) : Prop :=
  Z.land (ci_callstatus ci) CIST_HOOKYIELD <> 0.

(** The framing word of the root value. *)
Definition root_framing_word {host : LuaHost} (h : heap) (perms : addr)
    (rootobj : value) : Z :=
  if is_simple rootobj then lua_type rootobj
  else if lua_isnil (lua_gettable (populateperms false perms h) perms rootobj)
       then lua_type rootobj
       else ERIS_PERMANENT.

Definition empty_Mbuffer : Mbuffer := {| buffer := []; buffsize := 0 |}.

(** The simple values whose payload fits its word. *)
Definition simple_wf (v : value) : Prop :=
  match v with
  | VNil | VBool _ => True
  | VLight (PRaw w) => 0 <= w < 2 ^ 64
  | VNum x => 0 <= x < 2 ^ 64
  | _ => False
  end.

Definition bytes_of (s : string) : list byte := list_byte_of_string s.

Definition start_pi (h : heap) (running perms : addr) : PersistInfo :=
  {| pi_L := h; pi_running := running; pi_perms := perms; pi_reftbl := [];
     pi_refcount := 0; pi_ud := empty_Mbuffer |}.

Definition start_upi (h : heap) (perms : addr) (zio : list byte) : UnpersistInfo :=
  {| upi_L := h; upi_perms := perms; upi_reftbl := []; upi_refcount := 0;
     upi_zio := zio |}.

Definition run_W {A : Type} (r : res (A * PersistInfo)) (d : PersistInfo) : PersistInfo :=
  match r with Ok (_, pi) => pi | _ => d end.

Definition run_R {A : Type} (r : res (A * UnpersistInfo)) (d : UnpersistInfo)
    : UnpersistInfo :=
  match r with Ok (_, upi) => upi | _ => d end.

(** [persist({}, "hello")] *)
Definition hello_heap : heap := [OTable empty_table].
Definition hello_pi : PersistInfo := start_pi hello_heap 1%nat 0%nat.
Definition hello_pi' : PersistInfo :=
  Eval vm_compute in
    run_W (persist (host := plain_host) 3 (VStr (bytes_of "hello")) hello_pi) hello_pi.

Definition hello_bytes : list byte :=
  Eval vm_compute in pi_out hello_pi'.

(** The perms table [{[f] = "K"}] for the light C function [f = 7], and
    reader perms tables [{K = f2}] and [{K = 42}]. *)
Definition perm_heap : heap :=
  [OTable {| t_pairs := [(VLCF 7, VStr (bytes_of "K"))]; t_meta := None |}].
Definition perm_pi : PersistInfo := start_pi perm_heap 1%nat 0%nat.
Definition perm_bytes : list byte :=
  Eval vm_compute in
    pi_out (run_W (persist (host := plain_host) 4 (VLCF 7) perm_pi) perm_pi).
Definition unperm_heap (v : value) : heap :=
  [OTable {| t_pairs := [(VStr (bytes_of "K"), v)]; t_meta := None |}].

Definition perm_key_bytes : list byte := drop 8 perm_bytes.
Definition perm_upi : UnpersistInfo :=
  start_upi (unperm_heap (VNum (cast_num 42))) 0%nat perm_bytes.
Definition perm_upi3 : UnpersistInfo :=
  Eval vm_compute in
    run_R (unpersist (host := plain_host) 1 VNil
             (upi_set_ref 1 VNil (upi_incr_refcount (upi_set_zio perm_key_bytes perm_upi))))
          perm_upi.

(** Boundary scenario 2: [t = {1, 2, 3}; t.me = t]. *)
Definition cyclic_table (self : addr) : table :=
  {| t_pairs := [ (VNum (cast_num 1), VNum (cast_num 1));
                  (VNum (cast_num 2), VNum (cast_num 2));
                  (VNum (cast_num 3), VNum (cast_num 3));
                  (VStr (bytes_of "me"), VTable self) ];
     t_meta := None |}.

Definition cyclic_heap : heap := [OTable empty_table; OTable (cyclic_table 1%nat)].

Definition cyclic_bytes : list byte :=
  Eval vm_compute in
    pi_out (run_W (persist (host := plain_host) 4 (VTable 1%nat)
                     (start_pi cyclic_heap 9%nat 0%nat))
                  (start_pi cyclic_heap 9%nat 0%nat)).

Definition cyclic_pi : PersistInfo :=
  pi_bind_ref (VTable 1%nat) (start_pi cyclic_heap 9%nat 0%nat).
Definition cyclic_pi' : PersistInfo :=
  Eval vm_compute in
    run_W (p_literaltable (persist (host := plain_host) 2) (VTable 1%nat) cyclic_pi)
          cyclic_pi.

(** A host with a [__persist] callback (the C function 1), which returns
    the C function 2; that one builds a new empty table. *)
Definition special_host : LuaHost :=
  {| lua_call := fun f args h =>
       match f with
       | VLCF 1 => Ok (VLCF 2, h)
       | VLCF 2 => Ok (VTable (length h), h ++ [OTable empty_table])
       | _ => Err "attempt to call a value"%string
       end;
     luaL_len := least_border;
     populateperms := fun _ _ h => h |}.

(** [v = {x = 2}] with the metatable [{__persist = 1}]; the perms table maps
    the C function 2 to ["R"]. *)
Definition special_heap : heap :=
  [ OTable {| t_pairs := [(VLCF 2, VStr (bytes_of "R"))]; t_meta := None |};
    OTable {| t_pairs := [(VStr persistKey, VLCF 1)]; t_meta := None |};
    OTable {| t_pairs := [(VStr (bytes_of "x"), VNum (cast_num 2))];
              t_meta := Some 1%nat |} ].

Definition special_pi : PersistInfo := start_pi special_heap 9%nat 0%nat.

(** A suspended coroutine with a non-null error-jump buffer and a non-zero
    error-function index, persisted from another thread. *)
Definition jmp_thread : thread :=
  {| th_status := 1; th_nCcalls := 0; th_allowhook := 1; th_nny := 0;
     th_errorJmp := 4096; th_errfunc := 16; th_stacksize := 40;
     th_stack := [VNil; VNum (cast_num 5)];
     th_ci := [ {| ci_func := 0; ci_top := 336; ci_nresults := 0;
                   ci_callstatus := 0; ci_extra := 0;
                   ci_union := CiC 0 0 0 0 0 |} ];
     th_openupval := [] |}.

Definition jmp_heap : heap := [OTable empty_table; OThread jmp_thread].

Definition jmp_bytes : list byte :=
  Eval vm_compute in
    pi_out (run_W (persist (host := plain_host) 4 (VThread 1%nat)
                     (start_pi jmp_heap 9%nat 0%nat))
                  (start_pi jmp_heap 9%nat 0%nat)).


(** The upvalue a Lua closure holds in slot [k]. *)
Definition closure_upval (h : heap) (f : value) (k : nat) : option addr :=
  match f with
  | VLCl a => match heap_lcl h a with Some c => mjoin (l_upvals c !! k) | None => None end
  | _ => None
  end.

(** Slot [i] of the record table of an upvalue. *)
Definition record_slot (h : heap) (tbl : addr) (i : Z) : value :=
  lua_rawget h tbl (VNum (cast_num i)).

(** Boundary scenario: [local x = 5; f = function() return x end;
    g = function(v) x = v end], persisted as [{f, g}]. *)
Definition getter_proto : proto :=
  {| p_linedefined := 1; p_lastlinedefined := 1; p_numparams := 0;
     p_is_vararg := 0; p_maxstacksize := 2; p_code := [5; 31]; p_k := [];
     p_p := [];
     p_upvalues := [ {| ud_name := Some (bytes_of "x"); ud_instack := 1; ud_idx := 0 |} ];
     p_source := Some (bytes_of "=t"); p_lineinfo := [1; 1]; p_locvars := [] |}.

Definition setter_proto : proto :=
  {| p_linedefined := 2; p_lastlinedefined := 2; p_numparams := 1;
     p_is_vararg := 0; p_maxstacksize := 2; p_code := [9; 31]; p_k := [];
     p_p := [];
     p_upvalues := [ {| ud_name := Some (bytes_of "x"); ud_instack := 1; ud_idx := 0 |} ];
     p_source := Some (bytes_of "=t"); p_lineinfo := [2; 2];
     p_locvars := [ {| lv_varname := Some (bytes_of "v"); lv_startpc := 0; lv_endpc := 2 |} ] |}.

Definition shared_heap (x : value) (root : list (value * value)) : heap :=
  [ OTable empty_table;
    OProto getter_proto;
    OProto setter_proto;
    OUpVal {| uv_v := UvClosed; uv_value := x |};
    OLCl {| l_p := Some 1%nat; l_upvals := [Some 3%nat] |};
    OLCl {| l_p := Some 2%nat; l_upvals := [Some 3%nat] |};
    OTable {| t_pairs := root; t_meta := None |} ].

Definition fg_heap : heap :=
  shared_heap (VNum (cast_num 5))
    [ (VNum (cast_num 1), VLCl 4%nat); (VNum (cast_num 2), VLCl 5%nat) ].

Definition fg_pi' : PersistInfo :=
  Eval vm_compute in
    run_W (persist (host := plain_host) 8 (VTable 6%nat) (start_pi fg_heap 9%nat 0%nat))
          (start_pi fg_heap 9%nat 0%nat).

Definition fg_upi' : UnpersistInfo :=
  Eval vm_compute in
    run_R (unpersist (host := plain_host) 8 VNil
             (start_upi [OTable empty_table] 0%nat (pi_out fg_pi')))
          (start_upi [] 0%nat []).

(** A cycle through the upvalue: [local x; g = function(v) x = v end;
    f = function() return x end; x = {g}], persisted as [f]. *)
Definition loop_heap : heap :=
  shared_heap (VTable 6%nat) [ (VNum (cast_num 1), VLCl 5%nat) ].

Definition loop_pi' : PersistInfo :=
  Eval vm_compute in
    run_W (persist (host := plain_host) 12 (VLCl 4%nat) (start_pi loop_heap 9%nat 0%nat))
          (start_pi loop_heap 9%nat 0%nat).

Definition loop_upi' : UnpersistInfo :=
  Eval vm_compute in
    run_R (unpersist (host := plain_host) 12 VNil
             (start_upi [OTable empty_table] 0%nat (pi_out loop_pi')))
          (start_upi [] 0%nat []).

(** What one round of the upvalue loop of [u_closure] does to the heap:
    from the heap [h1] in which the record [tbl] was obtained to the heap
    [h'] after the round, for slot [k] of the closure [cl]. *)
Definition binds_upvalue (h1 h' : heap) (cl : addr) (k : nat) (tbl uv : addr) : Prop :=
  (if lua_isnil (record_slot h1 tbl 2) then uv = length h1
   else lua_touserdata (record_slot h1 tbl 2) = PObj uv) /\
  closure_upval h' (VLCl cl) k = Some uv /\
  lua_touserdata (record_slot h' tbl 2) = PObj uv /\
  record_slot h' tbl 1 = record_slot h1 tbl 1 /\
  (exists u, heap_upval h' uv = Some u /\ uv_value u = record_slot h1 tbl 1) /\
  (forall f j, (f, j) <> (cl, k) ->
               closure_upval h' (VLCl f) j = closure_upval h1 (VLCl f) j).

(** The reader at the second closure of a shared upvalue: [f] (the C
    function is hidden behind address 1) is bound to the upvalue 3, which
    still holds a temporary nil; the record 2 of the upvalue has id 2 and
    holds the value 5; the closure 4 is being read. *)
Definition rebind_upi : UnpersistInfo :=
  {| upi_L := [ OTable empty_table;
                OLCl {| l_p := None; l_upvals := [Some 3%nat] |};
                OTable {| t_pairs := [ (VNum (cast_num 2), VLight (PObj 3%nat));
                                       (VNum (cast_num 3), VLight (PSlot 1%nat 0%nat));
                                       (VNum (cast_num 1), VNum (cast_num 5)) ];
                          t_meta := None |};
                OUpVal {| uv_v := UvClosed; uv_value := VNil |};
                OLCl {| l_p := None; l_upvals := [None] |} ];
     upi_perms := 0%nat;
     upi_reftbl := [(3, VLCl 4%nat); (2, VTable 2%nat); (1, VLCl 1%nat)];
     upi_refcount := 3;
     upi_zio := le_encode sizeof_int (2 + ERIS_REFERENCE_OFFSET) |}.

Definition rebind_upi' : UnpersistInfo :=
  Eval vm_compute in
    run_R (u_closure_upvalue (host := plain_host) (unpersist (host := plain_host) 1)
             4%nat 1 rebind_upi) rebind_upi.

(** The writer at the second closure of a shared upvalue: the address of
    the upvalue 3 has the id 2. *)
Definition rebind_pi : PersistInfo :=
  {| pi_L := fg_heap; pi_running := 9%nat; pi_perms := 0%nat;
     pi_reftbl := [(VLight (PObj 3%nat), 2); (VLCl 4%nat, 1)];
     pi_refcount := 2;
     pi_ud := {| buffer := []; buffsize := 64 |} |}.

(** ** The literal fragment *)

(** The values the round-trip theorem covers, for a writer heap [hw] with
    perms table [P], a reader heap [hr0] with perms table [Q], and a region
    [G] of tables that are persisted literally. *)
Section Fragment.
Variables (hw : heap) (P : addr) (hr0 : heap) (Q : addr) (G : list addr).

Definition permkey_of (v : value) : value := lua_gettable hw P v.

(** A simple value whose payload fits its word. *)
Definition simple_ok (v : value) : bool :=
  match v with
  | VNil | VBool _ => true
  | VLight (PRaw w) => (0 <=? w) && (w <? 2 ^ 64)
  | VNum x => (0 <=? x) && (x <? 2 ^ 64)
  | _ => false
  end.

(** A permanent key: a boolean, a light pointer, a number, or a string that
    is not itself replaced through the perms table. *)
Definition key_ok (k : value) : bool :=
  match k with
  | VNil => false
  | VStr _ => lua_isnil (permkey_of k)
  | _ => simple_ok k
  end.

(** A permanent object: the reader's perms table maps its key back to it,
    and a permanent table is an object of the reader's heap. *)
Definition permanent_ok (v : value) : bool :=
  key_ok (permkey_of v) &&
  bool_decide (lua_gettable hr0 Q (permkey_of v) = v) &&
  match v with VTable b => (b <? length hr0)%nat | _ => true end.

Definition value_ok (v : value) : bool :=
  if is_simple v then simple_ok v
  else if lua_isnil (permkey_of v) then
    match v with
    | VStr _ => true
    | VTable a => bool_decide (a ∈ G)
    | _ => false
    end
  else permanent_ok v.

(** No key is raw-equal to a later one. *)
Fixpoint keys_distinct (ps : list (value * value)) : bool :=
  match ps with
  | [] => true
  | kv :: r =>
      forallb (fun kv' => negb (luaV_rawequalobj (fst kv) (fst kv'))) r && keys_distinct r
  end.

Definition pair_ok (kv : value * value) : bool :=
  value_ok (fst kv) && value_ok (snd kv) &&
  negb (lua_isnil (fst kv)) && negb (key_isnan (fst kv)) && negb (lua_isnil (snd kv)).

(** The metatable is in the fragment, and its [__persist] field asks for
    literal persistence. *)
Definition meta_ok (m : option addr) : bool :=
  match m with
  | None => true
  | Some mt =>
      value_ok (VTable mt) &&
      match lua_rawget hw mt (VStr persistKey) with
      | VNil | VBool true => true
      | _ => false
      end
  end.

Definition table_ok (a : addr) : bool :=
  match heap_table hw a with
  | Some t => forallb pair_ok (t_pairs t) && keys_distinct (t_pairs t) && meta_ok (t_meta t)
  | None => false
  end.

Definition region_ok : bool := forallb table_ok G.

(** A table of the region that is persisted literally. *)
Definition literal (v : value) : bool :=
  match v with
  | VTable _ => lua_isnil (permkey_of v)
  | _ => false
  end.
End Fragment.

(** ** Structural equality *)

Definition pair_rel (R : value -> value -> Prop) (p p' : value * value) : Prop :=
  R (fst p) (fst p') /\ R (snd p) (snd p').

Definition meta_rel (R : value -> value -> Prop) (m m' : option addr) : Prop :=
  match m, m' with
  | None, None => True
  | Some a, Some a' => R (VTable a) (VTable a')
  | _, _ => False
  end.

(** [R] relates the table [a] of the heap [hw] to the table [a'] of [hr]:
    same pairs in the same order and same metatable, up to [R]. *)
Definition table_rel (R : value -> value -> Prop) (hw hr : heap) (a a' : addr) : Prop :=
  exists t t',
    heap_table hw a = Some t /\ heap_table hr a' = Some t' /\
    Forall2 (pair_rel R) (t_pairs t) (t_pairs t') /\
    meta_rel R (t_meta t) (t_meta t').

(** [R] is a structural equality between values of the writer's heap and
    values of the reader's heap: everything but a literally persisted table
    is related to itself only; a literally persisted table is related to
    one table, of equal structure; and related values determine each
    other. *)
Record structural_equality (hw : heap) (P : addr) (hr : heap)
    (R : value -> value -> Prop) : Prop := {
  se_leaf : forall v v', R v v' -> literal hw P v = false -> v' = v;
  se_table : forall v v', R v v' -> literal hw P v = true ->
             exists a a', v = VTable a /\ v' = VTable a' /\ table_rel R hw hr a a';
  se_functional : forall v v1 v2, R v v1 -> R v v2 -> v1 = v2;
  se_injective : forall v1 v2 v', R v1 v' -> R v2 v' -> v1 = v2
}.

(** ** The simulation between writer and reader *)

(** The value the reader holds for a value of the writer: a simple value
    is held as itself, any other value in the slot of its id. *)
Definition val_rel (sw : PersistInfo) (sr : UnpersistInfo) (v v' : value) : Prop :=
  if is_simple v then v' = v
  else exists i, reftbl_get (pi_reftbl sw) v = Some i /\
                 reftbl_rawgeti (upi_reftbl sr) i = v'.

Section Simulation.
Variables (hw : heap) (P : addr) (hr0 : heap) (Q : addr) (G : list addr).

(** What the slot of a writer value [w] holds.  The tables of [pend] are
    being read and may be incomplete. *)
Definition slot_ok (pend : list addr) (sw : PersistInfo) (sr : UnpersistInfo)
    (w x' : value) : Prop :=
  is_simple w = false /\ value_ok hw P hr0 Q G w = true /\
  if literal hw P w then
    exists a a', w = VTable a /\ x' = VTable a' /\
      (length hr0 <= a')%nat /\ (a' < length (upi_L sr))%nat /\
      (a ∉ pend -> table_rel (val_rel sw sr) hw (upi_L sr) a a')
  else x' = w.

Record Inv (pend : list addr) (sw : PersistInfo) (sr : UnpersistInfo) : Prop := {
  inv_L : pi_L sw = hw;
  inv_P : pi_perms sw = P;
  inv_Q : upi_perms sr = Q;
  inv_rc : upi_refcount sr = pi_refcount sw;
  inv_wf : pi_wf sw;
  inv_len : 4 * pi_refcount sw <= Z.of_nat (length (pi_out sw));
  inv_bound : Z.of_nat (length (pi_out sw)) + Z.of_nat (length (upi_zio sr)) < 2 ^ 31;
  inv_heap : exists e, upi_L sr = hr0 ++ e;
  inv_slot : forall w i, reftbl_get (pi_reftbl sw) w = Some i ->
                         slot_ok pend sw sr w (reftbl_rawgeti (upi_reftbl sr) i);
  inv_inj : forall w1 w2 i1 i2,
      reftbl_get (pi_reftbl sw) w1 = Some i1 ->
      reftbl_get (pi_reftbl sw) w2 = Some i2 ->
      literal hw P w1 = true -> literal hw P w2 = true ->
      reftbl_rawgeti (upi_reftbl sr) i1 = reftbl_rawgeti (upi_reftbl sr) i2 ->
      i1 = i2
}.

(** The reader follows a run of the writer: it reads what the run wrote,
    from a state in which every id of the writer has its object. *)
Definition follows {host : LuaHost} (n : nat) (run : W unit) (v : value) : Prop :=
  forall pend sw sw' sr top m bs rest,
    run sw = Ok (tt, sw') ->
    Inv pend sw sr ->
    pi_out sw' = pi_out sw ++ bs ->
    upi_zio sr = bs ++ rest ->
    (n <= m)%nat ->
    exists v' sr',
      unpersist m top sr = Ok (v', sr') /\
      upi_zio sr' = rest /\
      Inv pend sw' sr' /\
      val_rel sw' sr' v v' /\
      exists e, upi_L sr' = upi_L sr ++ e.
End Simulation.

(** A table with a cycle, a metatable, a nested table that is also a key,
    and a permanent C function: [t = {10, me = t, f = print, name = "me",
    sub = s, [s] = true}], [s = {up = t}], [setmetatable(t, {__index = t})],
    with the perms table [{[print] = "print"}]. *)
Definition rt_heap : heap :=
  [ OTable {| t_pairs := [(VLCF 7, VStr (bytes_of "print"))]; t_meta := None |};
    OTable {| t_pairs := [ (VNum (cast_num 1), VNum (cast_num 10));
                           (VStr (bytes_of "me"), VTable 1%nat);
                           (VStr (bytes_of "f"), VLCF 7);
                           (VStr (bytes_of "name"), VStr (bytes_of "me"));
                           (VStr (bytes_of "sub"), VTable 3%nat);
                           (VTable 3%nat, VBool true) ];
              t_meta := Some 2%nat |};
    OTable {| t_pairs := [(VStr (bytes_of "__index"), VTable 1%nat)]; t_meta := None |};
    OTable {| t_pairs := [(VStr (bytes_of "up"), VTable 1%nat)]; t_meta := None |} ].

(** The heap of the reader, with the perms table [{print = print}]. *)
Definition rt_rheap : heap :=
  [ OTable {| t_pairs := [(VStr (bytes_of "print"), VLCF 7)]; t_meta := None |} ].

Definition rt_buff : Mbuffer :=
  Eval vm_compute in
    match unchecked_persist (host := plain_host) 10 rt_heap 9%nat 0%nat (VTable 1%nat)
            empty_Mbuffer with
    | Ok (b, _) => b
    | _ => empty_Mbuffer
    end.

(** A permanent object whose permanent key is a table: the perms table
    [{[print] = k}] with [k = {}], and its inverse [{[k] = print}]. *)
Definition tk_heap : heap :=
  [ OTable {| t_pairs := [(VLCF 7, VTable 1%nat)]; t_meta := None |};
    OTable empty_table ].

Definition tk_rheap : heap :=
  [ OTable {| t_pairs := [(VTable 1%nat, VLCF 7)]; t_meta := None |};
    OTable empty_table ].

Definition tk_buff : Mbuffer :=
  Eval vm_compute in
    match unchecked_persist (host := plain_host) 6 tk_heap 9%nat 0%nat (VLCF 7)
            empty_Mbuffer with
    | Ok (b, _) => b
    | _ => empty_Mbuffer
    end.
(** ** Reading consumes input *)

(** The number of input bytes that are left. *)
Definition zlen (s : UnpersistInfo) : nat := length (upi_zio s).

(** The run of [m] from [s] does not run out of rounds and leaves no more
    input than it found. *)
Definition lands {A : Type} (m : R A) (s : UnpersistInfo) : Prop :=
  m s <> OutOfFuel /\ forall a s', m s = Ok (a, s') -> (zlen s' <= zlen s)%nat.

(** The same, and a successful run consumes at least one byte. *)
Definition consumes {A : Type} (m : R A) (s : UnpersistInfo) : Prop :=
  m s <> OutOfFuel /\ forall a s', m s = Ok (a, s') -> (zlen s' < zlen s)%nat.

(** [m] lands whenever it is started with at most [L] bytes of input. *)
Definition tame {A : Type} (L : nat) (m : R A) : Prop :=
  forall s, (zlen s <= L)%nat -> lands m s.

Definition strict {A : Type} (L : nat) (m : R A) : Prop :=
  forall s, (zlen s <= L)%nat -> consumes m s.

(** A host whose calls return or raise. *)
Definition host_returns (host : LuaHost) : Prop :=
  forall f args h, lua_call f args h <> OutOfFuel.
(** ** The in-memory buffer *)

(** The bytes written fit the capacity, and the capacity is a [size_t]. *)
Definition Mbuffer_ok (b : Mbuffer) : Prop :=
  eris_bufflen b <= buffsize b < SIZE_MOD.
(** ** What the writer does to the heap *)

(** The heaps of two writer states are related by [T]. *)
Definition heap_step (T : heap -> heap -> Prop) (pi pi' : PersistInfo) : Prop :=
  T (pi_L pi) (pi_L pi').
(** ** What the writer refuses *)

(** The [__persist] field of the metatable of [v]; nil without metatable. *)
Definition persist_metafield (h : heap) (v : value) : value :=
  match lua_getmetatable h v with
  | Some mt => lua_rawget h mt (VStr persistKey)
  | None => VNil
  end.
(** ** Concrete reader and writer states *)

(** A reader that has registered [true] under id 1 and has a nil and the
    reference word of id 1 ahead. *)
Definition res_upi : UnpersistInfo :=
  start_upi [] 0%nat
    (le_encode sizeof_int LUA_TNIL ++ le_encode sizeof_int (1 + ERIS_REFERENCE_OFFSET)).

Definition res_upi1 : UnpersistInfo :=
  upi_set_ref 1 (VBool true) (upi_incr_refcount res_upi).

Definition res_upi2 : UnpersistInfo :=
  upi_set_zio (le_encode sizeof_int (1 + ERIS_REFERENCE_OFFSET)) res_upi1.

(** A heap with an empty perms table, a userdata without metatable and a
    C closure over the C function 7. *)
Definition ref_heap : heap :=
  [ OTable empty_table;
    OUdata {| u_block := bytes_of "ab"; u_meta := None |};
    OCCl {| c_f := 7; c_upvals := [VNum 1] |} ].

(** ** C closures *)

(** The inline encodings of a list of simple values, one after the other. *)
Definition inline_all (l : list value) : list byte :=
  concat (map inline_bytes l).

(** What [p_closure] writes for a C closure whose function is a permanent
    value with the simple key [permkey] and whose upvalues are simple. *)
Definition c_closure_bytes (cl : cclosure) (permkey : value) : list byte :=
  le_encode sizeof_int LUA_TFUNCTION ++
  le_encode sizeof_lu_byte 1 ++
  le_encode sizeof_lu_byte (Z.of_nat (length (c_upvals cl))) ++
  le_encode sizeof_int ERIS_PERMANENT ++
  le_encode sizeof_int LUA_TFUNCTION ++
  inline_bytes permkey ++
  inline_all (c_upvals cl).
(** A C closure over the permanent C function 7, and a table that holds it
    twice; the reader's perms table maps the key back to the function. *)
Definition cc_heap : heap :=
  [ OTable {| t_pairs := [(VLCF 7, VNum (cast_num 1))]; t_meta := None |};
    OCCl {| c_f := 7; c_upvals := [VNum (cast_num 5)] |};
    OTable {| t_pairs := [ (VNum (cast_num 1), VCCl 1%nat);
                           (VNum (cast_num 2), VCCl 1%nat) ];
              t_meta := None |} ].

Definition cc_rheap : heap :=
  [ OTable {| t_pairs := [(VNum (cast_num 1), VLCF 7)]; t_meta := None |} ].

Definition cc_pi' : PersistInfo :=
  Eval vm_compute in
    run_W (persist (host := plain_host) 6 (VCCl 1%nat) (start_pi cc_heap 9%nat 0%nat))
          (start_pi cc_heap 9%nat 0%nat).

Definition cc_buff : Mbuffer :=
  Eval vm_compute in
    match unchecked_persist (host := plain_host) 8 cc_heap 9%nat 0%nat (VTable 2%nat)
            empty_Mbuffer with
    | Ok (b, _) => b
    | _ => empty_Mbuffer
    end.

(** ** Function prototypes *)

Definition in_int (x : Z) : Prop := - 2 ^ 31 <= x < 2 ^ 31.
Definition in_byte (x : Z) : Prop := 0 <= x < 256.

(** Writer and reader in step: equal counters, at least four bytes of output
    per id, and every string the writer has bound sits in the reader's slot
    of its id. *)
Record lockstep (sw : PersistInfo) (sr : UnpersistInfo) : Prop := {
  ls_rc : upi_refcount sr = pi_refcount sw;
  ls_wf : pi_wf sw;
  ls_len : 4 * pi_refcount sw <= Z.of_nat (length (pi_out sw));
  ls_str : forall s i, reftbl_get (pi_reftbl sw) (VStr s) = Some i ->
                       reftbl_rawgeti (upi_reftbl sr) i = VStr s
}.

(** A constant or a name of a prototype: a simple value, or a string that
    is no permanent value. *)
Definition plain (hw : heap) (P : addr) (v : value) : Prop :=
  simple_ok v = true \/
  exists s, v = VStr s /\ lua_isnil (lua_gettable hw P v) = true.

(** A computation of the writer that only appends to the output. *)
Definition appends {A : Type} (w : W A) : Prop :=
  forall s a s', w s = Ok (a, s') -> exists b, pi_out s' = pi_out s ++ b.
(** The reader's computation [r] replays the writer's [w]: whenever [w] runs
    from [sw] to [sw'] with fewer than 2^31 bytes of output in all and the
    reader's input starts with the bytes [w] appended, [r] consumes exactly
    these bytes, returns a result, and [Post] relates the states reached. *)
Definition replays {A : Type} (w : W unit) (r : R A)
    (Pre : PersistInfo -> UnpersistInfo -> Prop)
    (Post : A -> PersistInfo -> UnpersistInfo -> Prop) : Prop :=
  forall sw sw' sr bs rest,
    w sw = Ok (tt, sw') -> Pre sw sr ->
    Z.of_nat (length (pi_out sw')) < 2 ^ 31 ->
    pi_out sw' = pi_out sw ++ bs -> upi_zio sr = bs ++ rest ->
    exists a sr', r sr = Ok (a, sr') /\ upi_zio sr' = rest /\ Post a sw' sr'.

(** A relation between the states that does not depend on the bytes written
    and the bytes left to read, as long as the output only grows. *)
Definition stable (I : PersistInfo -> UnpersistInfo -> Prop) : Prop :=
  forall sw sr b z,
    I sw sr -> (length (pi_out sw) <= length (buffer b))%nat ->
    I (pi_set_ud b sw) (upi_set_zio z sr).
Definition upvaldesc_ok (hw : heap) (P : addr) (d : upvaldesc) : Prop :=
  in_byte (ud_instack d) /\ in_byte (ud_idx d) /\
  exists s, ud_name d = Some s /\ plain hw P (VStr s).

Definition locvar_ok (hw : heap) (P : addr) (lv : locvar) : Prop :=
  in_int (lv_startpc lv) /\ in_int (lv_endpc lv) /\
  exists s, lv_varname lv = Some s /\ plain hw P (VStr s).

(** A prototype the round trip covers: every field fits the word it is
    written in, the counts fit an [int], the constants are simple values or
    strings, and the debug information is present. *)
Record proto_ok (hw : heap) (P : addr) (pr : proto) : Prop := {
  ok_linedefined : in_int (p_linedefined pr);
  ok_lastlinedefined : in_int (p_lastlinedefined pr);
  ok_numparams : in_byte (p_numparams pr);
  ok_is_vararg : in_byte (p_is_vararg pr);
  ok_maxstacksize : in_byte (p_maxstacksize pr);
  ok_code : Forall (fun w => 0 <= w < 2 ^ 32) (p_code pr);
  ok_sizecode : in_int (Z.of_nat (length (p_code pr)));
  ok_k : Forall (plain hw P) (p_k pr);
  ok_sizek : in_int (Z.of_nat (length (p_k pr)));
  ok_sizep : in_int (Z.of_nat (length (p_p pr)));
  ok_upvalues : Forall (upvaldesc_ok hw P) (p_upvalues pr);
  ok_sizeupvalues : in_int (Z.of_nat (length (p_upvalues pr)));
  ok_source : exists s, p_source pr = Some s /\ plain hw P (VStr s);
  ok_lineinfo : Forall in_int (p_lineinfo pr);
  ok_sizelineinfo : in_int (Z.of_nat (length (p_lineinfo pr)));
  ok_locvars : Forall (locvar_ok hw P) (p_locvars pr);
  ok_sizelocvars : in_int (Z.of_nat (length (p_locvars pr)))
}.

(** The prototype [pr] with other constants, nested prototypes, upvalue
    descriptions and debug information: the stages the reader goes through. *)
Definition stage (pr : proto) (k : list value) (kids : list addr)
    (ups : list upvaldesc) (src : option (list byte)) (li : list Z)
    (lvs : list locvar) : proto :=
  {| p_linedefined := p_linedefined pr; p_lastlinedefined := p_lastlinedefined pr;
     p_numparams := p_numparams pr; p_is_vararg := p_is_vararg pr;
     p_maxstacksize := p_maxstacksize pr; p_code := p_code pr;
     p_k := k; p_p := kids; p_upvalues := ups; p_source := src;
     p_lineinfo := li; p_locvars := lvs |}.

(** [pr] with the nested prototypes [kids]. *)
Definition set_p (pr : proto) (kids : list addr) : proto :=
  stage pr (p_k pr) kids (p_upvalues pr) (p_source pr) (p_lineinfo pr) (p_locvars pr).

(** An upvalue description before its name is read. *)
Definition unnamed (d : upvaldesc) : upvaldesc :=
  {| ud_name := None; ud_instack := ud_instack d; ud_idx := ud_idx d |}.

(** The prototype at [p'] in the reader's heap [hr] is the prototype at [p]
    in the writer's heap [hw], field by field, and so are the nested
    prototypes, in order; the reader's prototypes sit at [lo] or above. *)
Inductive proto_rel (hw hr : heap) (lo : addr) : addr -> addr -> Prop :=
| proto_rel_node p p' pr kids' :
    heap_proto hw p = Some pr ->
    heap_proto hr p' = Some (set_p pr kids') ->
    (lo <= p')%nat ->
    Forall2 (proto_rel hw hr lo) (p_p pr) kids' ->
    proto_rel hw hr lo p p'.

(** The prototype at [p] and the prototypes nested in it form a tree of
    prototypes that are covered and are no permanent values; the list holds
    the addresses of the tree, the root first. *)
Inductive proto_tree (hw : heap) (P : addr) : addr -> list addr -> Prop :=
| proto_tree_node p pr nodes :
    heap_proto hw p = Some pr ->
    proto_ok hw P pr ->
    lua_isnil (lua_gettable hw P (VLight (PObj p))) = true ->
    Forall2 (proto_tree hw P) (p_p pr) nodes ->
    proto_tree hw P p (p :: concat nodes).

(** The state of the two sides while the prototype at [np] is read: they are
    in step, the prototype has reached the stage [now], the nested
    prototypes it has so far are those of the writer's list [cs], and
    nothing else was touched since the states [sw0] and [sr0]: the reader's
    heap below [np], the reader's perms table, and the writer's ids of the
    prototypes outside the tree [l]. *)
Record reading (hw : heap) (P : addr) (sw0 : PersistInfo) (sr0 : UnpersistInfo)
    (l : list addr) (np : addr) (cs : list addr) (now : proto)
    (sw : PersistInfo) (sr : UnpersistInfo) : Prop := {
  rd_step : lockstep sw sr;
  rd_L : pi_L sw = hw;
  rd_P : pi_perms sw = P;
  rd_now : heap_proto (upi_L sr) np = Some now;
  rd_below : forall a, (a < np)%nat -> upi_L sr !! a = upi_L sr0 !! a;
  rd_length : (length (upi_L sr0) <= length (upi_L sr))%nat;
  rd_perms : upi_perms sr = upi_perms sr0;
  rd_ids : forall q, q ∉ l ->
             reftbl_get (pi_reftbl sw) (VLight (PObj q)) =
             reftbl_get (pi_reftbl sw0) (VLight (PObj q));
  rd_kids : Forall2 (proto_rel hw (upi_L sr) (S np)) (take (length (p_p now)) cs) (p_p now)
}.
(** The start of the round trip of the tree [l] of prototypes: the sides are
    in step, none of the prototypes has an id, and the reader has just
    created the empty prototype [np] that is to be filled. *)
Record proto_start (hw : heap) (P : addr) (l : list addr) (np : addr)
    (sw : PersistInfo) (sr : UnpersistInfo) : Prop := {
  st_step : lockstep sw sr;
  st_L : pi_L sw = hw;
  st_P : pi_perms sw = P;
  st_fresh : forall q, q ∈ l -> reftbl_get (pi_reftbl sw) (VLight (PObj q)) = None;
  st_empty : heap_proto (upi_L sr) np = Some empty_proto;
  st_last : S np = length (upi_L sr)
}.

(** Its end: the sides are in step again, the reader's prototype at [np] is
    the writer's prototype at [p] with all that is nested in it, and nothing
    else was touched since the states [sw0] and [sr0]. *)
Record proto_done (hw : heap) (P : addr) (sw0 : PersistInfo) (sr0 : UnpersistInfo)
    (l : list addr) (np p : addr) (sw : PersistInfo) (sr : UnpersistInfo) : Prop := {
  dn_step : lockstep sw sr;
  dn_L : pi_L sw = hw;
  dn_P : pi_perms sw = P;
  dn_rel : proto_rel hw (upi_L sr) np p np;
  dn_below : forall a, (a < np)%nat -> upi_L sr !! a = upi_L sr0 !! a;
  dn_length : (length (upi_L sr0) <= length (upi_L sr))%nat;
  dn_perms : upi_perms sr = upi_perms sr0;
  dn_ids : forall q, q ∉ l ->
             reftbl_get (pi_reftbl sw) (VLight (PObj q)) =
             reftbl_get (pi_reftbl sw0) (VLight (PObj q))
}.
(** A main chunk with one nested function: both use the string constant
    [x]; the reader starts with the perms table and an empty prototype. *)
Definition pt_child : proto :=
  {| p_linedefined := 1; p_lastlinedefined := 3; p_numparams := 1;
     p_is_vararg := 0; p_maxstacksize := 2;
     p_code := [8388614; 16777247; 4294967295];
     p_k := [VStr (bytes_of "x"); VBool true]; p_p := [];
     p_upvalues := [{| ud_name := Some (bytes_of "_ENV"); ud_instack := 0; ud_idx := 0 |}];
     p_source := Some (bytes_of "@main.lua"); p_lineinfo := [2; 2; 3];
     p_locvars := [{| lv_varname := Some (bytes_of "a"); lv_startpc := 0;
                      lv_endpc := 3 |}] |}.

Definition pt_main : proto :=
  {| p_linedefined := 0; p_lastlinedefined := 0; p_numparams := 0;
     p_is_vararg := 1; p_maxstacksize := 2;
     p_code := [37; 8388616; 8388639];
     p_k := [VStr (bytes_of "x"); VNum (cast_num 1); VNil]; p_p := [2%nat];
     p_upvalues := [{| ud_name := Some (bytes_of "_ENV"); ud_instack := 1; ud_idx := 0 |}];
     p_source := Some (bytes_of "@main.lua"); p_lineinfo := [1; 3; -1];
     p_locvars := [{| lv_varname := Some (bytes_of "f"); lv_startpc := 1;
                      lv_endpc := 3 |};
                   {| lv_varname := Some (bytes_of "x"); lv_startpc := 2;
                      lv_endpc := 3 |}] |}.

Definition pt_heap : heap := [OTable empty_table; OProto pt_main; OProto pt_child].
Definition pt_rheap : heap := [OTable empty_table; OProto empty_proto].

Definition pt_pi' : PersistInfo :=
  Eval vm_compute in
    run_W (persist_keyed (host := plain_host) 4 (VLight (PObj 1%nat))
             (VLight (PObj 1%nat)) LUA_TPROTO (start_pi pt_heap 9%nat 0%nat))
          (start_pi pt_heap 9%nat 0%nat).

(** ** Lua closures *)

(** An upvalue of the writer's heap the round trip covers: it has the value
    [v], a simple value or a string that is no permanent value, and the
    upvalue itself is no permanent value. *)
Definition upvalue_ok (hw : heap) (P : addr) (uv : addr) (v : value) : Prop :=
  exists u, heap_upval hw uv = Some u /\ upval_get hw u = Some v /\ plain hw P v /\
            lua_isnil (lua_gettable hw P (VLight (PObj uv))) = true.

(** The state of the two sides while the upvalues of the closure at [a'] are
    read, [j] of them so far: the sides are in step, the first [j] slots of
    the closure are bound to closed upvalues, new and distinct, that hold
    the values [vs], the other slots are empty, the upvalues still to come
    have no id, and the heap [h4] the reader had before the loop is as it
    was but for the closure. *)
Record binding (hw : heap) (P : addr) (h4 : heap) (perms0 a' : addr) (p' : option addr)
    (uvs : list addr) (vs : list value) (j : nat)
    (sw : PersistInfo) (sr : UnpersistInfo) : Prop := {
  bd_step : lockstep sw sr;
  bd_L : pi_L sw = hw;
  bd_P : pi_perms sw = P;
  bd_perms : upi_perms sr = perms0;
  bd_length : (length h4 <= length (upi_L sr))%nat;
  bd_below : forall x, (x < length h4)%nat -> x <> a' -> upi_L sr !! x = h4 !! x;
  bd_fresh : forall q, q ∈ drop j uvs ->
               reftbl_get (pi_reftbl sw) (VLight (PObj q)) = None;
  bd_bound : exists uvs',
      length uvs' = j /\
      heap_lcl (upi_L sr) a' =
        Some {| l_p := p';
                l_upvals := map Some uvs' ++ replicate (length uvs - j) None |} /\
      Forall2 (fun uv' v => heap_upval (upi_L sr) uv' =
                            Some {| uv_v := UvClosed; uv_value := v |})
              uvs' (take j vs) /\
      Forall (fun uv' => (length h4 <= uv')%nat) uvs' /\ NoDup uvs'
}.
(** The state of the two sides while the head of a closure is read: the
    writer has given the closure its id; the reader is in step once it has
    entered [reg] under the next id (or is in step already, without [reg]);
    the prototypes and upvalues [fr] have no id; the reader's heap is [h]. *)
Record entering (hw : heap) (P : addr) (fr : list addr) (h : heap) (perms0 : addr)
    (reg : option value) (sw : PersistInfo) (sr : UnpersistInfo) : Prop := {
  en_step : lockstep sw
              match reg with
              | Some obj => upi_set_ref (upi_refcount sr + 1) obj (upi_incr_refcount sr)
              | None => sr
              end;
  en_L : pi_L sw = hw;
  en_P : pi_perms sw = P;
  en_fresh : forall q, q ∈ fr -> reftbl_get (pi_reftbl sw) (VLight (PObj q)) = None;
  en_heap : upi_L sr = h;
  en_perms : upi_perms sr = perms0
}.

(** The end of the round trip of a Lua closure: the reader's closure sits
    at the first free address of the heap [h0] the reader started with, its
    prototype next to it is the writer's prototype [p], its upvalues are
    closed upvalues, distinct ones, that hold the values [vs], and [h0] is
    unchanged. *)
Record closure_done (hw : heap) (P : addr) (h0 : heap) (perms0 : addr) (p : addr)
    (vs : list value) (sw : PersistInfo) (sr : UnpersistInfo) : Prop := {
  cd_step : lockstep sw sr;
  cd_L : pi_L sw = hw;
  cd_P : pi_perms sw = P;
  cd_perms : upi_perms sr = perms0;
  cd_below : forall x, (x < length h0)%nat -> upi_L sr !! x = h0 !! x;
  cd_proto : proto_rel hw (upi_L sr) (S (length h0)) p (S (length h0));
  cd_closure : exists uvs',
      heap_lcl (upi_L sr) (length h0) =
        Some {| l_p := Some (S (length h0)); l_upvals := map Some uvs' |} /\
      Forall2 (fun uv' v => heap_upval (upi_L sr) uv' =
                            Some {| uv_v := UvClosed; uv_value := v |}) uvs' vs /\
      NoDup uvs'
}.
(** A closure over the main chunk of [pt_heap] with two upvalues, a number
    and the string [x], which is also a constant of the chunk. *)
Definition lc_heap : heap :=
  pt_heap ++
  [ OLCl {| l_p := Some 1%nat; l_upvals := [Some 4%nat; Some 5%nat] |};
    OUpVal {| uv_v := UvClosed; uv_value := VNum (cast_num 5) |};
    OUpVal {| uv_v := UvClosed; uv_value := VStr (bytes_of "x") |} ].

Definition lc_pi' : PersistInfo :=
  Eval vm_compute in
    run_W (persist (host := plain_host) 6 (VLCl 3%nat) (start_pi lc_heap 9%nat 0%nat))
          (start_pi lc_heap 9%nat 0%nat).
(** * Properties *)

(** ** Words *)

Lemma Z_of_byte_range (b : byte) : 0 <= Z_of_byte b < 256.
Proof.
  unfold Z_of_byte. pose proof (Byte.to_N_bounded b). lia.
Qed.

Lemma Z_of_byte_of_Z (z : Z) : Z_of_byte (byte_of_Z z) = z mod 256.
Proof.
  unfold Z_of_byte, byte_of_Z.
  assert (Hr : 0 <= z mod 256 < 256) by (apply Z.mod_pos_bound; lia).
  destruct (Byte.of_N (Z.to_N (z mod 256))) as [b|] eqn:E.
  - apply Byte.to_of_N in E. rewrite E. lia.
  - apply Byte.of_N_None_iff in E. lia.
Qed.

Lemma byte_of_Z_of_byte (b : byte) : byte_of_Z (Z_of_byte b) = b.
Proof.
  unfold byte_of_Z, Z_of_byte.
  pose proof (Byte.to_N_bounded b).
  rewrite Z.mod_small by lia.
  rewrite N2Z.id, Byte.of_to_N. reflexivity.
Qed.

Lemma length_le_encode (n : nat) (z : Z) : length (le_encode n z) = n.
Proof.
  revert z. induction n as [|n IH]; intros z; simpl; [reflexivity|].
  now rewrite IH.
Qed.

Lemma le_decode_encode (n : nat) (z : Z) :
  le_decode (le_encode n z) = z mod 2 ^ (8 * Z.of_nat n).
Proof.
  revert z. induction n as [|n IH]; intros z.
  - simpl. now rewrite Z.mod_1_r.
  - cbn [le_encode le_decode]. rewrite IH, Z_of_byte_of_Z.
    replace (8 * Z.of_nat (S n)) with (8 + 8 * Z.of_nat n) by lia.
    rewrite Z.pow_add_r by lia.
    change (2 ^ 8) with 256.
    rewrite Z.rem_mul_r by lia. reflexivity.
Qed.

Lemma le_decode_range (bs : list byte) :
  0 <= le_decode bs < 2 ^ (8 * Z.of_nat (length bs)).
Proof.
  induction bs as [|b r IH].
  - simpl. lia.
  - cbn [le_decode length].
    pose proof (Z_of_byte_range b).
    replace (8 * Z.of_nat (S (length r))) with (8 + 8 * Z.of_nat (length r)) by lia.
    rewrite Z.pow_add_r by lia. change (2 ^ 8) with 256. nia.
Qed.

Lemma le_encode_decode (bs : list byte) :
  le_encode (length bs) (le_decode bs) = bs.
Proof.
  induction bs as [|b r IH]; [reflexivity|].
  cbn [le_decode length le_encode].
  pose proof (Z_of_byte_range b).
  f_equal.
  - rewrite <- (byte_of_Z_of_byte b) at 2. unfold byte_of_Z.
    replace ((Z_of_byte b + 256 * le_decode r) mod 256) with (Z_of_byte b mod 256);
      [reflexivity|].
    rewrite (Z.mul_comm 256), Z.mod_add by lia. reflexivity.
  - replace ((Z_of_byte b + 256 * le_decode r) / 256) with (le_decode r); [exact IH|].
    rewrite (Z.mul_comm 256), Z.div_add by lia.
    rewrite Z.div_small by lia. lia.
Qed.

Lemma to_signed_wrap (w : nat) (x : Z) :
  (0 < w)%nat ->
  - 2 ^ (8 * Z.of_nat w - 1) <= x < 2 ^ (8 * Z.of_nat w - 1) ->
  to_signed w (x mod 2 ^ (8 * Z.of_nat w)) = x.
Proof.
  intros Hw Hx. unfold to_signed.
  set (k := 8 * Z.of_nat w) in *.
  assert (Hk : 2 ^ k = 2 * 2 ^ (k - 1)).
  { replace k with (1 + (k - 1)) at 1 by lia.
    rewrite Z.pow_add_r by lia. reflexivity. }
  assert (Hp : 0 < 2 ^ (k - 1)) by (apply Z.pow_pos_nonneg; lia).
  destruct (Z.ltb_spec (x mod 2 ^ k) (2 ^ (k - 1))) as [Hlt|Hge].
  - destruct (Z.lt_ge_cases x 0) as [Hneg|Hpos].
    + exfalso. rewrite <- (Z.mod_add x 1 (2 ^ k)) in Hlt by lia.
      rewrite Z.mod_small in Hlt by lia. lia.
    + apply Z.mod_small. lia.
  - destruct (Z.lt_ge_cases x 0) as [Hneg|Hpos].
    + rewrite <- (Z.mod_add x 1 (2 ^ k)) by lia.
      rewrite Z.mod_small by lia. lia.
    + exfalso. rewrite Z.mod_small in Hge by lia. lia.
Qed.

(** ** The monad *)

Lemma bind_Ok {S A B : Type} (m : M S A) (f : A -> M S B) s b s' :
  bind m f s = Ok (b, s') <->
  exists a s1, m s = Ok (a, s1) /\ f a s1 = Ok (b, s').
Proof.
  unfold bind. split.
  - destruct (m s) as [[a s1]| | |]; try discriminate. eauto.
  - intros (a & s1 & -> & H). exact H.
Qed.

Lemma bind_step {S A B : Type} (m : M S A) (f : A -> M S B) s a s1 :
  m s = Ok (a, s1) -> bind m f s = f a s1.
Proof. unfold bind. now intros ->. Qed.

Lemma bind_Err {S A B : Type} (m : M S A) (f : A -> M S B) s e :
  m s = Err e -> bind m f s = Err e.
Proof. unfold bind. now intros ->. Qed.

Lemma bind_not_Ok {S A B : Type} (m : M S A) (f : A -> M S B) s :
  (forall r, m s <> Ok r) -> forall r, bind m f s <> Ok r.
Proof.
  unfold bind. intros H r. destruct (m s) as [[a s1]| | |]; try discriminate.
  exfalso. eapply H. reflexivity.
Qed.

Lemma lift_opt_Ok {S A : Type} (o : option A) (s : S) a s' :
  lift_opt o s = Ok (a, s') <-> o = Some a /\ s' = s.
Proof.
  destruct o; simpl; unfold ret, undefined; split;
    try (intros [= -> ->]; auto); try discriminate;
    intros [H ->]; congruence.
Qed.

(** Inversion of a successful run, one monadic step at a time. *)
Ltac monad_inv H :=
  lazymatch type of H with
  | bind _ _ _ = Ok _ =>
      let a := fresh "a" in
      let s := fresh "s" in
      let H1 := fresh "Hm" in
      let H2 := fresh "Hk" in
      apply bind_Ok in H; destruct H as (a & s & H1 & H2);
      monad_inv H1; monad_inv H2
  | ret _ _ = Ok _ => unfold ret in H; injection H; clear H; intros; subst
  | gets _ _ = Ok _ => unfold gets in H; injection H; clear H; intros; subst
  | modify _ _ = Ok _ => unfold modify in H; injection H; clear H; intros; subst
  | lift_opt _ _ = Ok _ =>
      let E := fresh "Eopt" in apply lift_opt_Ok in H; destruct H as [E ->]
  | eris_error _ _ = Ok _ => discriminate H
  | undefined _ = Ok _ => discriminate H
  | out_of_fuel _ = Ok _ => discriminate H
  | _ => idtac
  end.

(** ** Computations that keep a relation *)

Section Preserves.
Context {S : Type} (Q : S -> S -> Prop).
Hypothesis Q_refl : forall s, Q s s.
Hypothesis Q_trans : forall s1 s2 s3, Q s1 s2 -> Q s2 s3 -> Q s1 s3.

Lemma preserves_ret {A : Type} (a : A) : preserves Q (ret a).
Proof using Q_refl. intros s a' s' [= <- <-]. apply Q_refl. Qed.

Lemma preserves_gets {A : Type} (f : S -> A) : preserves Q (gets f).
Proof using Q_refl. intros s a' s' [= <- <-]. apply Q_refl. Qed.

Lemma preserves_eris_error {A : Type} msg : preserves Q (@eris_error S A msg).
Proof. intros s a' s' [=]. Qed.

Lemma preserves_undefined {A : Type} : preserves Q (@undefined S A).
Proof. intros s a' s' [=]. Qed.

Lemma preserves_out_of_fuel {A : Type} : preserves Q (@out_of_fuel S A).
Proof. intros s a' s' [=]. Qed.

Lemma preserves_lift_opt {A : Type} (o : option A) : preserves Q (lift_opt o).
Proof using Q_refl.
  intros s a s' H. apply lift_opt_Ok in H as [_ ->]. apply Q_refl.
Qed.

Lemma preserves_bind {A B : Type} (m : M S A) (f : A -> M S B) :
  preserves Q m -> (forall a, preserves Q (f a)) -> preserves Q (bind m f).
Proof using Q_trans.
  intros Hm Hf s b s' H. apply bind_Ok in H as (a & s1 & H1 & H2).
  eapply Q_trans; [eapply Hm | eapply Hf]; eassumption.
Qed.

Lemma preserves_for_each {A : Type} (f : A -> M S unit) (l : list A) :
  (forall x, preserves Q (f x)) -> preserves Q (for_each f l).
Proof using Q_refl Q_trans.
  intros Hf. induction l as [|x r IH]; simpl.
  - apply preserves_ret.
  - apply preserves_bind; [apply Hf | intros _; exact IH].
Qed.

Lemma preserves_for_range (f : Z -> M S unit) (lo : Z) (n : nat) :
  (forall i, preserves Q (f i)) -> preserves Q (for_range f lo n).
Proof using Q_refl Q_trans.
  intros Hf. revert lo. induction n as [|n IH]; intros lo; simpl.
  - apply preserves_ret.
  - apply preserves_bind; [apply Hf | intros _; apply IH].
Qed.
End Preserves.

(** Decomposition of a computation into steps that keep [Q]. *)
Ltac preserves_step :=
  first
    [ assumption
    | apply preserves_ret; assumption
    | apply preserves_gets; assumption
    | apply preserves_eris_error
    | apply preserves_undefined
    | apply preserves_out_of_fuel
    | apply preserves_lift_opt; assumption
    | apply preserves_bind; [assumption | | intros ?]
    | apply preserves_for_each; [assumption | assumption | intros ?]
    | apply preserves_for_range; [assumption | assumption | intros ?]
    | match goal with
      | |- preserves _ (if ?b then _ else _) => destruct b
      | |- preserves _ (match ?x with _ => _ end) => destruct x
      | |- preserves _ (let _ := _ in _) => cbv zeta
      end ].

(** ** Raw equality *)

Lemma luai_numeq_sym x y : luai_numeq x y = luai_numeq y x.
Proof.
  unfold luai_numeq.
  rewrite (Z.eqb_sym x y), (andb_comm (num_iszero x)).
  destruct (luai_numisnan x), (luai_numisnan y); reflexivity.
Qed.

Lemma luai_numeq_trans x y z :
  luai_numeq x y = true -> luai_numeq y z = true -> luai_numeq x z = true.
Proof.
  unfold luai_numeq. intros H1 H2.
  destruct (luai_numisnan x), (luai_numisnan y), (luai_numisnan z);
    simpl in *; try discriminate.
  destruct (Z.eqb_spec x y), (Z.eqb_spec y z), (Z.eqb_spec x z); subst;
    simpl in *; try congruence;
    destruct (num_iszero x), (num_iszero y), (num_iszero z); simpl in *; congruence.
Qed.

Lemma rawequal_sym x y : luaV_rawequalobj x y = luaV_rawequalobj y x.
Proof.
  destruct x, y; cbn [luaV_rawequalobj]; try apply luai_numeq_sym;
    apply bool_decide_ext; split; congruence.
Qed.

Lemma rawequal_eq x y :
  (forall b, x <> VNum b) -> luaV_rawequalobj x y = true <-> x = y.
Proof.
  intros Hx. destruct x; try (exfalso; eapply Hx; reflexivity);
    destruct y; cbn [luaV_rawequalobj]; rewrite bool_decide_eq_true; reflexivity.
Qed.

Lemma rawequal_trans x y z :
  luaV_rawequalobj x y = true -> luaV_rawequalobj y z = true ->
  luaV_rawequalobj x z = true.
Proof.
  destruct x.
  all: try (intros H1 H2; apply rawequal_eq in H1; [subst y; exact H2 | congruence]).
  destruct y; cbn [luaV_rawequalobj]; try (rewrite bool_decide_eq_true; discriminate).
  destruct z; cbn [luaV_rawequalobj];
    try (intros _; rewrite bool_decide_eq_true; discriminate).
  apply luai_numeq_trans.
Qed.

(** ** Evolution of the writer state *)

Lemma pi_ext_refl pi : pi_ext pi pi.
Proof.
  repeat split; try lia; auto.
  exists []. rewrite app_nil_r. simpl. split; [reflexivity | lia].
Qed.

Lemma pi_ext_trans pi1 pi2 pi3 : pi_ext pi1 pi2 -> pi_ext pi2 pi3 -> pi_ext pi1 pi3.
Proof.
  intros (Hp1 & Hr1 & Hc1 & (b1 & Ho1 & Hl1) & Hk1 & Hn1)
         (Hp2 & Hr2 & Hc2 & (b2 & Ho2 & Hl2) & Hk2 & Hn2).
  repeat split; try congruence; try lia; auto.
  - exists (b1 ++ b2). rewrite Ho2, Ho1, <- app_assoc. split; [reflexivity|].
    rewrite length_app. lia.
  - intros k i H. destruct (Hn2 k i H) as [H'|H']; [|right; lia].
    destruct (Hn1 k i H'); auto.
Qed.

Lemma pi_step_refl pi : pi_step pi pi.
Proof. split; [apply pi_ext_refl | auto]. Qed.

Lemma pi_step_trans pi1 pi2 pi3 : pi_step pi1 pi2 -> pi_step pi2 pi3 -> pi_step pi1 pi3.
Proof.
  intros [E1 W1] [E2 W2]. split; [eapply pi_ext_trans; eauto | auto].
Qed.

Lemma writer_buffer p buff b : writer p buff = Some b -> buffer b = buffer buff ++ p.
Proof.
  unfold writer. repeat case_match; intros [= <-]; reflexivity.
Qed.

Lemma WRITE_RAW_Ok bs pi u pi' :
  WRITE_RAW bs pi = Ok (u, pi') ->
  exists b, pi' = pi_set_ud b pi /\ buffer b = pi_out pi ++ bs.
Proof.
  unfold WRITE_RAW. destruct (writer bs (pi_ud pi)) as [b|] eqn:E; [|discriminate].
  intros [= <- <-]. exists b. split; [reflexivity | now apply writer_buffer].
Qed.

Lemma WRITE_RAW_step bs : preserves pi_step (WRITE_RAW bs).
Proof.
  intros pi u pi' H. apply WRITE_RAW_Ok in H as (b & -> & Hb).
  split.
  - repeat split; simpl; try lia; auto.
    exists bs. unfold pi_out in *. simpl. split; [exact Hb | lia].
  - intros (W0 & W1 & W2). split; [|split]; simpl; auto.
Qed.

Lemma WRITE_VALUE_step x n : preserves pi_step (WRITE_VALUE x n).
Proof. apply WRITE_RAW_step. Qed.

Lemma host_call_step {host : LuaHost} f args :
  preserves pi_step
    (fun pi =>
       match lua_call f args (pi_L pi) with
       | Ok (r, h') => Ok (r, pi_set_L h' pi)
       | Err e => Err e
       | Undef => Undef
       | OutOfFuel => OutOfFuel
       end).
Proof.
  intros pi r pi'. destruct (lua_call f args (pi_L pi)) as [[r' h']| | |];
    try discriminate.
  intros [= <- <-]. split.
  - repeat split; simpl; try lia; auto.
    exists []. unfold pi_out. simpl. rewrite app_nil_r. split; [reflexivity | lia].
  - intros (W0 & W1 & W2). split; [|split]; simpl; auto.
Qed.

Ltac writer_step :=
  repeat first
    [ apply WRITE_RAW_step
    | apply WRITE_VALUE_step
    | apply host_call_step
    | progress unfold write_lu_byte, write_short, write_ushort, write_int,
        write_size_t, write_ptrdiff_t, write_lua_Number, write_voidp
    | match goal with
      | H : forall v, preserves pi_step (_ v) |- preserves pi_step _ => apply H
      | H : forall o k t, preserves pi_step (_ o k t) |- preserves pi_step _ => apply H
      end
    | preserves_step ].

Section WriterSteps.
Context {host : LuaHost}.
Variable rec_persist : value -> W unit.
Variable rec_persist_keyed : value -> value -> Z -> W unit.
Hypothesis rec_persist_step : forall v, preserves pi_step (rec_persist v).
Hypothesis rec_persist_keyed_step :
  forall o k t, preserves pi_step (rec_persist_keyed o k t).

Let Hrefl := pi_step_refl.
Let Htrans := pi_step_trans.

Lemma p_metatable_step obj : preserves pi_step (p_metatable rec_persist obj).
Proof using rec_persist_step. unfold p_metatable. writer_step. Qed.

Lemma p_literaltable_step obj : preserves pi_step (p_literaltable rec_persist obj).
Proof using rec_persist_step.
  unfold p_literaltable. writer_step.
Qed.

Lemma p_literaluserdata_step obj :
  preserves pi_step (p_literaluserdata rec_persist obj).
Proof using rec_persist_step.
  unfold p_literaluserdata. writer_step.
Qed.

Lemma p_special_step literal obj :
  (forall o, preserves pi_step (literal o)) ->
  preserves pi_step (p_special rec_persist literal obj).
Proof using rec_persist_step.
  intros Hl. unfold p_special, p_special_literal. writer_step.
Qed.

Lemma p_proto_step obj :
  preserves pi_step (p_proto rec_persist rec_persist_keyed obj).
Proof using rec_persist_step rec_persist_keyed_step.
  unfold p_proto. writer_step.
Qed.

Lemma p_closure_step obj :
  preserves pi_step (p_closure rec_persist rec_persist_keyed obj).
Proof using rec_persist_step rec_persist_keyed_step.
  unfold p_closure, p_closure_upvalue. writer_step.
Qed.

Lemma p_callinfo_step t ci last :
  preserves pi_step (p_callinfo rec_persist t ci last).
Proof using rec_persist_step.
  unfold p_callinfo. writer_step.
Qed.

Lemma p_callinfos_step t cis : preserves pi_step (p_callinfos rec_persist t cis).
Proof using rec_persist_step.
  induction cis as [|ci r IH]; simpl.
  - writer_step.
  - destruct r; [apply p_callinfo_step|].
    apply preserves_bind; [exact Htrans | apply p_callinfo_step | intros _; exact IH].
Qed.

Lemma p_thread_step obj :
  preserves pi_step (p_thread rec_persist rec_persist_keyed obj).
Proof using rec_persist_step rec_persist_keyed_step.
  unfold p_thread, p_thread_body. writer_step; apply p_callinfos_step.
Qed.

Lemma persist_typed_switch_step type obj :
  preserves pi_step (persist_typed_switch rec_persist rec_persist_keyed type obj).
Proof using rec_persist_step rec_persist_keyed_step.
  unfold persist_typed_switch.
  repeat match goal with
         | |- preserves _ (if ?b then _ else _) => destruct b
         end.
  - unfold p_boolean. writer_step.
  - unfold p_pointer. writer_step.
  - unfold p_number. writer_step.
  - unfold p_string. writer_step.
  - apply p_special_step. apply p_literaltable_step.
  - apply p_closure_step.
  - apply p_special_step. apply p_literaluserdata_step.
  - apply p_thread_step.
  - apply p_proto_step.
  - apply rec_persist_step.
  - apply preserves_eris_error.
Qed.

Lemma persist_typed_step type obj :
  preserves pi_step (persist_typed rec_persist rec_persist_keyed type obj).
Proof using rec_persist_step rec_persist_keyed_step.
  unfold persist_typed.
  apply preserves_bind; [exact Htrans | writer_step | intros _].
  apply persist_typed_switch_step.
Qed.

Lemma persist_keyed_new_step obj refkey type :
  preserves pi_step
    (persist_keyed_new rec_persist rec_persist_keyed obj refkey type).
Proof using rec_persist_step rec_persist_keyed_step.
  unfold persist_keyed_new.
  apply preserves_bind; [exact Htrans | writer_step | intros h].
  apply preserves_bind; [exact Htrans | writer_step | intros perms].
  cbv zeta. destruct (lua_isnil _).
  - apply persist_typed_step.
  - writer_step.
Qed.
End WriterSteps.

Lemma reftbl_get_rawequal rt k1 k2 :
  luaV_rawequalobj k1 k2 = true -> reftbl_get rt k1 = reftbl_get rt k2.
Proof.
  intros E. induction rt as [|[k i] r IH]; simpl; [reflexivity|].
  destruct (luaV_rawequalobj k k1) eqn:E1, (luaV_rawequalobj k k2) eqn:E2; auto.
  - rewrite (rawequal_trans _ _ _ E1 E) in E2. discriminate.
  - rewrite rawequal_sym in E.
    rewrite (rawequal_trans _ _ _ E2 E) in E1. discriminate.
Qed.

Lemma pi_bind_ref_wf refkey pi :
  reftbl_get (pi_reftbl pi) refkey = None -> pi_wf pi -> pi_wf (pi_bind_ref refkey pi).
Proof.
  intros Hnone (W0 & W1 & W2). split; [|split]; simpl.
  - lia.
  - intros k i. destruct (luaV_rawequalobj refkey k).
    + intros [= <-]. lia.
    + intros H. specialize (W1 _ _ H). lia.
  - intros k1 k2 i.
    destruct (luaV_rawequalobj refkey k1) eqn:E1,
             (luaV_rawequalobj refkey k2) eqn:E2.
    + intros _ _. rewrite rawequal_sym in E1. eapply rawequal_trans; eauto.
    + intros [= <-] H. specialize (W1 _ _ H). lia.
    + intros H [= <-]. specialize (W1 _ _ H). lia.
    + apply W2.
Qed.

Lemma pi_bind_ref_get refkey pi k i :
  reftbl_get (pi_reftbl pi) refkey = None ->
  reftbl_get (pi_reftbl pi) k = Some i ->
  reftbl_get (pi_reftbl (pi_bind_ref refkey pi)) k = Some i.
Proof.
  intros Hnone H. simpl. destruct (luaV_rawequalobj refkey k) eqn:E; [|exact H].
  rewrite (reftbl_get_rawequal _ _ _ E) in Hnone. congruence.
Qed.

(** A new binding followed by a computation that first writes an [int]. *)
Lemma bind_then_write_step refkey x (m : W unit) pi pi' :
  preserves pi_step m ->
  reftbl_get (pi_reftbl pi) refkey = None ->
  (write_int x ;; m)%eris (pi_bind_ref refkey pi) = Ok (tt, pi') ->
  pi_step pi pi'.
Proof.
  intros Hm Hnone H.
  apply bind_Ok in H as ([] & s1 & Hw & Hk).
  pose proof (WRITE_RAW_Ok _ _ _ _ Hw) as (b & -> & Hb).
  apply Hm in Hk as [(Hp & Hr & Hc & (bs & Ho & Hl) & Hk1 & Hn1) Hwf].
  unfold pi_out in *. simpl in *.
  split.
  - repeat split; try assumption; try lia.
    + exists (le_encode sizeof_int x ++ bs). unfold pi_out. simpl.
      rewrite Ho, Hb, <- app_assoc.
      split; [reflexivity|]. rewrite ?length_app, ?length_le_encode.
      unfold sizeof_int. simpl length. lia.
    + intros k i Hg. apply Hk1. simpl.
      destruct (luaV_rawequalobj refkey k) eqn:E; [|exact Hg].
      rewrite (reftbl_get_rawequal _ _ _ E) in Hnone. congruence.
    + intros k i Hg. destruct (Hn1 k i Hg) as [H'|H']; [|right; lia].
      simpl in H'. destruct (luaV_rawequalobj refkey k).
      * injection H' as <-. right. lia.
      * now left.
  - intros Hw0. apply Hwf.
    pose proof (pi_bind_ref_wf refkey pi Hnone Hw0) as (W0 & W1 & W2).
    split; [|split]; simpl in *; auto.
Qed.

Section WriterBodies.
Context {host : LuaHost}.
Variable rec_persist : value -> W unit.
Variable rec_persist_keyed : value -> value -> Z -> W unit.
Hypothesis rec_persist_step : forall v, preserves pi_step (rec_persist v).
Hypothesis rec_persist_keyed_step :
  forall o k t, preserves pi_step (rec_persist_keyed o k t).

Lemma persist_keyed_body_step obj refkey type :
  preserves pi_step
    (persist_keyed_body rec_persist rec_persist_keyed obj refkey type).
Proof using rec_persist_step rec_persist_keyed_step.
  intros pi u pi' H. unfold persist_keyed_body in H.
  apply bind_Ok in H as (rt & s1 & Hg & H). injection Hg as <- <-.
  destruct (reftbl_get (pi_reftbl pi) refkey) as [reference|] eqn:E.
  - eapply WRITE_VALUE_step; eassumption.
  - apply bind_Ok in H as ([] & s1 & Hmod & H). injection Hmod as <-.
    unfold persist_keyed_new in H.
    apply bind_Ok in H as (h & s2 & Hg & H). injection Hg as <- <-.
    apply bind_Ok in H as (perms & s2 & Hg & H). injection Hg as <- <-.
    cbv zeta in H. destruct u.
    destruct (lua_isnil _).
    + unfold persist_typed in H.
      eapply bind_then_write_step; [| exact E | exact H].
      apply persist_typed_switch_step; assumption.
    + eapply bind_then_write_step; [| exact E | exact H].
      apply preserves_bind; [exact pi_step_trans | apply WRITE_VALUE_step|].
      intros _. apply rec_persist_step.
Qed.

Lemma persist_body_step obj :
  preserves pi_step (persist_body rec_persist rec_persist_keyed obj).
Proof using rec_persist_step rec_persist_keyed_step.
  unfold persist_body. cbv zeta.
  destruct (lua_type obj =? LUA_TNIL); [apply WRITE_VALUE_step|].
  destruct (_ || _).
  - apply persist_typed_step; assumption.
  - apply rec_persist_keyed_step.
Qed.
End WriterBodies.

Lemma persist_fix_step {host : LuaHost} fuel :
  (forall v, preserves pi_step (persist fuel v)) /\
  (forall o k t, preserves pi_step (persist_keyed fuel o k t)).
Proof.
  unfold persist, persist_keyed.
  induction fuel as [|n [IH1 IH2]]; simpl.
  - split; intros; apply preserves_out_of_fuel.
  - split; intros.
    + apply persist_body_step; assumption.
    + apply persist_keyed_body_step; assumption.
Qed.

Lemma persist_step {host : LuaHost} fuel v : preserves pi_step (persist fuel v).
Proof. apply persist_fix_step. Qed.

Lemma persist_keyed_step {host : LuaHost} fuel o k t :
  preserves pi_step (persist_keyed fuel o k t).
Proof. apply persist_fix_step. Qed.

(** ** The writer's reference discipline *)

Lemma persist_S {host : LuaHost} n v :
  persist (S n) v = persist_body (persist n) (persist_keyed n) v.
Proof. reflexivity. Qed.

Lemma persist_keyed_S {host : LuaHost} n obj refkey type :
  persist_keyed (S n) obj refkey type =
  persist_keyed_body (persist n) (persist_keyed n) obj refkey type.
Proof. reflexivity. Qed.

Lemma write_Ok_out x n pi u pi' :
  WRITE_VALUE x n pi = Ok (u, pi') ->
  pi_reftbl pi' = pi_reftbl pi /\ pi_refcount pi' = pi_refcount pi /\
  pi_L pi' = pi_L pi /\ pi_perms pi' = pi_perms pi /\
  pi_running pi' = pi_running pi /\
  pi_out pi' = pi_out pi ++ le_encode n x.
Proof.
  intros H. apply WRITE_RAW_Ok in H as (b & -> & Hb). simpl.
  unfold pi_out. simpl. auto 10.
Qed.

Lemma is_simple_type v :
  is_simple v =
  (lua_type v =? LUA_TNIL) ||
  ((lua_type v =? LUA_TBOOLEAN) || (lua_type v =? LUA_TLIGHTUSERDATA)
   || (lua_type v =? LUA_TNUMBER)).
Proof. destruct v; reflexivity. Qed.

Lemma rawequal_refl_nonsimple v : is_simple v = false -> luaV_rawequalobj v v = true.
Proof.
  intros H. apply rawequal_eq; [|reflexivity].
  intros b ->. discriminate.
Qed.

Lemma persist_simple {host : LuaHost} fuel v pi pi' :
  is_simple v = true ->
  persist fuel v pi = Ok (tt, pi') ->
  pi_reftbl pi' = pi_reftbl pi /\ pi_refcount pi' = pi_refcount pi /\
  pi_L pi' = pi_L pi /\
  pi_out pi' = pi_out pi ++ inline_bytes v.
Proof.
  intros Hs H. destruct fuel as [|n]; [discriminate|].
  rewrite persist_S in H. unfold persist_body in H. cbv zeta in H.
  destruct v as [|[|]| | | | | | | | |]; try discriminate; cbn in H.
  1: { apply write_Ok_out in H. unfold inline_bytes. rewrite app_nil_r. tauto. }
  all: unfold persist_typed in H; apply bind_Ok in H as ([] & s1 & H1 & H2);
    apply write_Ok_out in H1 as (? & ? & ? & ? & ? & Ho1);
    apply write_Ok_out in H2 as (? & ? & ? & ? & ? & Ho2);
    rewrite Ho2, Ho1, <- app_assoc;
    repeat split; try congruence; reflexivity.
Qed.

Lemma persist_nonsimple {host : LuaHost} fuel v :
  is_simple v = false ->
  persist (S fuel) v = persist_keyed fuel v v (lua_type v).
Proof.
  intros Hs. rewrite persist_S. unfold persist_body. cbv zeta.
  rewrite is_simple_type in Hs. apply orb_false_iff in Hs as [-> ->]. reflexivity.
Qed.

Lemma persist_keyed_known {host : LuaHost} fuel obj refkey type i pi :
  reftbl_get (pi_reftbl pi) refkey = Some i ->
  persist_keyed (S fuel) obj refkey type pi =
  write_int (i + ERIS_REFERENCE_OFFSET) pi.
Proof.
  intros E. rewrite persist_keyed_S. unfold persist_keyed_body.
  unfold bind at 1. unfold gets. rewrite E. reflexivity.
Qed.

Lemma persist_keyed_fresh {host : LuaHost} fuel obj refkey type pi :
  reftbl_get (pi_reftbl pi) refkey = None ->
  persist_keyed (S fuel) obj refkey type pi =
  persist_keyed_new (persist fuel) (persist_keyed fuel) obj refkey type
    (pi_bind_ref refkey pi).
Proof.
  intros E. rewrite persist_keyed_S. unfold persist_keyed_body.
  unfold bind at 1. unfold gets. rewrite E. reflexivity.
Qed.

(** C3. [persist] writes nil, booleans, light pointers and numbers inline
    and gives them no id.  Any other value is written through its key: a key
    that has an id is written as the reference word of that id and nothing
    else; a key without id is bound to the next id before anything of the
    value is written, and the body is written from the state that holds the
    binding.  Ids once given are kept, and no two keys share an id. *)
Theorem writer_reference_discipline {host : LuaHost} fuel v pi pi' :
  persist fuel v pi = Ok (tt, pi') ->
  (is_simple v = true ->
     pi_reftbl pi' = pi_reftbl pi /\ pi_refcount pi' = pi_refcount pi /\
     pi_out pi' = pi_out pi ++ inline_bytes v) /\
  (is_simple v = false ->
     forall i, reftbl_get (pi_reftbl pi) v = Some i ->
       pi_reftbl pi' = pi_reftbl pi /\ pi_refcount pi' = pi_refcount pi /\
       pi_out pi' = pi_out pi ++ le_encode sizeof_int (i + ERIS_REFERENCE_OFFSET)) /\
  (is_simple v = false ->
     reftbl_get (pi_reftbl pi) v = None ->
       reftbl_get (pi_reftbl pi') v = Some (pi_refcount pi + 1) /\
       pi_out (pi_bind_ref v pi) = pi_out pi /\
       exists n, fuel = S (S n) /\
         persist_keyed_new (persist n) (persist_keyed n) v v (lua_type v)
           (pi_bind_ref v pi) = Ok (tt, pi')) /\
  (forall k i, reftbl_get (pi_reftbl pi) k = Some i ->
               reftbl_get (pi_reftbl pi') k = Some i) /\
  (pi_wf pi -> pi_wf pi').
Proof.
  intros H.
  pose proof (persist_step fuel v pi tt pi' H) as [Hext Hwf].
  split; [|split; [|split; [|split]]].
  - intros Hs. destruct (persist_simple fuel v pi pi' Hs H) as (? & ? & ? & ?). auto.
  - intros Hs i Hi. destruct fuel as [|[|n]]; try discriminate.
    { rewrite persist_nonsimple in H by assumption. discriminate. }
    rewrite persist_nonsimple in H by assumption.
    rewrite (persist_keyed_known _ _ _ _ i) in H by assumption.
    apply write_Ok_out in H. tauto.
  - intros Hs Hnone. destruct fuel as [|[|n]]; try discriminate.
    { rewrite persist_nonsimple in H by assumption. discriminate. }
    rewrite persist_nonsimple in H by assumption.
    rewrite persist_keyed_fresh in H by assumption.
    split; [|split; [reflexivity | eauto]].
    pose proof (persist_keyed_new_step (persist n) (persist_keyed n)
                  (persist_step n) (persist_keyed_step n) v v (lua_type v)
                  _ _ _ H) as [(_ & _ & _ & _ & Hk & _) _].
    apply Hk. simpl. now rewrite rawequal_refl_nonsimple.
  - apply Hext.
  - exact Hwf.
Qed.

(** ** Evolution of the reader state *)

Lemma upi_ext_refl upi : upi_ext upi upi.
Proof.
  repeat split; try lia; auto. exists []. reflexivity.
Qed.

Lemma upi_ext_trans u1 u2 u3 : upi_ext u1 u2 -> upi_ext u2 u3 -> upi_ext u1 u3.
Proof.
  intros (Hp1 & Hc1 & (b1 & Hz1) & Hs1) (Hp2 & Hc2 & (b2 & Hz2) & Hs2).
  repeat split; try congruence; try lia.
  - exists (b1 ++ b2). rewrite Hz1, Hz2, app_assoc. reflexivity.
  - intros i Hi. rewrite Hs2 by lia. apply Hs1. exact Hi.
Qed.

Lemma READ_RAW_Ok size upi bs upi' :
  READ_RAW size upi = Ok (bs, upi') ->
  upi_zio upi = bs ++ upi_zio upi' /\ Z.of_nat (length bs) = size /\
  upi' = upi_set_zio (upi_zio upi') upi.
Proof.
  unfold READ_RAW. destruct (_ && _) eqn:E; [|discriminate].
  apply andb_true_iff in E as [E1 E2]. apply Z.leb_le in E1, E2.
  intros [= <- <-]. simpl. rewrite take_drop. split; [reflexivity|].
  split; [|reflexivity]. rewrite length_take. lia.
Qed.

Lemma READ_RAW_step size : preserves upi_ext (READ_RAW size).
Proof.
  intros upi bs upi' H. apply READ_RAW_Ok in H as (Hz & _ & ->).
  repeat split; simpl; try lia; auto. eauto.
Qed.

Lemma registerobject_Ok obj upi r upi' :
  registerobject obj upi = Ok (r, upi') ->
  r = upi_refcount upi + 1 /\
  upi' = upi_set_ref (upi_refcount upi + 1) obj (upi_incr_refcount upi).
Proof.
  unfold registerobject. intros H. monad_inv H. simpl. auto.
Qed.

Lemma registerobject_step obj : preserves upi_ext (registerobject obj).
Proof.
  intros upi r upi' H. apply registerobject_Ok in H as (-> & ->).
  repeat split; simpl; try lia.
  - exists []. reflexivity.
  - intros i Hi. destruct (Z.eqb_spec (upi_refcount upi + 1) i); [lia | reflexivity].
Qed.

Lemma upi_set_L_step (f : UnpersistInfo -> heap) :
  preserves upi_ext (fun upi => Ok (tt, upi_set_L (f upi) upi)).
Proof.
  intros upi u upi' [= <- <-]. repeat split; simpl; try lia; auto.
  exists []. reflexivity.
Qed.

Lemma new_object_step o : preserves upi_ext (new_object o).
Proof.
  intros upi a upi' H. unfold new_object in H. monad_inv H.
  repeat split; simpl; try lia; auto. exists []. reflexivity.
Qed.

Lemma update_object_step a o : preserves upi_ext (update_object a o).
Proof.
  intros upi u upi' H. unfold update_object in H. monad_inv H.
  repeat split; simpl; try lia; auto. exists []. reflexivity.
Qed.

Lemma reader_call_step {host : LuaHost} f args :
  preserves upi_ext
    (fun upi =>
       match lua_call f args (upi_L upi) with
       | Ok (r, h') => Ok (r, upi_set_L h' upi)
       | Err e => Err e
       | Undef => Undef
       | OutOfFuel => OutOfFuel
       end).
Proof.
  intros upi r upi'. destruct (lua_call f args (upi_L upi)) as [[r' h']| | |];
    try discriminate.
  intros [= <- <-]. repeat split; simpl; try lia; auto. exists []. reflexivity.
Qed.

Lemma READ_VALUE_step size : preserves upi_ext (READ_VALUE size).
Proof.
  unfold READ_VALUE.
  apply preserves_bind; [exact upi_ext_trans | apply READ_RAW_step | intros bs].
  apply preserves_ret. exact upi_ext_refl.
Qed.

Ltac reader_step :=
  repeat first
    [ apply READ_RAW_step
    | apply registerobject_step
    | apply new_object_step
    | apply update_object_step
    | apply reader_call_step
    | progress unfold read_lu_byte, read_ushort, read_size_t, read_lua_Number,
        read_voidp, read_short, read_int, read_ptrdiff_t, READ_VALUE,
        eris_reallocvector, the_table, the_proto, the_thread, the_lcl, the_upval,
        lua_rawset, lua_rawseti, lua_rawgeti, lua_setmetatable, update_proto,
        update_thread, copytstring, set_lcl_upval, lua_pushcclosure,
        lua_setupvalue, eris_findupval
    | match goal with
      | H : forall v, preserves upi_ext (_ v) |- preserves upi_ext _ => apply H
      end
    | preserves_step ].

Section ReaderSteps.
Context {host : LuaHost}.
Variable rec_unpersist : value -> R value.
Hypothesis rec_unpersist_step : forall top, preserves upi_ext (rec_unpersist top).

Let Hrefl := upi_ext_refl.
Let Htrans := upi_ext_trans.

Lemma u_string_step : preserves upi_ext u_string.
Proof. unfold u_string. reader_step. Qed.

Lemma u_metatable_step obj : preserves upi_ext (u_metatable rec_unpersist obj).
Proof using rec_unpersist_step. unfold u_metatable. reader_step. Qed.

Lemma u_literaltable_pairs_step rounds tbl :
  preserves upi_ext (u_literaltable_pairs rec_unpersist rounds tbl).
Proof using rec_unpersist_step.
  induction rounds as [|n IH]; simpl; reader_step.
Qed.

Lemma u_literaltable_step top :
  preserves upi_ext (u_literaltable rec_unpersist top).
Proof using rec_unpersist_step.
  unfold u_literaltable.
  apply preserves_bind; [exact Htrans | reader_step | intros tbl].
  apply preserves_bind; [exact Htrans | reader_step | intros _].
  apply preserves_bind; [exact Htrans | reader_step | intros zio].
  apply preserves_bind; [exact Htrans | apply u_literaltable_pairs_step | intros _].
  apply preserves_bind; [exact Htrans | apply u_metatable_step | intros _].
  reader_step.
Qed.

Lemma u_literaluserdata_step top :
  preserves upi_ext (u_literaluserdata rec_unpersist top).
Proof using rec_unpersist_step.
  unfold u_literaluserdata.
  do 4 (apply preserves_bind; [exact Htrans | reader_step | intros ?]).
  apply preserves_bind; [exact Htrans | apply u_metatable_step | intros _].
  reader_step.
Qed.

(** A slot reserved by [registerobject] may be rewritten at the end of the
    computation that reserved it. *)
Lemma rewrite_reserved upi0 s v obj :
  upi_ext (upi_set_ref (upi_refcount upi0 + 1) v (upi_incr_refcount upi0)) s ->
  upi_ext upi0 (upi_set_ref (upi_refcount upi0 + 1) obj s).
Proof.
  intros (Hp & Hc & (bs & Hz) & Hs). simpl in *.
  repeat split; simpl; try lia; try congruence.
  - exists bs. exact Hz.
  - intros i Hi.
    destruct (Z.eqb_spec (upi_refcount upi0 + 1) i); [lia|].
    rewrite Hs by lia. simpl.
    destruct (Z.eqb_spec (upi_refcount upi0 + 1) i); [lia | reflexivity].
Qed.

Lemma u_special_step top type literal :
  (forall t, preserves upi_ext (literal t)) ->
  preserves upi_ext (u_special rec_unpersist top type literal).
Proof using rec_unpersist_step.
  intros Hl upi a upi' H. unfold u_special in H.
  apply bind_Ok in H as (special & s1 & H1 & H).
  assert (E1 : upi_ext upi s1) by (revert H1; apply READ_VALUE_step).
  destruct (special =? 0); [eapply Htrans; [exact E1 | eapply Hl; exact H]|].
  apply bind_Ok in H as (r & s2 & H2 & H).
  apply registerobject_Ok in H2 as (-> & ->).
  apply bind_Ok in H as (sp & s3 & H3 & H). apply rec_unpersist_step in H3.
  apply bind_Ok in H as ([] & s4 & H4 & H).
  assert (s4 = s3) as -> by (destruct (lua_isfunction sp); monad_inv H4; reflexivity).
  apply bind_Ok in H as (obj & s5 & H5 & H). apply reader_call_step in H5.
  apply bind_Ok in H as ([] & s6 & H6 & H).
  assert (s6 = s5) as -> by (destruct (lua_type obj =? type); monad_inv H6; reflexivity).
  apply bind_Ok in H as ([] & s7 & H7 & H). monad_inv H7. monad_inv H.
  eapply Htrans; [exact E1|]. apply rewrite_reserved with (v := VNil).
  eapply Htrans; eassumption.
Qed.

Lemma u_permanent_step top : preserves upi_ext (u_permanent rec_unpersist top).
Proof using rec_unpersist_step.
  intros upi a upi' H. unfold u_permanent in H.
  apply bind_Ok in H as (type & s1 & H1 & H).
  assert (E1 : upi_ext upi s1) by (revert H1; unfold read_int; reader_step).
  apply bind_Ok in H as (r & s2 & H2 & H).
  apply registerobject_Ok in H2 as (-> & ->).
  apply bind_Ok in H as (pk & s3 & H3 & H). apply rec_unpersist_step in H3.
  unfold bind, gets, modify, ret in H. cbv zeta in H.
  destruct (lua_isnil _); [discriminate|].
  destruct (negb _); [discriminate|].
  injection H as <- <-.
  eapply Htrans; [exact E1|]. apply rewrite_reserved with (v := top). exact H3.
Qed.

Lemma u_proto_step top : preserves upi_ext (u_proto rec_unpersist top).
Proof using rec_unpersist_step. unfold u_proto. reader_step. Qed.

Lemma u_upval_step top : preserves upi_ext (u_upval rec_unpersist top).
Proof using rec_unpersist_step. unfold u_upval. reader_step. Qed.

Lemma u_closure_upvalue_step cl nup :
  preserves upi_ext (u_closure_upvalue rec_unpersist cl nup).
Proof using rec_unpersist_step. unfold u_closure_upvalue. reader_step. Qed.

Lemma u_closure_step top : preserves upi_ext (u_closure rec_unpersist top).
Proof using rec_unpersist_step.
  unfold u_closure.
  apply preserves_bind; [exact Htrans | reader_step | intros isC].
  apply preserves_bind; [exact Htrans | reader_step | intros nups].
  destruct (negb _).
  - reader_step.
  - do 10 (apply preserves_bind; [exact Htrans | reader_step | intros ?]).
    apply preserves_bind; [exact Htrans | | intros ?; reader_step].
    apply preserves_for_range; [exact Hrefl | exact Htrans |].
    intros i. apply u_closure_upvalue_step.
Qed.

Lemma u_thread_callinfos_step rounds th :
  preserves upi_ext (u_thread_callinfos rec_unpersist rounds th).
Proof using rec_unpersist_step.
  induction rounds as [|n IH]; simpl; reader_step.
Qed.

Lemma u_thread_patch_step tbl nuv i : preserves upi_ext (u_thread_patch tbl nuv i).
Proof. unfold u_thread_patch. reader_step. Qed.

Lemma u_thread_openupvals_step rounds th :
  preserves upi_ext (u_thread_openupvals rec_unpersist rounds th).
Proof using rec_unpersist_step.
  induction rounds as [|n IH]; simpl; [reader_step|].
  apply preserves_bind; [exact Htrans | reader_step | intros offset].
  destruct (offset =? SIZE_MOD - 1); [reader_step|].
  do 5 (apply preserves_bind; [exact Htrans | reader_step | intros ?]).
  apply preserves_bind; [exact Htrans | | intros ?].
  - destruct (lua_isnil _); [reader_step|].
    apply preserves_bind; [exact Htrans | reader_step | intros ?].
    apply preserves_for_range; [exact Hrefl | exact Htrans |].
    intros i. apply u_thread_patch_step.
  - apply preserves_bind; [exact Htrans | reader_step | intros ?]. exact IH.
Qed.

Lemma u_thread_step top : preserves upi_ext (u_thread rec_unpersist top).
Proof using rec_unpersist_step.
  unfold u_thread.
  do 10 (apply preserves_bind; [exact Htrans | reader_step | intros ?]).
  apply preserves_bind; [exact Htrans | reader_step | intros ?].
  apply preserves_bind; [exact Htrans | reader_step | intros ?].
  apply preserves_bind; [exact Htrans | apply u_thread_callinfos_step | intros ?].
  apply preserves_bind; [exact Htrans | reader_step | intros ?].
  apply preserves_bind; [exact Htrans | apply u_thread_openupvals_step | intros ?].
  reader_step.
Qed.

Lemma unpersist_body_step top : preserves upi_ext (unpersist_body rec_unpersist top).
Proof using rec_unpersist_step.
  unfold unpersist_body.
  apply preserves_bind; [exact Htrans | reader_step | intros x].
  destruct (_ <? _); [reader_step|]. cbv zeta.
  repeat match goal with
         | |- preserves _ (if ?b then _ else _) => destruct b
         end.
  - reader_step.
  - unfold u_boolean. reader_step.
  - unfold u_pointer. reader_step.
  - unfold u_number. reader_step.
  - apply u_string_step.
  - apply u_special_step. apply u_literaltable_step.
  - apply u_closure_step.
  - apply u_special_step. apply u_literaluserdata_step.
  - apply u_thread_step.
  - apply u_proto_step.
  - apply u_upval_step.
  - apply u_permanent_step.
  - reader_step.
Qed.
End ReaderSteps.

Lemma unpersist_step {host : LuaHost} fuel top : preserves upi_ext (unpersist fuel top).
Proof.
  revert top. induction fuel as [|n IH]; intros top; simpl.
  - apply preserves_out_of_fuel.
  - apply unpersist_body_step. exact IH.
Qed.

(** ** Reading back what was written *)

Lemma READ_RAW_app bs rest upi :
  upi_zio upi = bs ++ rest ->
  READ_RAW (Z.of_nat (length bs)) upi = Ok (bs, upi_set_zio rest upi).
Proof.
  intros Hz. unfold READ_RAW. rewrite Hz, length_app, Nat2Z.id.
  rewrite take_app_length, drop_app_length.
  destruct (_ && _) eqn:E; [reflexivity|].
  apply andb_false_iff in E as [E|E]; apply Z.leb_gt in E; lia.
Qed.

Lemma READ_VALUE_app n x rest upi :
  upi_zio upi = le_encode n x ++ rest ->
  READ_VALUE n upi = Ok (x mod 2 ^ (8 * Z.of_nat n), upi_set_zio rest upi).
Proof.
  intros Hz. unfold READ_VALUE.
  rewrite <- (length_le_encode n x) at 1.
  rewrite (bind_step _ _ _ _ _ (READ_RAW_app _ _ _ Hz)).
  unfold ret. now rewrite le_decode_encode.
Qed.

Lemma read_int_app x rest upi :
  - 2 ^ 31 <= x < 2 ^ 31 ->
  upi_zio upi = le_encode sizeof_int x ++ rest ->
  read_int upi = Ok (x, upi_set_zio rest upi).
Proof.
  intros Hx Hz. unfold read_int.
  rewrite (bind_step _ _ _ _ _ (READ_VALUE_app _ _ _ _ Hz)).
  unfold ret. f_equal. f_equal. apply (to_signed_wrap sizeof_int); [unfold sizeof_int; lia|].
  exact Hx.
Qed.

Lemma read_unsigned_app n x rest upi :
  0 <= x < 2 ^ (8 * Z.of_nat n) ->
  upi_zio upi = le_encode n x ++ rest ->
  READ_VALUE n upi = Ok (x, upi_set_zio rest upi).
Proof.
  intros Hx Hz. rewrite (READ_VALUE_app _ _ _ _ Hz).
  now rewrite Z.mod_small.
Qed.

(** ** Permanent values on the reader side *)


Lemma unpersist_reference {host : LuaHost} n top upi reference rest :
  0 < reference -> reference + ERIS_REFERENCE_OFFSET < 2 ^ 31 ->
  upi_zio upi = le_encode sizeof_int (reference + ERIS_REFERENCE_OFFSET) ++ rest ->
  unpersist (S n) top upi =
    let obj := reftbl_rawgeti (upi_reftbl upi) reference in
    if lua_isnil obj then Err ("invalid reference #" ++ string_of_Z reference)
    else Ok (obj, upi_set_zio rest upi).
Proof.
  intros Hpos Hr Hz. cbn [unpersist]. unfold unpersist_body.
  assert (Hrange : - 2 ^ 31 <= reference + ERIS_REFERENCE_OFFSET < 2 ^ 31).
  { unfold ERIS_REFERENCE_OFFSET, ERIS_PERMANENT, LUA_TOTALTAGS, LUA_TUPVAL,
      LUA_NUMTAGS in *. lia. }
  rewrite (bind_step _ _ _ _ _ (read_int_app _ _ _ Hrange Hz)).
  destruct (Z.ltb_spec ERIS_REFERENCE_OFFSET (reference + ERIS_REFERENCE_OFFSET));
    [|lia].
  replace (reference + ERIS_REFERENCE_OFFSET - ERIS_REFERENCE_OFFSET)
    with reference by lia.
  unfold bind, gets. cbv zeta. simpl upi_reftbl.
  destruct (lua_isnil _); reflexivity.
Qed.

(** ** Permanent values keep their identity *)


(** ** Literal tables *)


(** ** Special persistence *)

(** C7. Writer: when the metatable holds a function under [__persist], it
    is called on the object; unless the result is a function an error is
    raised, otherwise the marker byte 1 and then the returned function are
    written in place of the object.  Reader: at marker byte non-zero the next
    id is reserved with nil in its slot, the function is unpersisted and
    called, an error is raised when the kind of its result is not the kind
    of the tag, and the reserved slot is rewritten with the result. *)
Theorem special_persistence {host : LuaHost} rec literal obj pi mt pk :
  lua_getmetatable (pi_L pi) obj = Some mt ->
  lua_rawget (pi_L pi) mt (VStr persistKey) = pk ->
  lua_type pk = LUA_TFUNCTION ->
  (forall func h',
      lua_call pk [obj] (pi_L pi) = Ok (func, h') ->
      p_special rec literal obj pi =
        if lua_isfunction func
        then (write_lu_byte 1 ;; rec func) (pi_set_L h' pi)
        else Err "__persist did not return a function") /\
  (forall urec top type uliteral upi special rest,
      upi_zio upi = le_encode sizeof_lu_byte special ++ rest ->
      0 < special < 256 ->
      let reserved :=
        upi_set_ref (upi_refcount upi + 1) VNil
          (upi_incr_refcount (upi_set_zio rest upi)) in
      reftbl_rawgeti (upi_reftbl reserved) (upi_refcount upi + 1) = VNil /\
      forall spfunc upi2,
        urec top reserved = Ok (spfunc, upi2) ->
        (lua_isfunction spfunc = false ->
         u_special urec top type uliteral upi = Err "invalid restore function") /\
        (lua_isfunction spfunc = true ->
         forall res h',
           lua_call spfunc [] (upi_L upi2) = Ok (res, h') ->
           u_special urec top type uliteral upi =
             if lua_type res =? type
             then Ok (res, upi_set_ref (upi_refcount upi + 1) res (upi_set_L h' upi2))
             else Err ("bad unpersist function (" ++ typename type
                       ++ " expected, returned " ++ typename (lua_type res) ++ ")"))).
Proof.
  intros Hmt Hpk Hty. split.
  - intros func h' Hcall. unfold p_special.
    unfold bind at 1, gets at 1. cbv iota beta zeta.
    rewrite Hmt, Hpk, Hty.
    change (LUA_TFUNCTION =? LUA_TNIL) with false.
    change (LUA_TFUNCTION =? LUA_TBOOLEAN) with false.
    change (LUA_TFUNCTION =? LUA_TFUNCTION) with true. cbv iota.
    unfold bind at 1. rewrite Hcall. cbv iota beta.
    destruct (lua_isfunction func); reflexivity.
  - intros urec top type uliteral upi special rest Hz Hsp reserved.
    split; [subst reserved; simpl; now rewrite Z.eqb_refl|].
    intros spfunc upi2 Hrun.
    assert (Hread : read_lu_byte upi = Ok (special, upi_set_zio rest upi)).
    { apply read_unsigned_app; [|exact Hz]. change (2 ^ _) with 256. lia. }
    assert (Hpre : u_special urec top type uliteral upi =
                   (spfunc <- ret spfunc ;;
                    (if lua_isfunction spfunc then ret tt
                     else eris_error "invalid restore function") ;;
                    res <- (fun upi =>
                              match lua_call spfunc [] (upi_L upi) with
                              | Ok (r, h') => Ok (r, upi_set_L h' upi)
                              | Err e => Err e
                              | Undef => Undef
                              | OutOfFuel => OutOfFuel
                              end) ;;
                    (if lua_type res =? type then ret tt
                     else eris_error ("bad unpersist function (" ++ typename type
                                      ++ " expected, returned "
                                      ++ typename (lua_type res) ++ ")")) ;;
                    modify (upi_set_ref (upi_refcount upi + 1) res) ;;
                    ret res) upi2).
    { unfold u_special. rewrite (bind_step _ _ _ _ _ Hread).
      destruct (Z.eqb_spec special 0); [lia|].
      unfold registerobject.
      unfold bind at 1. unfold bind at 1. unfold bind at 1, modify at 1.
      cbv iota beta. unfold bind at 1, gets at 1. cbv iota beta.
      unfold bind at 1, modify at 1. cbv iota beta. unfold ret at 1. cbv iota beta.
      unfold bind at 1.
      change (upi_set_ref _ VNil _) with reserved. rewrite Hrun. cbv iota beta.
      reflexivity. }
    split.
    + intros Hf. rewrite Hpre. unfold bind at 1. unfold ret at 1. cbv iota beta.
      rewrite Hf. reflexivity.
    + intros Hf res h' Hcall. rewrite Hpre.
      unfold bind at 1. unfold ret at 1. cbv iota beta. rewrite Hf.
      unfold bind at 1. unfold ret at 1. cbv iota beta.
      unfold bind at 1. rewrite Hcall. cbv iota beta.
      destruct (lua_type res =? type); reflexivity.
Qed.

(** ** Threads the writer rejects *)

Lemma WRITE_RAW_cases bs pi :
  (exists pi', WRITE_RAW bs pi = Ok (tt, pi')) \/
  WRITE_RAW bs pi = Err "could not write data".
Proof.
  unfold WRITE_RAW. destruct (writer bs (pi_ud pi)); eauto.
Qed.

Lemma p_callinfo_hook_yielded {host : LuaHost} rec t ci last pi :
  hook_yielded ci ->
  p_callinfo rec t ci last pi = Err "cannot persist yielded hooks" \/
  p_callinfo rec t ci last pi = Err "could not write data".
Proof.
  intros Hy. unfold p_callinfo.
  unfold write_size_t, write_short, write_lu_byte, write_ptrdiff_t, WRITE_VALUE.
  repeat match goal with
         | |- context [bind (WRITE_RAW ?bs) ?f ?s] =>
             destruct (WRITE_RAW_cases bs s) as [[? Hw]|Hw];
             [rewrite (bind_step _ _ _ _ _ Hw); clear Hw
             | rewrite (bind_Err _ _ _ _ Hw); now right]
         end.
  left. unfold hook_yielded in Hy.
  destruct (Z.eqb_spec (Z.land (ci_callstatus ci) CIST_HOOKYIELD) 0); [contradiction|].
  reflexivity.
Qed.

Lemma bind_not_Ok_cont {S A B : Type} (m : M S A) (f : A -> M S B) s :
  (forall a s1 r, f a s1 <> Ok r) -> forall r, bind m f s <> Ok r.
Proof.
  intros H r. unfold bind. destruct (m s) as [[a s1]| | |]; try discriminate.
  apply H.
Qed.

Lemma p_callinfos_hook_yielded {host : LuaHost} rec t cis pi :
  Exists hook_yielded cis -> forall r, p_callinfos rec t cis pi <> Ok r.
Proof.
  intros Hex. revert pi. induction cis as [|ci rest IH]; intros pi r.
  - inversion Hex.
  - cbn [p_callinfos]. destruct rest as [|ci2 rest'].
    + inversion Hex as [? ? Hy|? ? Hy]; [|inversion Hy].
      destruct (p_callinfo_hook_yielded rec t ci true pi Hy) as [-> | ->]; discriminate.
    + inversion Hex as [? ? Hy|? ? Hy]; subst.
      * apply bind_not_Ok. intros r'.
        destruct (p_callinfo_hook_yielded rec t ci false pi Hy) as [-> | ->];
          discriminate.
      * unfold bind. destruct (p_callinfo rec t ci false pi) as [[[] s]| | |];
          try discriminate. apply IH. exact Hy.
Qed.


(** ** The Lua-facing entry points *)


(** ** The stream has no header *)

Lemma persist_first_word {host : LuaHost} fuel v pi pi' :
  pi_reftbl pi = [] ->
  persist fuel v pi = Ok (tt, pi') ->
  exists bs,
    pi_out pi' =
      pi_out pi ++
      le_encode sizeof_int
        (if is_simple v then lua_type v
         else if lua_isnil (lua_gettable (pi_L pi) (pi_perms pi) v)
              then lua_type v else ERIS_PERMANENT) ++ bs.
Proof.
  intros Hrt H. destruct (is_simple v) eqn:Es.
  - destruct (persist_simple fuel v pi pi' Es H) as (_ & _ & _ & Ho).
    rewrite Ho. unfold inline_bytes. eauto.
  - destruct fuel as [|[|n]]; try discriminate.
    { rewrite persist_nonsimple in H by assumption. discriminate. }
    rewrite persist_nonsimple in H by assumption.
    rewrite persist_keyed_fresh in H by (now rewrite Hrt).
    unfold persist_keyed_new in H.
    apply bind_Ok in H as (h & ? & Hg & H). monad_inv Hg.
    apply bind_Ok in H as (p & ? & Hg & H). monad_inv Hg.
    cbv zeta in H. simpl pi_L in H. simpl pi_perms in H.
    destruct (lua_isnil _).
    + unfold persist_typed in H. apply bind_Ok in H as ([] & s1 & Hw & H).
      apply write_Ok_out in Hw as (_ & _ & _ & _ & _ & Ho).
      pose proof (persist_typed_switch_step (persist n) (persist_keyed n)
                    (persist_step n) (persist_keyed_step n) _ _ _ _ _ H)
        as [(_ & _ & _ & (bs & Hb & _) & _) _].
      exists bs. rewrite Hb, Ho, <- app_assoc. reflexivity.
    + apply bind_Ok in H as ([] & s1 & Hw & H).
      apply write_Ok_out in Hw as (_ & _ & _ & _ & _ & Ho).
      assert (Hs : pi_step s1 pi').
      { revert H. apply preserves_bind;
          [exact pi_step_trans | apply WRITE_VALUE_step | intros _; apply persist_step]. }
      destruct Hs as [(_ & _ & _ & (bs & Hb & _) & _) _].
      exists bs. rewrite Hb, Ho, <- app_assoc. reflexivity.
Qed.

Lemma unpersist_tag {host : LuaHost} n top upi type rest :
  0 <= type <= ERIS_PERMANENT ->
  upi_zio upi = le_encode sizeof_int type ++ rest ->
  unpersist (S n) top upi =
    (let rec := unpersist n in
     if type =? LUA_TNIL then ret VNil
     else if type =? LUA_TBOOLEAN then u_boolean
     else if type =? LUA_TLIGHTUSERDATA then u_pointer
     else if type =? LUA_TNUMBER then u_number
     else if type =? LUA_TSTRING then u_string
     else if type =? LUA_TTABLE then u_table rec top
     else if type =? LUA_TFUNCTION then u_closure rec top
     else if type =? LUA_TUSERDATA then u_userdata rec top
     else if type =? LUA_TTHREAD then u_thread rec top
     else if type =? LUA_TPROTO then u_proto rec top
     else if type =? LUA_TUPVAL then u_upval rec top
     else if type =? ERIS_PERMANENT then u_permanent rec top
     else eris_error ("trying to unpersist unknown type " ++ string_of_Z type))
      (upi_set_zio rest upi).
Proof.
  intros Ht Hz. cbn [unpersist]. unfold unpersist_body.
  assert (Hr : - 2 ^ 31 <= type < 2 ^ 31).
  { unfold ERIS_PERMANENT, LUA_TOTALTAGS, LUA_TUPVAL, LUA_NUMTAGS in Ht. lia. }
  rewrite (bind_step _ _ _ _ _ (read_int_app _ _ _ Hr Hz)).
  destruct (Z.ltb_spec ERIS_REFERENCE_OFFSET type); [|reflexivity].
  unfold ERIS_REFERENCE_OFFSET in *. lia.
Qed.

Lemma unpersist_simple {host : LuaHost} n top upi v rest :
  simple_wf v ->
  upi_zio upi = inline_bytes v ++ rest ->
  unpersist (S n) top upi = Ok (v, upi_set_zio rest upi).
Proof.
  intros Hwf Hz. unfold inline_bytes in Hz. rewrite <- app_assoc in Hz.
  destruct v as [|b|[w| |]|x| | | | | | |]; try contradiction; simpl in Hwf.
  - rewrite (unpersist_tag n top upi LUA_TNIL _ ltac:(cbv; split; congruence) Hz).
    reflexivity.
  - rewrite (unpersist_tag n top upi LUA_TBOOLEAN _ ltac:(cbv; split; congruence) Hz).
    cbv zeta. change (LUA_TBOOLEAN =? LUA_TNIL) with false.
    change (LUA_TBOOLEAN =? LUA_TBOOLEAN) with true. cbv iota.
    unfold u_boolean.
    assert (Hb : 0 <= Z_of_bool b < 2 ^ (8 * Z.of_nat sizeof_lu_byte))
      by (destruct b; cbv; split; congruence).
    erewrite (bind_step _ _ _ _ _
                (read_unsigned_app sizeof_lu_byte (Z_of_bool b) rest
                   (upi_set_zio _ upi) Hb eq_refl)).
    unfold ret. simpl. destruct b; reflexivity.
  - rewrite (unpersist_tag n top upi LUA_TLIGHTUSERDATA _
               ltac:(cbv; split; congruence) Hz).
    cbv zeta. change (LUA_TLIGHTUSERDATA =? LUA_TNIL) with false.
    change (LUA_TLIGHTUSERDATA =? LUA_TBOOLEAN) with false.
    change (LUA_TLIGHTUSERDATA =? LUA_TLIGHTUSERDATA) with true. cbv iota.
    unfold u_pointer, read_voidp.
    erewrite (bind_step _ _ _ _ _
                (read_unsigned_app sizeof_voidp w rest (upi_set_zio _ upi) Hwf eq_refl)).
    reflexivity.
  - rewrite (unpersist_tag n top upi LUA_TNUMBER _ ltac:(cbv; split; congruence) Hz).
    cbv zeta. change (LUA_TNUMBER =? LUA_TNIL) with false.
    change (LUA_TNUMBER =? LUA_TBOOLEAN) with false.
    change (LUA_TNUMBER =? LUA_TLIGHTUSERDATA) with false.
    change (LUA_TNUMBER =? LUA_TNUMBER) with true. cbv iota.
    unfold u_number, read_lua_Number.
    erewrite (bind_step _ _ _ _ _
                (read_unsigned_app sizeof_lua_Number x rest (upi_set_zio _ upi)
                   Hwf eq_refl)).
    reflexivity.
Qed.

(** C2 (as the code has it).  [unchecked_persist] writes no header: the
    output starts with the framing word of the top-level value, and for a
    simple value it is exactly the inline encoding of that value.
    [unchecked_unpersist] reads no header and checks no widths: it decodes
    the top-level value from the first byte of the input, so the inline
    encoding of a simple value alone is a complete stream. *)
Theorem stream_has_no_header {host : LuaHost} fuel h running perms rootobj buff h' :
  unchecked_persist fuel h running perms rootobj empty_Mbuffer = Ok (buff, h') ->
  (exists bs,
      buffer buff =
        le_encode sizeof_int (root_framing_word h perms rootobj) ++ bs) /\
  (is_simple rootobj = true -> buffer buff = inline_bytes rootobj) /\
  (forall n hr rperms top v rest,
      simple_wf v ->
      unchecked_unpersist (S n) hr rperms top (inline_bytes v ++ rest) =
        Ok (v, populateperms true rperms hr)).
Proof.
  intros H. unfold unchecked_persist in H.
  destruct (persist fuel rootobj _) as [[[] pi']| | |] eqn:E; try discriminate.
  injection H as <- <-.
  split; [|split].
  - apply persist_first_word in E as (bs & Hb); [|reflexivity].
    exists bs. unfold pi_out in Hb. simpl in Hb. exact Hb.
  - intros Hs. destruct (persist_simple _ _ _ _ Hs E) as (_ & _ & _ & Ho).
    unfold pi_out in Ho. simpl in Ho. exact Ho.
  - intros n hr rperms top v rest Hv. unfold unchecked_unpersist.
    erewrite unpersist_simple; [reflexivity | exact Hv | reflexivity].
Qed.

(** ** Concrete runs *)

Lemma writer_reference_discipline_witness :
  persist (host := plain_host) 3 (VStr (bytes_of "hello")) hello_pi = Ok (tt, hello_pi') /\
  reftbl_get (pi_reftbl hello_pi') (VStr (bytes_of "hello")) = Some 1 /\
  (pi_wf hello_pi -> pi_wf hello_pi').
Proof.
  assert (H : persist (host := plain_host) 3 (VStr (bytes_of "hello")) hello_pi
              = Ok (tt, hello_pi')) by (vm_compute; reflexivity).
  pose proof (writer_reference_discipline (host := plain_host) 3
                (VStr (bytes_of "hello")) hello_pi hello_pi' H)
    as (_ & _ & H3 & _ & H5).
  split; [exact H|]. split; [|exact H5].
  apply H3; reflexivity.
Defined.

(** Boundary scenario 1: ["hello"] comes back from its bytes. *)
Example roundtrip_hello :
  l_persist (host := plain_host) 3 hello_heap 1%nat [VTable 0%nat; VStr (bytes_of "hello")]
    = Ok (VStr hello_bytes, hello_heap) /\
  l_unpersist (host := plain_host) 3 hello_heap [VTable 0%nat; VStr hello_bytes]
    = Ok (VStr (bytes_of "hello"), hello_heap).
Proof. split; vm_compute; reflexivity. Qed.

(** Permanents: the reader's perms table substitutes its own function. *)
Example permanent_substituted :
  persist (host := plain_host) 4 (VLCF 7) perm_pi
    = Ok (tt, run_W (persist (host := plain_host) 4 (VLCF 7) perm_pi) perm_pi) /\
  unpersist (host := plain_host) 3 VNil (start_upi (unperm_heap (VLCF 8)) 0%nat perm_bytes)
    = Ok (VLCF 8,
          run_R (unpersist (host := plain_host) 3 VNil
                   (start_upi (unperm_heap (VLCF 8)) 0%nat perm_bytes))
                (start_upi [] 0%nat [])).
Proof. split; vm_compute; reflexivity. Qed.

(** Permanents: a number where a function was persisted is a type mismatch. *)
Example permanent_type_mismatch :
  unpersist (host := plain_host) 3 VNil
    (start_upi (unperm_heap (VNum (cast_num 42))) 0%nat perm_bytes)
  = Err "bad permanent value (function expected, got number)".
Proof. vm_compute. reflexivity. Qed.



Example roundtrip_cyclic_table :
  l_persist (host := plain_host) 4 cyclic_heap 9%nat [VTable 0%nat; VTable 1%nat]
    = Ok (VStr cyclic_bytes, cyclic_heap) /\
  l_unpersist (host := plain_host) 4 cyclic_heap [VTable 0%nat; VStr cyclic_bytes]
    = Ok (VTable 2%nat, cyclic_heap ++ [OTable (cyclic_table 2%nat)]).
Proof. split; vm_compute; reflexivity. Qed.


Lemma special_persistence_witness :
  lua_getmetatable (pi_L special_pi) (VTable 2%nat) = Some 1%nat /\
  lua_type (VLCF 1) = LUA_TFUNCTION /\
  p_special (host := special_host) (persist (host := special_host) 3)
    (p_literaltable (persist (host := special_host) 3)) (VTable 2%nat) special_pi =
    (write_lu_byte 1 ;; persist (host := special_host) 3 (VLCF 2)) special_pi.
Proof.
  assert (H1 : lua_getmetatable (pi_L special_pi) (VTable 2%nat) = Some 1%nat)
    by reflexivity.
  assert (H2 : lua_rawget (pi_L special_pi) 1%nat (VStr persistKey) = VLCF 1)
    by (vm_compute; reflexivity).
  assert (H3 : lua_type (VLCF 1) = LUA_TFUNCTION) by reflexivity.
  split; [exact H1|]. split; [exact H3|].
  exact (proj1 (special_persistence (host := special_host)
                  (persist (host := special_host) 3)
                  (p_literaltable (persist (host := special_host) 3))
                  (VTable 2%nat) special_pi 1%nat (VLCF 1) H1 H2 H3)
               (VLCF 2) special_heap eq_refl).
Defined.

(** Header: what [persist(nil)] writes and what [unpersist] accepts. *)
Lemma header_absent :
  l_persist (host := plain_host) 1 [] 0%nat [VNil]
    = Ok (VStr (le_encode sizeof_int LUA_TNIL), [OTable empty_table]) /\
  l_unpersist (host := plain_host) 1 [] [VStr (le_encode sizeof_int LUA_TNIL)]
    = Ok (VNil, [OTable empty_table]).
Proof. split; vm_compute; reflexivity. Qed.

Lemma stream_has_no_header_witness :
  unchecked_persist (host := plain_host) 1 hello_heap 1%nat 0%nat (VBool true)
    empty_Mbuffer
    = Ok ({| buffer := inline_bytes (VBool true); buffsize := 8 |}, hello_heap) /\
  buffer {| buffer := inline_bytes (VBool true); buffsize := 8 |}
    = inline_bytes (VBool true).
Proof.
  assert (H : unchecked_persist (host := plain_host) 1 hello_heap 1%nat 0%nat
                (VBool true) empty_Mbuffer
              = Ok ({| buffer := inline_bytes (VBool true); buffsize := 8 |},
                    hello_heap)) by (vm_compute; reflexivity).
  split; [exact H|].
  exact (proj1 (proj2 (stream_has_no_header (host := plain_host) 1 hello_heap 1%nat
                         0%nat (VBool true) _ hello_heap H)) eq_refl).
Defined.


(** ** Integer keys *)

Lemma cast_num_1 : cast_num 1 = 1023 * 2 ^ 52.
Proof. reflexivity. Qed.

Lemma cast_num_2 : cast_num 2 = 1024 * 2 ^ 52.
Proof. reflexivity. Qed.

Lemma cast_num_ge3 i : 3 <= i -> 1024 * 2 ^ 52 < cast_num i.
Proof.
  intros Hi. unfold cast_num.
  destruct (Z.eqb_spec i 0) as [|_]; [lia|].
  destruct (Z.ltb_spec i 0) as [|_]; [lia|].
  rewrite Z.abs_eq by lia.
  assert (He : 1 <= Z.log2 i) by (apply Z.log2_le_pow2; simpl; lia).
  destruct (Z.log2_spec i) as [Hlo Hhi]; [lia|].
  destruct (Z.eq_dec (Z.log2 i) 1) as [E1|N1].
  - rewrite E1 in *. change (2 ^ 1) with 2 in Hlo. change (2 ^ Z.succ 1) with 4 in Hhi.
    assert (i = 3) by lia. subst i. change (52 - 1) with 51. lia.
  - assert (0 <= i * 2 ^ (52 - Z.log2 i)).
    { apply Z.mul_nonneg_nonneg; [lia|]. apply Z.pow_nonneg. lia. }
    nia.
Qed.

Lemma numeq_small_key i j :
  3 <= i -> (j = 1 \/ j = 2) -> luai_numeq (cast_num i) (cast_num j) = false.
Proof.
  intros Hi Hj. pose proof (cast_num_ge3 i Hi) as Hc.
  unfold luai_numeq.
  assert (Hj' : cast_num j <= 1024 * 2 ^ 52 /\ num_iszero (cast_num j) = false).
  { destruct Hj as [-> | ->]; split; try reflexivity; rewrite ?cast_num_1, ?cast_num_2; lia. }
  destruct Hj' as [Hle Hz]. rewrite Hz, andb_false_r, orb_false_r.
  destruct (Z.eqb_spec (cast_num i) (cast_num j)); [lia|].
  now rewrite andb_false_r.
Qed.

Lemma numeq_1_2 : luai_numeq (cast_num 2) (cast_num 1) = false.
Proof. reflexivity. Qed.

(** ** Tables as finite maps *)

Lemma luaH_get_set_eq ps k v k2 :
  luaV_rawequalobj k k2 = true -> lua_isnil v = false ->
  luaH_get (luaH_set ps k v) k2 = v.
Proof.
  intros Hk Hv. induction ps as [|[k' v'] r IH]; simpl.
  - rewrite Hv. simpl. now rewrite Hk.
  - destruct (luaV_rawequalobj k' k) eqn:E.
    + rewrite Hv. simpl. now rewrite (rawequal_trans _ _ _ E Hk).
    + simpl.
      destruct (luaV_rawequalobj k' k2) eqn:E2; [|exact IH].
      rewrite rawequal_sym in Hk.
      rewrite (rawequal_trans _ _ _ E2 Hk) in E. discriminate.
Qed.

Lemma luaH_get_set_other ps k v k2 :
  luaV_rawequalobj k k2 = false ->
  luaH_get (luaH_set ps k v) k2 = luaH_get ps k2.
Proof.
  intros Hk. induction ps as [|[k' v'] r IH]; simpl.
  - destruct (lua_isnil v); simpl; [reflexivity|]. now rewrite Hk.
  - destruct (luaV_rawequalobj k' k) eqn:E.
    + assert (E2 : luaV_rawequalobj k' k2 = false).
      { destruct (luaV_rawequalobj k' k2) eqn:E2; [|reflexivity].
        rewrite <- Hk. symmetry. eapply rawequal_trans; [|exact E2].
        now rewrite rawequal_sym. }
      destruct (lua_isnil v); simpl; now rewrite E2.
    + simpl. destruct (luaV_rawequalobj k' k2); [reflexivity | exact IH].
Qed.

(** ** The heap under allocation and update *)

Lemma lookup_alloc_old (h : heap) (o : obj) (a : addr) :
  (a < length h)%nat -> (h ++ [o]) !! a = h !! a.
Proof. intros H. now apply lookup_app_l. Qed.

Lemma lookup_alloc_new (h : heap) (o : obj) : (h ++ [o]) !! length h = Some o.
Proof. rewrite lookup_app_r by lia. now rewrite Nat.sub_diag. Qed.

Lemma lookup_Some_lt (h : heap) (a : addr) (o : obj) : h !! a = Some o -> (a < length h)%nat.
Proof. apply lookup_lt_Some. Qed.

Lemma lookup_update_ne (h : heap) (a b : addr) (o : obj) :
  a <> b -> <[a := o]> h !! b = h !! b.
Proof. apply list_lookup_insert_ne. Qed.

Lemma lookup_update_eq (h : heap) (a : addr) (o : obj) :
  (a < length h)%nat -> <[a := o]> h !! a = Some o.
Proof. apply list_lookup_insert_eq. Qed.

Lemma update_ge (h : heap) (a : addr) (o : obj) :
  (length h <= a)%nat -> <[a := o]> h = h.
Proof. apply list_insert_ge. Qed.

Lemma length_update (h : heap) (a : addr) (o : obj) : length (<[a := o]> h) = length h.
Proof. apply length_insert. Qed.

Lemma length_alloc (h : heap) (o : obj) : length (h ++ [o]) = S (length h).
Proof. rewrite length_app. simpl. lia. Qed.

Lemma lookup_heap_ge (h : heap) (a : addr) : (length h <= a)%nat -> h !! a = None.
Proof. apply lookup_ge_None_2. Qed.

Lemma heap_table_Some h a t : heap_table h a = Some t <-> h !! a = Some (OTable t).
Proof.
  unfold heap_table. destruct (h !! a) as [[]|]; split; intros H; congruence.
Qed.

Lemma heap_lcl_Some h a c : heap_lcl h a = Some c <-> h !! a = Some (OLCl c).
Proof.
  unfold heap_lcl. destruct (h !! a) as [[]|]; split; intros H; congruence.
Qed.

Lemma heap_upval_Some h a u : heap_upval h a = Some u <-> h !! a = Some (OUpVal u).
Proof.
  unfold heap_upval. destruct (h !! a) as [[]|]; split; intros H; congruence.
Qed.

(** ** Runs of the primitive reader operations *)

Lemma lua_rawgeti_Ok t i s v s' :
  lua_rawgeti t i s = Ok (v, s') ->
  s' = s /\ exists tb, heap_table (upi_L s) t = Some tb /\ v = record_slot (upi_L s) t i.
Proof.
  unfold lua_rawgeti, the_table. intros H. monad_inv H.
  split; [reflexivity|]. eexists. split; [eassumption|].
  unfold record_slot, lua_rawget. now rewrite Eopt.
Qed.

Lemma lua_rawseti_Ok t i v s u s' :
  lua_rawseti t i v s = Ok (u, s') ->
  exists tb, heap_table (upi_L s) t = Some tb /\
    s' = upi_set_L (<[t := OTable (set_pairs tb (luaH_set (t_pairs tb) (VNum (cast_num i)) v))]>
                      (upi_L s)) s.
Proof.
  unfold lua_rawseti, the_table, update_object. intros H. monad_inv H.
  eexists. split; [eassumption | reflexivity].
Qed.

Lemma set_lcl_upval_Ok cl k uv s u s' :
  set_lcl_upval cl k uv s = Ok (u, s') ->
  exists c, heap_lcl (upi_L s) cl = Some c /\ (k < length (l_upvals c))%nat /\
    s' = upi_set_L (<[cl := OLCl {| l_p := l_p c; l_upvals := <[k := Some uv]> (l_upvals c) |}]>
                      (upi_L s)) s.
Proof.
  unfold set_lcl_upval, the_lcl, update_object. intros H. monad_inv H.
  match goal with
  | H : (if ?b then _ else _) _ = Ok _ |- _ => destruct b eqn:E; monad_inv H
  end.
  apply Nat.ltb_lt in E. eexists. split; [eassumption|]. split; [exact E | reflexivity].
Qed.


Lemma first_free_ge ps i n j : first_free ps i n = Some j -> i <= j.
Proof.
  revert i. induction n as [|n IH]; intros i; simpl; [discriminate|].
  destruct (lua_isnil _).
  - intros [= <-]. lia.
  - intros H. apply IH in H. lia.
Qed.

Lemma record_slot_insert_other h a o tbl i :
  a <> tbl -> record_slot (<[a := o]> h) tbl i = record_slot h tbl i.
Proof.
  intros Hne. unfold record_slot, lua_rawget, heap_table.
  now rewrite lookup_update_ne.
Qed.

Lemma record_slot_alloc h o tbl i :
  (tbl < length h)%nat -> record_slot (h ++ [o]) tbl i = record_slot h tbl i.
Proof.
  intros Hlt. unfold record_slot, lua_rawget, heap_table.
  now rewrite lookup_alloc_old.
Qed.

Lemma record_slot_set h tbl tb i v j :
  h !! tbl = Some (OTable tb) -> lua_isnil v = false ->
  record_slot (<[tbl := OTable (set_pairs tb (luaH_set (t_pairs tb) (VNum (cast_num i)) v))]> h)
              tbl j
  = if luai_numeq (cast_num i) (cast_num j) then v else record_slot h tbl j.
Proof.
  intros Htb Hv. pose proof (lookup_Some_lt _ _ _ Htb) as Hlt.
  unfold record_slot, lua_rawget, heap_table.
  rewrite lookup_update_eq by exact Hlt. rewrite Htb. simpl.
  destruct (luai_numeq (cast_num i) (cast_num j)) eqn:E.
  - apply luaH_get_set_eq; assumption.
  - apply luaH_get_set_other. exact E.
Qed.

Lemma closure_upval_insert_other h a o f j :
  a <> f -> closure_upval (<[a := o]> h) (VLCl f) j = closure_upval h (VLCl f) j.
Proof.
  intros Hne. unfold closure_upval, heap_lcl. now rewrite lookup_update_ne.
Qed.

Lemma closure_upval_insert_nonclosure h a o f j :
  (forall c, o <> OLCl c) -> (forall c, h !! a <> Some (OLCl c)) ->
  closure_upval (<[a := o]> h) (VLCl f) j = closure_upval h (VLCl f) j.
Proof.
  intros Ho Ha. destruct (decide (a = f)) as [->|Hne].
  - unfold closure_upval, heap_lcl.
    destruct (decide (f < length h)%nat) as [Hlt|Hge].
    + rewrite lookup_update_eq by exact Hlt.
      assert (Hf : match h !! f with Some (OLCl c) => False | _ => True end).
      { destruct (h !! f) as [[]|] eqn:E; try exact I. exact (Ha _ E). }
      destruct o; try (destruct (h !! f) as [[]|]; (reflexivity || contradiction)).
      exfalso. eapply Ho. reflexivity.
    + rewrite update_ge by lia. reflexivity.
  - now apply closure_upval_insert_other.
Qed.

Lemma closure_upval_alloc h o f j :
  (forall c, o <> OLCl c) ->
  closure_upval (h ++ [o]) (VLCl f) j = closure_upval h (VLCl f) j.
Proof.
  intros Ho. unfold closure_upval, heap_lcl.
  destruct (decide (f < length h)%nat) as [Hlt|Hge].
  - now rewrite lookup_alloc_old.
  - destruct (decide (f = length h)) as [->|Hne].
    + rewrite lookup_alloc_new. rewrite (lookup_heap_ge h) by lia.
      destruct o; try reflexivity. exfalso. eapply Ho. reflexivity.
    + rewrite (lookup_heap_ge h) by lia.
      rewrite (lookup_heap_ge (h ++ [o])) by (rewrite length_alloc; lia).
      reflexivity.
Qed.

Lemma upi_L_set_L h s : upi_L (upi_set_L h s) = h.
Proof. reflexivity. Qed.

Lemma new_object_run o s :
  new_object o s = Ok (length (upi_L s), upi_set_L (upi_L s ++ [o]) s).
Proof. reflexivity. Qed.

Lemma update_object_run a o s :
  update_object a o s = Ok (tt, upi_set_L (<[a := o]> (upi_L s)) s).
Proof. reflexivity. Qed.

Lemma registerobject_run v s :
  registerobject v s
  = Ok (upi_refcount s + 1, upi_set_ref (upi_refcount s + 1) v (upi_incr_refcount s)).
Proof. reflexivity. Qed.

(** The first half of a round: the closure slot is pointed at the upvalue
    the record names, or at a new one that the record then names. *)
Lemma u_closure_upvalue_choice cl k tbl s1 uv s0 :
  (if lua_isnil (record_slot (upi_L s1) tbl 2) then
     nuv <- new_object (OUpVal {| uv_v := UvClosed; uv_value := VNil |}) ;;
     set_lcl_upval cl k nuv ;;
     lua_rawseti tbl 2 (VLight (PObj nuv)) ;;
     ret nuv
   else
     ouv <- lift_opt (match lua_touserdata (record_slot (upi_L s1) tbl 2) with
                      | PObj u => Some u
                      | _ => None
                      end) ;;
     set_lcl_upval cl k ouv ;;
     ret ouv) s1 = Ok (uv, s0) ->
  s0 = upi_set_L (upi_L s0) s1 /\
  (if lua_isnil (record_slot (upi_L s1) tbl 2) then uv = length (upi_L s1)
   else lua_touserdata (record_slot (upi_L s1) tbl 2) = PObj uv) /\
  closure_upval (upi_L s0) (VLCl cl) k = Some uv /\
  lua_touserdata (record_slot (upi_L s0) tbl 2) = PObj uv /\
  record_slot (upi_L s0) tbl 1 = record_slot (upi_L s1) tbl 1 /\
  (forall f j, (f, j) <> (cl, k) ->
               closure_upval (upi_L s0) (VLCl f) j = closure_upval (upi_L s1) (VLCl f) j).
Proof.
  destruct (lua_isnil (record_slot (upi_L s1) tbl 2)) eqn:Enil; intros H.
  - apply bind_Ok in H as (nuv & sa & Hnew & H).
    rewrite new_object_run in Hnew. injection Hnew as Hn Hs. subst nuv sa.
    apply bind_Ok in H as ([] & sb & Hset & H).
    apply set_lcl_upval_Ok in Hset as (c & Hc & Hk & ->).
    apply bind_Ok in H as ([] & sc & Hrs & H).
    apply lua_rawseti_Ok in Hrs as (tb & Htb & ->).
    injection H as Hn Hs. subst uv s0. rewrite !upi_L_set_L in *.
    set (h1 := upi_L s1) in *.
    apply heap_lcl_Some in Hc. apply heap_table_Some in Htb.
    pose proof (lookup_Some_lt _ _ _ Hc) as Hcl. rewrite length_alloc in Hcl.
    assert (Hne : cl <> tbl).
    { intros ->. rewrite lookup_update_eq in Htb; [discriminate|].
      rewrite length_alloc. exact Hcl. }
    pose proof Htb as Htb'.
    rewrite lookup_update_ne in Htb by exact Hne.
    split; [reflexivity|].
    split; [reflexivity|]. split; [|split; [|split]].
    + unfold closure_upval, heap_lcl.
      rewrite lookup_update_ne by congruence.
      rewrite lookup_update_eq by (rewrite length_alloc; exact Hcl).
      simpl. rewrite list_lookup_insert_eq by exact Hk. reflexivity.
    + rewrite (record_slot_set _ _ _ 2 (VLight (PObj (length h1))) 2 Htb' eq_refl).
      change (luai_numeq (cast_num 2) (cast_num 2)) with true. reflexivity.
    + rewrite (record_slot_set _ _ _ 2 (VLight (PObj (length h1))) 1 Htb' eq_refl).
      change (luai_numeq (cast_num 2) (cast_num 1)) with false. cbv iota.
      rewrite record_slot_insert_other by exact Hne.
      apply record_slot_alloc.
      pose proof (lookup_Some_lt _ _ _ Htb) as Htl. rewrite length_alloc in Htl.
      destruct (decide (tbl = length h1)) as [->|]; [|lia].
      rewrite lookup_alloc_new in Htb. discriminate.
    + intros f j Hfj.
      rewrite closure_upval_insert_nonclosure.
      2: { intros c0. discriminate. }
      2: { intros c0 Hx.
           assert (Hy : Some (OLCl c0) = Some (OTable tb))
             by (etransitivity; [symmetry; exact Hx | exact Htb']).
           discriminate Hy. }
      destruct (decide (f = cl)) as [->|Hf].
      * unfold closure_upval, heap_lcl.
        rewrite lookup_update_eq by (rewrite length_alloc; exact Hcl).
        simpl.
        assert (j <> k) by congruence.
        destruct (decide (cl = length h1)) as [->|Hn].
        { rewrite lookup_alloc_new in Hc. discriminate. }
        rewrite lookup_alloc_old in Hc by lia. rewrite Hc.
        now rewrite list_lookup_insert_ne by congruence.
      * rewrite closure_upval_insert_other by congruence.
        apply closure_upval_alloc. intros c0. discriminate.
  - apply bind_Ok in H as (ouv & sa & Hptr & H).
    apply lift_opt_Ok in Hptr as [Hptr ->].
    apply bind_Ok in H as ([] & sb & Hset & H).
    apply set_lcl_upval_Ok in Hset as (c & Hc & Hk & ->).
    injection H as Hn Hs. subst ouv s0. rewrite !upi_L_set_L in *.
    set (h1 := upi_L s1) in *.
    apply heap_lcl_Some in Hc.
    pose proof (lookup_Some_lt _ _ _ Hc) as Hcl.
    assert (Hst : lua_touserdata (record_slot h1 tbl 2) = PObj uv).
    { destruct (lua_touserdata (record_slot h1 tbl 2)); congruence. }
    assert (Hne : cl <> tbl).
    { intros ->. unfold record_slot, lua_rawget, heap_table in Enil.
      rewrite Hc in Enil. discriminate. }
    split; [reflexivity|].
    split; [exact Hst|]. split; [|split; [|split]].
    + unfold closure_upval, heap_lcl. rewrite lookup_update_eq by exact Hcl.
      simpl. rewrite list_lookup_insert_eq by exact Hk. reflexivity.
    + rewrite record_slot_insert_other by exact Hne. exact Hst.
    + apply record_slot_insert_other. exact Hne.
    + intros f j Hfj. destruct (decide (f = cl)) as [->|Hf].
      * unfold closure_upval, heap_lcl. rewrite lookup_update_eq by exact Hcl.
        rewrite Hc. simpl. assert (j <> k) by congruence.
        now rewrite list_lookup_insert_ne by congruence.
      * apply closure_upval_insert_other. congruence.
Qed.

(** One round of the upvalue loop, whatever [rec_unpersist] is: the record
    is obtained, the slot is bound, and the value of the upvalue is taken
    from slot 1 of the record on both paths. *)
Lemma u_closure_upvalue_binds {host : LuaHost} rec cl nup upi upi' :
  u_closure_upvalue rec cl nup upi = Ok (tt, upi') ->
  exists tbl upi1 uv,
    rec (VLCl cl) upi = Ok (VTable tbl, upi1) /\
    upi' = upi_set_L (upi_L upi') upi1 /\
    binds_upvalue (upi_L upi1) (upi_L upi') cl (Z.to_nat (nup - 1)) tbl uv.
Proof.
  unfold u_closure_upvalue. intros H.
  apply bind_Ok in H as (r & s1 & Hrec & H).
  apply bind_Ok in H as (tbl & s2 & Htbl & H).
  apply lift_opt_Ok in Htbl as [Htbl ->].
  destruct r; try discriminate. injection Htbl as ->.
  apply bind_Ok in H as (stored & s3 & Hst & H).
  apply lua_rawgeti_Ok in Hst as [-> (tb & Htb & ->)].
  apply bind_Ok in H as (uv & s4 & Huv & H).
  apply u_closure_upvalue_choice in Huv as (Hs4 & Hsel & Hcl & Hs2 & Hs1 & Hfr).
  apply bind_Ok in H as (obj & s5 & Hobj & H).
  apply lua_rawgeti_Ok in Hobj as [-> (tb4 & Htb4 & ->)].
  apply bind_Ok in H as (u & s6 & Hu & H).
  unfold the_upval in Hu. apply bind_Ok in Hu as (h & s7 & Hg & Hu).
  injection Hg as <- <-. apply lift_opt_Ok in Hu as [Hu ->].
  apply bind_Ok in H as ([] & s7 & Hup & H).
  rewrite update_object_run in Hup. injection Hup as <-.
  apply bind_Ok in H as (t & s8 & Ht & H).
  unfold the_table in Ht. apply bind_Ok in Ht as (h & s9 & Hg & Ht).
  injection Hg as <- <-. apply lift_opt_Ok in Ht as [Ht ->].
  cbn [upi_L upi_set_L] in Ht.
  set (h4 := upi_L s4) in *. set (k := Z.to_nat (nup - 1)) in *.
  set (bp := VLight (PSlot cl k)) in *.
  set (h5 := <[uv := OUpVal {| uv_v := uv_v u; uv_value := record_slot h4 tbl 1 |}]> h4) in *.
  assert (Hi : exists i, 3 <= i /\ lua_rawseti tbl i bp (upi_set_L h5 s4) = Ok (tt, upi')).
  { destruct (Z.leb_spec 2 (luaL_len t)).
    - exists (luaL_len t + 1). split; [lia | exact H].
    - apply bind_Ok in H as (i & s9 & Hi & H).
      apply lift_opt_Ok in Hi as [Hi ->]. apply first_free_ge in Hi.
      exists i. split; [exact Hi | exact H]. }
  clear H. destruct Hi as (i & Hi & H).
  apply lua_rawseti_Ok in H as (t5 & Ht5 & ->). rewrite !upi_L_set_L in *.
  apply heap_table_Some in Ht5. apply heap_upval_Some in Hu.
  pose proof (lookup_Some_lt _ _ _ Hu) as Hul.
  assert (Hne : uv <> tbl).
  { intros ->. unfold h5 in Ht5. rewrite lookup_update_eq in Ht5 by exact Hul.
    discriminate. }
  exists tbl, s1, uv. split; [exact Hrec|].
  split; [rewrite Hs4; reflexivity|].
  assert (Hslot : forall j, j = 1 \/ j = 2 ->
            record_slot (<[tbl := OTable (set_pairs t5 (luaH_set (t_pairs t5) (VNum (cast_num i)) bp))]> h5)
                        tbl j = record_slot h4 tbl j).
  { intros j Hj. rewrite (record_slot_set _ _ _ i bp j Ht5 eq_refl).
    rewrite (numeq_small_key i j Hi Hj).
    unfold h5. apply record_slot_insert_other. exact Hne. }
  assert (Hclo : forall f j,
            closure_upval (<[tbl := OTable (set_pairs t5 (luaH_set (t_pairs t5) (VNum (cast_num i)) bp))]> h5)
                          (VLCl f) j = closure_upval h4 (VLCl f) j).
  { intros f j. rewrite closure_upval_insert_nonclosure.
    - unfold h5. apply closure_upval_insert_nonclosure.
      + intros c. discriminate.
      + intros c Hx. assert (Hy : Some (OLCl c) = Some (OUpVal u))
          by (etransitivity; [symmetry; exact Hx | exact Hu]). discriminate Hy.
    - intros c. discriminate.
    - intros c Hx. assert (Hy : Some (OLCl c) = Some (OTable t5))
        by (etransitivity; [symmetry; exact Hx | exact Ht5]). discriminate Hy. }
  unfold binds_upvalue. split; [exact Hsel|]. split; [|split; [|split; [|split]]].
  - rewrite Hclo. exact Hcl.
  - rewrite Hslot by (right; reflexivity). exact Hs2.
  - rewrite Hslot by (left; reflexivity). exact Hs1.
  - eexists. split.
    + apply heap_upval_Some. rewrite lookup_update_ne by congruence.
      unfold h5. apply lookup_update_eq. exact Hul.
    + simpl. exact Hs1.
  - intros f j Hfj. rewrite Hclo. apply Hfr. exact Hfj.
Qed.

(** ** Shared upvalues *)



(** Boundary scenario: [{f, g}] with [f] and [g] sharing [x = 5].  The two
    closures read back are bound to one upvalue, which holds 5. *)
Example roundtrip_shared_upvalue :
  persist (host := plain_host) 8 (VTable 6%nat) (start_pi fg_heap 9%nat 0%nat)
    = Ok (tt, fg_pi') /\
  unpersist (host := plain_host) 8 VNil
      (start_upi [OTable empty_table] 0%nat (pi_out fg_pi'))
    = Ok (VTable 1%nat, fg_upi') /\
  record_slot (upi_L fg_upi') 1%nat 1 = VLCl 2%nat /\
  record_slot (upi_L fg_upi') 1%nat 2 = VLCl 6%nat /\
  closure_upval (upi_L fg_upi') (VLCl 2%nat) 0 = Some 5%nat /\
  closure_upval (upi_L fg_upi') (VLCl 6%nat) 0 = Some 5%nat /\
  heap_upval (upi_L fg_upi') 5%nat
    = Some {| uv_v := UvClosed; uv_value := VNum (cast_num 5) |}.
Proof. repeat split; vm_compute; reflexivity. Qed.

(** A cycle through the upvalue: [f] is read back, its upvalue holds the
    table whose element [g] is bound to the same upvalue.  [g] is bound
    first, while slot 1 of the record is still empty; the value is set when
    [f] is bound. *)
Example roundtrip_upvalue_cycle :
  persist (host := plain_host) 12 (VLCl 4%nat) (start_pi loop_heap 9%nat 0%nat)
    = Ok (tt, loop_pi') /\
  unpersist (host := plain_host) 12 VNil
      (start_upi [OTable empty_table] 0%nat (pi_out loop_pi'))
    = Ok (VLCl 1%nat, loop_upi') /\
  closure_upval (upi_L loop_upi') (VLCl 1%nat) 0 = Some 7%nat /\
  heap_upval (upi_L loop_upi') 7%nat
    = Some {| uv_v := UvClosed; uv_value := VTable 4%nat |} /\
  record_slot (upi_L loop_upi') 4%nat 1 = VLCl 5%nat /\
  closure_upval (upi_L loop_upi') (VLCl 5%nat) 0 = Some 7%nat.
Proof. repeat split; vm_compute; reflexivity. Qed.

(** ** Round trip of the literal fragment *)

Lemma simple_ok_wf v : simple_ok v = true -> simple_wf v.
Proof.
  destruct v as [| |[w| |]|x| | | | | | |]; simpl; try discriminate; try exact (fun _ => I);
    intros H; apply andb_true_iff in H as [H1 H2];
    apply Z.leb_le in H1; apply Z.ltb_lt in H2; lia.
Qed.

Lemma simple_ok_simple v : simple_ok v = true -> is_simple v = true.
Proof. destruct v as [| |[| |]| | | | | | | |]; simpl; congruence. Qed.

Lemma nonsimple_not_num v : is_simple v = false -> forall b, v <> VNum b.
Proof. intros H b ->. discriminate. Qed.

Lemma rawequal_nonsimple v w :
  is_simple v = false -> luaV_rawequalobj v w = true <-> v = w.
Proof. intros H. apply rawequal_eq. now apply nonsimple_not_num. Qed.

Lemma rawequal_nonsimple_r v w :
  is_simple w = false -> luaV_rawequalobj v w = true <-> v = w.
Proof.
  intros H. rewrite rawequal_sym. rewrite rawequal_nonsimple by exact H.
  split; congruence.
Qed.

Lemma rawequal_simple_nonsimple v w :
  is_simple v = true -> is_simple w = false -> luaV_rawequalobj v w = false.
Proof.
  intros Hv Hw. destruct (luaV_rawequalobj v w) eqn:E; [|reflexivity].
  apply rawequal_nonsimple_r in E; [|exact Hw]. congruence.
Qed.

Lemma reftbl_rawgeti_set i x rt j :
  reftbl_rawgeti ((i, x) :: rt) j = if i =? j then x else reftbl_rawgeti rt j.
Proof. reflexivity. Qed.

Lemma reftbl_get_bind w i rt v :
  reftbl_get ((w, i) :: rt) v = if luaV_rawequalobj w v then Some i else reftbl_get rt v.
Proof. reflexivity. Qed.

Section FragmentFacts.
Variables (hw : heap) (P : addr) (hr0 : heap) (Q : addr) (G : list addr).

Lemma value_ok_cases v :
  value_ok hw P hr0 Q G v = true ->
  (is_simple v = true /\ simple_ok v = true) \/
  (is_simple v = false /\ lua_isnil (permkey_of hw P v) = true /\
   ((exists s, v = VStr s) \/ (exists a, v = VTable a /\ a ∈ G))) \/
  (is_simple v = false /\ lua_isnil (permkey_of hw P v) = false /\
   permanent_ok hw P hr0 Q v = true).
Proof.
  unfold value_ok. destruct (is_simple v) eqn:Es; [auto|].
  destruct (lua_isnil (permkey_of hw P v)) eqn:En; [|auto].
  intros H. right. left. split; [reflexivity|]. split; [reflexivity|].
  destruct v; try discriminate.
  - left. eauto.
  - right. apply bool_decide_eq_true in H. eauto.
Qed.

Lemma value_ok_simple v :
  is_simple v = true -> value_ok hw P hr0 Q G v = simple_ok v.
Proof. intros H. unfold value_ok. now rewrite H. Qed.

Lemma literal_table a :
  literal hw P (VTable a) = lua_isnil (permkey_of hw P (VTable a)).
Proof. reflexivity. Qed.

Lemma literal_nonsimple v : literal hw P v = true -> is_simple v = false.
Proof. destruct v; simpl; congruence. Qed.

Lemma literal_cases v :
  literal hw P v = true -> exists a, v = VTable a /\ lua_isnil (permkey_of hw P v) = true.
Proof. destruct v; simpl; try discriminate. eauto. Qed.

Lemma permanent_not_literal v :
  lua_isnil (permkey_of hw P v) = false -> literal hw P v = false.
Proof. destruct v; simpl; congruence. Qed.

Lemma region_table a :
  region_ok hw P hr0 Q G = true -> a ∈ G ->
  exists t, heap_table hw a = Some t /\
    forallb (pair_ok hw P hr0 Q G) (t_pairs t) = true /\
    keys_distinct (t_pairs t) = true /\
    meta_ok hw P hr0 Q G (t_meta t) = true.
Proof.
  intros Hr Ha. unfold region_ok in Hr. rewrite forallb_forall in Hr.
  apply list_elem_of_In in Ha. specialize (Hr _ Ha). unfold table_ok in Hr.
  destruct (heap_table hw a) as [t|]; [|discriminate].
  apply andb_true_iff in Hr as [Hr Hm]. apply andb_true_iff in Hr as [Hp Hk].
  eauto.
Qed.

Lemma key_ok_cases k :
  key_ok hw P k = true ->
  (is_simple k = true /\ simple_ok k = true /\ lua_isnil k = false) \/
  (exists s, k = VStr s /\ lua_isnil (permkey_of hw P k) = true).
Proof.
  destruct k as [| |[| |]| | | | | | | |]; simpl; try discriminate; eauto.
Qed.

Lemma key_ok_value_ok k : key_ok hw P k = true -> value_ok hw P hr0 Q G k = true.
Proof.
  intros H. destruct (key_ok_cases k H) as [(Hs & Hok & _) | (s & -> & Hp)].
  - now rewrite value_ok_simple.
  - unfold value_ok. cbn [is_simple]. now rewrite Hp.
Qed.

Lemma permanent_ok_cases v :
  permanent_ok hw P hr0 Q v = true ->
  key_ok hw P (permkey_of hw P v) = true /\
  lua_gettable hr0 Q (permkey_of hw P v) = v.
Proof.
  unfold permanent_ok. intros H.
  apply andb_true_iff in H as [H _]. apply andb_true_iff in H as [H1 H2].
  apply bool_decide_eq_true in H2. auto.
Qed.

Lemma value_ok_literal a :
  lua_isnil (permkey_of hw P (VTable a)) = true ->
  value_ok hw P hr0 Q G (VTable a) = bool_decide (a ∈ G).
Proof. intros H. unfold value_ok. cbn [is_simple]. now rewrite H. Qed.

Lemma meta_ok_Some mt :
  meta_ok hw P hr0 Q G (Some mt) = true ->
  value_ok hw P hr0 Q G (VTable mt) = true /\
  match lua_rawget hw mt (VStr persistKey) with
  | VNil | VBool true => True
  | _ => False
  end.
Proof.
  simpl. intros H. apply andb_true_iff in H as [H1 H2]. split; [exact H1|].
  destruct (lua_rawget hw mt (VStr persistKey)) as [|[|]| | | | | | | | |];
    try discriminate; exact I.
Qed.
End FragmentFacts.

(** Every run of [persist] writes a framing word first. *)
Lemma persist_writes {host : LuaHost} fuel v pi pi' :
  persist fuel v pi = Ok (tt, pi') ->
  exists w bs, pi_out pi' = pi_out pi ++ le_encode sizeof_int w ++ bs.
Proof.
  intros H. destruct (is_simple v) eqn:Es.
  - destruct (persist_simple fuel v pi pi' Es H) as (_ & _ & _ & Ho).
    rewrite Ho. unfold inline_bytes. eauto.
  - destruct fuel as [|[|n]]; try discriminate.
    { rewrite persist_nonsimple in H by assumption. discriminate. }
    rewrite persist_nonsimple in H by assumption.
    destruct (reftbl_get (pi_reftbl pi) v) as [i|] eqn:Eg.
    { rewrite (persist_keyed_known _ _ _ _ _ _ Eg) in H.
      apply write_Ok_out in H as (_ & _ & _ & _ & _ & Ho).
      exists (i + ERIS_REFERENCE_OFFSET), []. now rewrite app_nil_r. }
    rewrite persist_keyed_fresh in H by exact Eg.
    unfold persist_keyed_new in H.
    apply bind_Ok in H as (h & ? & Hg & H). monad_inv Hg.
    apply bind_Ok in H as (p & ? & Hg & H). monad_inv Hg.
    cbv zeta in H.
    destruct (lua_isnil _).
    + unfold persist_typed in H. apply bind_Ok in H as ([] & s1 & Hw & H).
      apply write_Ok_out in Hw as (_ & _ & _ & _ & _ & Ho).
      pose proof (persist_typed_switch_step (persist n) (persist_keyed n)
                    (persist_step n) (persist_keyed_step n) _ _ _ _ _ H)
        as [(_ & _ & _ & (bs & Hb & _) & _) _].
      exists (lua_type v), bs. rewrite Hb, Ho, <- app_assoc. reflexivity.
    + apply bind_Ok in H as ([] & s1 & Hw & H).
      apply write_Ok_out in Hw as (_ & _ & _ & _ & _ & Ho).
      assert (Hs : pi_step s1 pi').
      { revert H. apply preserves_bind;
          [exact pi_step_trans | apply WRITE_VALUE_step | intros _; apply persist_step]. }
      destruct Hs as [(_ & _ & _ & (bs & Hb & _) & _) _].
      exists ERIS_PERMANENT, bs. rewrite Hb, Ho, <- app_assoc. reflexivity.
Qed.

Lemma persist_appends {host : LuaHost} fuel v pi pi' :
  persist fuel v pi = Ok (tt, pi') ->
  exists bs, pi_out pi' = pi_out pi ++ bs /\ (4 <= length bs)%nat.
Proof.
  intros H. apply persist_writes in H as (w & bs & Ho).
  exists (le_encode sizeof_int w ++ bs). split; [exact Ho|].
  rewrite length_app, length_le_encode. unfold sizeof_int. lia.
Qed.

Lemma val_rel_simple sw sr v v' : is_simple v = true -> val_rel sw sr v v' <-> v' = v.
Proof. intros H. unfold val_rel. rewrite H. reflexivity. Qed.

Lemma val_rel_keyed sw sr v v' :
  is_simple v = false ->
  val_rel sw sr v v' <->
  exists i, reftbl_get (pi_reftbl sw) v = Some i /\ reftbl_rawgeti (upi_reftbl sr) i = v'.
Proof. intros H. unfold val_rel. rewrite H. reflexivity. Qed.

Lemma val_rel_mono sw sr sw' sr' v v' :
  (forall w i, reftbl_get (pi_reftbl sw) w = Some i ->
               reftbl_get (pi_reftbl sw') w = Some i /\
               reftbl_rawgeti (upi_reftbl sr') i = reftbl_rawgeti (upi_reftbl sr) i) ->
  val_rel sw sr v v' -> val_rel sw' sr' v v'.
Proof.
  intros Hm. unfold val_rel. destruct (is_simple v); [auto|].
  intros (i & Hi & Hx). destruct (Hm _ _ Hi) as [Hi' Hx'].
  exists i. split; [exact Hi' | congruence].
Qed.

Lemma table_rel_mono (R R' : value -> value -> Prop) hw hr hr' a a' :
  (forall v v', R v v' -> R' v v') ->
  heap_table hr' a' = heap_table hr a' ->
  table_rel R hw hr a a' -> table_rel R' hw hr' a a'.
Proof.
  intros HR Hh (t & t' & Ht & Ht' & Hp & Hm).
  exists t, t'. split; [exact Ht|]. split; [congruence|]. split.
  - eapply Forall2_impl; [exact Hp|]. intros p p' [H1 H2]. split; auto.
  - destruct (t_meta t), (t_meta t'); simpl in *; auto.
Qed.

Lemma lookup_heap_app_l (h e : heap) (a : addr) :
  (a < length h)%nat -> (h ++ e) !! a = h !! a.
Proof. apply lookup_app_l. Qed.

Lemma update_app_r (h e : heap) (a : addr) (o : obj) :
  (length h <= a)%nat -> <[a := o]> (h ++ e) = h ++ <[(a - length h)%nat := o]> e.
Proof. apply insert_app_r_alt. Qed.

Lemma heap_table_alloc (h e : heap) a :
  (a < length h)%nat -> heap_table (h ++ e) a = heap_table h a.
Proof. intros H. unfold heap_table. now rewrite lookup_heap_app_l. Qed.

Lemma heap_table_update_ne (h : heap) a b o :
  a <> b -> heap_table (<[a := o]> h) b = heap_table h b.
Proof. intros H. unfold heap_table. now rewrite lookup_update_ne. Qed.

Lemma heap_table_update_eq (h : heap) a t :
  (a < length h)%nat -> heap_table (<[a := OTable t]> h) a = Some t.
Proof. intros H. unfold heap_table. now rewrite lookup_update_eq. Qed.

Lemma heap_table_lt (h : heap) a t : heap_table h a = Some t -> (a < length h)%nat.
Proof. intros H. apply heap_table_Some in H. eapply lookup_Some_lt; eassumption. Qed.

Lemma lua_gettable_alloc (h e : heap) q k :
  (q < length h)%nat -> lua_gettable (h ++ e) q k = lua_gettable h q k.
Proof. intros H. unfold lua_gettable, lua_rawget. now rewrite heap_table_alloc. Qed.

Lemma pi_wf_ext pi pi' :
  pi_reftbl pi' = pi_reftbl pi -> pi_refcount pi' = pi_refcount pi ->
  pi_wf pi -> pi_wf pi'.
Proof. unfold pi_wf. intros -> ->. exact (fun H => H). Qed.

(** ** Strings *)

Lemma unpersist_string {host : LuaHost} n top upi s rest :
  Z.of_nat (length s) < 2 ^ 64 ->
  upi_zio upi = le_encode sizeof_int LUA_TSTRING ++
                le_encode sizeof_size_t (Z.of_nat (length s)) ++ s ++ rest ->
  unpersist (S n) top upi =
    Ok (VStr s, upi_set_ref (upi_refcount upi + 1) (VStr s)
                  (upi_incr_refcount (upi_set_zio rest upi))).
Proof.
  intros Hlen Hz.
  rewrite (unpersist_tag n top upi LUA_TSTRING _ ltac:(cbv; split; congruence) Hz).
  cbv zeta. change (LUA_TSTRING =? LUA_TNIL) with false.
  change (LUA_TSTRING =? LUA_TBOOLEAN) with false.
  change (LUA_TSTRING =? LUA_TLIGHTUSERDATA) with false.
  change (LUA_TSTRING =? LUA_TNUMBER) with false.
  change (LUA_TSTRING =? LUA_TSTRING) with true. cbv iota.
  unfold u_string, read_size_t.
  assert (Hr : 0 <= Z.of_nat (length s) < 2 ^ (8 * Z.of_nat sizeof_size_t)).
  { change (2 ^ (8 * Z.of_nat sizeof_size_t)) with (2 ^ 64). lia. }
  erewrite (bind_step _ _ _ _ _
              (read_unsigned_app sizeof_size_t _ (s ++ rest) (upi_set_zio _ upi) Hr eq_refl)).
  erewrite (bind_step _ _ _ _ _ (READ_RAW_app s rest (upi_set_zio _ upi) eq_refl)).
  reflexivity.
Qed.

Lemma persist_typed_string {host : LuaHost} rec reck s pi pi' :
  persist_typed rec reck LUA_TSTRING (VStr s) pi = Ok (tt, pi') ->
  pi_reftbl pi' = pi_reftbl pi /\ pi_refcount pi' = pi_refcount pi /\
  pi_L pi' = pi_L pi /\ pi_perms pi' = pi_perms pi /\
  pi_out pi' = pi_out pi ++ le_encode sizeof_int LUA_TSTRING ++
                le_encode sizeof_size_t (Z.of_nat (length s)) ++ s.
Proof.
  unfold persist_typed. intros H.
  apply bind_Ok in H as ([] & s1 & H1 & H).
  apply write_Ok_out in H1 as (R1 & C1 & L1 & P1 & _ & O1).
  change (persist_typed_switch rec reck LUA_TSTRING (VStr s)) with (p_string (VStr s)) in H.
  unfold p_string in H.
  apply bind_Ok in H as ([] & s2 & H2 & H).
  apply write_Ok_out in H2 as (R2 & C2 & L2 & P2 & _ & O2).
  apply WRITE_RAW_Ok in H as (b & -> & Hb).
  simpl. unfold pi_out in *. simpl. rewrite Hb, O2, O1, <- !app_assoc.
  repeat split; congruence.
Qed.

Lemma persist_keyed_new_run {host : LuaHost} rec reck obj refkey type pi :
  persist_keyed_new rec reck obj refkey type pi =
  (let permkey := lua_gettable (pi_L pi) (pi_perms pi) refkey in
   if lua_isnil permkey then persist_typed rec reck type obj pi
   else (write_int ERIS_PERMANENT ;; write_int (lua_type obj) ;; rec permkey) pi).
Proof.
  unfold persist_keyed_new, bind at 1, gets. unfold bind at 1.
  cbv zeta. destruct (lua_isnil _); reflexivity.
Qed.

(** ** Permanent values *)

Lemma u_permanent_run {host : LuaHost} rec top upi type rest k upi2 obj :
  - 2 ^ 31 <= type < 2 ^ 31 ->
  upi_zio upi = le_encode sizeof_int type ++ rest ->
  rec top (upi_set_ref (upi_refcount upi + 1) top
             (upi_incr_refcount (upi_set_zio rest upi))) = Ok (k, upi2) ->
  lua_gettable (upi_L upi2) (upi_perms upi2) k = obj ->
  lua_isnil obj = false -> lua_type obj = type ->
  u_permanent rec top upi = Ok (obj, upi_set_ref (upi_refcount upi + 1) obj upi2).
Proof.
  intros Ht Hz Hrec Hobj Hnn Hty. unfold u_permanent.
  rewrite (bind_step _ _ _ _ _ (read_int_app _ _ _ Ht Hz)).
  rewrite (bind_step _ _ _ _ _ (registerobject_run _ _)).
  cbn [upi_refcount upi_set_zio].
  rewrite (bind_step _ _ _ _ _ Hrec).
  unfold bind at 1, gets. unfold bind at 1. cbv zeta. rewrite Hobj, Hnn, Hty.
  rewrite Z.eqb_refl. cbn [negb]. reflexivity.
Qed.

Lemma lua_type_range v : - 2 ^ 31 <= lua_type v < 2 ^ 31.
Proof. destruct v; cbv; split; congruence. Qed.

Lemma lua_type_tag v : 0 <= lua_type v <= ERIS_PERMANENT.
Proof. destruct v; cbv; split; congruence. Qed.

(** ** Tables *)

Lemma luaH_get_fresh ps k :
  Forall (fun p : value * value => luaV_rawequalobj (fst p) k = false) ps ->
  luaH_get ps k = VNil.
Proof.
  induction 1 as [|[k' v'] r Hk _ IH]; simpl in *; [reflexivity|].
  now rewrite Hk.
Qed.

Lemma luaH_set_fresh ps k v :
  Forall (fun p : value * value => luaV_rawequalobj (fst p) k = false) ps ->
  lua_isnil v = false ->
  luaH_set ps k v = ps ++ [(k, v)].
Proof.
  intros H Hv. induction H as [|[k' v'] r Hk _ IH]; simpl in *.
  - now rewrite Hv.
  - rewrite Hk. now rewrite IH.
Qed.

Lemma lua_rawset_run t k v s tb :
  heap_table (upi_L s) t = Some tb ->
  lua_isnil k = false -> key_isnan k = false ->
  lua_rawset t k v s =
    Ok (tt, upi_set_L (<[t := OTable (set_pairs tb (luaH_set (t_pairs tb) k v))]> (upi_L s)) s).
Proof.
  intros Ht Hk Hn. unfold lua_rawset, the_table.
  unfold bind at 1. unfold bind at 1. unfold gets. rewrite Ht. cbn [lift_opt ret].
  rewrite Hk, Hn. destruct (lua_isnil (luaH_get (t_pairs tb) k)); reflexivity.
Qed.

Lemma lua_setmetatable_run a m s t :
  heap_table (upi_L s) a = Some t ->
  lua_setmetatable (VTable a) m s =
    Ok (tt, upi_set_L (<[a := OTable (set_meta t (Some m))]> (upi_L s)) s).
Proof.
  intros Ht. unfold lua_setmetatable. unfold bind at 1, gets. rewrite Ht. reflexivity.
Qed.

(** A table whose metatable does not ask for anything else is written
    literally. *)
Lemma p_table_literal {host : LuaHost} rec a t pi :
  heap_table (pi_L pi) a = Some t ->
  match t_meta t with
  | None => True
  | Some mt => match lua_rawget (pi_L pi) mt (VStr persistKey) with
               | VNil | VBool true => True
               | _ => False
               end
  end ->
  p_table rec (VTable a) pi = (write_lu_byte 0 ;; p_literaltable rec (VTable a)) pi.
Proof.
  intros Ht Hm. unfold p_table, p_special. unfold bind at 1, gets.
  cbn [lua_getmetatable]. rewrite Ht.
  destruct (t_meta t) as [mt|]; [|reflexivity].
  destruct (lua_rawget (pi_L pi) mt (VStr persistKey)) as [|[|]| | | | | | | | |];
    try contradiction; reflexivity.
Qed.

Lemma p_literaltable_run {host : LuaHost} rec a t pi :
  heap_table (pi_L pi) a = Some t ->
  p_literaltable rec (VTable a) pi =
    (for_each (fun kv : value * value => rec (fst kv) ;; rec (snd kv)) (t_pairs t) ;;
     rec VNil ;;
     p_metatable rec (VTable a)) pi.
Proof.
  intros Ht. unfold p_literaltable. unfold bind at 1, gets. rewrite Ht. reflexivity.
Qed.

Lemma p_metatable_run {host : LuaHost} rec a t pi :
  heap_table (pi_L pi) a = Some t ->
  p_metatable rec (VTable a) pi =
    rec (match t_meta t with Some mt => VTable mt | None => VNil end) pi.
Proof.
  intros Ht. unfold p_metatable. unfold bind at 1, gets.
  cbn [lua_getmetatable]. now rewrite Ht.
Qed.

(** The reader on a literal table, up to the loop over the pairs. *)
Lemma unpersist_table_run {host : LuaHost} n top upi rest :
  upi_zio upi = le_encode sizeof_int LUA_TTABLE ++ le_encode sizeof_lu_byte 0 ++ rest ->
  unpersist (S n) top upi =
    (let tbl := length (upi_L upi) in
     u_literaltable_pairs (unpersist n) (S (length rest)) tbl ;;
     u_metatable (unpersist n) (VTable tbl) ;;
     ret (VTable tbl))
      (upi_set_ref (upi_refcount upi + 1) (VTable (length (upi_L upi)))
         (upi_incr_refcount
            (upi_set_L (upi_L upi ++ [OTable empty_table]) (upi_set_zio rest upi)))).
Proof.
  intros Hz.
  rewrite (unpersist_tag n top upi LUA_TTABLE _ ltac:(cbv; split; congruence) Hz).
  cbv zeta. change (LUA_TTABLE =? LUA_TNIL) with false.
  change (LUA_TTABLE =? LUA_TBOOLEAN) with false.
  change (LUA_TTABLE =? LUA_TLIGHTUSERDATA) with false.
  change (LUA_TTABLE =? LUA_TNUMBER) with false.
  change (LUA_TTABLE =? LUA_TSTRING) with false.
  change (LUA_TTABLE =? LUA_TTABLE) with true. cbv iota.
  unfold u_table, u_special, read_lu_byte.
  assert (Hb : 0 <= 0 < 2 ^ (8 * Z.of_nat sizeof_lu_byte)) by (cbv; split; congruence).
  erewrite (bind_step _ _ _ _ _
              (read_unsigned_app sizeof_lu_byte 0 rest (upi_set_zio _ upi) Hb eq_refl)).
  change (0 =? 0) with true. cbv iota. unfold u_literaltable.
  rewrite (bind_step _ _ _ _ _ (new_object_run _ _)).
  rewrite (bind_step _ _ _ _ _ (registerobject_run _ _)).
  unfold bind at 1, gets. reflexivity.
Qed.

Lemma keys_distinct_app ps1 kv r :
  keys_distinct (ps1 ++ kv :: r) = true ->
  Forall (fun p : value * value => luaV_rawequalobj (fst p) (fst kv) = false) ps1.
Proof.
  induction ps1 as [|p ps1 IH]; simpl; intros H; constructor.
  - apply andb_true_iff in H as [H _]. rewrite forallb_app in H.
    apply andb_true_iff in H as [_ H]. simpl in H.
    apply andb_true_iff in H as [H _]. now apply negb_true_iff in H.
  - apply andb_true_iff in H as [_ H]. now apply IH.
Qed.

Section SimProofs.
Context {host : LuaHost}.
Variables (hw : heap) (P : addr) (hr0 : heap) (Q : addr) (G : list addr).
Hypothesis Hregion : region_ok hw P hr0 Q G = true.

Local Abbreviation Inv := (Inv hw P hr0 Q G).
Local Abbreviation slot_ok := (slot_ok hw P hr0 Q G).
Local Abbreviation value_ok := (value_ok hw P hr0 Q G).
Local Abbreviation literal := (literal hw P).

Lemma slot_ok_mono pend pend' sw sr sw' sr' w x :
  slot_ok pend sw sr w x ->
  (forall v v', val_rel sw sr v v' -> val_rel sw' sr' v v') ->
  (length (upi_L sr) <= length (upi_L sr'))%nat ->
  (forall a a', w = VTable a -> x = VTable a' -> literal w = true -> a ∉ pend' ->
                (a ∉ pend) /\ heap_table (upi_L sr') a' = heap_table (upi_L sr) a') ->
  slot_ok pend' sw' sr' w x.
Proof.
  intros (Hs & Hok & Hx) Hv Hlen Hp. split; [exact Hs|]. split; [exact Hok|].
  destruct (literal w) eqn:El; [|exact Hx].
  destruct Hx as (a & a' & -> & -> & Hge & Hlt & Hc).
  exists a, a'. repeat split; try reflexivity; try lia.
  intros Hn. destruct (Hp a a' eq_refl eq_refl eq_refl Hn) as [Hn' Hh].
  eapply table_rel_mono; [exact Hv | exact Hh | exact (Hc Hn')].
Qed.

(** Output is written and input is read; nothing else changes. *)
Lemma Inv_advance pend sw sr sw' sr' bs :
  Inv pend sw sr ->
  pi_L sw' = pi_L sw -> pi_perms sw' = pi_perms sw ->
  pi_reftbl sw' = pi_reftbl sw -> pi_refcount sw' = pi_refcount sw ->
  upi_perms sr' = upi_perms sr -> upi_refcount sr' = upi_refcount sr ->
  upi_L sr' = upi_L sr ->
  (forall i, reftbl_rawgeti (upi_reftbl sr') i = reftbl_rawgeti (upi_reftbl sr) i) ->
  pi_out sw' = pi_out sw ++ bs -> upi_zio sr = bs ++ upi_zio sr' ->
  Inv pend sw' sr'.
Proof.
  intros [] HL HP Hrt Hrc HQ Hrc' HL' Hget Hout Hzio.
  assert (Hv : forall v v', val_rel sw sr v v' -> val_rel sw' sr' v v').
  { intros v v'. apply val_rel_mono. intros w i Hi. rewrite Hrt, Hget. auto. }
  split; try congruence.
  - apply (pi_wf_ext sw); assumption.
  - rewrite Hrc, Hout, length_app. lia.
  - rewrite Hout, length_app. rewrite Hzio, length_app in inv_bound0. lia.
  - rewrite HL'. exact inv_heap0.
  - intros w i Hi. rewrite Hrt in Hi. rewrite Hget.
    eapply slot_ok_mono; [exact (inv_slot0 _ _ Hi) | exact Hv | rewrite HL'; lia |].
    intros a a' _ _ _ Hn. split; [exact Hn | now rewrite HL'].
  - intros w1 w2 i1 i2 H1 H2 L1 L2. rewrite Hrt in H1, H2. rewrite !Hget.
    eauto.
Qed.

(** A value gets the next id on both sides. *)
Lemma Inv_bind pend pend' sw sr sw' sr' w x bs :
  Inv pend sw sr ->
  reftbl_get (pi_reftbl sw) w = None ->
  is_simple w = false -> value_ok w = true ->
  pi_L sw' = pi_L sw -> pi_perms sw' = pi_perms sw ->
  pi_reftbl sw' = (w, pi_refcount sw + 1) :: pi_reftbl sw ->
  pi_refcount sw' = pi_refcount sw + 1 ->
  upi_perms sr' = upi_perms sr -> upi_refcount sr' = upi_refcount sr + 1 ->
  (forall i, reftbl_rawgeti (upi_reftbl sr') i =
             if pi_refcount sw + 1 =? i then x else reftbl_rawgeti (upi_reftbl sr) i) ->
  pi_out sw' = pi_out sw ++ bs -> upi_zio sr = bs ++ upi_zio sr' ->
  (4 <= length bs)%nat ->
  (exists e, upi_L sr' = upi_L sr ++ e) ->
  (if literal w
   then exists a, w = VTable a /\ x = VTable (length (upi_L sr)) /\
                  (length (upi_L sr) < length (upi_L sr'))%nat /\ a ∈ pend'
   else x = w) ->
  (forall a, a ∈ pend -> a ∈ pend') ->
  Inv pend' sw' sr'.
Proof.
  intros [] Hnone Hs Hok HL HP Hrt Hrc HQ Hrc' Hget Hout Hzio Hbs (e & He) Hx Hsub.
  pose proof inv_wf0 as Hwf. destruct Hwf as (W0 & W1 & W2).
  assert (Hold : forall v i, reftbl_get (pi_reftbl sw) v = Some i ->
            reftbl_get (pi_reftbl sw') v = Some i /\
            reftbl_rawgeti (upi_reftbl sr') i = reftbl_rawgeti (upi_reftbl sr) i).
  { intros v i Hi. split.
    - rewrite Hrt. apply (pi_bind_ref_get w sw v i Hnone Hi).
    - rewrite Hget. specialize (W1 _ _ Hi).
      destruct (Z.eqb_spec (pi_refcount sw + 1) i); [lia | reflexivity]. }
  assert (Hv : forall v v', val_rel sw sr v v' -> val_rel sw' sr' v v').
  { intros v v'. apply val_rel_mono. exact Hold. }
  assert (Hwf' : pi_wf sw').
  { apply (pi_wf_ext (pi_bind_ref w sw)); [exact Hrt | exact Hrc |].
    apply pi_bind_ref_wf; assumption. }
  assert (Hlen : (length (upi_L sr) <= length (upi_L sr'))%nat).
  { rewrite He, length_app. lia. }
  assert (Hnew : forall v i, reftbl_get (pi_reftbl sw') v = Some i ->
            (v = w /\ i = pi_refcount sw + 1) \/
            (luaV_rawequalobj w v = false /\ reftbl_get (pi_reftbl sw) v = Some i)).
  { intros v i. rewrite Hrt, reftbl_get_bind.
    destruct (luaV_rawequalobj w v) eqn:E.
    - intros [= <-]. left. apply rawequal_nonsimple in E; auto.
    - intros Hi. right. auto. }
  split; try congruence.
  - rewrite Hrc, Hout, length_app. lia.
  - rewrite Hout, length_app. rewrite Hzio, length_app in inv_bound0. lia.
  - destruct inv_heap0 as (e0 & He0). exists (e0 ++ e). rewrite He, He0.
    now rewrite app_assoc.
  - intros v i Hi. destruct (Hnew _ _ Hi) as [[-> ->] | [Hne Hi0]].
    + rewrite Hget, Z.eqb_refl. split; [exact Hs|]. split; [exact Hok|].
      destruct (literal w) eqn:El; [|exact Hx].
      destruct Hx as (a & -> & -> & Hlt & Hin).
      exists a, (length (upi_L sr)). repeat split; try reflexivity; try lia.
      * destruct inv_heap0 as (e0 & He0). rewrite He0, length_app. lia.
      * intros Hn. contradiction.
    + destruct (Hold _ _ Hi0) as [_ Hg]. rewrite Hg.
      eapply slot_ok_mono; [exact (inv_slot0 _ _ Hi0) | exact Hv | exact Hlen |].
      intros a a' -> Ha' El Hn. split.
      * intros Hin. apply Hn, Hsub, Hin.
      * destruct (inv_slot0 _ _ Hi0) as (_ & _ & Hsl). rewrite El in Hsl.
        destruct Hsl as (a1 & a1' & [= <-] & Hx1 & _ & Hlt & _).
        rewrite Ha' in Hx1. injection Hx1 as <-.
        rewrite He. now apply heap_table_alloc.
  - intros w1 w2 i1 i2 H1 H2 L1 L2.
    destruct (Hnew _ _ H1) as [[-> ->] | [Hne1 Hi1]],
             (Hnew _ _ H2) as [[-> ->] | [Hne2 Hi2]].
    + reflexivity.
    + rewrite L1 in Hx. destruct Hx as (a & -> & -> & Hlt & Hin).
      destruct (Hold _ _ Hi2) as [_ Hg2]. rewrite Hg2, Hget, Z.eqb_refl.
      destruct (inv_slot0 _ _ Hi2) as (_ & _ & Hsl). rewrite L2 in Hsl.
      destruct Hsl as (a2 & a2' & -> & Hx2 & _ & Hlt2 & _).
      rewrite Hx2. intros [= E]. lia.
    + rewrite L2 in Hx. destruct Hx as (a & -> & -> & Hlt & Hin).
      destruct (Hold _ _ Hi1) as [_ Hg1]. rewrite Hg1, Hget, Z.eqb_refl.
      destruct (inv_slot0 _ _ Hi1) as (_ & _ & Hsl). rewrite L1 in Hsl.
      destruct Hsl as (a1 & a1' & -> & Hx1 & _ & Hlt1 & _).
      rewrite Hx1. intros [= E]. lia.
    + destruct (Hold _ _ Hi1) as [_ Hg1]. destruct (Hold _ _ Hi2) as [_ Hg2].
      rewrite Hg1, Hg2. eauto.
Qed.

(** The table that is being read for a pending table changes. *)
Lemma Inv_update pend sw sr a i a' o :
  Inv pend sw sr ->
  a ∈ pend ->
  reftbl_get (pi_reftbl sw) (VTable a) = Some i ->
  literal (VTable a) = true ->
  reftbl_rawgeti (upi_reftbl sr) i = VTable a' ->
  Inv pend sw (upi_set_L (<[a' := o]> (upi_L sr)) sr).
Proof.
  intros [] Hin Hi El Hx.
  destruct (inv_slot0 _ _ Hi) as (_ & _ & Hsl). rewrite El in Hsl.
  destruct Hsl as (a1 & a1' & [= <-] & Hx1 & Hge & Hlt & _).
  rewrite Hx in Hx1. injection Hx1 as <-.
  split; try assumption; cbn [upi_L upi_set_L upi_reftbl upi_zio upi_perms upi_refcount].
  - destruct inv_heap0 as (e & He). rewrite He.
    exists (<[(a' - length hr0)%nat := o]> e).
    rewrite update_app_r by lia. reflexivity.
  - intros w j Hj.
    eapply slot_ok_mono; [exact (inv_slot0 _ _ Hj) | auto | |].
    + cbn [upi_L upi_set_L]. rewrite length_update. lia.
    + intros b b' -> Hb' Lb Hn. split; [exact Hn|].
      cbn [upi_L upi_set_L]. apply heap_table_update_ne.
      intros Hab. subst b'.
      assert (Hji : j = i).
      { apply (inv_inj0 (VTable b) (VTable a) j i Hj Hi Lb El). congruence. }
      subst j. destruct inv_wf0 as (_ & _ & W2).
      pose proof (W2 _ _ _ Hj Hi) as Heq.
      apply rawequal_nonsimple in Heq; [|reflexivity].
      injection Heq as ->. contradiction.
Qed.

(** The table that was being read for [a] is complete. *)
Lemma Inv_complete pend sw sr a :
  Inv (a :: pend) sw sr ->
  (forall i a', reftbl_get (pi_reftbl sw) (VTable a) = Some i ->
                reftbl_rawgeti (upi_reftbl sr) i = VTable a' ->
                table_rel (val_rel sw sr) hw (upi_L sr) a a') ->
  Inv pend sw sr.
Proof.
  intros [] Hc. split; try assumption.
  intros w i Hi. destruct (inv_slot0 _ _ Hi) as (Hs & Hok & Hsl).
  split; [exact Hs|]. split; [exact Hok|].
  destruct (literal w) eqn:El; [|exact Hsl].
  destruct Hsl as (b & b' & -> & Hx & Hge & Hlt & Hrel).
  exists b, b'. repeat split; try assumption.
  intros Hn. destruct (decide (b = a)) as [->|Hne].
  - apply (Hc i b' Hi Hx).
  - apply Hrel. rewrite not_elem_of_cons. auto.
Qed.

(** ** Values without parts *)

(** A simple value, a value whose key has an id, or a string that is not
    replaced through the perms table: the reader gets it back from what
    the writer wrote, and a new string gets the next id on both sides. *)
Lemma leaf_follows n k sw sw' sr top m bs rest :
  persist n k sw = Ok (tt, sw') ->
  pi_L sw = hw -> pi_perms sw = P ->
  upi_refcount sr = pi_refcount sw ->
  ((is_simple k = true /\ simple_ok k = true) \/
   (is_simple k = false /\
    exists i, reftbl_get (pi_reftbl sw) k = Some i /\ 0 < i <= pi_refcount sw /\
              lua_isnil (reftbl_rawgeti (upi_reftbl sr) i) = false) \/
   (exists s, k = VStr s /\ lua_isnil (permkey_of hw P k) = true /\
              reftbl_get (pi_reftbl sw) k = None)) ->
  Z.of_nat (length (pi_out sw')) < 2 ^ 31 ->
  4 * pi_refcount sw <= Z.of_nat (length (pi_out sw)) ->
  pi_out sw' = pi_out sw ++ bs -> upi_zio sr = bs ++ rest -> (n <= m)%nat ->
  pi_L sw' = pi_L sw /\ pi_perms sw' = pi_perms sw /\ (4 <= length bs)%nat /\
  ((pi_reftbl sw' = pi_reftbl sw /\ pi_refcount sw' = pi_refcount sw /\
    exists v', unpersist m top sr = Ok (v', upi_set_zio rest sr) /\
               if is_simple k then v' = k
               else exists i, reftbl_get (pi_reftbl sw) k = Some i /\
                              v' = reftbl_rawgeti (upi_reftbl sr) i) \/
   (is_simple k = false /\ reftbl_get (pi_reftbl sw) k = None /\
    pi_reftbl sw' = (k, pi_refcount sw + 1) :: pi_reftbl sw /\
    pi_refcount sw' = pi_refcount sw + 1 /\
    unpersist m top sr =
      Ok (k, upi_set_ref (pi_refcount sw + 1) k
               (upi_incr_refcount (upi_set_zio rest sr))))).
Proof.
  intros Hrun HL HP Hrc Hkind Hbound Hlen Hout Hzio Hnm.
  destruct Hkind as [[Hs Hok] | [[Hs (i & Hi & Hir & Hnn)] | (s & -> & Hpk & Hnone)]].
  - (* simple *)
    destruct (persist_simple n k sw sw' Hs Hrun) as (Rt & Rc & L & Ho).
    assert (bs = inline_bytes k).
    { rewrite Ho in Hout. now apply app_inv_head in Hout. }
    subst bs. destruct n as [|n]; [discriminate|]. destruct m as [|m]; [lia|].
    split; [exact L|]. split.
    { destruct k; try discriminate; cbn in Hrun;
        try (apply write_Ok_out in Hrun; tauto);
        unfold persist_typed in Hrun; apply bind_Ok in Hrun as ([] & s1 & H1 & H2);
        apply write_Ok_out in H1 as (? & ? & ? & ? & ? & ?);
        revert H2; unfold persist_typed_switch; cbn;
        intros H2; apply write_Ok_out in H2; intuition congruence. }
    split.
    { unfold inline_bytes. rewrite length_app, length_le_encode. unfold sizeof_int. lia. }
    left. split; [exact Rt|]. split; [exact Rc|].
    exists k. rewrite Hs. split; [|reflexivity].
    apply unpersist_simple; [now apply simple_ok_wf | exact Hzio].
  - (* known id *)
    destruct n as [|[|n]]; try discriminate.
    { rewrite persist_nonsimple in Hrun by assumption. discriminate. }
    rewrite persist_nonsimple in Hrun by assumption.
    rewrite (persist_keyed_known _ _ _ _ _ _ Hi) in Hrun.
    apply write_Ok_out in Hrun as (Rt & Rc & L & Pm & _ & Ho).
    assert (bs = le_encode sizeof_int (i + ERIS_REFERENCE_OFFSET)).
    { rewrite Ho in Hout. now apply app_inv_head in Hout. }
    subst bs. destruct m as [|m]; [lia|].
    split; [exact L|]. split; [exact Pm|]. split.
    { rewrite length_le_encode. unfold sizeof_int. lia. }
    left. split; [exact Rt|]. split; [exact Rc|].
    exists (reftbl_rawgeti (upi_reftbl sr) i). rewrite Hs. split; [|eauto].
    assert (Hr : i + ERIS_REFERENCE_OFFSET < 2 ^ 31).
    { unfold ERIS_REFERENCE_OFFSET, ERIS_PERMANENT, LUA_TOTALTAGS, LUA_TUPVAL,
        LUA_NUMTAGS.
      rewrite Ho, length_app in Hbound. lia. }
    rewrite (unpersist_reference m top sr i rest ltac:(lia) Hr Hzio).
    cbv zeta. now rewrite Hnn.
  - (* new string *)
    destruct n as [|[|n]]; try discriminate.
    rewrite persist_nonsimple in Hrun by reflexivity.
    rewrite persist_keyed_fresh in Hrun by exact Hnone.
    rewrite persist_keyed_new_run in Hrun.
    cbv zeta in Hrun. cbn [pi_L pi_perms pi_bind_ref] in Hrun.
    rewrite HL, HP in Hrun. unfold permkey_of in Hpk. rewrite Hpk in Hrun.
    change (lua_type (VStr s)) with LUA_TSTRING in Hrun.
    apply persist_typed_string in Hrun as (Rt & Rc & L & Pm & Ho).
    cbn [pi_bind_ref pi_reftbl pi_refcount pi_L pi_perms] in Rt, Rc, L, Pm.
    change (pi_out (pi_bind_ref (VStr s) sw)) with (pi_out sw) in Ho.
    assert (bs = le_encode sizeof_int LUA_TSTRING ++
                 le_encode sizeof_size_t (Z.of_nat (length s)) ++ s).
    { rewrite Ho in Hout. now apply app_inv_head in Hout. }
    subst bs. destruct m as [|m]; [lia|].
    split; [exact L|]. split; [exact Pm|]. split.
    { rewrite length_app, length_le_encode. unfold sizeof_int. lia. }
    right. split; [reflexivity|]. split; [exact Hnone|].
    split; [exact Rt|]. split; [exact Rc|].
    rewrite <- Hrc. apply unpersist_string.
    + rewrite Ho, !length_app in Hbound. lia.
    + rewrite Hzio, <- !app_assoc. reflexivity.
Qed.

(** ** Consequences of the invariant *)

Lemma Inv_id pend sw sr w i :
  Inv pend sw sr -> reftbl_get (pi_reftbl sw) w = Some i ->
  is_simple w = false /\ value_ok w = true /\ 0 < i <= pi_refcount sw /\
  is_simple (reftbl_rawgeti (upi_reftbl sr) i) = false.
Proof.
  intros HI Hi. destruct (inv_slot _ _ _ _ _ _ _ _ HI _ _ Hi) as (Hs & Hok & Hsl).
  destruct (inv_wf _ _ _ _ _ _ _ _ HI) as (_ & W1 & _).
  split; [exact Hs|]. split; [exact Hok|]. split; [specialize (W1 _ _ Hi); lia|].
  destruct (literal w).
  - destruct Hsl as (a & a' & -> & -> & _). reflexivity.
  - now rewrite Hsl.
Qed.

Lemma is_simple_nil v : is_simple v = false -> lua_isnil v = false.
Proof. destruct v; simpl; congruence. Qed.

Lemma val_rel_nonnil pend sw sr v v' :
  Inv pend sw sr -> val_rel sw sr v v' -> lua_isnil v = false -> lua_isnil v' = false.
Proof.
  intros HI Hv Hn. unfold val_rel in Hv. destruct (is_simple v) eqn:Es.
  - now subst v'.
  - destruct Hv as (i & Hi & <-). apply is_simple_nil.
    now destruct (Inv_id _ _ _ _ _ HI Hi) as (_ & _ & _ & H).
Qed.

Lemma val_rel_isnan pend sw sr v v' :
  Inv pend sw sr -> val_rel sw sr v v' -> key_isnan v = false -> key_isnan v' = false.
Proof.
  intros HI Hv Hn. unfold val_rel in Hv. destruct (is_simple v) eqn:Es.
  - now subst v'.
  - destruct Hv as (i & Hi & <-).
    destruct (Inv_id _ _ _ _ _ HI Hi) as (_ & _ & _ & H).
    destruct (reftbl_rawgeti (upi_reftbl sr) i); try reflexivity; discriminate.
Qed.

(** Distinct values are held as distinct values. *)
Lemma val_rel_rawequal pend sw sr v1 v2 v1' v2' :
  Inv pend sw sr -> val_rel sw sr v1 v1' -> val_rel sw sr v2 v2' ->
  luaV_rawequalobj v1' v2' = true -> luaV_rawequalobj v1 v2 = true.
Proof.
  intros HI H1 H2 E. unfold val_rel in H1, H2.
  destruct (is_simple v1) eqn:E1, (is_simple v2) eqn:E2.
  - now subst.
  - subst v1'. destruct H2 as (i & Hi & <-).
    destruct (Inv_id _ _ _ _ _ HI Hi) as (_ & _ & _ & H).
    rewrite rawequal_simple_nonsimple in E by assumption. discriminate.
  - subst v2'. destruct H1 as (i & Hi & <-).
    destruct (Inv_id _ _ _ _ _ HI Hi) as (_ & _ & _ & H).
    rewrite rawequal_sym, rawequal_simple_nonsimple in E by assumption. discriminate.
  - destruct H1 as (i1 & Hi1 & <-). destruct H2 as (i2 & Hi2 & <-).
    destruct (Inv_id _ _ _ _ _ HI Hi1) as (_ & _ & _ & Hn1).
    apply rawequal_nonsimple in E; [|exact Hn1].
    destruct (inv_slot _ _ _ _ _ _ _ _ HI _ _ Hi1) as (_ & Hok1 & Hsl1).
    destruct (inv_slot _ _ _ _ _ _ _ _ HI _ _ Hi2) as (_ & Hok2 & Hsl2).
    destruct (inv_wf _ _ _ _ _ _ _ _ HI) as (_ & _ & W2).
    destruct (literal v1) eqn:L1, (literal v2) eqn:L2.
    + assert (i1 = i2) by (eapply (inv_inj _ _ _ _ _ _ _ _ HI); eassumption).
      subst i2. eapply W2; eassumption.
    + exfalso. destruct Hsl1 as (a & a' & -> & Hx & Hge & _).
      rewrite E, Hsl2 in Hx. clear Hsl2. subst v2.
      destruct (value_ok_cases _ _ _ _ _ _ Hok2) as [[Hq _] | [(_ & Hp & _) | (_ & _ & Hp)]].
      * congruence.
      * rewrite literal_table in L2. congruence.
      * unfold permanent_ok in Hp. apply andb_true_iff in Hp as [_ Hp].
        apply Nat.ltb_lt in Hp. lia.
    + exfalso. destruct Hsl2 as (a & a' & -> & Hx & Hge & _).
      rewrite <- E, Hsl1 in Hx. clear Hsl1. subst v1.
      destruct (value_ok_cases _ _ _ _ _ _ Hok1) as [[Hq _] | [(_ & Hp & _) | (_ & _ & Hp)]].
      * congruence.
      * rewrite literal_table in L1. congruence.
      * unfold permanent_ok in Hp. apply andb_true_iff in Hp as [_ Hp].
        apply Nat.ltb_lt in Hp. lia.
    + rewrite Hsl1, Hsl2 in E. subst v2. now apply rawequal_nonsimple.
Qed.

Lemma Inv_out_bound pend sw sr sw' bs rest :
  Inv pend sw sr -> pi_out sw' = pi_out sw ++ bs -> upi_zio sr = bs ++ rest ->
  Z.of_nat (length (pi_out sw')) < 2 ^ 31.
Proof.
  intros HI Ho Hz. pose proof (inv_bound _ _ _ _ _ _ _ _ HI) as Hb.
  rewrite Hz, length_app in Hb. rewrite Ho, length_app. lia.
Qed.

Lemma sim_leaf n v pend sw sw' sr top m bs rest :
  persist n v sw = Ok (tt, sw') ->
  Inv pend sw sr ->
  pi_out sw' = pi_out sw ++ bs -> upi_zio sr = bs ++ rest -> (n <= m)%nat ->
  value_ok v = true ->
  (is_simple v = true \/
   (exists i, reftbl_get (pi_reftbl sw) v = Some i) \/
   (exists s, v = VStr s /\ lua_isnil (permkey_of hw P v) = true)) ->
  exists v' sr',
    unpersist m top sr = Ok (v', sr') /\ upi_zio sr' = rest /\
    Inv pend sw' sr' /\ val_rel sw' sr' v v' /\ upi_L sr' = upi_L sr.
Proof.
  intros Hrun HI Hout Hzio Hnm Hok Hkind.
  pose proof (Inv_out_bound _ _ _ _ _ _ HI Hout Hzio) as Hbound.
  assert (Hk : (is_simple v = true /\ simple_ok v = true) \/
   (is_simple v = false /\
    exists i, reftbl_get (pi_reftbl sw) v = Some i /\ 0 < i <= pi_refcount sw /\
              lua_isnil (reftbl_rawgeti (upi_reftbl sr) i) = false) \/
   (exists s, v = VStr s /\ lua_isnil (permkey_of hw P v) = true /\
              reftbl_get (pi_reftbl sw) v = None)).
  { destruct Hkind as [Hs | [(i & Hi) | (s & -> & Hp)]].
    - left. split; [exact Hs|]. now rewrite value_ok_simple in Hok.
    - right. left. destruct (Inv_id _ _ _ _ _ HI Hi) as (Hs & _ & Hr & Hn).
      split; [exact Hs|]. exists i. split; [exact Hi|]. split; [exact Hr|].
      now apply is_simple_nil.
    - destruct (reftbl_get (pi_reftbl sw) (VStr s)) as [i|] eqn:Hi.
      + right. left. destruct (Inv_id _ _ _ _ _ HI Hi) as (Hs & _ & Hr & Hn).
        split; [exact Hs|]. exists i. split; [reflexivity|]. split; [exact Hr|].
        now apply is_simple_nil.
      + right. right. eauto. }
  destruct (leaf_follows n v sw sw' sr top m bs rest Hrun
              (inv_L _ _ _ _ _ _ _ _ HI) (inv_P _ _ _ _ _ _ _ _ HI)
              (inv_rc _ _ _ _ _ _ _ _ HI) Hk Hbound
              (inv_len _ _ _ _ _ _ _ _ HI) Hout Hzio Hnm)
    as (HL & HP & Hbs & [(Rt & Rc & v' & Hun & Hv') | (Hs & Hnone & Rt & Rc & Hun)]).
  - exists v', (upi_set_zio rest sr). split; [exact Hun|]. split; [reflexivity|].
    split; [|split; [|reflexivity]].
    + eapply Inv_advance; try eassumption; reflexivity.
    + unfold val_rel. destruct (is_simple v); [exact Hv'|].
      destruct Hv' as (i & Hi & ->). exists i. rewrite Rt. auto.
  - exists v, (upi_set_ref (pi_refcount sw + 1) v
                 (upi_incr_refcount (upi_set_zio rest sr))).
    split; [exact Hun|]. split; [reflexivity|]. split; [|split; [|reflexivity]].
    + eapply (Inv_bind pend pend sw sr sw' _ v v bs HI Hnone Hs Hok HL HP Rt Rc);
        try reflexivity; try assumption.
      * exists []. cbn. now rewrite app_nil_r.
      * destruct Hkind as [Hs' | [(i & Hi) | (s & -> & Hp)]]; try congruence;
          try reflexivity.
      * auto.
    + apply val_rel_keyed; [exact Hs|]. exists (pi_refcount sw + 1).
      rewrite Rt. cbn [reftbl_get]. rewrite (rawequal_refl_nonsimple _ Hs).
      split; [reflexivity|]. cbn. now rewrite Z.eqb_refl.
Qed.

Lemma Inv_gettable pend sw sr k v :
  Inv pend sw sr -> lua_gettable hr0 Q k = v -> lua_isnil v = false ->
  lua_gettable (upi_L sr) (upi_perms sr) k = v.
Proof.
  intros HI Hk Hn. rewrite (inv_Q _ _ _ _ _ _ _ _ HI).
  destruct (inv_heap _ _ _ _ _ _ _ _ HI) as (e & ->).
  rewrite lua_gettable_alloc; [exact Hk|].
  unfold lua_gettable, lua_rawget in Hk.
  destruct (heap_table hr0 Q) as [t|] eqn:Et.
  - eapply heap_table_lt; eassumption.
  - subst v. discriminate.
Qed.


(** A value that is replaced through the perms table and has no id yet. *)
Lemma sim_permanent n v pend sw sw' sr top m bs rest :
  persist (S (S n)) v sw = Ok (tt, sw') ->
  Inv pend sw sr ->
  pi_out sw' = pi_out sw ++ bs -> upi_zio sr = bs ++ rest -> (S (S n) <= m)%nat ->
  value_ok v = true -> is_simple v = false ->
  reftbl_get (pi_reftbl sw) v = None ->
  lua_isnil (permkey_of hw P v) = false ->
  exists v' sr',
    unpersist m top sr = Ok (v', sr') /\ upi_zio sr' = rest /\
    Inv pend sw' sr' /\ val_rel sw' sr' v v' /\ upi_L sr' = upi_L sr.
Proof.
  intros Hrun HI Hout Hzio Hnm Hok Hs Hnone Hpk.
  pose proof (Inv_out_bound _ _ _ _ _ _ HI Hout Hzio) as Hbound.
  pose proof (inv_L _ _ _ _ _ _ _ _ HI) as HL.
  pose proof (inv_P _ _ _ _ _ _ _ _ HI) as HP.
  pose proof (inv_rc _ _ _ _ _ _ _ _ HI) as Hrc.
  destruct (value_ok_cases _ _ _ _ _ _ Hok) as [[Hq _] | [(_ & Hq & _) | (_ & _ & Hperm)]];
    try congruence.
  destruct (permanent_ok_cases _ _ _ _ _ Hperm) as [Hkey Hback].
  set (k := permkey_of hw P v) in *.
  (* the writer *)
  rewrite persist_nonsimple in Hrun by exact Hs.
  rewrite persist_keyed_fresh in Hrun by exact Hnone.
  rewrite persist_keyed_new_run in Hrun. cbv zeta in Hrun.
  cbn [pi_L pi_perms pi_bind_ref] in Hrun. rewrite HL, HP in Hrun.
  fold (permkey_of hw P v) in Hrun. fold k in Hrun. rewrite Hpk in Hrun.
  apply bind_Ok in Hrun as ([] & s2 & H1 & Hrun).
  apply write_Ok_out in H1 as (R1 & C1 & L1 & P1 & _ & O1).
  apply bind_Ok in Hrun as ([] & s3 & H2 & Hrun).
  apply write_Ok_out in H2 as (R2 & C2 & L2 & P2 & _ & O2).
  cbn [pi_bind_ref pi_reftbl pi_refcount pi_L pi_perms] in R1, C1, L1, P1.
  change (pi_out (pi_bind_ref v sw)) with (pi_out sw) in O1.
  destruct (persist_appends _ _ _ _ Hrun) as (bk & Obk & Hbk).
  assert (Hbs : bs = le_encode sizeof_int ERIS_PERMANENT ++
                     le_encode sizeof_int (lua_type v) ++ bk).
  { rewrite Obk, O2, O1, <- !app_assoc in Hout. now apply app_inv_head in Hout. }
  (* the key *)
  set (sr3 := upi_set_ref (upi_refcount sr + 1) top
                (upi_incr_refcount (upi_set_zio (bk ++ rest) sr))).
  destruct m as [|m1]; [lia|].
  assert (Hne : forall s, k = VStr s -> lua_isnil (permkey_of hw P k) = true ->
                          luaV_rawequalobj v k = false).
  { intros s Ek Hp. destruct (luaV_rawequalobj v k) eqn:E; [|reflexivity].
    apply rawequal_nonsimple in E; [|exact Hs]. rewrite <- E in Hp.
    fold k in Hp. congruence. }
  assert (Hkind : (is_simple k = true /\ simple_ok k = true) \/
   (is_simple k = false /\
    exists i, reftbl_get (pi_reftbl s3) k = Some i /\ 0 < i <= pi_refcount s3 /\
              lua_isnil (reftbl_rawgeti (upi_reftbl sr3) i) = false) \/
   (exists s, k = VStr s /\ lua_isnil (permkey_of hw P k) = true /\
              reftbl_get (pi_reftbl s3) k = None)).
  { destruct (key_ok_cases _ _ _ Hkey) as [(Hks & Hkok & _) | (s & Ek & Hp)]; [auto|].
    right. rewrite R2, R1, reftbl_get_bind, (Hne s Ek Hp).
    destruct (reftbl_get (pi_reftbl sw) k) as [i|] eqn:Hi.
    - left. destruct (Inv_id _ _ _ _ _ HI Hi) as (Hks & _ & Hr & Hn).
      split; [exact Hks|]. exists i. split; [reflexivity|].
      split; [rewrite C2, C1; lia|].
      unfold sr3. cbn [upi_reftbl upi_set_ref upi_incr_refcount upi_set_zio].
      rewrite reftbl_rawgeti_set.
      destruct (Z.eqb_spec (upi_refcount sr + 1) i); [lia|]. now apply is_simple_nil.
    - right. eauto. }
  destruct (leaf_follows n k s3 sw' sr3 top m1 bk rest Hrun
              ltac:(congruence) ltac:(congruence)
              ltac:(unfold sr3; cbn; rewrite C2, C1; lia) Hkind Hbound
              ltac:(rewrite C2, C1, O2, O1, !length_app, !length_le_encode;
                    pose proof (inv_len _ _ _ _ _ _ _ _ HI); unfold sizeof_int; lia)
              Obk eq_refl ltac:(lia))
    as (HLk & HPk & _ & Hres).
  assert (Hgo : forall sr2, unpersist m1 top sr3 = Ok (k, sr2) ->
            upi_L sr2 = upi_L sr -> upi_perms sr2 = upi_perms sr ->
            unpersist (S m1) top sr = Ok (v, upi_set_ref (upi_refcount sr + 1) v sr2)).
  { intros sr2 Hk2 HL2 HP2.
    rewrite (unpersist_tag m1 top sr ERIS_PERMANENT _ ltac:(cbv; split; congruence)
               ltac:(rewrite Hzio, Hbs, <- !app_assoc; reflexivity)).
    cbv zeta.
    change (ERIS_PERMANENT =? LUA_TNIL) with false.
    change (ERIS_PERMANENT =? LUA_TBOOLEAN) with false.
    change (ERIS_PERMANENT =? LUA_TLIGHTUSERDATA) with false.
    change (ERIS_PERMANENT =? LUA_TNUMBER) with false.
    change (ERIS_PERMANENT =? LUA_TSTRING) with false.
    change (ERIS_PERMANENT =? LUA_TTABLE) with false.
    change (ERIS_PERMANENT =? LUA_TFUNCTION) with false.
    change (ERIS_PERMANENT =? LUA_TUSERDATA) with false.
    change (ERIS_PERMANENT =? LUA_TTHREAD) with false.
    change (ERIS_PERMANENT =? LUA_TPROTO) with false.
    change (ERIS_PERMANENT =? LUA_TUPVAL) with false.
    change (ERIS_PERMANENT =? ERIS_PERMANENT) with true. cbv iota.
    apply (u_permanent_run (unpersist m1) top
             (upi_set_zio (le_encode sizeof_int (lua_type v) ++ bk ++ rest) sr)
             (lua_type v) (bk ++ rest) k sr2 v (lua_type_range v) eq_refl Hk2).
    - rewrite HL2, HP2. eapply Inv_gettable; [exact HI | exact Hback |].
      now apply is_simple_nil.
    - now apply is_simple_nil.
    - reflexivity. }
  (* the state in which the slot holds the object from the start *)
  set (sr3i := upi_set_ref (upi_refcount sr + 1) v
                 (upi_incr_refcount (upi_set_zio (bk ++ rest) sr))).
  assert (HI3 : Inv pend s3 sr3i).
  { eapply (Inv_bind pend pend sw sr s3 sr3i v v
              (le_encode sizeof_int ERIS_PERMANENT ++ le_encode sizeof_int (lua_type v))
              HI Hnone Hs Hok); try congruence; try reflexivity.
    - unfold sr3i. cbn. intros i. rewrite Hrc. reflexivity.
    - rewrite O2, O1, <- app_assoc. reflexivity.
    - unfold sr3i. cbn. rewrite Hzio, Hbs, <- !app_assoc. reflexivity.
    - rewrite length_app, !length_le_encode. unfold sizeof_int. lia.
    - exists []. unfold sr3i. cbn. now rewrite app_nil_r.
    - rewrite (permanent_not_literal _ _ _ Hpk). reflexivity. }
  destruct Hres as [(Rt & Rc & k' & Hun & Hk') | (Hks & Hnk & Rt & Rc & Hun)].
  - assert (k' = k).
    { destruct (is_simple k) eqn:Eks; [exact Hk'|].
      destruct Hk' as (i & Hi & ->).
      destruct Hkind as [[? _] | [(_ & j & Hj & Hjr & _) | (s & _ & _ & Hn)]];
        try congruence.
      assert (j = i) by congruence. subst j.
      rewrite R2, R1, reftbl_get_bind in Hi.
      destruct (luaV_rawequalobj v k) eqn:E.
      { destruct (key_ok_cases _ _ _ Hkey) as [(? & _) | (s & Ek & Hp)]; [congruence|].
        pose proof (Hne s Ek Hp) as Hf. congruence. }
      unfold sr3. cbn [upi_reftbl upi_set_ref upi_incr_refcount upi_set_zio].
      rewrite reftbl_rawgeti_set.
      destruct (Inv_id _ _ _ _ _ HI Hi) as (_ & _ & Hr & _).
      destruct (Z.eqb_spec (upi_refcount sr + 1) i); [lia|].
      destruct (inv_slot _ _ _ _ _ _ _ _ HI _ _ Hi) as (_ & _ & Hsl).
      destruct (key_ok_cases _ _ _ Hkey) as [(? & _) | (s & Ek & Hp)]; [congruence|].
      rewrite Ek in Hsl. cbn in Hsl. now rewrite Ek. }
    subst k'.
    exists v, (upi_set_ref (upi_refcount sr + 1) v (upi_set_zio rest sr3)).
    split; [now apply Hgo|]. split; [reflexivity|]. split; [|split; [|reflexivity]].
    + eapply (Inv_advance pend s3 sr3i sw' _ bk HI3); try congruence; try reflexivity.
      intros i. unfold sr3, sr3i. cbn. destruct (_ =? i); reflexivity.
    + apply val_rel_keyed; [exact Hs|]. exists (pi_refcount sw + 1).
      rewrite Rt, R2, R1, reftbl_get_bind, (rawequal_refl_nonsimple _ Hs).
      split; [reflexivity|]. cbn. rewrite Hrc, Z.eqb_refl. reflexivity.
  - exists v, (upi_set_ref (upi_refcount sr + 1) v
                 (upi_set_ref (pi_refcount s3 + 1) k
                    (upi_incr_refcount (upi_set_zio rest sr3)))).
    split; [now apply Hgo|]. split; [reflexivity|]. split; [|split; [|reflexivity]].
    + eapply (Inv_bind pend pend s3 sr3i sw' _ k k bk HI3 Hnk Hks
                (key_ok_value_ok _ _ _ _ _ _ Hkey)); try congruence; try reflexivity.
      * intros i. unfold sr3, sr3i. cbn. rewrite C2, C1, Hrc.
        destruct (Z.eqb_spec (pi_refcount sw + 1) i),
                 (Z.eqb_spec (pi_refcount sw + 1 + 1) i); try lia; reflexivity.
      * exists []. unfold sr3, sr3i. cbn. now rewrite app_nil_r.
      * destruct (key_ok_cases _ _ _ Hkey) as [(? & _) | (s & Ek & Hp)]; [congruence|].
        rewrite Ek. reflexivity.
    + apply val_rel_keyed; [exact Hs|]. exists (pi_refcount sw + 1).
      rewrite Rt, R2, R1, !reftbl_get_bind, (rawequal_refl_nonsimple _ Hs).
      destruct (key_ok_cases _ _ _ Hkey) as [(? & _) | (s & Ek & Hp)]; [congruence|].
      rewrite rawequal_sym, (Hne s Ek Hp).
      split; [reflexivity|]. cbn. rewrite Hrc, Z.eqb_refl. reflexivity.
Qed.

(** ** Literal tables *)

Lemma step_mono pend n v sw sw' m top sr v' sr' :
  persist n v sw = Ok (tt, sw') -> unpersist m top sr = Ok (v', sr') ->
  Inv pend sw sr ->
  forall w i, reftbl_get (pi_reftbl sw) w = Some i ->
              reftbl_get (pi_reftbl sw') w = Some i /\
              reftbl_rawgeti (upi_reftbl sr') i = reftbl_rawgeti (upi_reftbl sr) i.
Proof.
  intros Hw Hr HI w i Hi.
  destruct (persist_step _ _ _ _ _ Hw) as [(_ & _ & _ & _ & Hk & _) _].
  destruct (unpersist_step _ _ _ _ _ Hr) as (_ & _ & _ & Hg).
  split; [now apply Hk|]. apply Hg.
  destruct (Inv_id _ _ _ _ _ HI Hi) as (_ & _ & Hr' & _).
  rewrite (inv_rc _ _ _ _ _ _ _ _ HI). lia.
Qed.

Lemma val_rel_table pend sw sr b x :
  Inv pend sw sr -> val_rel sw sr (VTable b) x -> exists b', x = VTable b'.
Proof.
  intros HI Hv. apply val_rel_keyed in Hv; [|reflexivity].
  destruct Hv as (i & Hi & <-).
  destruct (inv_slot _ _ _ _ _ _ _ _ HI _ _ Hi) as (_ & _ & Hsl).
  destruct (literal (VTable b)).
  - destruct Hsl as (a & a' & _ & -> & _). eauto.
  - rewrite Hsl. eauto.
Qed.

Lemma split_stream (s1 s2 s3 : PersistInfo) bs b1 b2 :
  pi_out s3 = pi_out s1 ++ bs -> pi_out s2 = pi_out s1 ++ b1 ->
  pi_out s3 = pi_out s2 ++ b2 -> bs = b1 ++ b2.
Proof.
  intros H3 H2 H32. rewrite H2, <- app_assoc in H32. rewrite H32 in H3.
  now apply app_inv_head in H3.
Qed.

Lemma for_each_persist_appends n (ps : list (value * value)) sw sw' :
  for_each (fun kv : value * value => persist n (fst kv) ;; persist n (snd kv)) ps sw
    = Ok (tt, sw') ->
  exists bs, pi_out sw' = pi_out sw ++ bs.
Proof.
  revert sw. induction ps as [|kv r IH]; intros sw H.
  - injection H as <-. exists []. now rewrite app_nil_r.
  - cbn [for_each] in H. apply bind_Ok in H as ([] & s1 & H1 & H2).
    apply bind_Ok in H1 as ([] & s0 & Hk & Hv).
    destruct (persist_appends _ _ _ _ Hk) as (bk & Ok1 & _).
    destruct (persist_appends _ _ _ _ Hv) as (bv & Ok2 & _).
    destruct (IH _ H2) as (br & Ok3).
    exists (bk ++ bv ++ br). rewrite Ok3, Ok2, Ok1, <- !app_assoc. reflexivity.
Qed.

(** The loop over the pairs of a literal table, from any point of it on:
    [ps1] has been written and read, [ps2] and the nil that ends the body
    follow. *)
Lemma sim_pairs n m pend a a' i base :
  (forall v, value_ok v = true -> follows hw P hr0 Q G n (persist n v) v) ->
  (n <= m)%nat ->
  literal (VTable a) = true ->
  (length base <= a')%nat ->
  forall ps2 ps1 sw sw2 sw3 sr t1 rounds bs rest,
    for_each (fun kv : value * value => persist n (fst kv) ;; persist n (snd kv)) ps2 sw
      = Ok (tt, sw2) ->
    persist n VNil sw2 = Ok (tt, sw3) ->
    Inv (a :: pend) sw sr ->
    reftbl_get (pi_reftbl sw) (VTable a) = Some i ->
    reftbl_rawgeti (upi_reftbl sr) i = VTable a' ->
    heap_table (upi_L sr) a' = Some t1 ->
    Forall2 (pair_rel (val_rel sw sr)) ps1 (t_pairs t1) ->
    forallb (pair_ok hw P hr0 Q G) (ps1 ++ ps2) = true ->
    keys_distinct (ps1 ++ ps2) = true ->
    pi_out sw3 = pi_out sw ++ bs -> upi_zio sr = bs ++ rest ->
    (length (upi_zio sr) < rounds)%nat ->
    (exists e, upi_L sr = base ++ e) ->
    exists sr2 t2,
      u_literaltable_pairs (unpersist m) rounds a' sr = Ok (tt, sr2) /\
      upi_zio sr2 = rest /\
      Inv (a :: pend) sw3 sr2 /\
      reftbl_get (pi_reftbl sw3) (VTable a) = Some i /\
      reftbl_rawgeti (upi_reftbl sr2) i = VTable a' /\
      heap_table (upi_L sr2) a' = Some t2 /\ t_meta t2 = t_meta t1 /\
      Forall2 (pair_rel (val_rel sw3 sr2)) (ps1 ++ ps2) (t_pairs t2) /\
      (exists e, upi_L sr2 = base ++ e).
Proof.
  intros IH Hnm El Hbase.
  induction ps2 as [|[k v] r IHr];
    intros ps1 sw sw2 sw3 sr t1 rounds bs rest Hloop Hnil HI Hi Hx Ht1 Hrel Hok Hdist
           Hout Hzio Hrounds Hext.
  - (* the nil that ends the body *)
    injection Hloop as <-.
    destruct n as [|n0]; [discriminate|]. destruct m as [|m0]; [lia|].
    destruct (persist_simple _ VNil _ _ eq_refl Hnil) as (Rt & Rc & L & Ho).
    assert (Hp : pi_perms sw3 = pi_perms sw).
    { cbn in Hnil. apply write_Ok_out in Hnil. tauto. }
    assert (bs = inline_bytes VNil).
    { rewrite Ho in Hout. now apply app_inv_head in Hout. }
    subst bs. destruct rounds as [|rounds]; [lia|].
    exists (upi_set_zio rest sr), t1.
    split.
    { cbn [u_literaltable_pairs].
      rewrite (bind_step _ _ _ _ _
                 (unpersist_simple m0 (VTable a') sr VNil rest I Hzio)).
      reflexivity. }
    split; [reflexivity|]. split.
    { eapply Inv_advance; try eassumption; reflexivity. }
    rewrite Rt, app_nil_r. cbn [upi_reftbl upi_L upi_set_zio].
    repeat split; try assumption.
    eapply Forall2_impl; [exact Hrel|]. intros p p' [H1 H2].
    split; (eapply val_rel_mono; [|eassumption]); intros w j Hj; rewrite Rt; auto.
  - (* one pair *)
    cbn [for_each] in Hloop. apply bind_Ok in Hloop as ([] & sb & Hpair & Hloop).
    apply bind_Ok in Hpair as ([] & sa & Hk & Hv).
    cbn [fst snd] in Hk, Hv.
    destruct (persist_appends _ _ _ _ Hk) as (bk & Ok1 & Hbk).
    destruct (persist_appends _ _ _ _ Hv) as (bv & Ok2 & Hbv).
    destruct (for_each_persist_appends _ _ _ _ Hloop) as (br & Ok3).
    destruct (persist_appends _ _ _ _ Hnil) as (bn & Ok4 & _).
    assert (Hbs : bs = bk ++ bv ++ br ++ bn).
    { rewrite Ok4, Ok3, Ok2, Ok1, <- !app_assoc in Hout.
      now apply app_inv_head in Hout. }
    assert (Hpk : pair_ok hw P hr0 Q G (k, v) = true).
    { rewrite forallb_app in Hok. apply andb_true_iff in Hok as [_ Hok].
      simpl in Hok. now apply andb_true_iff in Hok as [Hok _]. }
    unfold pair_ok in Hpk. cbn [fst snd] in Hpk.
    apply andb_true_iff in Hpk as [Hpk Hvn]. apply andb_true_iff in Hpk as [Hpk Hknan].
    apply andb_true_iff in Hpk as [Hpk Hkn]. apply andb_true_iff in Hpk as [Hkok Hvok].
    apply negb_true_iff in Hvn, Hknan, Hkn.
    (* the key *)
    destruct (IH k Hkok (a :: pend) sw sa sr (VTable a') m bk (bv ++ br ++ bn ++ rest)
                Hk HI Ok1 ltac:(rewrite Hzio, Hbs, <- !app_assoc; reflexivity) Hnm)
      as (k' & sra & Hrk & Hzk & HIa & Hvk & (ea & Hea)).
    pose proof (step_mono _ _ _ _ _ _ _ _ _ _ Hk Hrk HI) as Hma.
    (* the value *)
    destruct (IH v Hvok (a :: pend) sa sb sra k' m bv (br ++ bn ++ rest)
                Hv HIa Ok2 Hzk Hnm)
      as (v' & srb & Hrv & Hzv & HIb & Hvv & (eb & Heb)).
    pose proof (step_mono _ _ _ _ _ _ _ _ _ _ Hv Hrv HIa) as Hmb.
    assert (Hmono : forall x x', val_rel sw sr x x' -> val_rel sb srb x x').
    { intros x x' Hxx. eapply val_rel_mono; [exact Hmb|].
      eapply val_rel_mono; [exact Hma | exact Hxx]. }
    assert (Hvk' : val_rel sb srb k k') by (eapply val_rel_mono; [exact Hmb | exact Hvk]).
    pose proof (val_rel_nonnil _ _ _ _ _ HIb Hvk' Hkn) as Hkn'.
    pose proof (val_rel_isnan _ _ _ _ _ HIb Hvk' Hknan) as Hknan'.
    pose proof (val_rel_nonnil _ _ _ _ _ HIb Hvv Hvn) as Hvn'.
    pose proof (heap_table_lt _ _ _ Ht1) as Hlt.
    assert (Htb : heap_table (upi_L srb) a' = Some t1).
    { rewrite Heb, Hea, !heap_table_alloc; [exact Ht1 | exact Hlt |].
      rewrite length_app. lia. }
    assert (Hfresh : Forall (fun p : value * value => luaV_rawequalobj (fst p) k' = false)
                            (t_pairs t1)).
    { pose proof (keys_distinct_app _ _ _ Hdist) as Hd. cbn [fst] in Hd.
      clear - Hrel Hd Hmono HIb Hvk'. induction Hrel as [|p p' l l' [Hp _] _ IHl].
      - constructor.
      - inversion Hd as [|? ? Hpk Hd']; subst. constructor; [|now apply IHl].
        destruct (luaV_rawequalobj (fst p') k') eqn:E; [|reflexivity].
        rewrite <- Hpk. symmetry.
        eapply val_rel_rawequal; [exact HIb | apply Hmono; exact Hp | exact Hvk' | exact E]. }
    set (t1' := set_pairs t1 (t_pairs t1 ++ [(k', v')])).
    set (src := upi_set_L (<[a' := OTable t1']> (upi_L srb)) srb).
    assert (Hset : lua_rawset a' k' v' srb = Ok (tt, src)).
    { rewrite (lua_rawset_run _ _ _ _ _ Htb Hkn' Hknan').
      now rewrite (luaH_set_fresh _ _ _ Hfresh Hvn'). }
    destruct (Hma _ _ Hi) as [Hia Hxa]. destruct (Hmb _ _ Hia) as [Hib Hxb].
    rewrite Hxa, Hx in Hxb.
    assert (HIc : Inv (a :: pend) sb src).
    { eapply Inv_update; [exact HIb | apply list_elem_of_here | exact Hib | exact El | exact Hxb]. }
    destruct rounds as [|rounds]; [lia|].
    destruct (IHr (ps1 ++ [(k, v)]) sb sw2 sw3 src t1' rounds (br ++ bn) rest
                Hloop Hnil HIc Hib Hxb) as (sr2 & t2 & Hrun & R).
    + unfold src. cbn [upi_L upi_set_L].
      apply heap_table_update_eq. eapply heap_table_lt; exact Htb.
    + unfold t1'. cbn [t_pairs set_pairs]. apply Forall2_app.
      * eapply Forall2_impl; [exact Hrel|]. intros p p' [H1 H2]. split; apply Hmono; assumption.
      * constructor; [|constructor]. split; assumption.
    + rewrite <- app_assoc. exact Hok.
    + rewrite <- app_assoc. exact Hdist.
    + rewrite Ok4, Ok3, <- app_assoc. reflexivity.
    + unfold src. cbn [upi_zio upi_set_L]. rewrite Hzv, <- app_assoc. reflexivity.
    + unfold src. cbn [upi_zio upi_set_L]. rewrite Hzv.
      rewrite Hzio, Hbs, !length_app in Hrounds. rewrite !length_app. lia.
    + unfold src. cbn [upi_L upi_set_L]. destruct Hext as (e & He).
      rewrite Heb, Hea, He, <- !app_assoc, update_app_r by exact Hbase. eauto.
    + exists sr2, t2. split.
      { cbn [u_literaltable_pairs].
        rewrite (bind_step _ _ _ _ _ Hrk). rewrite Hkn'.
        rewrite (bind_step _ _ _ _ _ Hrv). rewrite Hvn'.
        rewrite (bind_step _ _ _ _ _ Hset). exact Hrun. }
      rewrite <- app_assoc in R. exact R.
Qed.

(** A table of the region that has no id yet. *)
Lemma sim_table n a pend sw sw' sr top m bs rest :
  (forall v, value_ok v = true -> follows hw P hr0 Q G n (persist n v) v) ->
  persist (S (S n)) (VTable a) sw = Ok (tt, sw') ->
  Inv pend sw sr ->
  pi_out sw' = pi_out sw ++ bs -> upi_zio sr = bs ++ rest -> (S (S n) <= m)%nat ->
  a ∈ G -> lua_isnil (permkey_of hw P (VTable a)) = true ->
  reftbl_get (pi_reftbl sw) (VTable a) = None ->
  exists v' sr',
    unpersist m top sr = Ok (v', sr') /\ upi_zio sr' = rest /\
    Inv pend sw' sr' /\ val_rel sw' sr' (VTable a) v' /\
    exists e, upi_L sr' = upi_L sr ++ e.
Proof using Hregion.
  intros IH Hrun HI Hout Hzio Hnm HG Hpk Hnone.
  pose proof (inv_L _ _ _ _ _ _ _ _ HI) as HL.
  pose proof (inv_P _ _ _ _ _ _ _ _ HI) as HP.
  pose proof (inv_rc _ _ _ _ _ _ _ _ HI) as Hrc.
  destruct (region_table _ _ _ _ _ a Hregion HG) as (t & Ht & Hpairs & Hdist & Hmeta).
  assert (Hvok : value_ok (VTable a) = true).
  { rewrite value_ok_literal by exact Hpk. now apply bool_decide_eq_true. }
  (* the writer *)
  rewrite persist_nonsimple in Hrun by reflexivity.
  rewrite persist_keyed_fresh in Hrun by exact Hnone.
  rewrite persist_keyed_new_run in Hrun. cbv zeta in Hrun.
  cbn [pi_L pi_perms pi_bind_ref] in Hrun. rewrite HL, HP in Hrun.
  fold (permkey_of hw P (VTable a)) in Hrun. rewrite Hpk in Hrun.
  unfold persist_typed in Hrun.
  apply bind_Ok in Hrun as ([] & s2 & H1 & Hrun).
  apply write_Ok_out in H1 as (R1 & C1 & L1 & P1 & _ & O1).
  cbn [pi_bind_ref pi_reftbl pi_refcount pi_L pi_perms] in R1, C1, L1, P1.
  change (pi_out (pi_bind_ref (VTable a) sw)) with (pi_out sw) in O1.
  change (lua_type (VTable a)) with LUA_TTABLE in Hrun, O1.
  change (persist_typed_switch (persist n) (persist_keyed n) LUA_TTABLE (VTable a))
    with (p_table (persist n) (VTable a)) in Hrun.
  rewrite (p_table_literal _ a t) in Hrun.
  2: { rewrite L1, HL. exact Ht. }
  2: { rewrite L1, HL. destruct (t_meta t) as [mt|]; [|exact I].
       now apply meta_ok_Some in Hmeta as [_ Hmeta]. }
  apply bind_Ok in Hrun as ([] & s3 & H2 & Hrun).
  apply write_Ok_out in H2 as (R2 & C2 & L2 & P2 & _ & O2).
  rewrite (p_literaltable_run _ a t) in Hrun by (rewrite L2, L1, HL; exact Ht).
  apply bind_Ok in Hrun as ([] & s4 & Hloop & Hrun).
  apply bind_Ok in Hrun as ([] & s5 & Hnil & Hmt).
  destruct (for_each_persist_appends _ _ _ _ Hloop) as (bp & O4).
  destruct (persist_appends _ _ _ _ Hnil) as (bn & O5 & _).
  set (b0 := le_encode sizeof_int LUA_TTABLE ++ le_encode sizeof_lu_byte 0).
  assert (O3 : pi_out s3 = pi_out sw ++ b0).
  { unfold b0. rewrite O2, O1, <- app_assoc. reflexivity. }
  (* the reader up to the loop *)
  destruct m as [|m1]; [lia|].
  set (tbl := length (upi_L sr)).
  assert (Hn1 : (n <= m1)%nat) by lia.
  assert (Hstream : exists bm, pi_out sw' = pi_out s5 ++ bm /\
                    bs = b0 ++ (bp ++ bn) ++ bm).
  { assert (Hs5 : pi_step s5 sw').
    { revert Hmt. unfold p_metatable.
      apply preserves_bind; [exact pi_step_trans | |].
      - apply preserves_gets. exact pi_step_refl.
      - intros h. apply persist_step. }
    destruct Hs5 as [(_ & _ & _ & (bm & Hbm & _) & _) _].
    exists bm. split; [exact Hbm|].
    rewrite Hbm, O5, O4, O3, <- !app_assoc in Hout.
    apply app_inv_head in Hout. rewrite <- Hout, <- !app_assoc. reflexivity. }
  destruct Hstream as (bm & O6 & Hbs).
  set (rest1 := (bp ++ bn) ++ bm ++ rest).
  set (sr3 := upi_set_ref (upi_refcount sr + 1) (VTable tbl)
                (upi_incr_refcount
                   (upi_set_L (upi_L sr ++ [OTable empty_table]) (upi_set_zio rest1 sr)))).
  assert (Hzio1 : upi_zio sr = le_encode sizeof_int LUA_TTABLE ++
                               le_encode sizeof_lu_byte 0 ++ rest1).
  { rewrite Hzio, Hbs. unfold b0, rest1. rewrite <- !app_assoc. reflexivity. }
  pose proof (unpersist_table_run m1 top sr rest1 Hzio1) as Hread.
  cbv zeta in Hread. fold tbl in Hread. fold sr3 in Hread.
  assert (HI3 : Inv (a :: pend) s3 sr3).
  { eapply (Inv_bind pend (a :: pend) sw sr s3 sr3 (VTable a) (VTable tbl) b0
              HI Hnone eq_refl Hvok); try congruence; try reflexivity.
    - unfold sr3. cbn. intros j. rewrite Hrc. reflexivity.
    - change (upi_zio sr3) with rest1. rewrite Hzio1. unfold b0.
      now rewrite <- app_assoc.
    - unfold b0. rewrite length_app, !length_le_encode. unfold sizeof_int. lia.
    - unfold sr3. cbn [upi_L upi_set_ref upi_incr_refcount upi_set_L]. eauto.
    - rewrite literal_table, Hpk. exists a. unfold sr3. cbn [upi_L upi_set_ref
        upi_incr_refcount upi_set_L]. rewrite length_alloc.
      repeat split; try reflexivity; [lia | apply list_elem_of_here].
    - intros b Hb. now apply list_elem_of_further. }
  (* the pairs *)
  destruct (sim_pairs n m1 pend a tbl (pi_refcount sw + 1) (upi_L sr) IH Hn1
              ltac:(rewrite literal_table; exact Hpk) ltac:(unfold tbl; lia)
              (t_pairs t) [] s3 s4 s5 sr3 empty_table (S (length rest1)) (bp ++ bn)
              (bm ++ rest) Hloop Hnil HI3)
    as (sr5 & t5 & Hrun5 & Hz5 & HI5 & Hi5 & Hx5 & Ht5 & Hm5 & Hrel5 & (e5 & He5)).
  { rewrite R2, R1, reftbl_get_bind. now rewrite rawequal_refl_nonsimple. }
  { unfold sr3. cbn. rewrite Hrc, Z.eqb_refl. reflexivity. }
  { unfold sr3. cbn [upi_L upi_set_ref upi_incr_refcount upi_set_L].
    unfold heap_table. unfold tbl. now rewrite lookup_alloc_new. }
  { constructor. }
  { exact Hpairs. }
  { exact Hdist. }
  { rewrite O5, O4, <- app_assoc. reflexivity. }
  { unfold sr3, rest1. cbn. reflexivity. }
  { unfold sr3. cbn. lia. }
  { unfold sr3. cbn. eauto. }
  cbn [app] in Hrel5.
  (* the metatable *)
  pose proof (inv_L _ _ _ _ _ _ _ _ HI5) as HL5.
  rewrite (p_metatable_run _ a t) in Hmt by (rewrite HL5; exact Ht).
  set (mv := match t_meta t with Some mt => VTable mt | None => VNil end) in *.
  assert (Hmvok : value_ok mv = true).
  { unfold mv. destruct (t_meta t) as [mt|]; [|reflexivity].
    now apply meta_ok_Some in Hmeta as [Hmeta _]. }
  destruct (IH mv Hmvok (a :: pend) s5 sw' sr5 (VTable tbl) m1 bm rest Hmt HI5 O6 Hz5 Hn1)
    as (mt' & sr6 & Hrm & Hz6 & HI6 & Hvm & (e6 & He6)).
  pose proof (step_mono _ _ _ _ _ _ _ _ _ _ Hmt Hrm HI5) as Hm6.
  destruct (Hm6 _ _ Hi5) as [Hi6 Hx6]. rewrite Hx5 in Hx6.
  pose proof (heap_table_lt _ _ _ Ht5) as Hlt5.
  assert (Ht6 : heap_table (upi_L sr6) tbl = Some t5).
  { rewrite He6, heap_table_alloc; assumption. }
  assert (Hrel6 : Forall2 (pair_rel (val_rel sw' sr6)) (t_pairs t) (t_pairs t5)).
  { eapply Forall2_impl; [exact Hrel5|]. intros p p' [Hp1 Hp2].
    split; (eapply val_rel_mono; [exact Hm6 | assumption]). }
  assert (Hval : forall sr', upi_reftbl sr' = upi_reftbl sr6 ->
                             val_rel sw' sr' (VTable a) (VTable tbl)).
  { intros sr' Hrt. apply val_rel_keyed; [reflexivity|].
    exists (pi_refcount sw + 1). rewrite Hrt. auto. }
  destruct (t_meta t) as [mt|] eqn:Emt.
  - (* a metatable *)
    destruct (val_rel_table _ _ _ _ _ HI6 Hvm) as (m' & ->).
    set (sr7 := upi_set_L (<[tbl := OTable (set_meta t5 (Some m'))]> (upi_L sr6)) sr6).
    exists (VTable tbl), sr7. split.
    { assert (Hum : u_metatable (unpersist m1) (VTable tbl) sr5 = Ok (tt, sr7)).
      { unfold u_metatable. rewrite (bind_step _ _ _ _ _ Hrm).
        apply lua_setmetatable_run. exact Ht6. }
      rewrite Hread. rewrite (bind_step _ _ _ _ _ Hrun5).
      rewrite (bind_step _ _ _ _ _ Hum). reflexivity. }
    split; [exact Hz6|]. split; [|split; [apply Hval; reflexivity|]].
    + apply (Inv_complete pend sw' sr7 a).
      * eapply Inv_update; [exact HI6 | apply list_elem_of_here | exact Hi6 | | exact Hx6].
        rewrite literal_table. exact Hpk.
      * intros i' a'' Hi' Hx'. rewrite Hi6 in Hi'. injection Hi' as <-.
        change (upi_reftbl sr7) with (upi_reftbl sr6) in Hx'.
        rewrite Hx6 in Hx'. injection Hx' as <-.
        exists t, (set_meta t5 (Some m')). split; [exact Ht|]. split.
        { unfold sr7. cbn [upi_L upi_set_L]. apply heap_table_update_eq.
          eapply heap_table_lt; exact Ht6. }
        split; [exact Hrel6|]. rewrite Emt. cbn. exact Hvm.
    + unfold sr7. cbn [upi_L upi_set_L]. rewrite He6, He5.
      rewrite <- !app_assoc, update_app_r by (unfold tbl; lia). eauto.
  - (* no metatable *)
    apply val_rel_simple in Hvm; [|reflexivity]. subst mt'.
    exists (VTable tbl), sr6. split.
    { assert (Hum : u_metatable (unpersist m1) (VTable tbl) sr5 = Ok (tt, sr6)).
      { unfold u_metatable. rewrite (bind_step _ _ _ _ _ Hrm). reflexivity. }
      rewrite Hread. rewrite (bind_step _ _ _ _ _ Hrun5).
      rewrite (bind_step _ _ _ _ _ Hum). reflexivity. }
    split; [exact Hz6|]. split; [|split; [apply Hval; reflexivity|]].
    + apply (Inv_complete pend sw' sr6 a); [exact HI6|].
      intros i' a'' Hi' Hx'. rewrite Hi6 in Hi'. injection Hi' as <-.
      rewrite Hx6 in Hx'. injection Hx' as <-.
      exists t, t5. split; [exact Ht|]. split; [exact Ht6|].
      split; [exact Hrel6|]. rewrite Emt, Hm5. exact I.
    + rewrite He6, He5, <- app_assoc. eauto.
Qed.

(** ** The reader follows the writer *)

Lemma sim n : forall v, value_ok v = true -> follows hw P hr0 Q G n (persist n v) v.
Proof using Hregion.
  induction (lt_wf n) as [n _ IH]. intros v Hok.
  intros pend sw sw' sr top m bs rest Hrun HI Hout Hzio Hnm.
  assert (Hleaf : is_simple v = true \/
            (exists i, reftbl_get (pi_reftbl sw) v = Some i) \/
            (exists s, v = VStr s /\ lua_isnil (permkey_of hw P v) = true) ->
          exists v' sr',
            unpersist m top sr = Ok (v', sr') /\ upi_zio sr' = rest /\
            Inv pend sw' sr' /\ val_rel sw' sr' v v' /\
            exists e, upi_L sr' = upi_L sr ++ e).
  { intros Hk.
    destruct (sim_leaf n v pend sw sw' sr top m bs rest Hrun HI Hout Hzio Hnm Hok Hk)
      as (v' & sr' & H1 & H2 & H3 & H4 & H5).
    exists v', sr'. split; [exact H1|]. split; [exact H2|]. split; [exact H3|].
    split; [exact H4|]. exists []. now rewrite app_nil_r. }
  destruct (value_ok_cases _ _ _ _ _ _ Hok)
    as [[Hs _] | [(Hs & Hpk & Hkind) | (Hs & Hpk & Hperm)]].
  - apply Hleaf. auto.
  - destruct Hkind as [(s & ->) | (a & -> & HG)].
    + apply Hleaf. eauto.
    + destruct (reftbl_get (pi_reftbl sw) (VTable a)) as [i|] eqn:Hi.
      * apply Hleaf. eauto.
      * destruct n as [|[|n1]]; try discriminate;
          try (rewrite persist_nonsimple in Hrun by reflexivity; discriminate).
        eapply (sim_table n1 a); try eassumption.
        intros x Hx. apply IH; [lia | exact Hx].
  - destruct (reftbl_get (pi_reftbl sw) v) as [i|] eqn:Hi.
    + apply Hleaf. eauto.
    + destruct n as [|[|n1]]; try discriminate;
        try (rewrite persist_nonsimple in Hrun by exact Hs; discriminate).
      destruct (sim_permanent n1 v pend sw sw' sr top m bs rest Hrun HI Hout Hzio Hnm
                  Hok Hs Hi Hpk) as (v' & sr' & H1 & H2 & H3 & H4 & H5).
      exists v', sr'. split; [exact H1|]. split; [exact H2|]. split; [exact H3|].
      split; [exact H4|]. exists []. now rewrite app_nil_r.
Qed.

(** ** Structural equality at the end *)

Lemma Inv_structural sw sr :
  Inv [] sw sr -> structural_equality hw P (upi_L sr) (val_rel sw sr).
Proof.
  clear Hregion. intros HI. split.
  - intros v v' Hv Hl. unfold val_rel in Hv. destruct (is_simple v); [exact Hv|].
    destruct Hv as (i & Hi & <-).
    destruct (inv_slot _ _ _ _ _ _ _ _ HI _ _ Hi) as (_ & _ & Hsl).
    now rewrite Hl in Hsl.
  - intros v v' Hv Hl. pose proof (literal_nonsimple _ _ _ Hl) as Hs.
    apply val_rel_keyed in Hv; [|exact Hs]. destruct Hv as (i & Hi & <-).
    destruct (inv_slot _ _ _ _ _ _ _ _ HI _ _ Hi) as (_ & _ & Hsl).
    rewrite Hl in Hsl. destruct Hsl as (a & a' & -> & -> & _ & _ & Hrel).
    exists a, a'. split; [reflexivity|]. split; [reflexivity|].
    apply Hrel. apply not_elem_of_nil.
  - intros v v1 v2 H1 H2. unfold val_rel in H1, H2. destruct (is_simple v).
    + congruence.
    + destruct H1 as (i1 & Hi1 & <-). destruct H2 as (i2 & Hi2 & <-). congruence.
  - intros v1 v2 v' H1 H2.
    destruct (is_simple v1) eqn:E1, (is_simple v2) eqn:E2.
    + apply val_rel_simple in H1, H2; congruence.
    + apply val_rel_simple in H1; [|exact E1]. subst v'.
      apply val_rel_keyed in H2; [|exact E2]. destruct H2 as (i & Hi & Hx).
      destruct (Inv_id _ _ _ _ _ HI Hi) as (_ & _ & _ & Hn). congruence.
    + apply val_rel_simple in H2; [|exact E2]. subst v'.
      apply val_rel_keyed in H1; [|exact E1]. destruct H1 as (i & Hi & Hx).
      destruct (Inv_id _ _ _ _ _ HI Hi) as (_ & _ & _ & Hn). congruence.
    + assert (Hn : is_simple v' = false).
      { apply val_rel_keyed in H1; [|exact E1]. destruct H1 as (i & Hi & <-).
        now destruct (Inv_id _ _ _ _ _ HI Hi) as (_ & _ & _ & Hn). }
      apply (rawequal_nonsimple v1 v2 E1).
      eapply val_rel_rawequal; [exact HI | exact H1 | exact H2 |].
      now apply rawequal_refl_nonsimple.
Qed.
End SimProofs.

(** A field that holds a table is found again in the related table. *)
Lemma table_rel_lookup hw P hr R a a' k x :
  structural_equality hw P hr R ->
  table_rel R hw hr a a' ->
  (forall b, k <> VTable b) ->
  lua_rawget hw a k = x -> lua_isnil x = false ->
  exists x', lua_rawget hr a' k = x' /\ R x x'.
Proof.
  intros HS (t & t' & Ht & Ht' & Hp & _) Hk Hx Hn.
  unfold lua_rawget in *. rewrite Ht in Hx. rewrite Ht'.
  clear Ht Ht'. revert Hx. induction Hp as [|[k1 v1] [k1' v1'] l l' [Hk1 Hv1] _ IH]; simpl.
  - intros <-. discriminate.
  - cbn [fst snd] in Hk1, Hv1.
    assert (Hkey : luaV_rawequalobj k1' k = luaV_rawequalobj k1 k).
    { destruct (literal hw P k1) eqn:El.
      - destruct (se_table _ _ _ _ HS _ _ Hk1 El) as (b & b' & -> & -> & _).
        destruct k; try reflexivity.
        exfalso. eapply Hk. reflexivity.
      - now rewrite (se_leaf _ _ _ _ HS _ _ Hk1 El). }
    rewrite Hkey. destruct (luaV_rawequalobj k1 k).
    + intros <-. eauto.
    + exact IH.
Qed.

Lemma Inv_start hw P hr0 Q G running buff zio :
  Z.of_nat (length (buffer buff)) + Z.of_nat (length zio) < 2 ^ 31 ->
  Inv hw P hr0 Q G []
    {| pi_L := hw; pi_running := running; pi_perms := P; pi_reftbl := [];
       pi_refcount := 0; pi_ud := buff |}
    {| upi_L := hr0; upi_perms := Q; upi_reftbl := []; upi_refcount := 0;
       upi_zio := zio |}.
Proof.
  intros Hb. split; cbn; try reflexivity; try discriminate.
  - unfold pi_wf. cbn. split; [lia|]. split; discriminate.
  - unfold pi_out. cbn. lia.
  - exact Hb.
  - exists []. now rewrite app_nil_r.
Qed.



(** Boundary scenario: the table of [rt_heap] comes back with its cycle,
    its metatable and the permanent function in place. *)
Example roundtrip_literal_graph :
  unchecked_unpersist (host := plain_host) 10 rt_rheap 0%nat VNil (buffer rt_buff)
    = Ok (VTable 1%nat,
          [ OTable {| t_pairs := [(VStr (bytes_of "print"), VLCF 7)]; t_meta := None |};
            OTable {| t_pairs := [ (VNum (cast_num 1), VNum (cast_num 10));
                                   (VStr (bytes_of "me"), VTable 1%nat);
                                   (VStr (bytes_of "f"), VLCF 7);
                                   (VStr (bytes_of "name"), VStr (bytes_of "me"));
                                   (VStr (bytes_of "sub"), VTable 2%nat);
                                   (VTable 2%nat, VBool true) ];
                      t_meta := Some 3%nat |};
            OTable {| t_pairs := [(VStr (bytes_of "up"), VTable 1%nat)]; t_meta := None |};
            OTable {| t_pairs := [(VStr (bytes_of "__index"), VTable 1%nat)];
                      t_meta := None |} ]).
Proof. vm_compute. reflexivity. Qed.


(** ** Errors of the reader *)

(** A framing word that is neither a kind the reader knows nor a reference
    is rejected: negative words, the words 11 and 12 between the last kind
    and [ERIS_PERMANENT], and the word 14, which is the reference offset
    itself and so stands for no id. *)
Theorem unknown_type_rejected {host : LuaHost} n top upi t rest :
  - 2 ^ 31 <= t < 2 ^ 31 ->
  t < 0 \/ t = LUA_TUPVAL + 1 \/ t = LUA_TOTALTAGS \/ t = ERIS_REFERENCE_OFFSET ->
  upi_zio upi = le_encode sizeof_int t ++ rest ->
  unpersist (S n) top upi =
    Err ("trying to unpersist unknown type " ++ string_of_Z t).
Proof.
  intros Hr Ht Hz. cbn [unpersist]. unfold unpersist_body.
  rewrite (bind_step _ _ _ _ _ (read_int_app _ _ _ Hr Hz)).
  unfold ERIS_REFERENCE_OFFSET, ERIS_PERMANENT, LUA_TOTALTAGS, LUA_TUPVAL,
    LUA_TPROTO, LUA_NUMTAGS, LUA_TTHREAD, LUA_TUSERDATA, LUA_TFUNCTION,
    LUA_TTABLE, LUA_TSTRING, LUA_TNUMBER, LUA_TLIGHTUSERDATA, LUA_TBOOLEAN,
    LUA_TNIL in *.
  repeat match goal with
         | |- context [?a <? ?b] => destruct (Z.ltb_spec a b); [lia|]
         | |- context [?a =? ?b] => destruct (Z.eqb_spec a b); [lia|]
         end.
  reflexivity.
Qed.

Lemma unknown_type_rejected_witness :
  unpersist (host := plain_host) 1 VNil
    (start_upi [] 0%nat (le_encode sizeof_int 14)) =
  Err ("trying to unpersist unknown type " ++ string_of_Z 14).
Proof.
  apply (unknown_type_rejected (host := plain_host) 0 VNil
           (start_upi [] 0%nat (le_encode sizeof_int 14)) 14 []).
  - lia.
  - right. right. right. reflexivity.
  - reflexivity.
Defined.

Lemma READ_RAW_short size upi :
  Z.of_nat (length (upi_zio upi)) < size ->
  READ_RAW size upi = Err "could not read data"%string.
Proof.
  intros H. unfold READ_RAW.
  destruct (Z.leb_spec size (Z.of_nat (length (upi_zio upi)))); [lia|].
  now rewrite andb_false_r.
Qed.


(** No id is issued before the first value is read, so a stream that starts
    with a reference word is rejected whatever the id. *)
Theorem leading_reference_rejected {host : LuaHost} n h perms top reference rest :
  0 < reference -> reference + ERIS_REFERENCE_OFFSET < 2 ^ 31 ->
  unchecked_unpersist (S n) h perms top
    (le_encode sizeof_int (reference + ERIS_REFERENCE_OFFSET) ++ rest) =
  Err ("invalid reference #" ++ string_of_Z reference).
Proof.
  intros Hp Hr. unfold unchecked_unpersist.
  erewrite unpersist_reference; [|exact Hp|exact Hr|reflexivity].
  reflexivity.
Qed.

Lemma leading_reference_rejected_witness :
  unchecked_unpersist (host := plain_host) 1 [] 0%nat VNil
    (le_encode sizeof_int (1 + ERIS_REFERENCE_OFFSET) ++ []) =
  Err ("invalid reference #" ++ string_of_Z 1).
Proof.
  apply (leading_reference_rejected (host := plain_host) 0 [] 0%nat VNil 1 []).
  - lia.
  - vm_compute. reflexivity.
Defined.

(** An object entered into the reference table is what its reference word
    resolves to, also after any further value has been read in between:
    reading never rewrites the slot of an id that was issued before. *)
Theorem registered_object_resolves {host : LuaHost}
    obj upi reference upi1 m top1 v upi2 n top rest :
  lua_isnil obj = false ->
  0 <= upi_refcount upi ->
  registerobject obj upi = Ok (reference, upi1) ->
  unpersist m top1 upi1 = Ok (v, upi2) ->
  reference + ERIS_REFERENCE_OFFSET < 2 ^ 31 ->
  upi_zio upi2 = le_encode sizeof_int (reference + ERIS_REFERENCE_OFFSET) ++ rest ->
  unpersist (S n) top upi2 = Ok (obj, upi_set_zio rest upi2).
Proof.
  intros Hnil Hrc Hreg Hrun Hr Hz.
  rewrite registerobject_run in Hreg. injection Hreg as <- <-.
  pose proof (unpersist_step m top1 _ _ _ Hrun) as (_ & _ & _ & Hslot).
  specialize (Hslot (upi_refcount upi + 1)). simpl in Hslot.
  rewrite Z.eqb_refl in Hslot. specialize (Hslot ltac:(lia)).
  assert (Hpos : 0 < upi_refcount upi + 1) by lia.
  rewrite (unpersist_reference n top upi2 _ rest Hpos Hr Hz).
  cbv zeta. rewrite Hslot, Hnil. reflexivity.
Qed.


(** ** The reader terminates *)

Lemma consumes_lands {A : Type} (m : R A) s : consumes m s -> lands m s.
Proof.
  intros [H1 H2]. split; [exact H1|].
  intros a s' E. specialize (H2 a s' E). lia.
Qed.

Lemma strict_tame {A : Type} L (m : R A) : strict L m -> tame L m.
Proof. intros H s Hs. apply consumes_lands, H, Hs. Qed.

Lemma lands_bind {A B : Type} (m : R A) (f : A -> R B) s :
  lands m s -> (forall a s1, m s = Ok (a, s1) -> lands (f a) s1) ->
  lands (bind m f) s.
Proof.
  intros [H1 H2] Hf. unfold lands, bind.
  destruct (m s) as [[a s1]| | |]; try (split; [discriminate | discriminate]).
  - specialize (H2 a s1 eq_refl). destruct (Hf a s1 eq_refl) as [H3 H4].
    split; [exact H3|]. intros b s' E. specialize (H4 b s' E). lia.
  - exfalso. auto.
Qed.

Lemma consumes_bind {A B : Type} (m : R A) (f : A -> R B) s :
  consumes m s -> (forall a s1, m s = Ok (a, s1) -> lands (f a) s1) ->
  consumes (bind m f) s.
Proof.
  intros [H1 H2] Hf. unfold consumes, bind.
  destruct (m s) as [[a s1]| | |]; try (split; [discriminate | discriminate]).
  - specialize (H2 a s1 eq_refl). destruct (Hf a s1 eq_refl) as [H3 H4].
    split; [exact H3|]. intros b s' E. specialize (H4 b s' E). lia.
  - exfalso. auto.
Qed.

Lemma tame_ret {A : Type} L (a : A) : tame L (ret a).
Proof. intros s _. split; [discriminate|]. intros a' s' [= <- <-]. lia. Qed.

Lemma tame_gets {A : Type} L (f : UnpersistInfo -> A) : tame L (gets f).
Proof. intros s _. split; [discriminate|]. intros a' s' [= <- <-]. lia. Qed.

Lemma tame_modify L (f : UnpersistInfo -> UnpersistInfo) :
  (forall s, upi_zio (f s) = upi_zio s) -> tame L (modify f).
Proof.
  intros Hf s _. split; [discriminate|]. intros a' s' [= <- <-].
  unfold zlen. rewrite Hf. lia.
Qed.

Lemma tame_eris_error {A : Type} L msg : tame L (@eris_error UnpersistInfo A msg).
Proof. intros s _. split; discriminate. Qed.

Lemma tame_undefined {A : Type} L : tame L (@undefined UnpersistInfo A).
Proof. intros s _. split; discriminate. Qed.

Lemma tame_lift_opt {A : Type} L (o : option A) : tame L (lift_opt o).
Proof.
  intros s _. unfold lands. destruct o; simpl; split; try discriminate.
  intros a' s' [= <- <-]. lia.
Qed.

Lemma tame_bind {A B : Type} L (m : R A) (f : A -> R B) :
  tame L m -> (forall a, tame L (f a)) -> tame L (bind m f).
Proof.
  intros Hm Hf s Hs. apply lands_bind; [apply Hm, Hs|].
  intros a s1 E. apply Hf. apply (Hm s Hs) in E. lia.
Qed.

Lemma strict_bind_l {A B : Type} L (m : R A) (f : A -> R B) :
  strict L m -> (forall a, tame L (f a)) -> strict L (bind m f).
Proof.
  intros Hm Hf s Hs. apply consumes_bind; [apply Hm, Hs|].
  intros a s1 E. apply Hf. apply (Hm s Hs) in E. lia.
Qed.

Lemma tame_for_each {A : Type} L (f : A -> R unit) (l : list A) :
  (forall x, tame L (f x)) -> tame L (for_each f l).
Proof.
  intros Hf. induction l as [|x r IH]; simpl.
  - apply tame_ret.
  - apply tame_bind; [apply Hf | intros _; exact IH].
Qed.

Lemma tame_for_range L (f : Z -> R unit) (lo : Z) (n : nat) :
  (forall i, tame L (f i)) -> tame L (for_range f lo n).
Proof.
  intros Hf. revert lo. induction n as [|n IH]; intros lo; simpl.
  - apply tame_ret.
  - apply tame_bind; [apply Hf | intros _; apply IH].
Qed.

Lemma tame_READ_RAW L size : tame L (READ_RAW size).
Proof.
  intros s _. unfold lands, READ_RAW. destruct (_ && _); split; try discriminate.
  intros a s' [= <- <-]. unfold zlen. simpl. rewrite length_drop. lia.
Qed.

Lemma strict_READ_VALUE L (size : nat) : (0 < size)%nat -> strict L (READ_VALUE size).
Proof.
  intros Hpos s _. unfold consumes, READ_VALUE, bind, READ_RAW, ret.
  destruct (_ && _) eqn:E; split; try discriminate.
  intros a s' [= <- <-]. unfold zlen. simpl. rewrite length_drop.
  apply andb_true_iff in E as [_ E]. apply Z.leb_le in E. lia.
Qed.

Lemma strict_read_int L : strict L read_int.
Proof.
  unfold read_int. apply strict_bind_l.
  - apply strict_READ_VALUE. unfold sizeof_int. lia.
  - intros u. apply tame_ret.
Qed.

Lemma strict_read_size_t L : strict L read_size_t.
Proof. apply strict_READ_VALUE. unfold sizeof_size_t. lia. Qed.

Lemma tame_call {host : LuaHost} L f args :
  host_returns host ->
  tame L (fun upi =>
            match lua_call f args (upi_L upi) with
            | Ok (r, h') => Ok (r, upi_set_L h' upi)
            | Err e => Err e
            | Undef => Undef
            | OutOfFuel => OutOfFuel
            end).
Proof.
  intros Hh s _. specialize (Hh f args (upi_L s)). unfold lands.
  destruct (lua_call f args (upi_L s)) as [[r h']| | |]; split;
    try discriminate; try congruence.
  intros a s' [= <- <-]. unfold zlen. simpl. lia.
Qed.

Ltac tame_step :=
  first
    [ assumption
    | apply tame_ret
    | apply tame_gets
    | apply tame_eris_error
    | apply tame_undefined
    | apply tame_lift_opt
    | apply tame_modify; intros ?; reflexivity
    | apply tame_READ_RAW
    | apply tame_call; assumption
    | apply strict_tame;
      match goal with
      | H : forall t, strict _ (_ t) |- _ => apply H
      end
    | apply tame_bind; [| intros ?]
    | apply tame_for_each; intros ?
    | apply tame_for_range; intros ?
    | progress unfold read_lu_byte, read_ushort, read_size_t, read_lua_Number,
        read_voidp, read_short, read_int, read_ptrdiff_t, READ_VALUE,
        eris_reallocvector, the_table, the_proto, the_thread, the_lcl, the_upval,
        lua_rawset, lua_rawseti, lua_rawgeti, lua_setmetatable, update_proto,
        update_thread, copytstring, set_lcl_upval, lua_pushcclosure,
        lua_setupvalue, eris_findupval, registerobject, new_object,
        update_object
    | match goal with
      | |- tame _ (if ?b then _ else _) => destruct b
      | |- tame _ (match ?x with _ => _ end) => destruct x
      | |- tame _ (let _ := _ in _) => cbv zeta
      end ].

Section ReaderTerminates.
Context {host : LuaHost}.
Variable rec_unpersist : value -> R value.
Variable L : nat.
Hypothesis host_ok : host_returns host.
Hypothesis rec_strict : forall top, strict L (rec_unpersist top).

Lemma u_metatable_tame obj : tame L (u_metatable rec_unpersist obj).
Proof using rec_strict. unfold u_metatable. repeat tame_step. Qed.

Lemma u_literaltable_pairs_lands rounds tbl s :
  (zlen s < rounds)%nat -> (zlen s <= L)%nat ->
  lands (u_literaltable_pairs rec_unpersist rounds tbl) s.
Proof using rec_strict.
  revert s. induction rounds as [|n IH]; intros s Hr HL; [lia|].
  cbn [u_literaltable_pairs].
  apply lands_bind; [apply consumes_lands, rec_strict, HL | intros key s1 E1].
  apply (rec_strict _ _ HL) in E1.
  destruct (lua_isnil key); [apply tame_ret with (L := L); lia|].
  apply lands_bind; [apply consumes_lands, rec_strict; lia | intros v s2 E2].
  assert (H1 : (zlen s1 <= L)%nat) by lia.
  apply (rec_strict _ _ H1) in E2.
  assert (Hset : tame L (if lua_isnil v
                         then eris_error "bad table value, got a nil value"
                         else lua_rawset tbl key v)) by repeat tame_step.
  assert (H2 : (zlen s2 <= L)%nat) by lia.
  apply lands_bind; [apply Hset, H2 | intros [] s3 E3].
  apply (Hset _ H2) in E3.
  apply IH; lia.
Qed.

Lemma u_literaltable_tame top : tame L (u_literaltable rec_unpersist top).
Proof using rec_strict.
  unfold u_literaltable.
  apply tame_bind; [repeat tame_step | intros tbl].
  apply tame_bind; [repeat tame_step | intros _].
  intros s Hs.
  change (lands (u_literaltable_pairs rec_unpersist (S (zlen s)) tbl ;;
                 u_metatable rec_unpersist (VTable tbl) ;; ret (VTable tbl)) s).
  apply lands_bind; [apply u_literaltable_pairs_lands; [lia | exact Hs]|].
  intros [] s1 E1.
  apply (u_literaltable_pairs_lands (S (zlen s)) tbl s (Nat.lt_succ_diag_r _) Hs) in E1.
  assert (Hrest : tame L (u_metatable rec_unpersist (VTable tbl) ;; ret (VTable tbl)))
    by (apply tame_bind; [apply u_metatable_tame | intros _; apply tame_ret]).
  apply Hrest. lia.
Qed.

Lemma u_literaluserdata_tame top : tame L (u_literaluserdata rec_unpersist top).
Proof using rec_strict.
  unfold u_literaluserdata.
  do 4 (apply tame_bind; [repeat tame_step | intros ?]).
  apply tame_bind; [apply u_metatable_tame | intros _]. apply tame_ret.
Qed.

Lemma u_special_tame top type literal :
  (forall t, tame L (literal t)) ->
  tame L (u_special rec_unpersist top type literal).
Proof using rec_strict host_ok.
  intros Hl. unfold u_special.
  apply tame_bind; [repeat tame_step | intros special].
  destruct (special =? 0); [apply Hl|].
  repeat tame_step.
Qed.

Lemma u_permanent_tame top : tame L (u_permanent rec_unpersist top).
Proof using rec_strict. unfold u_permanent. repeat tame_step. Qed.

Lemma u_proto_tame top : tame L (u_proto rec_unpersist top).
Proof using rec_strict. unfold u_proto. repeat tame_step. Qed.

Lemma u_upval_tame top : tame L (u_upval rec_unpersist top).
Proof using rec_strict. unfold u_upval. repeat tame_step. Qed.

Lemma u_closure_tame top : tame L (u_closure rec_unpersist top).
Proof using rec_strict. unfold u_closure, u_closure_upvalue. repeat tame_step. Qed.
End ReaderTerminates.

Lemma strict_weaken {A : Type} L L' (m : R A) :
  (L' <= L)%nat -> strict L m -> strict L' m.
Proof. intros HL H s Hs. apply H. lia. Qed.

Lemma tame_gets_zio {A : Type} L (k : list byte -> R A) :
  (forall s, (zlen s <= L)%nat -> lands (k (upi_zio s)) s) ->
  tame L (bind (gets upi_zio) k).
Proof. intros H s Hs. exact (H s Hs). Qed.

Lemma u_thread_callinfos_tame {host : LuaHost} rec_unpersist rounds th :
  forall L, (forall top, strict L (rec_unpersist top)) -> (L < rounds)%nat ->
  tame L (u_thread_callinfos rec_unpersist rounds th).
Proof.
  induction rounds as [|n IH]; intros L Hrec Hlt; [lia|].
  intros s Hs. cbn [u_thread_callinfos].
  apply lands_bind; [apply consumes_lands, (strict_read_size_t L), Hs|].
  intros func s1 E1. apply (strict_read_size_t L s Hs) in E1.
  assert (Hrec1 : forall top, strict (zlen s1) (rec_unpersist top)).
  { intros top. apply (strict_weaken L); [lia | apply Hrec]. }
  assert (IH1 : tame (zlen s1) (u_thread_callinfos rec_unpersist n th)).
  { apply IH; [exact Hrec1 | lia]. }
  clear Hrec IH.
  match goal with
  | |- lands ?m s1 => assert (Ht : tame (zlen s1) m); [| exact (Ht s1 (le_n _))]
  end.
  repeat tame_step.
Qed.

Lemma u_thread_openupvals_tame {host : LuaHost} rec_unpersist rounds th :
  forall L, (forall top, strict L (rec_unpersist top)) -> (L < rounds)%nat ->
  tame L (u_thread_openupvals rec_unpersist rounds th).
Proof.
  induction rounds as [|n IH]; intros L Hrec Hlt; [lia|].
  intros s Hs. cbn [u_thread_openupvals].
  apply lands_bind; [apply consumes_lands, (strict_read_size_t L), Hs|].
  intros offset s1 E1. apply (strict_read_size_t L s Hs) in E1.
  assert (Hrec1 : forall top, strict (zlen s1) (rec_unpersist top)).
  { intros top. apply (strict_weaken L); [lia | apply Hrec]. }
  assert (IH1 : tame (zlen s1) (u_thread_openupvals rec_unpersist n th)).
  { apply IH; [exact Hrec1 | lia]. }
  clear Hrec IH.
  match goal with
  | |- lands ?m s1 => assert (Ht : tame (zlen s1) m); [| exact (Ht s1 (le_n _))]
  end.
  unfold u_thread_patch. repeat tame_step.
Qed.

Lemma u_thread_tame {host : LuaHost} rec_unpersist L top :
  (forall top, strict L (rec_unpersist top)) ->
  tame L (u_thread rec_unpersist top).
Proof.
  intros Hrec. unfold u_thread.
  do 11 (apply tame_bind; [repeat tame_step | intros ?]).
  apply tame_gets_zio. intros s Hs.
  assert (Hrec1 : forall top, strict (zlen s) (rec_unpersist top)).
  { intros t. apply (strict_weaken L); [exact Hs | apply Hrec]. }
  match goal with
  | |- lands ?m s => assert (Ht : tame (zlen s) m); [| exact (Ht s (le_n _))]
  end.
  apply tame_bind; [apply u_thread_callinfos_tame; [exact Hrec1 | unfold zlen; lia]|].
  intros _. apply tame_gets_zio. intros s2 Hs2.
  assert (Hrec2 : forall top, strict (zlen s2) (rec_unpersist top)).
  { intros t. apply (strict_weaken L); [lia | apply Hrec]. }
  match goal with
  | |- lands ?m s2 => assert (Ht : tame (zlen s2) m); [| exact (Ht s2 (le_n _))]
  end.
  apply tame_bind; [apply u_thread_openupvals_tame; [exact Hrec2 | unfold zlen; lia]|].
  intros _. apply tame_ret.
Qed.

Lemma unpersist_body_tame {host : LuaHost} rec_unpersist L top :
  host_returns host ->
  (forall top, strict L (rec_unpersist top)) ->
  forall type,
  tame L
    (if ERIS_REFERENCE_OFFSET <? type then
       let reference := type - ERIS_REFERENCE_OFFSET in
       rt <- gets upi_reftbl ;;
       let obj := reftbl_rawgeti rt reference in
       if lua_isnil obj
       then eris_error ("invalid reference #" ++ string_of_Z reference)
       else ret obj
     else
       if type =? LUA_TNIL then ret VNil
       else if type =? LUA_TBOOLEAN then u_boolean
       else if type =? LUA_TLIGHTUSERDATA then u_pointer
       else if type =? LUA_TNUMBER then u_number
       else if type =? LUA_TSTRING then u_string
       else if type =? LUA_TTABLE then u_table rec_unpersist top
       else if type =? LUA_TFUNCTION then u_closure rec_unpersist top
       else if type =? LUA_TUSERDATA then u_userdata rec_unpersist top
       else if type =? LUA_TTHREAD then u_thread rec_unpersist top
       else if type =? LUA_TPROTO then u_proto rec_unpersist top
       else if type =? LUA_TUPVAL then u_upval rec_unpersist top
       else if type =? ERIS_PERMANENT then u_permanent rec_unpersist top
       else eris_error ("trying to unpersist unknown type " ++ string_of_Z type)).
Proof.
  intros Hh Hrec type.
  destruct (_ <? _); [repeat tame_step|].
  repeat match goal with
         | |- tame _ (if ?b then _ else _) => destruct b
         end.
  - apply tame_ret.
  - unfold u_boolean. repeat tame_step.
  - unfold u_pointer. repeat tame_step.
  - unfold u_number. repeat tame_step.
  - unfold u_string. repeat tame_step.
  - apply u_special_tame; [exact Hh | exact Hrec |].
    intros t. apply u_literaltable_tame. exact Hrec.
  - apply u_closure_tame. exact Hrec.
  - apply u_special_tame; [exact Hh | exact Hrec |].
    intros t. apply u_literaluserdata_tame. exact Hrec.
  - apply u_thread_tame. exact Hrec.
  - apply u_proto_tame. exact Hrec.
  - apply u_upval_tame. exact Hrec.
  - apply u_permanent_tame. exact Hrec.
  - apply tame_eris_error.
Qed.

Lemma unpersist_strict {host : LuaHost} :
  host_returns host ->
  forall n L top, (L < n)%nat -> strict L (unpersist n top).
Proof.
  intros Hh. induction n as [|n IH]; intros L top Hlt; [lia|].
  intros s Hs. cbn [unpersist]. unfold unpersist_body.
  apply consumes_bind; [apply (strict_read_int L), Hs|].
  intros type s1 E1. apply (strict_read_int L s Hs) in E1.
  apply (unpersist_body_tame (unpersist n) (zlen s1) top Hh); [|lia].
  intros t. apply IH. lia.
Qed.

(** The reader terminates on every input.  Every call of [unpersist]
    consumes the four bytes of its framing word before it does anything
    else, so neither the depth of the recursion nor the rounds of the loops
    that run until an end marker can exceed the number of input bytes: with
    more fuel than input bytes the run never ends for lack of fuel.  A run
    that returns a value has consumed at least four bytes. *)
Theorem reader_terminates {host : LuaHost} n top upi :
  host_returns host ->
  (length (upi_zio upi) < n)%nat ->
  unpersist n top upi <> OutOfFuel /\
  forall v upi', unpersist n top upi = Ok (v, upi') ->
    (length (upi_zio upi') + 4 <= length (upi_zio upi))%nat.
Proof.
  intros Hh Hn. split.
  - apply (unpersist_strict Hh n (length (upi_zio upi)) top Hn upi). unfold zlen. lia.
  - intros v upi' H. destruct n as [|n]; [discriminate|].
    cbn [unpersist] in H. unfold unpersist_body in H.
    apply bind_Ok in H as (type & s1 & H1 & H).
    assert (Hl : (zlen s1 + 4 = zlen upi)%nat).
    { unfold read_int, READ_VALUE in H1.
      apply bind_Ok in H1 as (u & s2 & H1 & H2). injection H2 as _ <-.
      apply bind_Ok in H1 as (bs & s3 & H1 & H2). injection H2 as _ <-.
      apply READ_RAW_Ok in H1 as (Hz & Hlen & _).
      unfold zlen. rewrite Hz, length_app. unfold sizeof_int in Hlen. lia. }
    assert (Hrec : forall t, strict (zlen s1) (unpersist n t)).
    { intros t. apply unpersist_strict; [exact Hh|]. unfold zlen in *. lia. }
    apply (unpersist_body_tame (unpersist n) (zlen s1) top Hh Hrec type s1 (le_n _)) in H.
    unfold zlen in *. lia.
Qed.


(** ** The in-memory writer *)

(** [writer] never writes past the capacity.  On a buffer whose bytes fit
    its capacity, a successful call appends the block, the result fits its
    capacity again, the capacity does not shrink, and it stays as it is when
    the block fits.  The call fails only when the capacity cannot grow: it
    succeeds whenever neither twice the capacity nor the capacity plus the
    block overflows [size_t]. *)
Theorem writer_within_capacity p buff :
  Mbuffer_ok buff ->
  Z.of_nat (length p) < SIZE_MOD ->
  (forall b, writer p buff = Some b ->
     buffer b = buffer buff ++ p /\ Mbuffer_ok b /\
     buffsize buff <= buffsize b /\
     (eris_bufflen buff + Z.of_nat (length p) <= buffsize buff ->
      buffsize b = buffsize buff)) /\
  (2 * buffsize buff < SIZE_MOD ->
   buffsize buff + Z.of_nat (length p) < SIZE_MOD ->
   writer p buff <> None).
Proof.
  unfold Mbuffer_ok, eris_bufflen, SIZE_MOD. intros [Hs Hc] Hp.
  assert (H0 : 0 <= Z.of_nat (length (buffer buff))) by lia.
  set (size := Z.of_nat (length (buffer buff))) in *.
  set (cap := buffsize buff) in *.
  set (sz := Z.of_nat (length p)) in *.
  assert (Hsz : 0 <= sz) by (unfold sz; lia).
  assert (E1 : (cap - size) mod 2 ^ 64 = cap - size) by (apply Z.mod_small; lia).
  split.
  - intros b Hw. unfold writer, eris_bufflen, SIZE_MOD in Hw. cbv zeta in Hw.
    fold size cap sz in Hw. rewrite E1 in Hw.
    destruct (Z.ltb_spec (cap - size) sz) as [Hlt|Hge].
    + match type of Hw with
      | (if ?nc <=? cap then _ else _) = _ =>
          set (newcap := nc) in *;
          destruct (Z.leb_spec newcap cap) as [|Hgt]; [discriminate|]
      end.
      injection Hw as <-. cbn [buffer buffsize].
      rewrite length_app.
      split; [reflexivity|].
      assert (Hnc : newcap < 2 ^ 64 /\ size + sz <= newcap).
      { subst newcap.
        destruct (Z.ltb_spec (((cap * 2) mod 2 ^ 64 - size) mod 2 ^ 64) sz) as [Ha|Ha].
        - pose proof (Z.mod_pos_bound (cap + sz) (2 ^ 64) ltac:(lia)) as Hb.
          split; [lia|].
          destruct (Z.lt_ge_cases (cap + sz) (2 ^ 64)) as [Hno|Hwrap].
          + rewrite Z.mod_small in * by lia. lia.
          + exfalso. revert Hgt.
            destruct (Z.ltb_spec (((cap * 2) mod 2 ^ 64 - size) mod 2 ^ 64) sz); [|lia].
            replace ((cap + sz) mod 2 ^ 64) with (cap + sz - 2 ^ 64); [lia|].
            symmetry. rewrite <- (Z.mod_small (cap + sz - 2 ^ 64) (2 ^ 64)) by lia.
            rewrite <- Zminus_mod_idemp_r, Z.mod_same, Z.sub_0_r by lia. reflexivity.
        - pose proof (Z.mod_pos_bound (cap * 2) (2 ^ 64) ltac:(lia)) as Hb.
          split; [lia|].
          revert Hgt.
          destruct (Z.ltb_spec (((cap * 2) mod 2 ^ 64 - size) mod 2 ^ 64) sz); [lia|].
          intros Hgt. rewrite (Z.mod_small ((cap * 2) mod 2 ^ 64 - size)) in Ha by lia.
          lia. }
      rewrite Nat2Z.inj_add. fold size sz. lia.
    + injection Hw as <-. cbn [buffer buffsize].
      rewrite length_app, Nat2Z.inj_add. fold size sz.
      split; [reflexivity|]. lia.
  - intros H2 Hadd. unfold writer, eris_bufflen, SIZE_MOD. cbv zeta.
    fold size cap sz. rewrite E1.
    destruct (Z.ltb_spec (cap - size) sz) as [Hlt|Hge]; [|discriminate].
    rewrite (Z.mod_small (cap * 2)) by lia.
    rewrite (Z.mod_small (cap * 2 - size)) by lia.
    rewrite (Z.mod_small (cap + sz)) by lia.
    destruct (Z.ltb_spec (cap * 2 - size) sz).
    + destruct (Z.leb_spec (cap + sz) cap); [lia | discriminate].
    + destruct (Z.leb_spec (cap * 2) cap); [lia | discriminate].
Qed.


(** ** The writer only reads the heap *)

Section WriterHeap.
Context {host : LuaHost}.
Variable T : heap -> heap -> Prop.
Hypothesis T_refl : forall h, T h h.
Hypothesis T_trans : forall h1 h2 h3, T h1 h2 -> T h2 h3 -> T h1 h3.
Hypothesis T_call : forall f args h r h', lua_call f args h = Ok (r, h') -> T h h'.

Lemma heap_step_refl pi : heap_step T pi pi.
Proof using T_refl. apply T_refl. Qed.

Lemma heap_step_trans pi1 pi2 pi3 :
  heap_step T pi1 pi2 -> heap_step T pi2 pi3 -> heap_step T pi1 pi3.
Proof using T_trans. apply T_trans. Qed.

Lemma WRITE_RAW_heap bs : preserves (heap_step T) (WRITE_RAW bs).
Proof using T_refl.
  intros pi u pi' H. apply WRITE_RAW_Ok in H as (b & -> & _). apply T_refl.
Qed.

Lemma host_call_heap f args :
  preserves (heap_step T)
    (fun pi =>
       match lua_call f args (pi_L pi) with
       | Ok (r, h') => Ok (r, pi_set_L h' pi)
       | Err e => Err e
       | Undef => Undef
       | OutOfFuel => OutOfFuel
       end).
Proof using T_call.
  intros pi r pi'. destruct (lua_call f args (pi_L pi)) as [[r' h']| | |] eqn:E;
    try discriminate.
  intros [= <- <-]. exact (T_call _ _ _ _ _ E).
Qed.

Lemma bind_ref_heap refkey : preserves (heap_step T) (modify (pi_bind_ref refkey)).
Proof using T_refl.
  intros pi u pi' H. unfold modify in H. injection H; clear H; intros; subst.
  exact (T_refl (pi_L pi)).
Qed.

Variable rec_persist : value -> W unit.
Variable rec_persist_keyed : value -> value -> Z -> W unit.
Hypothesis rec_persist_heap : forall v, preserves (heap_step T) (rec_persist v).
Hypothesis rec_persist_keyed_heap :
  forall o k t, preserves (heap_step T) (rec_persist_keyed o k t).

Let Hrefl := heap_step_refl.
Let Htrans := heap_step_trans.

Ltac heap_writer_step :=
  repeat first
    [ apply WRITE_RAW_heap
    | apply host_call_heap
    | apply bind_ref_heap
    | apply rec_persist_heap
    | apply rec_persist_keyed_heap
    | progress unfold write_lu_byte, write_short, write_ushort, write_int,
        write_size_t, write_ptrdiff_t, write_lua_Number, write_voidp, WRITE_VALUE
    | preserves_step ].

Lemma p_callinfos_heap t cis :
  preserves (heap_step T) (p_callinfos rec_persist t cis).
Proof using rec_persist_heap T_refl T_trans.
  induction cis as [|ci r IH]; simpl.
  - heap_writer_step.
  - destruct r; [unfold p_callinfo; heap_writer_step|].
    apply preserves_bind; [exact Htrans | unfold p_callinfo; heap_writer_step |].
    intros _; exact IH.
Qed.

Lemma persist_typed_switch_heap type obj :
  preserves (heap_step T)
    (persist_typed_switch rec_persist rec_persist_keyed type obj).
Proof using rec_persist_heap rec_persist_keyed_heap T_refl T_trans T_call.
  unfold persist_typed_switch.
  repeat match goal with
         | |- preserves _ (if ?b then _ else _) => destruct b
         end.
  - unfold p_boolean. heap_writer_step.
  - unfold p_pointer. heap_writer_step.
  - unfold p_number. heap_writer_step.
  - unfold p_string. heap_writer_step.
  - unfold p_table, p_special, p_special_literal, p_literaltable, p_metatable.
    heap_writer_step.
  - unfold p_closure, p_closure_upvalue. heap_writer_step.
  - unfold p_userdata, p_special, p_special_literal, p_literaluserdata, p_metatable.
    heap_writer_step.
  - unfold p_thread, p_thread_body. heap_writer_step; apply p_callinfos_heap.
  - unfold p_proto. heap_writer_step.
  - apply rec_persist_heap.
  - apply preserves_eris_error.
Qed.

Lemma persist_keyed_body_heap obj refkey type :
  preserves (heap_step T)
    (persist_keyed_body rec_persist rec_persist_keyed obj refkey type).
Proof using rec_persist_heap rec_persist_keyed_heap T_refl T_trans T_call.
  unfold persist_keyed_body, persist_keyed_new, persist_typed.
  apply preserves_bind; [exact Htrans | heap_writer_step | intros rt].
  destruct (reftbl_get rt refkey); [heap_writer_step|].
  apply preserves_bind; [exact Htrans | heap_writer_step | intros _].
  apply preserves_bind; [exact Htrans | heap_writer_step | intros h].
  apply preserves_bind; [exact Htrans | heap_writer_step | intros perms].
  cbv zeta. destruct (lua_isnil _).
  - apply preserves_bind; [exact Htrans | heap_writer_step | intros _].
    apply persist_typed_switch_heap.
  - heap_writer_step.
Qed.

Lemma persist_body_heap obj :
  preserves (heap_step T) (persist_body rec_persist rec_persist_keyed obj).
Proof using rec_persist_heap rec_persist_keyed_heap T_refl T_trans T_call.
  unfold persist_body, persist_typed. cbv zeta.
  destruct (lua_type obj =? LUA_TNIL); [heap_writer_step|].
  destruct (_ || _).
  - apply preserves_bind; [exact Htrans | heap_writer_step | intros _].
    apply persist_typed_switch_heap.
  - apply rec_persist_keyed_heap.
Qed.
End WriterHeap.

Lemma persist_fix_heap {host : LuaHost} (T : heap -> heap -> Prop) fuel :
  (forall h, T h h) -> (forall h1 h2 h3, T h1 h2 -> T h2 h3 -> T h1 h3) ->
  (forall f args h r h', lua_call f args h = Ok (r, h') -> T h h') ->
  (forall v, preserves (heap_step T) (persist fuel v)) /\
  (forall o k t, preserves (heap_step T) (persist_keyed fuel o k t)).
Proof.
  intros Hr Ht Hc. unfold persist, persist_keyed.
  induction fuel as [|n [IH1 IH2]]; simpl.
  - split; intros; apply preserves_out_of_fuel.
  - split; intros.
    + apply persist_body_heap; assumption.
    + apply persist_keyed_body_heap; assumption.
Qed.

(** The writer itself only reads the objects it persists: whatever differs
    between the heap before and the heap after a run of [persist] was done
    by the [__persist] functions it called.  Formally, every reflexive and
    transitive relation on heaps that holds across each host call holds
    across the run; in particular the heap is unchanged when the calls leave
    it unchanged. *)
Theorem writer_only_reads_heap {host : LuaHost} (T : heap -> heap -> Prop)
    fuel v pi pi' :
  (forall h, T h h) -> (forall h1 h2 h3, T h1 h2 -> T h2 h3 -> T h1 h3) ->
  (forall f args h r h', lua_call f args h = Ok (r, h') -> T h h') ->
  persist fuel v pi = Ok (tt, pi') ->
  T (pi_L pi) (pi_L pi').
Proof.
  intros Hr Ht Hc H.
  destruct (persist_fix_heap T fuel Hr Ht Hc) as [H1 _].
  exact (H1 v pi tt pi' H).
Qed.


(** ** Values the writer refuses *)

(** A write into a buffer that is far from the [size_t] limit succeeds. *)
Lemma writer_room p buff B :
  Mbuffer_ok buff -> buffsize buff <= B ->
  2 * B + Z.of_nat (length p) < SIZE_MOD ->
  exists b, writer p buff = Some b /\ buffer b = buffer buff ++ p /\
            Mbuffer_ok b /\ buffsize b <= 2 * B + Z.of_nat (length p).
Proof.
  unfold Mbuffer_ok, eris_bufflen, SIZE_MOD. intros [Hs Hc] HB Hp.
  unfold writer, eris_bufflen, SIZE_MOD. cbv zeta.
  set (size := Z.of_nat (length (buffer buff))) in *.
  set (cap := buffsize buff) in *.
  set (sz := Z.of_nat (length p)) in *.
  assert (H0 : 0 <= size) by (unfold size; lia).
  assert (Hsz : 0 <= sz) by (unfold sz; lia).
  rewrite (Z.mod_small (cap - size)) by lia.
  rewrite (Z.mod_small (cap * 2)) by lia.
  rewrite (Z.mod_small (cap * 2 - size)) by lia.
  rewrite (Z.mod_small (cap + sz)) by lia.
  destruct (Z.ltb_spec (cap - size) sz).
  - destruct (Z.ltb_spec (cap * 2 - size) sz).
    + destruct (Z.leb_spec (cap + sz) cap); [lia|].
      eexists. split; [reflexivity|]. cbn [buffer buffsize].
      rewrite length_app, Nat2Z.inj_add. fold size sz. repeat split; lia.
    + destruct (Z.leb_spec (cap * 2) cap); [lia|].
      eexists. split; [reflexivity|]. cbn [buffer buffsize].
      rewrite length_app, Nat2Z.inj_add. fold size sz. repeat split; lia.
  - eexists. split; [reflexivity|]. cbn [buffer buffsize].
    rewrite length_app, Nat2Z.inj_add. fold size sz. repeat split; lia.
Qed.

Lemma WRITE_VALUE_room x n pi B :
  Mbuffer_ok (pi_ud pi) -> buffsize (pi_ud pi) <= B ->
  2 * B + Z.of_nat n < SIZE_MOD ->
  exists b, WRITE_VALUE x n pi = Ok (tt, pi_set_ud b pi) /\
            Mbuffer_ok b /\ buffsize b <= 2 * B + Z.of_nat n.
Proof.
  intros Hok HB Hn. unfold WRITE_VALUE, WRITE_RAW.
  destruct (writer_room (le_encode n x) (pi_ud pi) B Hok HB) as (b & -> & _ & Hb & Hc).
  { now rewrite length_le_encode. }
  rewrite length_le_encode in Hc. eauto.
Qed.

Lemma empty_Mbuffer_ok : Mbuffer_ok {| buffer := []; buffsize := 0 |}.
Proof. unfold Mbuffer_ok, eris_bufflen, SIZE_MOD. simpl. lia. Qed.

(** [persist] of a fresh value that is no permanent value, from the state
    in which [l_persist] starts: the kind is written and the body follows. *)
Lemma persist_root_fresh {host : LuaHost} n v h running perms :
  is_simple v = false ->
  lua_isnil (lua_gettable h perms v) = true ->
  exists b,
    Mbuffer_ok b /\ buffsize b <= 4 /\
    persist (S (S n)) v
      {| pi_L := h; pi_running := running; pi_perms := perms; pi_reftbl := [];
         pi_refcount := 0; pi_ud := {| buffer := []; buffsize := 0 |} |} =
    persist_typed_switch (persist n) (persist_keyed n) (lua_type v) v
      {| pi_L := h; pi_running := running; pi_perms := perms;
         pi_reftbl := [(v, 1)]; pi_refcount := 1; pi_ud := b |}.
Proof.
  intros Hs Hp.
  rewrite persist_nonsimple by exact Hs.
  rewrite persist_keyed_fresh by reflexivity.
  rewrite persist_keyed_new_run. cbv zeta. cbn [pi_bind_ref pi_L pi_perms].
  rewrite Hp. unfold persist_typed, write_int.
  destruct (WRITE_VALUE_room (lua_type v) sizeof_int
              (pi_bind_ref v {| pi_L := h; pi_running := running; pi_perms := perms;
                                pi_reftbl := []; pi_refcount := 0;
                                pi_ud := {| buffer := []; buffsize := 0 |} |})
              0 empty_Mbuffer_ok ltac:(simpl; lia) ltac:(cbv; reflexivity))
    as (b & Hw & Hb & Hc).
  exists b. split; [exact Hb|]. split; [exact Hc|].
  cbn [pi_refcount pi_reftbl] in Hw.
  rewrite (bind_step _ _ _ _ _ Hw). reflexivity.
Qed.

(** A C function is persisted only through the perms table.  A light C
    function that is no permanent value is refused, and so is a C closure
    whose C function is no permanent value: the closure's kind and upvalue
    count are written, and then its function is refused. *)
Theorem c_function_needs_perms {host : LuaHost} n h running perms :
  let h1 := populateperms false perms h in
  (forall f,
     lua_isnil (lua_gettable h1 perms (VLCF f)) = true ->
     l_persist (S (S n)) h running [VTable perms; VLCF f] =
       Err "Attempt to persist a light C function (%p)") /\
  (forall a cl,
     heap_ccl h1 a = Some cl ->
     lua_isnil (lua_gettable h1 perms (VCCl a)) = true ->
     lua_isnil (lua_gettable h1 perms (VLCF (c_f cl))) = true ->
     l_persist (S (S (S (S n)))) h running [VTable perms; VCCl a] =
       Err "Attempt to persist a light C function (%p)").
Proof.
  intros h1. split.
  - intros f Hp. unfold l_persist, check_perms, unchecked_persist. fold h1.
    destruct (persist_root_fresh n (VLCF f) h1 running perms eq_refl Hp)
      as (b & _ & _ & ->).
    reflexivity.
  - intros a cl Hcl Hp Hf. unfold l_persist, check_perms, unchecked_persist. fold h1.
    destruct (persist_root_fresh (S (S n)) (VCCl a) h1 running perms eq_refl Hp)
      as (b & Hb & Hc & ->).
    change (persist_typed_switch _ _ (lua_type (VCCl a)) (VCCl a))
      with (p_closure (persist (S (S n))) (persist_keyed (S (S n))) (VCCl a)).
    unfold p_closure. unfold bind at 1. unfold gets. cbn [pi_L].
    rewrite Hcl. unfold bind at 1. cbn [lift_opt ret].
    unfold write_lu_byte.
    match goal with
    | |- context [bind (WRITE_VALUE 1 sizeof_lu_byte) _ ?s] =>
        destruct (WRITE_VALUE_room 1 sizeof_lu_byte s 4 Hb Hc ltac:(cbv; reflexivity))
          as (b1 & Hw1 & Hb1 & Hc1)
    end.
    rewrite (bind_step _ _ _ _ _ Hw1).
    match goal with
    | |- context [bind (WRITE_VALUE ?x sizeof_lu_byte) _ ?s] =>
        destruct (WRITE_VALUE_room x sizeof_lu_byte s _ Hb1 Hc1 ltac:(cbv; reflexivity))
          as (b2 & Hw2 & Hb2 & Hc2)
    end.
    rewrite (bind_step _ _ _ _ _ Hw2).
    match goal with
    | |- context [bind (persist (S (S n)) ?v) _ ?s] =>
        assert (He : persist (S (S n)) v s =
                     Err "Attempt to persist a light C function (%p)")
    end.
    { rewrite persist_nonsimple by reflexivity.
      rewrite persist_keyed_fresh by reflexivity.
      rewrite persist_keyed_new_run. cbv zeta.
      cbn [pi_bind_ref pi_set_ud pi_L pi_perms].
      rewrite Hf. unfold persist_typed, write_int.
      match goal with
      | |- bind (WRITE_VALUE ?x sizeof_int) _ ?s = _ =>
          destruct (WRITE_VALUE_room x sizeof_int s _ Hb2 Hc2 ltac:(cbv; reflexivity))
            as (b3 & Hw3 & _ & _)
      end.
      rewrite (bind_step _ _ _ _ _ Hw3). reflexivity. }
    rewrite (bind_Err _ _ _ _ He). reflexivity.
Qed.

Lemma p_special_refuses {host : LuaHost} rec literal obj pi :
  persist_metafield (pi_L pi) obj = VNil \/
  persist_metafield (pi_L pi) obj = VBool false ->
  (lua_type obj =? LUA_TTABLE) = false \/
  persist_metafield (pi_L pi) obj = VBool false ->
  p_special rec literal obj pi =
  Err (if lua_type obj =? LUA_TTABLE
       then "attempt to persist forbidden table"
       else "literally persisting userdata is disabled by default").
Proof.
  unfold persist_metafield, p_special, p_special_literal.
  intros Hf Ht. unfold bind at 1. unfold gets.
  destruct (lua_getmetatable (pi_L pi) obj) as [mt|].
  - destruct Hf as [Hf | Hf]; rewrite Hf in *; cbn.
    + destruct Ht as [-> | Ht]; [reflexivity | discriminate].
    + destruct (lua_type obj =? LUA_TTABLE); reflexivity.
  - destruct Ht as [-> | Ht]; [reflexivity | discriminate].
Qed.

(** Literal persistence is refused where it is not allowed.  A userdata
    that is no permanent value and has no metatable, no [__persist] field
    or the field [false] is refused with "literally persisting userdata is
    disabled by default"; a table that is no permanent value and whose
    [__persist] field is [false] is refused with "attempt to persist
    forbidden table". *)
Theorem literal_persistence_refused {host : LuaHost} n h running perms a :
  let h1 := populateperms false perms h in
  (lua_isnil (lua_gettable h1 perms (VUdata a)) = true ->
   persist_metafield h1 (VUdata a) = VNil \/
   persist_metafield h1 (VUdata a) = VBool false ->
   l_persist (S (S n)) h running [VTable perms; VUdata a] =
     Err "literally persisting userdata is disabled by default") /\
  (lua_isnil (lua_gettable h1 perms (VTable a)) = true ->
   persist_metafield h1 (VTable a) = VBool false ->
   l_persist (S (S n)) h running [VTable perms; VTable a] =
     Err "attempt to persist forbidden table").
Proof.
  intros h1. split.
  - intros Hp Hf. unfold l_persist, check_perms, unchecked_persist. fold h1.
    destruct (persist_root_fresh n (VUdata a) h1 running perms eq_refl Hp)
      as (b & _ & _ & ->).
    change (persist_typed_switch _ _ (lua_type (VUdata a)) (VUdata a))
      with (p_special (persist n) (p_literaluserdata (persist n)) (VUdata a)).
    rewrite p_special_refuses; [reflexivity | exact Hf | left; reflexivity].
  - intros Hp Hf. unfold l_persist, check_perms, unchecked_persist. fold h1.
    destruct (persist_root_fresh n (VTable a) h1 running perms eq_refl Hp)
      as (b & _ & _ & ->).
    change (persist_typed_switch _ _ (lua_type (VTable a)) (VTable a))
      with (p_special (persist n) (p_literaltable (persist n)) (VTable a)).
    rewrite p_special_refuses; [reflexivity | right; exact Hf | right; exact Hf].
Qed.


(** ** Concrete runs of the added properties *)

Lemma registered_object_resolves_witness :
  unpersist (host := plain_host) 1 VNil res_upi2 = Ok (VBool true, upi_set_zio [] res_upi2).
Proof.
  apply (registered_object_resolves (host := plain_host) (VBool true) res_upi 1 res_upi1
           1 VNil VNil res_upi2 0 VNil []).
  - reflexivity.
  - simpl. lia.
  - reflexivity.
  - vm_compute. reflexivity.
  - vm_compute. reflexivity.
  - reflexivity.
Defined.

Lemma reader_terminates_witness :
  unpersist (host := plain_host) 9 VNil res_upi <> OutOfFuel /\
  forall v upi', unpersist (host := plain_host) 9 VNil res_upi = Ok (v, upi') ->
    (length (upi_zio upi') + 4 <= length (upi_zio res_upi))%nat.
Proof.
  apply (reader_terminates (host := plain_host) 9 VNil res_upi).
  - intros f args h. simpl. discriminate.
  - simpl. lia.
Defined.

Lemma writer_within_capacity_witness :
  (forall b, writer (bytes_of "abc") empty_Mbuffer = Some b ->
     buffer b = buffer empty_Mbuffer ++ bytes_of "abc" /\ Mbuffer_ok b /\
     buffsize empty_Mbuffer <= buffsize b /\
     (eris_bufflen empty_Mbuffer + Z.of_nat (length (bytes_of "abc"))
        <= buffsize empty_Mbuffer ->
      buffsize b = buffsize empty_Mbuffer)) /\
  (2 * buffsize empty_Mbuffer < SIZE_MOD ->
   buffsize empty_Mbuffer + Z.of_nat (length (bytes_of "abc")) < SIZE_MOD ->
   writer (bytes_of "abc") empty_Mbuffer <> None).
Proof.
  apply (writer_within_capacity (bytes_of "abc") empty_Mbuffer).
  - unfold Mbuffer_ok, eris_bufflen, SIZE_MOD. simpl. lia.
  - unfold SIZE_MOD. simpl. lia.
Defined.

Lemma writer_only_reads_heap_witness :
  pi_L (start_pi ref_heap 9%nat 0%nat) =
  pi_L (run_W (persist (host := plain_host) 3 (VStr (bytes_of "ab"))
                 (start_pi ref_heap 9%nat 0%nat))
              (start_pi [] 0%nat 0%nat)).
Proof.
  apply (writer_only_reads_heap (host := plain_host) eq 3 (VStr (bytes_of "ab"))
           (start_pi ref_heap 9%nat 0%nat)).
  - reflexivity.
  - intros h1 h2 h3 H1 H2. rewrite H1. exact H2.
  - intros f args h r h'. simpl. discriminate.
  - vm_compute. reflexivity.
Defined.

(** Boundary scenarios of the refusals: a userdata without metatable and a
    C closure whose function is no permanent value. *)
Example plain_userdata_refused :
  l_persist (host := plain_host) 5 ref_heap 9%nat [VTable 0%nat; VUdata 1%nat] =
  Err "literally persisting userdata is disabled by default".
Proof. vm_compute. reflexivity. Qed.

Example c_closure_refused :
  l_persist (host := plain_host) 5 ref_heap 9%nat [VTable 0%nat; VCCl 2%nat] =
  Err "Attempt to persist a light C function (%p)".
Proof. vm_compute. reflexivity. Qed.

Lemma simple_wf_simple v : simple_wf v -> is_simple v = true.
Proof. destruct v as [| |[]| | | | | | | |]; simpl; intros H; try reflexivity; contradiction. Qed.

Lemma for_each_persist_simple {host : LuaHost} n l pi pi' :
  Forall simple_wf l ->
  for_each (persist n) l pi = Ok (tt, pi') ->
  pi_reftbl pi' = pi_reftbl pi /\ pi_refcount pi' = pi_refcount pi /\
  pi_L pi' = pi_L pi /\ pi_out pi' = pi_out pi ++ inline_all l.
Proof.
  intros Hl. revert pi. induction Hl as [|v l Hv Hl IH]; intros pi H.
  - injection H as <-. unfold inline_all. simpl. now rewrite app_nil_r.
  - cbn [for_each] in H. apply bind_Ok in H as ([] & s1 & H1 & H2).
    apply persist_simple in H1 as (R1 & C1 & L1 & O1); [|now apply simple_wf_simple].
    destruct (IH _ H2) as (R2 & C2 & L2 & O2).
    unfold inline_all in *. cbn [map concat].
    rewrite O2, O1, <- app_assoc. repeat split; congruence.
Qed.

(** The writer's run on a fresh C closure. *)
Lemma persist_c_closure {host : LuaHost} n a cl permkey pi pi' :
  heap_ccl (pi_L pi) a = Some cl ->
  Forall simple_wf (c_upvals cl) ->
  reftbl_get (pi_reftbl pi) (VCCl a) = None ->
  lua_isnil (lua_gettable (pi_L pi) (pi_perms pi) (VCCl a)) = true ->
  reftbl_get (pi_reftbl pi) (VLCF (c_f cl)) = None ->
  lua_gettable (pi_L pi) (pi_perms pi) (VLCF (c_f cl)) = permkey ->
  lua_isnil permkey = false -> simple_wf permkey ->
  persist n (VCCl a) pi = Ok (tt, pi') ->
  pi_reftbl pi' =
    (VLCF (c_f cl), pi_refcount pi + 2) :: (VCCl a, pi_refcount pi + 1) :: pi_reftbl pi /\
  pi_refcount pi' = pi_refcount pi + 2 /\
  pi_out pi' = pi_out pi ++ c_closure_bytes cl permkey.
Proof.
  intros Hcl Hup Hfresh Hperm Hffresh Hpk Hnn Hwf Hrun.
  destruct n as [|[|n]]; try discriminate.
  rewrite persist_nonsimple in Hrun by reflexivity.
  rewrite persist_keyed_fresh in Hrun by exact Hfresh.
  rewrite persist_keyed_new_run in Hrun. cbv zeta in Hrun.
  cbn [pi_bind_ref pi_L pi_perms] in Hrun. rewrite Hperm in Hrun.
  unfold persist_typed in Hrun.
  apply bind_Ok in Hrun as ([] & s1 & H1 & Hrun).
  apply write_Ok_out in H1 as (R1 & C1 & L1 & P1 & _ & O1).
  cbn [pi_bind_ref pi_L pi_perms pi_reftbl pi_refcount] in R1, C1, L1, P1.
  change (persist_typed_switch _ _ (lua_type (VCCl a)) (VCCl a))
    with (p_closure (persist n) (persist_keyed n) (VCCl a)) in Hrun.
  unfold p_closure in Hrun.
  apply bind_Ok in Hrun as (h & s1' & Hg & Hrun). injection Hg as <- <-.
  rewrite L1, Hcl in Hrun.
  apply bind_Ok in Hrun as (cl' & s1' & Hg & Hrun). injection Hg as <- <-.
  apply bind_Ok in Hrun as ([] & s2 & H2 & Hrun).
  apply write_Ok_out in H2 as (R2 & C2 & L2 & P2 & _ & O2).
  apply bind_Ok in Hrun as ([] & s3 & H3 & Hrun).
  apply write_Ok_out in H3 as (R3 & C3 & L3 & P3 & _ & O3).
  apply bind_Ok in Hrun as ([] & s4 & H4 & Hrun).
  (* the C function *)
  assert (Hs3 : pi_reftbl s3 = (VCCl a, pi_refcount pi + 1) :: pi_reftbl pi)
    by (rewrite R3, R2, R1; reflexivity).
  assert (HL3 : pi_L s3 = pi_L pi) by (rewrite L3, L2, L1; reflexivity).
  assert (HP3 : pi_perms s3 = pi_perms pi) by (rewrite P3, P2, P1; reflexivity).
  assert (HC3 : pi_refcount s3 = pi_refcount pi + 1) by (rewrite C3, C2, C1; reflexivity).
  destruct n as [|[|n]]; try discriminate.
  rewrite persist_nonsimple in H4 by reflexivity.
  rewrite persist_keyed_fresh in H4
    by (rewrite Hs3; cbn [reftbl_get]; exact Hffresh).
  rewrite persist_keyed_new_run in H4. cbv zeta in H4.
  cbn [pi_bind_ref pi_L pi_perms] in H4. rewrite HL3, HP3, Hpk, Hnn in H4.
  apply bind_Ok in H4 as ([] & s5 & H5 & H4).
  apply write_Ok_out in H5 as (R5 & C5 & L5 & P5 & _ & O5).
  apply bind_Ok in H4 as ([] & s6 & H6 & H4).
  apply write_Ok_out in H6 as (R6 & C6 & L6 & P6 & _ & O6).
  apply persist_simple in H4 as (R7 & C7 & L7 & O7); [|now apply simple_wf_simple].
  apply for_each_persist_simple in Hrun as (R8 & C8 & L8 & O8); [|exact Hup].
  cbn [pi_reftbl pi_refcount pi_bind_ref] in *.
  split; [|split].
  - rewrite R8, R7, R6, R5, Hs3, HC3.
    replace (pi_refcount pi + 1 + 1) with (pi_refcount pi + 2) by lia. reflexivity.
  - rewrite C8, C7, C6, C5. cbn [pi_refcount]. rewrite HC3. lia.
  - rewrite O8, O7, O6, O5. unfold pi_out in *. cbn [pi_ud pi_bind_ref] in *.
    rewrite O3, O2, O1. unfold c_closure_bytes. cbn [pi_ud].
    rewrite <- !app_assoc. reflexivity.
Qed.

Lemma heap_ccl_Some h a c : heap_ccl h a = Some c <-> h !! a = Some (OCCl c).
Proof.
  unfold heap_ccl. destruct (h !! a) as [[]|]; split; intros H; congruence.
Qed.

Lemma update_update (h : heap) a (o1 o2 : obj) :
  <[a := o1]> (<[a := o2]> h) = <[a := o1]> h.
Proof. apply list_insert_insert_eq. Qed.

Lemma inline_all_cons v l : inline_all (v :: l) = inline_bytes v ++ inline_all l.
Proof. reflexivity. Qed.

(** The upvalue loop of a C closure on the inline encodings of simple
    values: [done] is filled in, [l] follows. *)
Lemma read_c_upvalues {host : LuaHost} m a f l :
  forall done s rest,
  Forall simple_wf l ->
  heap_ccl (upi_L s) a =
    Some {| c_f := f; c_upvals := done ++ replicate (length l) VNil |} ->
  upi_zio s = inline_all l ++ rest ->
  exists s',
    for_range (fun nup => v <- unpersist (S m) (VCCl a) ;; lua_setupvalue (VCCl a) nup v)
      (Z.of_nat (length done) + 1) (length l) s = Ok (tt, s') /\
    upi_L s' = <[a := OCCl {| c_f := f; c_upvals := done ++ l |}]> (upi_L s) /\
    upi_zio s' = rest /\ upi_reftbl s' = upi_reftbl s /\
    upi_refcount s' = upi_refcount s /\ upi_perms s' = upi_perms s.
Proof.
  induction l as [|v l IH]; intros done s rest Hl Hcl Hz.
  - exists s. cbn [length for_range]. split; [reflexivity|].
    cbn [length replicate] in Hcl. rewrite app_nil_r in *.
    apply heap_ccl_Some in Hcl.
    split; [symmetry; apply list_insert_id; exact Hcl|].
    unfold inline_all in Hz. simpl in Hz. auto.
  - inversion Hl as [|? ? Hv Hl']; subst.
    rewrite inline_all_cons, <- app_assoc in Hz.
    cbn [length for_range]. cbv beta.
    set (s0 := upi_set_zio (inline_all l ++ rest) s).
    assert (Hset : lua_setupvalue (VCCl a) (Z.of_nat (length done) + 1) v s0 =
                   Ok (tt, upi_set_L (<[a := OCCl {| c_f := f;
                                                     c_upvals := (done ++ [v]) ++
                                                       replicate (length l) VNil |}]>
                                        (upi_L s)) s0)).
    { unfold lua_setupvalue. unfold bind at 1. unfold gets.
      subst s0. cbn [upi_L upi_set_zio]. rewrite Hcl. cbn [lift_opt].
      unfold bind at 1, ret at 1.
      rewrite update_object_run. cbn [c_f c_upvals upi_L upi_set_zio].
      replace (Z.to_nat (Z.of_nat (length done) + 1 - 1)) with (length done + 0)%nat by lia.
      cbn [length replicate]. rewrite insert_app_r. cbn [insert list_insert].
      rewrite <- app_assoc. reflexivity. }
    set (s1 := upi_set_L _ s0) in Hset.
    destruct (IH (done ++ [v]) s1 rest Hl') as (s' & Hrun & HL & HZ & HR & HC & HP).
    { subst s1 s0. cbn [upi_L upi_set_L upi_set_zio]. apply heap_ccl_Some.
      apply list_lookup_insert_eq. apply heap_ccl_Some in Hcl.
      now apply lookup_lt_Some in Hcl. }
    { reflexivity. }
    unfold bind at 1. unfold bind at 1.
    rewrite (unpersist_simple m (VCCl a) s v _ Hv Hz). fold s0. rewrite Hset.
    exists s'. rewrite length_app in Hrun. cbn [length] in Hrun.
    replace (Z.of_nat (length done + 1) + 1) with (Z.of_nat (length done) + 1 + 1) in Hrun
      by lia.
    split; [exact Hrun|].
    rewrite HL, HZ, HR, HC, HP. subst s1 s0. cbn [upi_L upi_reftbl upi_refcount upi_perms
      upi_set_L upi_set_zio].
    rewrite update_update, <- app_assoc. auto.
Qed.

Lemma update_alloc_new (h : heap) (o1 o2 : obj) :
  <[length h := o2]> (h ++ [o1]) = h ++ [o2].
Proof.
  replace (length h) with (length h + 0)%nat by lia.
  rewrite insert_app_r. reflexivity.
Qed.

(** The reader's run on the record of a C closure. *)
Lemma unpersist_c_closure {host : LuaHost} m top upi cl permkey rest :
  (0 < length (c_upvals cl) < 256)%nat ->
  Forall simple_wf (c_upvals cl) ->
  simple_wf permkey ->
  lua_gettable (upi_L upi) (upi_perms upi) permkey = VLCF (c_f cl) ->
  upi_zio upi = c_closure_bytes cl permkey ++ rest ->
  exists upi',
    unpersist (S (S (S m))) top upi = Ok (VCCl (length (upi_L upi)), upi') /\
    upi_L upi' = upi_L upi ++ [OCCl cl] /\
    upi_zio upi' = rest /\
    upi_perms upi' = upi_perms upi /\
    upi_refcount upi' = upi_refcount upi + 2 /\
    upi_reftbl upi' =
      (upi_refcount upi + 2, VCCl (length (upi_L upi))) ::
      (upi_refcount upi + 1, VLCF (c_f cl)) ::
      (upi_refcount upi + 1, top) :: upi_reftbl upi.
Proof.
  intros Hn Hup Hwf Hperm Hz. unfold c_closure_bytes in Hz.
  rewrite <- !app_assoc in Hz.
  rewrite (unpersist_tag _ top upi LUA_TFUNCTION _ ltac:(cbv; split; congruence) Hz).
  cbv zeta. change (LUA_TFUNCTION =? LUA_TNIL) with false.
  change (LUA_TFUNCTION =? LUA_TBOOLEAN) with false.
  change (LUA_TFUNCTION =? LUA_TLIGHTUSERDATA) with false.
  change (LUA_TFUNCTION =? LUA_TNUMBER) with false.
  change (LUA_TFUNCTION =? LUA_TSTRING) with false.
  change (LUA_TFUNCTION =? LUA_TTABLE) with false.
  change (LUA_TFUNCTION =? LUA_TFUNCTION) with true. cbv iota.
  unfold u_closure, read_lu_byte.
  erewrite (bind_step _ _ _ _ _
              (read_unsigned_app sizeof_lu_byte 1 _ (upi_set_zio _ upi)
                 ltac:(cbv; split; congruence) eq_refl)).
  assert (Hb : 0 <= Z.of_nat (length (c_upvals cl)) < 2 ^ (8 * Z.of_nat sizeof_lu_byte)).
  { change (2 ^ (8 * Z.of_nat sizeof_lu_byte)) with 256. lia. }
  erewrite (bind_step _ _ _ _ _
              (read_unsigned_app sizeof_lu_byte _ _ (upi_set_zio _ _) Hb eq_refl)).
  change (negb (1 =? 0)) with true. cbv iota.
  (* the C function, a permanent value *)
  match goal with
  | |- context [bind (unpersist (S (S m)) top) _ ?s] =>
      change s with
        (upi_set_zio (le_encode sizeof_int ERIS_PERMANENT ++
                      le_encode sizeof_int LUA_TFUNCTION ++
                      inline_bytes permkey ++ inline_all (c_upvals cl) ++ rest) upi)
  end.
  set (s2 := upi_set_zio _ upi).
  assert (Hkey : unpersist (S m) top
                   (upi_set_ref (upi_refcount s2 + 1) top
                      (upi_incr_refcount
                         (upi_set_zio (inline_bytes permkey ++ inline_all (c_upvals cl) ++ rest)
                            (upi_set_zio (le_encode sizeof_int LUA_TFUNCTION ++
                                          inline_bytes permkey ++
                                          inline_all (c_upvals cl) ++ rest) s2)))) =
                 Ok (permkey,
                     upi_set_zio (inline_all (c_upvals cl) ++ rest)
                       (upi_set_ref (upi_refcount s2 + 1) top
                          (upi_incr_refcount
                             (upi_set_zio (inline_bytes permkey ++
                                           inline_all (c_upvals cl) ++ rest)
                                (upi_set_zio (le_encode sizeof_int LUA_TFUNCTION ++
                                              inline_bytes permkey ++
                                              inline_all (c_upvals cl) ++ rest) s2)))))).
  { apply unpersist_simple; [exact Hwf | reflexivity]. }
  assert (Hfun : unpersist (S (S m)) top s2 =
                 Ok (VLCF (c_f cl),
                     upi_set_ref (upi_refcount s2 + 1) (VLCF (c_f cl))
                       (upi_set_zio (inline_all (c_upvals cl) ++ rest)
                          (upi_set_ref (upi_refcount s2 + 1) top
                             (upi_incr_refcount
                                (upi_set_zio (inline_bytes permkey ++
                                              inline_all (c_upvals cl) ++ rest)
                                   (upi_set_zio (le_encode sizeof_int LUA_TFUNCTION ++
                                                 inline_bytes permkey ++
                                                 inline_all (c_upvals cl) ++ rest) s2))))))).
  { rewrite (unpersist_tag _ top s2 ERIS_PERMANENT
               (le_encode sizeof_int LUA_TFUNCTION ++ inline_bytes permkey ++
                inline_all (c_upvals cl) ++ rest)
               ltac:(cbv; split; congruence) eq_refl).
    cbv zeta.
    change (ERIS_PERMANENT =? LUA_TNIL) with false.
    change (ERIS_PERMANENT =? LUA_TBOOLEAN) with false.
    change (ERIS_PERMANENT =? LUA_TLIGHTUSERDATA) with false.
    change (ERIS_PERMANENT =? LUA_TNUMBER) with false.
    change (ERIS_PERMANENT =? LUA_TSTRING) with false.
    change (ERIS_PERMANENT =? LUA_TTABLE) with false.
    change (ERIS_PERMANENT =? LUA_TFUNCTION) with false.
    change (ERIS_PERMANENT =? LUA_TUSERDATA) with false.
    change (ERIS_PERMANENT =? LUA_TTHREAD) with false.
    change (ERIS_PERMANENT =? LUA_TPROTO) with false.
    change (ERIS_PERMANENT =? LUA_TUPVAL) with false.
    change (ERIS_PERMANENT =? ERIS_PERMANENT) with true. cbv iota.
    eapply (u_permanent_run (unpersist (S m)) top
              (upi_set_zio (le_encode sizeof_int LUA_TFUNCTION ++ inline_bytes permkey ++
                            inline_all (c_upvals cl) ++ rest) s2)
              LUA_TFUNCTION (inline_bytes permkey ++ inline_all (c_upvals cl) ++ rest)
              permkey).
    - cbv. split; congruence.
    - reflexivity.
    - exact Hkey.
    - exact Hperm.
    - reflexivity.
    - reflexivity. }
  rewrite (bind_step _ _ _ _ _ Hfun). clear Hfun Hkey.
  unfold bind at 1. unfold gets. cbn [lua_tocfunction].
  unfold lua_pushcclosure.
  destruct (Z.eqb_spec (Z.of_nat (length (c_upvals cl))) 0) as [E|_]; [lia|].
  unfold bind at 1. unfold bind at 1. rewrite new_object_run. unfold ret at 1.
  unfold bind at 1. rewrite registerobject_run.
  rewrite Nat2Z.id.
  subst s2.
  cbn [upi_L upi_perms upi_reftbl upi_refcount upi_zio upi_set_ref upi_set_zio
         upi_incr_refcount upi_set_L].
  match goal with
  | |- context [bind (for_range _ 1 _) _ ?s] => set (s5 := s)
  end.
  destruct (read_c_upvalues (S m) (length (upi_L upi)) (c_f cl) (c_upvals cl) [] s5 rest Hup)
    as (s' & Hrun & HL & HZ & HR & HC & HP).
  { subst s5. cbn. apply heap_ccl_Some. apply lookup_alloc_new. }
  { reflexivity. }
  change (Z.of_nat (length (@nil value)) + 1) with 1 in Hrun.
  rewrite (bind_step _ _ _ _ _ Hrun). unfold ret.
  exists s'. split; [reflexivity|].
  rewrite HL, HZ, HR, HC, HP. subst s5.
  cbn [upi_L upi_zio upi_perms upi_refcount upi_reftbl upi_set_zio upi_set_ref
         upi_incr_refcount upi_set_L app].
  rewrite update_alloc_new. destruct cl as [f ups]. cbn [c_f c_upvals].
  replace (upi_refcount upi + 1 + 1) with (upi_refcount upi + 2) by lia.
  repeat split; reflexivity.
Qed.

(** A C closure does not keep its id.  Let a C closure with simple upvalues
    be persisted for the first time, its C function being a permanent value
    with a simple key that is met for the first time too.  The writer binds
    the closure to the next id and its function to the one after.  The
    reader, on the bytes written, rebuilds the closure with the same
    function and upvalues, but it reads the function before it registers the
    closure: the slot of the closure's id holds the light C function and the
    closure sits in the slot of the function's id.  When the closure is
    persisted again the writer writes the reference word of the closure's
    id, and this word is read as the light C function. *)
Theorem c_closure_ids_permuted {host : LuaHost} n m top pi pi' upi a cl permkey rest :
  heap_ccl (pi_L pi) a = Some cl ->
  (0 < length (c_upvals cl) < 256)%nat ->
  Forall simple_wf (c_upvals cl) ->
  reftbl_get (pi_reftbl pi) (VCCl a) = None ->
  lua_isnil (lua_gettable (pi_L pi) (pi_perms pi) (VCCl a)) = true ->
  reftbl_get (pi_reftbl pi) (VLCF (c_f cl)) = None ->
  lua_gettable (pi_L pi) (pi_perms pi) (VLCF (c_f cl)) = permkey ->
  lua_isnil permkey = false ->
  simple_wf permkey ->
  lua_gettable (upi_L upi) (upi_perms upi) permkey = VLCF (c_f cl) ->
  upi_refcount upi = pi_refcount pi ->
  0 <= pi_refcount pi ->
  pi_refcount pi + 1 + ERIS_REFERENCE_OFFSET < 2 ^ 31 ->
  persist n (VCCl a) pi = Ok (tt, pi') ->
  upi_zio upi = drop (length (pi_out pi)) (pi_out pi') ++ rest ->
  exists a' upi',
    unpersist (S (S (S m))) top upi = Ok (VCCl a', upi') /\
    heap_ccl (upi_L upi') a' = Some cl /\
    upi_zio upi' = rest /\
    reftbl_get (pi_reftbl pi') (VCCl a) = Some (pi_refcount pi + 1) /\
    reftbl_get (pi_reftbl pi') (VLCF (c_f cl)) = Some (pi_refcount pi + 2) /\
    reftbl_rawgeti (upi_reftbl upi') (pi_refcount pi + 1) = VLCF (c_f cl) /\
    reftbl_rawgeti (upi_reftbl upi') (pi_refcount pi + 2) = VCCl a' /\
    (forall k pi2,
        persist k (VCCl a) pi' = Ok (tt, pi2) ->
        pi_out pi2 =
          pi_out pi' ++
          le_encode sizeof_int (pi_refcount pi + 1 + ERIS_REFERENCE_OFFSET)) /\
    (forall k top2 rest2,
        unpersist (S k) top2
          (upi_set_zio
             (le_encode sizeof_int (pi_refcount pi + 1 + ERIS_REFERENCE_OFFSET) ++ rest2)
             upi') =
        Ok (VLCF (c_f cl), upi_set_zio rest2 upi')).
Proof.
  intros Hcl Hn Hup Hfresh Hperm Hffresh Hpk Hnn Hwf Hrperm Hrc Hpos Hbound Hrun Hz.
  destruct (persist_c_closure n a cl permkey pi pi' Hcl Hup Hfresh Hperm Hffresh Hpk
              Hnn Hwf Hrun) as (HR & HC & HO).
  rewrite HO, drop_app_length in Hz.
  destruct (unpersist_c_closure m top upi cl permkey rest Hn Hup Hwf Hrperm Hz)
    as (upi' & Hun & HL' & HZ' & HP' & HC' & HR').
  exists (length (upi_L upi)), upi'.
  split; [exact Hun|].
  split; [rewrite HL'; apply heap_ccl_Some, lookup_alloc_new|].
  split; [exact HZ'|].
  assert (G1 : reftbl_get (pi_reftbl pi') (VCCl a) = Some (pi_refcount pi + 1)).
  { rewrite HR. cbn [reftbl_get]. 
    change (luaV_rawequalobj (VLCF (c_f cl)) (VCCl a)) with false. cbv iota.
    unfold luaV_rawequalobj. rewrite bool_decide_eq_true_2 by reflexivity. reflexivity. }
  assert (G3 : reftbl_rawgeti (upi_reftbl upi') (pi_refcount pi + 1) = VLCF (c_f cl)).
  { rewrite HR', Hrc. cbn [reftbl_rawgeti].
    destruct (Z.eqb_spec (pi_refcount pi + 2) (pi_refcount pi + 1)); [lia|].
    now rewrite Z.eqb_refl. }
  split; [exact G1|].
  split.
  { rewrite HR. cbn [reftbl_get]. unfold luaV_rawequalobj.
    rewrite bool_decide_eq_true_2 by reflexivity. reflexivity. }
  split; [exact G3|].
  split.
  { rewrite HR', Hrc. cbn [reftbl_rawgeti]. now rewrite Z.eqb_refl. }
  split.
  - intros k pi2 H2. destruct k as [|[|k]]; try discriminate.
    rewrite persist_nonsimple in H2 by reflexivity.
    rewrite (persist_keyed_known _ _ _ _ _ _ G1) in H2.
    apply write_Ok_out in H2. tauto.
  - intros k top2 rest2.
    assert (Hp1 : 0 < pi_refcount pi + 1) by lia.
    rewrite (unpersist_reference k top2
               (upi_set_zio (le_encode sizeof_int
                               (pi_refcount pi + 1 + ERIS_REFERENCE_OFFSET) ++ rest2) upi')
               (pi_refcount pi + 1) rest2 Hp1 Hbound eq_refl).
    cbv zeta. cbn [upi_reftbl upi_set_zio]. rewrite G3. reflexivity.
Qed.


Lemma c_closure_ids_permuted_witness :
  exists a' upi',
    unpersist (host := plain_host) 3 VNil (start_upi cc_rheap 0%nat (pi_out cc_pi'))
      = Ok (VCCl a', upi') /\
    reftbl_get (pi_reftbl cc_pi') (VCCl 1%nat) = Some 1 /\
    reftbl_rawgeti (upi_reftbl upi') 1 = VLCF 7.
Proof.
  destruct (c_closure_ids_permuted (host := plain_host) 6 0 VNil
              (start_pi cc_heap 9%nat 0%nat) cc_pi'
              (start_upi cc_rheap 0%nat (pi_out cc_pi')) 1%nat
              {| c_f := 7; c_upvals := [VNum (cast_num 5)] |}
              (VNum (cast_num 1)) [])
    as (a' & upi' & H1 & _ & _ & H4 & _ & H6 & _).
  - reflexivity.
  - simpl. lia.
  - repeat constructor; vm_compute; congruence.
  - reflexivity.
  - reflexivity.
  - reflexivity.
  - vm_compute. reflexivity.
  - reflexivity.
  - vm_compute. split; congruence.
  - vm_compute. reflexivity.
  - reflexivity.
  - simpl. lia.
  - vm_compute. reflexivity.
  - vm_compute. reflexivity.
  - vm_compute. reflexivity.
  - exists a', upi'. auto.
Defined.

(** Boundary scenario: a table that holds one C closure in two fields comes
    back with the closure in the first field and the light C function in the
    second. *)
Example roundtrip_c_closure_twice :
  unchecked_persist (host := plain_host) 8 cc_heap 9%nat 0%nat (VTable 2%nat) empty_Mbuffer
    = Ok (cc_buff, cc_heap) /\
  unchecked_unpersist (host := plain_host) 8 cc_rheap 0%nat VNil (buffer cc_buff)
    = Ok (VTable 1%nat,
          [ OTable {| t_pairs := [(VNum (cast_num 1), VLCF 7)]; t_meta := None |};
            OTable {| t_pairs := [ (VNum (cast_num 1), VCCl 2%nat);
                                   (VNum (cast_num 2), VLCF 7) ];
                      t_meta := None |};
            OCCl {| c_f := 7; c_upvals := [VNum (cast_num 5)] |} ]).
Proof. split; vm_compute; reflexivity. Qed.

Lemma persist_appends_out {host : LuaHost} n v : appends (persist n v).
Proof.
  intros s [] s' H. destruct (persist_step _ _ _ _ _ H) as [(_ & _ & _ & (b & Hb & _) & _) _].
  eauto.
Qed.

Lemma persist_keyed_appends_out {host : LuaHost} n o k t : appends (persist_keyed n o k t).
Proof.
  intros s [] s' H.
  destruct (persist_keyed_step _ _ _ _ _ _ _ H) as [(_ & _ & _ & (b & Hb & _) & _) _].
  eauto.
Qed.

Lemma WRITE_RAW_appends bs : appends (WRITE_RAW bs).
Proof.
  intros s [] s' H. apply WRITE_RAW_Ok in H as (b & -> & Hb). exists bs. exact Hb.
Qed.

Lemma lockstep_step {host : LuaHost} n v sw sw' sr sr' :
  persist n v sw = Ok (tt, sw') ->
  lockstep sw sr ->
  upi_refcount sr' = pi_refcount sw' ->
  (forall s i, reftbl_get (pi_reftbl sw') (VStr s) = Some i ->
               reftbl_rawgeti (upi_reftbl sr') i = VStr s) ->
  lockstep sw' sr'.
Proof.
  intros Hrun [Hrc Hwf Hlen Hstr] Hrc' Hstr'.
  destruct (persist_step _ _ _ _ _ Hrun) as [(_ & _ & Hc & (b & Hb & Hl) & _) Hwf'].
  split; [exact Hrc' | auto | | exact Hstr'].
  rewrite Hb, length_app. lia.
Qed.

Lemma plain_follows {host : LuaHost} hw P n v sw sw' sr top m bs rest :
  plain hw P v ->
  persist n v sw = Ok (tt, sw') ->
  pi_L sw = hw -> pi_perms sw = P ->
  lockstep sw sr ->
  Z.of_nat (length (pi_out sw')) < 2 ^ 31 ->
  pi_out sw' = pi_out sw ++ bs -> upi_zio sr = bs ++ rest -> (n <= m)%nat ->
  exists sr',
    unpersist m top sr = Ok (v, sr') /\ upi_zio sr' = rest /\
    lockstep sw' sr' /\ pi_L sw' = hw /\ pi_perms sw' = P /\
    upi_L sr' = upi_L sr /\ upi_perms sr' = upi_perms sr /\
    (forall k, (forall s, k <> VStr s) ->
               reftbl_get (pi_reftbl sw') k = reftbl_get (pi_reftbl sw) k).
Proof.
  intros Hpl Hrun HL HP HS Hbound Hout Hzio Hnm.
  pose proof HS as [Hrc Hwf Hlen Hstr].
  assert (Hkind :
    (is_simple v = true /\ simple_ok v = true) \/
    (is_simple v = false /\
     exists i, reftbl_get (pi_reftbl sw) v = Some i /\ 0 < i <= pi_refcount sw /\
               lua_isnil (reftbl_rawgeti (upi_reftbl sr) i) = false) \/
    (exists s, v = VStr s /\ lua_isnil (permkey_of hw P v) = true /\
               reftbl_get (pi_reftbl sw) v = None)).
  { destruct Hpl as [Hs | (s & -> & Hp)].
    - left. split; [now apply simple_ok_simple | exact Hs].
    - destruct (reftbl_get (pi_reftbl sw) (VStr s)) as [i|] eqn:Hi.
      + right. left. split; [reflexivity|]. exists i. split; [reflexivity|].
        destruct Hwf as (_ & Hr & _). split; [specialize (Hr _ _ Hi); lia|].
        now rewrite (Hstr _ _ Hi).
      + right. right. exists s. auto. }
  destruct (leaf_follows hw P n v sw sw' sr top m bs rest Hrun HL HP Hrc Hkind
              Hbound Hlen Hout Hzio Hnm)
    as (HL' & HP' & _ & [(HR & HC & v' & Hun & Hv) | (Hs & Hnone & HR & HC & Hun)]).
  - exists (upi_set_zio rest sr).
    assert (v' = v) as ->.
    { destruct Hpl as [Hs | (s & -> & Hp)].
      - rewrite (simple_ok_simple _ Hs) in Hv. exact Hv.
      - cbn in Hv. destruct Hv as (i & Hi & ->). exact (Hstr _ _ Hi). }
    split; [exact Hun|]. split; [reflexivity|].
    split.
    { eapply lockstep_step; [exact Hrun | exact HS | cbn; congruence |].
      intros s i. rewrite HR. cbn. apply Hstr. }
    repeat split; congruence.
  - destruct Hpl as [Hso | (s & -> & Hp)].
    { rewrite (simple_ok_simple _ Hso) in Hs. discriminate. }
    eexists. split; [exact Hun|]. split; [reflexivity|].
    split.
    { eapply lockstep_step; [exact Hrun | exact HS | cbn; lia |].
      intros s' i. rewrite HR. cbn [reftbl_get upi_reftbl upi_set_ref upi_incr_refcount
        upi_set_zio reftbl_rawgeti].
      unfold luaV_rawequalobj. destruct (bool_decide_reflect (VStr s = VStr s')) as [E|E].
      - intros [= <-]. rewrite Z.eqb_refl. exact E.
      - intros Hi. destruct Hwf as (_ & Hr & _). specialize (Hr _ _ Hi).
        destruct (Z.eqb_spec (pi_refcount sw + 1) i); [lia|]. apply Hstr. exact Hi. }
    repeat split; try congruence.
    intros k Hk. rewrite HR. cbn [reftbl_get]. unfold luaV_rawequalobj.
    rewrite bool_decide_eq_false_2; [reflexivity|]. intros E. apply (Hk s). now symmetry.
Qed.


(** ** Replaying the writer *)

Lemma replays_bind {A B : Type} (w1 w2 : W unit) (r1 : R A) (r2 : A -> R B)
    Pre Mid Post :
  appends w1 -> appends w2 ->
  replays w1 r1 Pre Mid ->
  (forall a, replays w2 (r2 a) (Mid a) Post) ->
  replays (w1 ;; w2) (bind r1 r2) Pre Post.
Proof.
  intros A1 A2 H1 H2 sw sw' sr bs rest Hrun Hpre Hbound Hout Hzio.
  apply bind_Ok in Hrun as ([] & s1 & Hw1 & Hw2).
  destruct (A1 _ _ _ Hw1) as (b1 & O1). destruct (A2 _ _ _ Hw2) as (b2 & O2).
  assert (bs = b1 ++ b2) as ->.
  { rewrite O2, O1, <- app_assoc in Hout. now apply app_inv_head in Hout. }
  rewrite <- app_assoc in Hzio.
  destruct (H1 sw s1 sr b1 (b2 ++ rest) Hw1 Hpre) as (a & sr1 & Hr1 & Hz1 & Hmid);
    [rewrite O2, length_app in Hbound; lia | exact O1 | exact Hzio |].
  destruct (H2 a s1 sw' sr1 b2 rest Hw2 Hmid Hbound O2 Hz1) as (b & sr2 & Hr2 & Hz2 & Hpost).
  exists b, sr2. split; [|auto]. now rewrite (bind_step _ _ _ _ _ Hr1).
Qed.

(** A step of the reader that reads nothing. *)
Lemma replays_reader {A B : Type} (w : W unit) (r1 : R A) (r2 : A -> R B)
    (Pre : PersistInfo -> UnpersistInfo -> Prop) Pre1 Post :
  (forall sw sr, Pre sw sr ->
     exists a sr1, r1 sr = Ok (a, sr1) /\ upi_zio sr1 = upi_zio sr /\ Pre1 a sw sr1) ->
  (forall a, replays w (r2 a) (Pre1 a) Post) ->
  replays w (bind r1 r2) Pre Post.
Proof.
  intros H1 H2 sw sw' sr bs rest Hrun Hpre Hbound Hout Hzio.
  destruct (H1 sw sr Hpre) as (a & sr1 & Hr1 & Hz1 & Hp1).
  rewrite <- Hz1 in Hzio.
  destruct (H2 a sw sw' sr1 bs rest Hrun Hp1 Hbound Hout Hzio) as (b & sr2 & Hr2 & Hz2 & Hpost).
  exists b, sr2. split; [|auto]. now rewrite (bind_step _ _ _ _ _ Hr1).
Qed.

Lemma replays_conseq {A : Type} (w : W unit) (r : R A)
    (Pre Pre' : PersistInfo -> UnpersistInfo -> Prop)
    (Post Post' : A -> PersistInfo -> UnpersistInfo -> Prop) :
  (forall sw sr, Pre' sw sr -> Pre sw sr) ->
  (forall a sw sr, Post a sw sr -> Post' a sw sr) ->
  replays w r Pre Post -> replays w r Pre' Post'.
Proof.
  intros HP HQ H sw sw' sr bs rest Hrun Hpre Hbound Hout Hzio.
  destruct (H sw sw' sr bs rest Hrun (HP _ _ Hpre) Hbound Hout Hzio)
    as (a & sr' & ? & ? & ?).
  eauto 6.
Qed.

Lemma replays_ret {A : Type} (a : A) (Pre : PersistInfo -> UnpersistInfo -> Prop) :
  replays (ret tt) (ret a) Pre (fun a' sw sr => a' = a /\ Pre sw sr).
Proof.
  intros sw sw' sr bs rest Hrun Hpre _ Hout Hzio. injection Hrun as <-.
  assert (bs = []) as ->.
  { rewrite <- (app_nil_r (pi_out sw)) in Hout at 1. now apply app_inv_head in Hout. }
  exists a, sr. repeat split; auto.
Qed.

Lemma replays_raw p (Pre : PersistInfo -> UnpersistInfo -> Prop) :
  stable Pre ->
  replays (WRITE_RAW p) (READ_RAW (Z.of_nat (length p))) Pre
    (fun a sw sr => a = p /\ Pre sw sr).
Proof.
  intros Hst sw sw' sr bs rest Hrun Hpre _ Hout Hzio.
  apply WRITE_RAW_Ok in Hrun as (b & -> & Hb).
  unfold pi_out in Hout at 1. cbn [pi_ud pi_set_ud] in Hout. rewrite Hb in Hout.
  apply app_inv_head in Hout. subst bs.
  exists p, (upi_set_zio rest sr).
  split; [now apply READ_RAW_app|]. split; [reflexivity|]. split; [reflexivity|].
  apply Hst; [exact Hpre|]. rewrite Hb, length_app. lia.
Qed.

Lemma replays_value x n (Pre : PersistInfo -> UnpersistInfo -> Prop) :
  stable Pre ->
  replays (WRITE_VALUE x n) (READ_VALUE n) Pre
    (fun a sw sr => a = x mod 2 ^ (8 * Z.of_nat n) /\ Pre sw sr).
Proof.
  intros Hst sw sw' sr bs rest Hrun Hpre Hbound Hout Hzio.
  destruct (replays_raw (le_encode n x) Pre Hst sw sw' sr bs rest Hrun Hpre Hbound Hout Hzio)
    as (a & sr' & Hr & Hz & -> & Hp).
  rewrite length_le_encode in Hr.
  exists (x mod 2 ^ (8 * Z.of_nat n)), sr'. split; [|auto].
  unfold READ_VALUE. rewrite (bind_step _ _ _ _ _ Hr). unfold ret.
  now rewrite le_decode_encode.
Qed.

Lemma replays_int x (Pre : PersistInfo -> UnpersistInfo -> Prop) :
  stable Pre -> in_int x ->
  replays (write_int x) read_int Pre (fun a sw sr => a = x /\ Pre sw sr).
Proof.
  intros Hst Hx sw sw' sr bs rest Hrun Hpre Hbound Hout Hzio.
  destruct (replays_value x sizeof_int Pre Hst sw sw' sr bs rest Hrun Hpre Hbound Hout Hzio)
    as (a & sr' & Hr & Hz & -> & Hp).
  exists x, sr'. split; [|auto].
  unfold read_int. rewrite (bind_step _ _ _ _ _ Hr). unfold ret.
  rewrite (to_signed_wrap sizeof_int); [reflexivity | unfold sizeof_int; lia | exact Hx].
Qed.

Lemma replays_byte x (Pre : PersistInfo -> UnpersistInfo -> Prop) :
  stable Pre -> in_byte x ->
  replays (write_lu_byte x) read_lu_byte Pre (fun a sw sr => a = x /\ Pre sw sr).
Proof.
  intros Hst Hx sw sw' sr bs rest Hrun Hpre Hbound Hout Hzio.
  destruct (replays_value x sizeof_lu_byte Pre Hst sw sw' sr bs rest Hrun Hpre Hbound
              Hout Hzio) as (a & sr' & Hr & Hz & -> & Hp).
  exists x, sr'. split; [|auto].
  unfold read_lu_byte. rewrite Hr. f_equal. f_equal.
  apply Z.mod_small. exact Hx.
Qed.

Lemma for_each_appends {X : Type} (w : X -> W unit) (l : list X) :
  (forall x, appends (w x)) -> appends (for_each w l).
Proof.
  intros Ha. induction l as [|y l IH]; intros s [] s' H.
  - injection H as <-. exists []. now rewrite app_nil_r.
  - cbn [for_each] in H. apply bind_Ok in H as ([] & s1 & H1 & H2).
    destruct (Ha _ _ _ _ H1) as (b1 & O1). destruct (IH _ _ _ H2) as (b2 & O2).
    exists (b1 ++ b2). now rewrite O2, O1, app_assoc.
Qed.

Lemma bind_appends {A B : Type} (w1 : W A) (w2 : A -> W B) :
  appends w1 -> (forall a, appends (w2 a)) -> appends (bind w1 w2).
Proof.
  intros H1 H2 s b s' H. apply bind_Ok in H as (a & s1 & Hw1 & Hw2).
  destruct (H1 _ _ _ Hw1) as (b1 & O1). destruct (H2 _ _ _ _ Hw2) as (b2 & O2).
  exists (b1 ++ b2). now rewrite O2, O1, app_assoc.
Qed.

(** A loop of the writer over a list against a counting loop of the
    reader: [I j] holds when [j] elements have been written and read. *)
Lemma replays_loop {X : Type} (w : X -> W unit) (r : Z -> R unit) (lo : Z) (l : list X)
    (I : nat -> PersistInfo -> UnpersistInfo -> Prop) :
  (forall x, appends (w x)) ->
  (forall j x, l !! j = Some x ->
     replays (w x) (r (lo + Z.of_nat j)) (I j) (fun _ => I (S j))) ->
  replays (for_each w l) (for_range r lo (length l)) (I 0%nat) (fun _ => I (length l)).
Proof.
  intros Ha Hstep.
  assert (G : forall l2 j, drop j l = l2 ->
              replays (for_each w l2) (for_range r (lo + Z.of_nat j) (length l2))
                (I j) (fun _ => I (j + length l2)%nat)).
  { induction l2 as [|x l2 IH]; intros j Hd.
    - cbn [for_each for_range length]. rewrite Nat.add_0_r.
      intros sw sw' sr bs rest Hrun Hpre Hb Hout Hzio.
      destruct (replays_ret tt (I j) sw sw' sr bs rest Hrun Hpre Hb Hout Hzio)
        as (a & sr' & Hr & Hz & _ & HI).
      exists a, sr'. auto.
    - cbn [for_each for_range length].
      assert (Hx : l !! j = Some x).
      { rewrite <- (take_drop j l), Hd.
        destruct (Nat.le_gt_cases (length l) j) as [Hge|Hlt].
        - rewrite drop_ge in Hd by exact Hge. discriminate.
        - rewrite lookup_app_r by (rewrite length_take; lia).
          rewrite length_take, Nat.min_l by lia. now rewrite Nat.sub_diag. }
      eapply replays_bind; [apply Ha | apply for_each_appends, Ha | apply (Hstep j x Hx) |].
      intros []. replace (lo + Z.of_nat j + 1) with (lo + Z.of_nat (S j)) by lia.
      replace (j + S (length l2))%nat with (S j + length l2)%nat by lia.
      apply IH. replace (S j) with (j + 1)%nat by lia.
      rewrite <- drop_drop, Hd. reflexivity. }
  specialize (G l 0%nat (drop_0 l)). cbn [Nat.add] in G.
  replace (lo + Z.of_nat 0) with lo in G by lia. exact G.
Qed.


Lemma replays_gets {A B : Type} (f : PersistInfo -> B) (w : B -> W unit) (r : R A)
    (Pre : PersistInfo -> UnpersistInfo -> Prop) Post :
  (forall x, replays (w x) r (fun sw sr => f sw = x /\ Pre sw sr) Post) ->
  replays (bind (gets f) w) r Pre Post.
Proof.
  intros H sw sw' sr bs rest Hrun Hpre. unfold bind, gets in Hrun.
  exact (H (f sw) sw sw' sr bs rest Hrun (conj eq_refl Hpre)).
Qed.

Lemma replays_lift_opt {A B : Type} (o : option B) (w : B -> W unit) (r : R A)
    (Pre : PersistInfo -> UnpersistInfo -> Prop) Post :
  (forall x, o = Some x -> replays (w x) r Pre Post) ->
  replays (bind (lift_opt o) w) r Pre Post.
Proof.
  intros H sw sw' sr bs rest Hrun Hpre. destruct o as [x|]; [|discriminate].
  exact (H x eq_refl sw sw' sr bs rest Hrun Hpre).
Qed.

Lemma replays_pre {A : Type} (w : W unit) (r : R A) (Q : Prop)
    (Pre : PersistInfo -> UnpersistInfo -> Prop) Post :
  (Q -> replays w r Pre Post) -> replays w r (fun sw sr => Q /\ Pre sw sr) Post.
Proof.
  intros H sw sw' sr bs rest Hrun [HQ Hpre]. exact (H HQ sw sw' sr bs rest Hrun Hpre).
Qed.

(** A step of the reader that reads nothing, after the replay. *)
Lemma replays_then {A B : Type} (w : W unit) (r1 : R A) (r2 : A -> R B)
    (Pre : PersistInfo -> UnpersistInfo -> Prop) Mid
    (Post : B -> PersistInfo -> UnpersistInfo -> Prop) :
  replays w r1 Pre Mid ->
  (forall a sw sr, Mid a sw sr ->
     exists b sr', r2 a sr = Ok (b, sr') /\ upi_zio sr' = upi_zio sr /\ Post b sw sr') ->
  replays w (bind r1 r2) Pre Post.
Proof.
  intros H1 H2 sw sw' sr bs rest Hrun Hpre Hbound Hout Hzio.
  destruct (H1 sw sw' sr bs rest Hrun Hpre Hbound Hout Hzio) as (a & sr1 & Hr1 & Hz1 & Hm).
  destruct (H2 a sw' sr1 Hm) as (b & sr2 & Hr2 & Hz2 & Hp).
  exists b, sr2. rewrite (bind_step _ _ _ _ _ Hr1). split; [exact Hr2|].
  split; [congruence | exact Hp].
Qed.

Lemma replays_int_bind {A : Type} x (w2 : W unit) (r2 : Z -> R A)
    (Pre : PersistInfo -> UnpersistInfo -> Prop) Post :
  stable Pre -> in_int x -> appends w2 ->
  replays w2 (r2 x) Pre Post ->
  replays (write_int x ;; w2) (bind read_int r2) Pre Post.
Proof.
  intros Hst Hx Ha H.
  eapply replays_bind; [apply WRITE_RAW_appends | exact Ha | apply (replays_int x Pre Hst Hx) |].
  intros a. cbv beta. apply replays_pre. intros ->. exact H.
Qed.

Lemma replays_byte_bind {A : Type} x (w2 : W unit) (r2 : Z -> R A)
    (Pre : PersistInfo -> UnpersistInfo -> Prop) Post :
  stable Pre -> in_byte x -> appends w2 ->
  replays w2 (r2 x) Pre Post ->
  replays (write_lu_byte x ;; w2) (bind read_lu_byte r2) Pre Post.
Proof.
  intros Hst Hx Ha H.
  eapply replays_bind; [apply WRITE_RAW_appends | exact Ha | apply (replays_byte x Pre Hst Hx) |].
  intros a. cbv beta. apply replays_pre. intros ->. exact H.
Qed.

Lemma replays_raw_bind {A : Type} p size (w2 : W unit) (r2 : list byte -> R A)
    (Pre : PersistInfo -> UnpersistInfo -> Prop) Post :
  stable Pre -> size = Z.of_nat (length p) -> appends w2 ->
  replays w2 (r2 p) Pre Post ->
  replays (WRITE_RAW p ;; w2) (bind (READ_RAW size) r2) Pre Post.
Proof.
  intros Hst -> Ha H.
  eapply replays_bind; [apply WRITE_RAW_appends | exact Ha | apply (replays_raw p Pre Hst) |].
  intros a. cbv beta. apply replays_pre. intros ->. exact H.
Qed.

Lemma stable_reading hw P sw0 sr0 l np cs now :
  stable (reading hw P sw0 sr0 l np cs now).
Proof.
  intros sw sr b z [[Hrc Hwf Hlen Hstr] HL HP Hnow Hbelow Hlength Hperms Hids Hkids] Hb.
  split; try assumption. split; try assumption.
  unfold pi_out in *. cbn [pi_ud pi_set_ud pi_refcount]. lia.
Qed.

Lemma replays_plain {host : LuaHost} hw P sw0 sr0 l np cs now n m top v :
  plain hw P v -> (n <= m)%nat ->
  replays (persist n v) (unpersist m top)
    (reading hw P sw0 sr0 l np cs now)
    (fun a sw sr => a = v /\ reading hw P sw0 sr0 l np cs now sw sr).
Proof.
  intros Hpl Hnm sw sw' sr bs rest Hrun [HS HL HP Hnow Hbelow Hlength Hperms Hids Hkids]
    Hbound Hout Hzio.
  destruct (plain_follows hw P n v sw sw' sr top m bs rest Hpl Hrun HL HP HS Hbound
              Hout Hzio Hnm)
    as (sr' & Hun & Hz & HS' & HL' & HP' & HLr & HPr & Hk).
  exists v, sr'. split; [exact Hun|]. split; [exact Hz|]. split; [reflexivity|].
  split; try assumption; try congruence.
  - intros a Ha. rewrite HLr. auto.
  - intros q Hq. rewrite Hk by (intros s; discriminate). auto.
Qed.

Lemma heap_proto_Some h a p : heap_proto h a = Some p <-> h !! a = Some (OProto p).
Proof.
  unfold heap_proto. destruct (h !! a) as [[]|]; split; intros H; congruence.
Qed.

Lemma proto_rel_mono hw hr hr' lo lo' :
  (lo' <= lo)%nat ->
  (forall x, (lo <= x < length hr)%nat -> hr' !! x = hr !! x) ->
  forall p p', proto_rel hw hr lo p p' -> proto_rel hw hr' lo' p p'.
Proof.
  intros Hlo Hag. fix IH 3. intros p p' [p0 p0' pr kids' H1 H2 H3 H4].
  apply (proto_rel_node hw hr' lo' p0 p0' pr kids' H1).
  - apply heap_proto_Some in H2. apply heap_proto_Some.
    rewrite Hag; [exact H2|]. split; [exact H3|]. now apply lookup_lt_Some in H2.
  - lia.
  - revert H4. generalize (p_p pr) kids'. fix IH2 3.
    intros l1 l2 [|x y l1' l2' Hxy Hrest]; constructor.
    + apply IH, Hxy.
    + apply IH2, Hrest.
Qed.

Lemma the_proto_run a s pr :
  heap_proto (upi_L s) a = Some pr -> the_proto a s = Ok (pr, s).
Proof. intros H. unfold the_proto, bind, gets. rewrite H. reflexivity. Qed.

Lemma update_proto_reading hw P sw0 sr0 l np cs now f sw sr :
  reading hw P sw0 sr0 l np cs now sw sr ->
  p_p (f now) = p_p now \/ p_p (f now) = [] ->
  exists sr',
    update_proto np f sr = Ok (tt, sr') /\ upi_zio sr' = upi_zio sr /\
    reading hw P sw0 sr0 l np cs (f now) sw sr'.
Proof.
  intros [[Hrc Hwf Hlen Hstr] HL HP Hnow Hbelow Hlength Hperms Hids Hkids] Hpp.
  exists (upi_set_L (<[np := OProto (f now)]> (upi_L sr)) sr).
  split.
  { unfold update_proto. rewrite (bind_step _ _ _ _ _ (the_proto_run _ _ _ Hnow)).
    apply update_object_run. }
  split; [reflexivity|].
  apply heap_proto_Some in Hnow. pose proof (lookup_Some_lt _ _ _ Hnow) as Hlt.
  split; try assumption.
  - split; assumption.
  - cbn [upi_L upi_set_L]. apply heap_proto_Some. now apply lookup_update_eq.
  - intros a Ha. cbn [upi_L upi_set_L]. rewrite lookup_update_ne by lia. auto.
  - cbn [upi_L upi_set_L]. rewrite length_update. exact Hlength.
  - cbn [upi_L upi_set_L]. destruct Hpp as [-> | ->]; [|constructor].
    eapply Forall2_impl; [exact Hkids|]. intros x y.
    apply proto_rel_mono; [lia|]. intros z Hz. apply lookup_update_ne. lia.
Qed.

Lemma replays_update_proto {A : Type} hw P sw0 sr0 l np cs now f (w : W unit)
    (r2 : R A) Post :
  p_p (f now) = p_p now \/ p_p (f now) = [] ->
  replays w r2 (reading hw P sw0 sr0 l np cs (f now)) Post ->
  replays w (update_proto np f ;; r2) (reading hw P sw0 sr0 l np cs now) Post.
Proof.
  intros Hpp H.
  eapply replays_reader with (Pre1 := fun _ => reading hw P sw0 sr0 l np cs (f now));
    [|intros []; exact H].
  intros sw sr Hpre.
  destruct (update_proto_reading _ _ _ _ _ _ _ _ f _ _ Hpre Hpp) as (sr' & H1 & H2 & H3).
  exists tt, sr'. auto.
Qed.

Lemma replays_realloc {A : Type} x (w : W unit) (r2 : R A)
    (Pre : PersistInfo -> UnpersistInfo -> Prop) Post :
  0 <= x -> replays w r2 Pre Post ->
  replays w (eris_reallocvector x ;; r2) Pre Post.
Proof.
  intros Hx H. eapply replays_reader with (Pre1 := fun _ => Pre); [|intros []; exact H].
  intros sw sr Hpre. exists tt, sr. unfold eris_reallocvector.
  destruct (Z.ltb_spec x 0); [lia|]. auto.
Qed.

Lemma lockstep_reader sw sr sr' :
  lockstep sw sr ->
  upi_refcount sr' = upi_refcount sr -> upi_reftbl sr' = upi_reftbl sr ->
  lockstep sw sr'.
Proof.
  intros [Hrc Hwf Hlen Hstr] H1 H2. split; try assumption; [congruence|].
  intros s i Hi. rewrite H2. auto.
Qed.

Lemma concat_drop_S {X : Type} (ls : list (list X)) j x :
  ls !! j = Some x -> concat (drop j ls) = x ++ concat (drop (S j) ls).
Proof. intros H. now rewrite (drop_S _ _ _ H). Qed.

Lemma NoDup_concat_drop {X : Type} (ls : list (list X)) j :
  NoDup (concat ls) -> NoDup (concat (drop j ls)).
Proof.
  intros H. rewrite <- (take_drop j ls), concat_app in H.
  now apply NoDup_app in H as (_ & _ & H).
Qed.

Lemma elem_of_concat_drop {X : Type} (ls : list (list X)) j q :
  q ∈ concat (drop j ls) -> q ∈ concat ls.
Proof.
  intros H. rewrite <- (take_drop j ls), concat_app. apply elem_of_app. now right.
Qed.

Section ProtoReplay.
Context {host : LuaHost}.
Variables (hw : heap) (P : addr) (n m : nat).
Hypothesis Hnm : (n <= m)%nat.
Variables (sw0 : PersistInfo) (sr0 : UnpersistInfo) (l : list addr) (np : addr).
Variable pr : proto.

Local Abbreviation Reading := (reading hw P sw0 sr0 l np (p_p pr)).

Lemma constants_replay top kids ups src li lvs :
  Forall (plain hw P) (p_k pr) ->
  replays (for_each (persist n) (p_k pr))
    (for_range
       (fun _ =>
          v <- unpersist m top ;;
          update_proto np (fun p =>
            {| p_linedefined := p_linedefined p;
               p_lastlinedefined := p_lastlinedefined p;
               p_numparams := p_numparams p; p_is_vararg := p_is_vararg p;
               p_maxstacksize := p_maxstacksize p; p_code := p_code p;
               p_k := p_k p ++ [v]; p_p := p_p p;
               p_upvalues := p_upvalues p; p_source := p_source p;
               p_lineinfo := p_lineinfo p; p_locvars := p_locvars p |}))
       0 (length (p_k pr)))
    (Reading (stage pr [] kids ups src li lvs))
    (fun _ => Reading (stage pr (p_k pr) kids ups src li lvs)).
Proof using Hnm.
  intros Hk.
  eapply replays_conseq;
    [| | apply (replays_loop (persist n) _ 0 (p_k pr)
                 (fun j => Reading (stage pr (take j (p_k pr)) kids ups src li lvs)))].
  - intros sw sr H. exact H.
  - intros a sw sr H. cbv beta in H. now rewrite firstn_all in H.
  - intros x. apply persist_appends_out.
  - intros j x Hx.
    eapply replays_then; [apply replays_plain; [|exact Hnm]|].
    + exact (Forall_lookup_1 _ _ _ _ Hk Hx).
    + intros a sw sr [-> Hr]. cbv beta.
      destruct (update_proto_reading _ _ _ _ _ _ _ _
                  (fun p =>
                     {| p_linedefined := p_linedefined p;
                        p_lastlinedefined := p_lastlinedefined p;
                        p_numparams := p_numparams p; p_is_vararg := p_is_vararg p;
                        p_maxstacksize := p_maxstacksize p; p_code := p_code p;
                        p_k := p_k p ++ [x]; p_p := p_p p;
                        p_upvalues := p_upvalues p; p_source := p_source p;
                        p_lineinfo := p_lineinfo p; p_locvars := p_locvars p |})
                  _ _ Hr (or_introl eq_refl)) as (sr' & H1 & H2 & H3).
      exists tt, sr'. split; [exact H1|]. split; [exact H2|].
      rewrite (take_S_r _ _ _ Hx). exact H3.
Qed.

Lemma updescs_replay k kids src li lvs :
  Forall (upvaldesc_ok hw P) (p_upvalues pr) ->
  replays
    (for_each (fun d : upvaldesc =>
                 write_lu_byte (ud_instack d) ;; write_lu_byte (ud_idx d))
              (p_upvalues pr))
    (for_range
       (fun _ =>
          instack <- read_lu_byte ;;
          idx <- read_lu_byte ;;
          update_proto np (fun p =>
            {| p_linedefined := p_linedefined p;
               p_lastlinedefined := p_lastlinedefined p;
               p_numparams := p_numparams p; p_is_vararg := p_is_vararg p;
               p_maxstacksize := p_maxstacksize p; p_code := p_code p;
               p_k := p_k p; p_p := p_p p;
               p_upvalues := p_upvalues p ++
                 [{| ud_name := None; ud_instack := instack; ud_idx := idx |}];
               p_source := p_source p; p_lineinfo := p_lineinfo p;
               p_locvars := p_locvars p |}))
       0 (length (p_upvalues pr)))
    (Reading (stage pr k kids [] src li lvs))
    (fun _ => Reading (stage pr k kids (map unnamed (p_upvalues pr)) src li lvs)).
Proof.
  intros Hu.
  eapply replays_conseq;
    [| | apply (replays_loop _ _ 0 (p_upvalues pr)
                 (fun j => Reading (stage pr k kids (map unnamed (take j (p_upvalues pr)))
                                      src li lvs)))].
  - intros sw sr H. exact H.
  - intros a sw sr H. cbv beta in H. now rewrite firstn_all in H.
  - intros d. apply bind_appends; [apply WRITE_RAW_appends | intros _; apply WRITE_RAW_appends].
  - intros j d Hd. destruct (Forall_lookup_1 _ _ _ _ Hu Hd) as (Hi & Hx & _).
    apply replays_byte_bind; [apply stable_reading | exact Hi | apply WRITE_RAW_appends |].
    eapply replays_then; [apply replays_byte; [apply stable_reading | exact Hx]|].
    intros a sw sr [-> Hr]. cbv beta.
    destruct (update_proto_reading _ _ _ _ _ _ _ _
                (fun p =>
                   {| p_linedefined := p_linedefined p;
                      p_lastlinedefined := p_lastlinedefined p;
                      p_numparams := p_numparams p; p_is_vararg := p_is_vararg p;
                      p_maxstacksize := p_maxstacksize p; p_code := p_code p;
                      p_k := p_k p; p_p := p_p p;
                      p_upvalues := p_upvalues p ++
                        [{| ud_name := None; ud_instack := ud_instack d;
                            ud_idx := ud_idx d |}];
                      p_source := p_source p; p_lineinfo := p_lineinfo p;
                      p_locvars := p_locvars p |})
                _ _ Hr (or_introl eq_refl)) as (sr' & H1 & H2 & H3).
    exists tt, sr'. split; [exact H1|]. split; [exact H2|].
    rewrite (take_S_r _ _ _ Hd), map_app. exact H3.
Qed.

Lemma locvars_replay top k kids ups src li :
  Forall (locvar_ok hw P) (p_locvars pr) ->
  replays
    (for_each (fun lv : locvar =>
                 write_int (lv_startpc lv) ;;
                 write_int (lv_endpc lv) ;;
                 persist n (pushtstring (lv_varname lv)))
              (p_locvars pr))
    (for_range
       (fun _ =>
          startpc <- read_int ;;
          endpc <- read_int ;;
          nm <- unpersist m top ;;
          varname <- copytstring nm ;;
          update_proto np (fun p =>
            {| p_linedefined := p_linedefined p;
               p_lastlinedefined := p_lastlinedefined p;
               p_numparams := p_numparams p; p_is_vararg := p_is_vararg p;
               p_maxstacksize := p_maxstacksize p; p_code := p_code p;
               p_k := p_k p; p_p := p_p p; p_upvalues := p_upvalues p;
               p_source := p_source p; p_lineinfo := p_lineinfo p;
               p_locvars := p_locvars p ++
                 [{| lv_varname := Some varname; lv_startpc := startpc;
                     lv_endpc := endpc |}] |}))
       0 (length (p_locvars pr)))
    (Reading (stage pr k kids ups src li []))
    (fun _ => Reading (stage pr k kids ups src li (p_locvars pr))).
Proof using Hnm.
  intros Hlv.
  eapply replays_conseq;
    [| | apply (replays_loop _ _ 0 (p_locvars pr)
                 (fun j => Reading (stage pr k kids ups src li (take j (p_locvars pr)))))].
  - intros sw sr H. exact H.
  - intros a sw sr H. cbv beta in H. now rewrite firstn_all in H.
  - intros lv. apply bind_appends; [apply WRITE_RAW_appends | intros _].
    apply bind_appends; [apply WRITE_RAW_appends | intros _; apply persist_appends_out].
  - intros j lv Hj. destruct (Forall_lookup_1 _ _ _ _ Hlv Hj) as (Hs & He & s & Hname & Hpl).
    apply replays_int_bind; [apply stable_reading | exact Hs | |].
    { apply bind_appends; [apply WRITE_RAW_appends | intros _; apply persist_appends_out]. }
    apply replays_int_bind; [apply stable_reading | exact He | apply persist_appends_out |].
    rewrite Hname. cbn [pushtstring].
    eapply replays_then; [apply replays_plain; [exact Hpl | exact Hnm]|].
    intros a sw sr [-> Hr]. cbv beta. cbn [copytstring]. unfold bind at 1, ret at 1.
    destruct (update_proto_reading _ _ _ _ _ _ _ _
                (fun p =>
                   {| p_linedefined := p_linedefined p;
                      p_lastlinedefined := p_lastlinedefined p;
                      p_numparams := p_numparams p; p_is_vararg := p_is_vararg p;
                      p_maxstacksize := p_maxstacksize p; p_code := p_code p;
                      p_k := p_k p; p_p := p_p p; p_upvalues := p_upvalues p;
                      p_source := p_source p; p_lineinfo := p_lineinfo p;
                      p_locvars := p_locvars p ++
                        [{| lv_varname := Some s; lv_startpc := lv_startpc lv;
                            lv_endpc := lv_endpc lv |}] |})
                _ _ Hr (or_introl eq_refl)) as (sr' & H1 & H2 & H3).
    exists tt, sr'. split; [exact H1|]. split; [exact H2|].
    rewrite (take_S_r _ _ _ Hj). destruct lv as [nm sp ep]. cbn in *. subst nm. exact H3.
Qed.

Lemma upnames_replay top k kids src li lvs :
  Forall (upvaldesc_ok hw P) (p_upvalues pr) ->
  replays
    (for_each (fun d : upvaldesc => persist n (pushtstring (ud_name d))) (p_upvalues pr))
    (for_range
       (fun i =>
          nm <- unpersist m top ;;
          name <- copytstring nm ;;
          update_proto np (fun p =>
            {| p_linedefined := p_linedefined p;
               p_lastlinedefined := p_lastlinedefined p;
               p_numparams := p_numparams p; p_is_vararg := p_is_vararg p;
               p_maxstacksize := p_maxstacksize p; p_code := p_code p;
               p_k := p_k p; p_p := p_p p;
               p_upvalues :=
                 alter (fun d => {| ud_name := Some name;
                                    ud_instack := ud_instack d;
                                    ud_idx := ud_idx d |})
                       (Z.to_nat i) (p_upvalues p);
               p_source := p_source p; p_lineinfo := p_lineinfo p;
               p_locvars := p_locvars p |}))
       0 (length (p_upvalues pr)))
    (Reading (stage pr k kids (map unnamed (p_upvalues pr)) src li lvs))
    (fun _ => Reading (stage pr k kids (p_upvalues pr) src li lvs)).
Proof using Hnm.
  intros Hu.
  eapply replays_conseq;
    [| | apply (replays_loop _ _ 0 (p_upvalues pr)
                 (fun j => Reading (stage pr k kids
                                      (take j (p_upvalues pr) ++
                                       map unnamed (drop j (p_upvalues pr)))
                                      src li lvs)))].
  - intros sw sr H. exact H.
  - intros a sw sr H. cbv beta in H.
    rewrite firstn_all, drop_all in H. cbn [map] in H. now rewrite app_nil_r in H.
  - intros d. apply persist_appends_out.
  - intros j d Hj. destruct (Forall_lookup_1 _ _ _ _ Hu Hj) as (_ & _ & s & Hname & Hpl).
    rewrite Hname. cbn [pushtstring].
    eapply replays_then; [apply replays_plain; [exact Hpl | exact Hnm]|].
    intros a sw sr [-> Hr]. cbv beta. cbn [copytstring]. unfold bind at 1, ret at 1.
    match goal with
    | |- context [update_proto np ?f] =>
        destruct (update_proto_reading _ _ _ _ _ _ _ _ f _ _ Hr (or_introl eq_refl))
          as (sr' & H1 & H2 & H3)
    end.
    exists tt, sr'. split; [exact H1|]. split; [exact H2|].
    cbv beta in H3. cbn [stage p_upvalues p_linedefined p_lastlinedefined p_numparams
      p_is_vararg p_maxstacksize p_code p_k p_p p_source p_lineinfo p_locvars] in H3.
    replace (Z.to_nat (0 + Z.of_nat j)) with (length (take j (p_upvalues pr)) + 0)%nat in H3.
    2:{ rewrite length_take. apply lookup_lt_Some in Hj. lia. }
    rewrite alter_app_r in H3.
    rewrite (drop_S _ _ _ Hj) in H3. cbn [map alter list_alter] in H3.
    rewrite (take_S_r _ _ _ Hj), <- app_assoc. cbn [app].
    destruct d as [nm ins idx]. cbn in *. subst nm. exact H3.
Qed.

Hypothesis Hchild :
  forall c lc npc swc src,
    proto_tree hw P c lc -> NoDup lc ->
    replays (persist_keyed n (VLight (PObj c)) (VLight (PObj c)) LUA_TPROTO)
      (unpersist m (VLight (PObj npc)))
      (fun sw sr => sw = swc /\ sr = src /\ proto_start hw P lc npc sw sr)
      (fun r sw sr => r = VLight (PObj npc) /\ proto_done hw P swc src lc npc c sw sr).

Lemma kids_replay nodes ups src li lvs :
  Forall2 (proto_tree hw P) (p_p pr) nodes ->
  NoDup (concat nodes) ->
  (forall q, q ∈ concat nodes -> q ∈ l) ->
  replays
    (for_each (fun cp : addr =>
                 persist_keyed n (VLight (PObj cp)) (VLight (PObj cp)) LUA_TPROTO)
              (p_p pr))
    (for_range
       (fun _ =>
          np0 <- new_object (OProto empty_proto) ;;
          r <- unpersist m (VLight (PObj np0)) ;;
          cp <- lift_opt (match lua_touserdata r with
                          | PObj c => Some c
                          | _ => None
                          end) ;;
          update_proto np (fun p =>
            {| p_linedefined := p_linedefined p;
               p_lastlinedefined := p_lastlinedefined p;
               p_numparams := p_numparams p; p_is_vararg := p_is_vararg p;
               p_maxstacksize := p_maxstacksize p; p_code := p_code p;
               p_k := p_k p; p_p := p_p p ++ [cp];
               p_upvalues := p_upvalues p; p_source := p_source p;
               p_lineinfo := p_lineinfo p; p_locvars := p_locvars p |}))
       0 (length (p_p pr)))
    (fun sw sr =>
       Reading (stage pr (p_k pr) [] ups src li lvs) sw sr /\
       forall q, q ∈ concat nodes ->
                 reftbl_get (pi_reftbl sw) (VLight (PObj q)) = None)
    (fun _ sw sr =>
       exists kids', length kids' = length (p_p pr) /\
                     Reading (stage pr (p_k pr) kids' ups src li lvs) sw sr).
Proof using Hchild Hnm.
  intros Htrees Hnd Hsub.
  eapply replays_conseq;
    [| | apply (replays_loop _ _ 0 (p_p pr)
                 (fun j sw sr =>
                    exists kids', length kids' = j /\
                      Reading (stage pr (p_k pr) kids' ups src li lvs) sw sr /\
                      forall q, q ∈ concat (drop j nodes) ->
                        reftbl_get (pi_reftbl sw) (VLight (PObj q)) = None))].
  - intros sw sr [H1 H2]. exists []. auto.
  - intros a sw sr (kids' & H1 & H2 & _). eauto.
  - intros c. apply persist_keyed_appends_out.
  - intros j c Hc.
    destruct (Forall2_lookup_l _ _ _ _ _ Htrees Hc) as (lc & Hlc & Htree).
    intros sw sw' sr bs rest Hrun (kids' & Hlen & Hr & Hfresh) Hbound Hout Hzio.
    pose proof Hr as [HS HL HP Hnow Hbelow Hlength Hperms Hids Hkids].
    pose proof (proj1 (heap_proto_Some _ _ _) Hnow) as Hnow'.
    pose proof (lookup_Some_lt _ _ _ Hnow') as Hlt.
    set (npc := length (upi_L sr)) in *.
    set (sr1 := upi_set_L (upi_L sr ++ [OProto empty_proto]) sr).
    assert (Hlc_nd : NoDup lc /\ forall q, q ∈ lc -> q ∉ concat (drop (S j) nodes)).
    { pose proof (NoDup_concat_drop nodes j Hnd) as H.
      rewrite (concat_drop_S _ _ _ Hlc) in H.
      apply NoDup_app in H as (H1 & H2 & _). auto. }
    destruct Hlc_nd as [Hlc_nd Hdisj].
    assert (Hstart : proto_start hw P lc npc sw sr1).
    { split; try assumption.
      - apply (lockstep_reader sw sr); [exact HS | reflexivity | reflexivity].
      - intros q Hq. apply Hfresh. rewrite (concat_drop_S _ _ _ Hlc).
        apply elem_of_app. now left.
      - subst sr1. cbn [upi_L upi_set_L]. apply heap_proto_Some, lookup_alloc_new.
      - subst sr1. cbn [upi_L upi_set_L]. rewrite length_alloc. reflexivity. }
    destruct (Hchild c lc npc sw sr1 Htree Hlc_nd sw sw' sr1 bs rest Hrun
                (conj eq_refl (conj eq_refl Hstart)) Hbound Hout Hzio)
      as (r & sr2 & Hun & Hz & -> & Hdone).
    destruct Hdone as [HS2 HL2 HP2 Hrel2 Hbelow2 Hlength2 Hperms2 Hids2].
    assert (Hnow2 : heap_proto (upi_L sr2) np =
                    Some (stage pr (p_k pr) kids' ups src li lvs)).
    { apply heap_proto_Some. rewrite Hbelow2 by exact Hlt.
      subst sr1. cbn [upi_L upi_set_L]. rewrite lookup_alloc_old by exact Hlt.
      exact Hnow'. }
    set (now2 := stage pr (p_k pr) (kids' ++ [npc]) ups src li lvs).
    set (sr3 := upi_set_L (<[np := OProto now2]> (upi_L sr2)) sr2).
    exists tt, sr3. split; [|split].
    { replace (0 + Z.of_nat j) with (Z.of_nat j) by lia. cbv beta.
      rewrite (bind_step _ _ _ _ _ (new_object_run _ _)). fold npc sr1.
      rewrite (bind_step _ _ _ _ _ Hun). cbn [lua_touserdata lift_opt].
      unfold bind at 1, ret at 1. unfold update_proto.
      rewrite (bind_step _ _ _ _ _ (the_proto_run _ _ _ Hnow2)).
      rewrite update_object_run. reflexivity. }
    { subst sr3. cbn [upi_zio upi_set_L]. exact Hz. }
    assert (Hlen1 : (length (upi_L sr1) = S npc)%nat).
    { subst sr1. cbn [upi_L upi_set_L]. now rewrite length_alloc. }
    assert (Hold : forall x, (x < npc)%nat -> x <> np -> upi_L sr3 !! x = upi_L sr !! x).
    { intros x Hx Hne. subst sr3. cbn [upi_L upi_set_L].
      rewrite lookup_update_ne by congruence. rewrite Hbelow2 by exact Hx.
      subst sr1. cbn [upi_L upi_set_L]. now apply lookup_alloc_old. }
    exists (kids' ++ [npc]). split; [rewrite length_app; cbn; lia|]. split.
    + split; try assumption.
      * apply (lockstep_reader sw' sr2); [exact HS2 | reflexivity | reflexivity].
      * subst sr3. cbn [upi_L upi_set_L]. apply heap_proto_Some, lookup_update_eq.
        apply heap_proto_Some in Hnow2. now apply lookup_lt_Some in Hnow2.
      * intros a Ha. rewrite Hold by lia. auto.
      * subst sr3. cbn [upi_L upi_set_L]. rewrite length_update. lia.
      * subst sr3. cbn [upi_perms upi_set_L]. rewrite Hperms2. exact Hperms.
      * intros q Hq. rewrite Hids2; [auto|].
        intros Hin. apply Hq, Hsub. rewrite <- (take_drop j nodes), concat_app.
        apply elem_of_app. right. rewrite (concat_drop_S _ _ _ Hlc).
        apply elem_of_app. now left.
      * subst now2. cbn [stage p_p]. rewrite length_app. cbn [length].
        replace (length kids' + 1)%nat with (S j) by lia.
        rewrite (take_S_r _ _ _ Hc). apply Forall2_app.
        -- cbn [stage p_p] in Hkids. rewrite Hlen in Hkids.
           eapply Forall2_impl; [exact Hkids|]. intros x y.
           apply proto_rel_mono; [lia|]. intros z Hz'. apply Hold; lia.
        -- constructor; [|constructor].
           revert Hrel2. apply proto_rel_mono; [lia|]. intros z Hz'.
           subst sr3. cbn [upi_L upi_set_L]. apply lookup_update_ne. lia.
    + intros q Hq. rewrite Hids2.
      * apply Hfresh. rewrite (concat_drop_S _ _ _ Hlc). apply elem_of_app. now right.
      * intros Hin. exact (Hdisj q Hin Hq).
Qed.
End ProtoReplay.

Lemma length_flat_map_le_encode size ws :
  length (flat_map (le_encode size) ws) = (length ws * size)%nat.
Proof.
  induction ws as [|w ws IH]; [reflexivity|].
  cbn [flat_map length]. rewrite length_app, length_le_encode, IH. lia.
Qed.

Lemma decode_words_encode size ws :
  decode_words size (length ws) (flat_map (le_encode size) ws)
  = map (fun w => w mod 2 ^ (8 * Z.of_nat size)) ws.
Proof.
  induction ws as [|w ws IH]; [reflexivity|].
  cbn [flat_map length decode_words map].
  rewrite take_app_length' by (symmetry; apply length_le_encode).
  rewrite drop_app_length' by (symmetry; apply length_le_encode).
  now rewrite le_decode_encode, IH.
Qed.

Lemma decode_code ws :
  Forall (fun w => 0 <= w < 2 ^ 32) ws ->
  decode_words sizeof_Instruction (length ws)
    (flat_map (le_encode sizeof_Instruction) ws) = ws.
Proof.
  intros H. rewrite decode_words_encode.
  induction H as [|w ws Hw _ IH]; [reflexivity|].
  cbn [map]. rewrite IH. f_equal.
  change (2 ^ (8 * Z.of_nat sizeof_Instruction)) with (2 ^ 32). now apply Z.mod_small.
Qed.

Lemma decode_lineinfo ws :
  Forall in_int ws ->
  map (to_signed sizeof_int)
      (decode_words sizeof_int (length ws) (flat_map (le_encode sizeof_int) ws)) = ws.
Proof.
  intros H. rewrite decode_words_encode.
  induction H as [|w ws Hw _ IH]; [reflexivity|].
  cbn [map]. rewrite IH. f_equal.
  apply to_signed_wrap; [unfold sizeof_int; lia|]. exact Hw.
Qed.

Lemma replays_ex {A X : Type} (w : W unit) (r : R A)
    (Pre : X -> PersistInfo -> UnpersistInfo -> Prop) Post :
  (forall x, replays w r (Pre x) Post) ->
  replays w r (fun sw sr => exists x, Pre x sw sr) Post.
Proof.
  intros H sw sw' sr bs rest Hrun [x Hpre]. exact (H x sw sw' sr bs rest Hrun Hpre).
Qed.

Lemma replays_ret_bind {A B : Type} (a : A) (w : W unit) (r2 : A -> R B)
    (Pre : PersistInfo -> UnpersistInfo -> Prop) Post :
  replays w (r2 a) Pre Post -> replays w (bind (ret a) r2) Pre Post.
Proof. intros H. exact H. Qed.

Lemma replays_gets_eq {A B : Type} (f : PersistInfo -> B) (x0 : B) (w : B -> W unit)
    (r : R A) (Pre : PersistInfo -> UnpersistInfo -> Prop) Post :
  (forall sw sr, Pre sw sr -> f sw = x0) ->
  replays (w x0) r Pre Post ->
  replays (bind (gets f) w) r Pre Post.
Proof.
  intros Hf H sw sw' sr bs rest Hrun Hpre. unfold bind, gets in Hrun.
  rewrite (Hf _ _ Hpre) in Hrun. exact (H sw sw' sr bs rest Hrun Hpre).
Qed.

Lemma replays_update_to {A : Type} hw P sw0 sr0 l np cs now now' f (w : W unit)
    (r2 : R A) Post :
  f now = now' ->
  p_p now' = p_p now \/ p_p now' = [] ->
  replays w r2 (reading hw P sw0 sr0 l np cs now') Post ->
  replays w (update_proto np f ;; r2) (reading hw P sw0 sr0 l np cs now) Post.
Proof. intros <-. apply replays_update_proto. Qed.

Lemma reading_weaken hw P sw0 sr0 l l' np cs now sw sr :
  (forall q, q ∈ l -> q ∈ l') ->
  reading hw P sw0 sr0 l np cs now sw sr -> reading hw P sw0 sr0 l' np cs now sw sr.
Proof.
  intros Hsub [HS HL HP Hnow Hbelow Hlength Hperms Hids Hkids].
  split; try assumption. intros q Hq. apply Hids. intros Hin. apply Hq, Hsub, Hin.
Qed.

Ltac appends_tac :=
  repeat first
    [ apply bind_appends; [|intros ?]
    | apply for_each_appends; intros ?
    | apply WRITE_RAW_appends
    | apply persist_appends_out
    | apply persist_keyed_appends_out ].

Section ProtoBody.
Context {host : LuaHost}.
Variables (hw : heap) (P : addr) (n m : nat).
Hypothesis Hnm : (n <= m)%nat.
Variables (sw0 : PersistInfo) (sr0 : UnpersistInfo) (np p : addr).
Variables (pr : proto) (nodes : list (list addr)).
Hypothesis Hchild :
  forall c lc npc swc src,
    proto_tree hw P c lc -> NoDup lc ->
    replays (persist_keyed n (VLight (PObj c)) (VLight (PObj c)) LUA_TPROTO)
      (unpersist m (VLight (PObj npc)))
      (fun sw sr => sw = swc /\ sr = src /\ proto_start hw P lc npc sw sr)
      (fun r sw sr => r = VLight (PObj npc) /\ proto_done hw P swc src lc npc c sw sr).
Hypothesis Hp : heap_proto hw p = Some pr.
Hypothesis Hok : proto_ok hw P pr.
Hypothesis Htrees : Forall2 (proto_tree hw P) (p_p pr) nodes.
Hypothesis Hnd : NoDup (p :: concat nodes).
Hypothesis Hfresh0 :
  forall q, q ∈ concat nodes -> reftbl_get (pi_reftbl sw0) (VLight (PObj q)) = None.

Lemma p_proto_replay :
  replays (p_proto (persist n) (persist_keyed n) (VLight (PObj p)))
    (u_proto (unpersist m) (VLight (PObj np)))
    (fun sw sr =>
       reading hw P sw0 sr0 [p] np (p_p pr) empty_proto sw
         (upi_set_ref (upi_refcount sr + 1) (VLight (PObj np)) (upi_incr_refcount sr)))
    (fun r sw sr =>
       r = VLight (PObj np) /\
       exists kids', length kids' = length (p_p pr) /\
         reading hw P sw0 sr0 (p :: concat nodes) np (p_p pr) (set_p pr kids') sw sr).
Proof using Hnm Hchild Hp Hok Htrees Hnd Hfresh0.
  destruct Hok as [ok1 ok2 ok3 ok4 ok5 ok6 ok7 ok8 ok9 ok10 ok11 ok12 ok13 ok14 ok15 ok16 ok17].
  destruct ok13 as (s & Hs & Hpl).
  unfold p_proto, u_proto. cbn [lua_touserdata].
  apply replays_gets_eq with (x0 := hw); [intros sw sr H; apply H|].
  rewrite Hp. apply replays_lift_opt. intros x [= <-].
  apply replays_ret_bind.
  eapply replays_reader with
    (Pre1 := fun _ sw sr =>
       reading hw P sw0 sr0 [p] np (p_p pr) empty_proto sw
         (upi_set_ref (upi_refcount sr + 1) (VLight (PObj np)) (upi_incr_refcount sr))).
  { intros sw sr H. exists empty_proto, sr. split; [|auto].
    apply the_proto_run. exact (rd_now _ _ _ _ _ _ _ _ _ _ H). }
  intros _.
  eapply replays_reader with
    (Pre1 := fun _ => reading hw P sw0 sr0 [p] np (p_p pr) empty_proto).
  { intros sw sr H. eexists _, _. rewrite registerobject_run. split; [reflexivity|].
    split; [reflexivity | exact H]. }
  intros _.
  apply replays_int_bind; [apply stable_reading | exact ok1 | appends_tac |].
  apply replays_int_bind; [apply stable_reading | exact ok2 | appends_tac |].
  apply replays_byte_bind; [apply stable_reading | exact ok3 | appends_tac |].
  apply replays_byte_bind; [apply stable_reading | exact ok4 | appends_tac |].
  apply replays_byte_bind; [apply stable_reading | exact ok5 | appends_tac |].
  apply replays_int_bind; [apply stable_reading | exact ok7 | appends_tac |].
  apply replays_realloc; [lia|].
  apply replays_raw_bind; [apply stable_reading | | appends_tac |].
  { rewrite length_flat_map_le_encode. lia. }
  eapply replays_update_to with (now' := stage pr [] [] [] None [] []);
    [ | left; reflexivity | ].
  { rewrite Nat2Z.id, decode_code by exact ok6. reflexivity. }
  apply replays_int_bind; [apply stable_reading | exact ok9 | appends_tac |].
  apply replays_realloc; [lia|]. rewrite Nat2Z.id.
  eapply replays_bind;
    [appends_tac | appends_tac | apply (constants_replay hw P n m Hnm); exact ok8 |].
  intros [].
  apply replays_int_bind; [apply stable_reading | exact ok10 | appends_tac |].
  apply replays_realloc; [lia|].
  eapply replays_update_to with (now' := stage pr (p_k pr) [] [] None [] []);
    [reflexivity | right; reflexivity |].
  rewrite Nat2Z.id.
  eapply replays_bind; [appends_tac | appends_tac | |].
  { eapply replays_conseq;
      [| | apply (kids_replay hw P n m Hnm sw0 sr0 (p :: concat nodes) np pr Hchild nodes)].
    - intros sw sr H. split.
      + revert H. apply reading_weaken. intros q Hq. apply elem_of_cons. left.
        now apply list_elem_of_singleton in Hq.
      + intros q Hq. rewrite (rd_ids _ _ _ _ _ _ _ _ _ _ H); [now apply Hfresh0|].
        intros Hin. apply list_elem_of_singleton in Hin. subst q.
        apply NoDup_cons in Hnd as [Hnotin _]. contradiction.
    - intros a sw sr H. exact H.
    - exact Htrees.
    - now apply NoDup_cons in Hnd as [_ H].
    - intros q Hq. apply elem_of_cons. now right. }
  intros []. cbv beta. apply replays_ex. intros kids'. apply replays_pre. intros Hlen.
  apply replays_int_bind; [apply stable_reading | exact ok12 | appends_tac |].
  apply replays_realloc; [lia|].
  eapply replays_update_to with (now' := stage pr (p_k pr) kids' [] None [] []);
    [reflexivity | left; reflexivity |].
  rewrite Nat2Z.id.
  eapply replays_bind;
    [appends_tac | appends_tac | apply updescs_replay; exact ok11 |].
  intros [].
  apply replays_byte_bind; [apply stable_reading | unfold in_byte; lia | appends_tac |].
  cbv beta. change (1 =? 0) with false. cbv iota.
  rewrite Hs. cbn [pushtstring].
  eapply replays_bind;
    [appends_tac | appends_tac | apply replays_plain; [exact Hpl | exact Hnm] |].
  intros a. cbv beta. apply replays_pre. intros ->. cbn [copytstring].
  apply replays_ret_bind.
  apply replays_int_bind; [apply stable_reading | exact ok15 | appends_tac |].
  apply replays_realloc; [lia|].
  apply replays_raw_bind; [apply stable_reading | | appends_tac |].
  { rewrite length_flat_map_le_encode. lia. }
  eapply replays_update_to with
    (now' := stage pr (p_k pr) kids' (map unnamed (p_upvalues pr)) (Some s)
               (p_lineinfo pr) []);
    [ | left; reflexivity | ].
  { rewrite Nat2Z.id, decode_lineinfo by exact ok14. reflexivity. }
  apply replays_int_bind; [apply stable_reading | exact ok17 | appends_tac |].
  apply replays_realloc; [lia|]. rewrite Nat2Z.id.
  eapply replays_bind;
    [appends_tac | appends_tac | apply (locvars_replay hw P n m Hnm); exact ok16 |].
  intros [].
  eapply replays_reader with
    (Pre1 := fun a sw sr =>
       a = stage pr (p_k pr) kids' (map unnamed (p_upvalues pr)) (Some s)
             (p_lineinfo pr) (p_locvars pr) /\
       reading hw P sw0 sr0 (p :: concat nodes) np (p_p pr)
         (stage pr (p_k pr) kids' (map unnamed (p_upvalues pr)) (Some s)
            (p_lineinfo pr) (p_locvars pr)) sw sr).
  { intros sw sr H. eexists _, sr. split; [|auto].
    apply the_proto_run. exact (rd_now _ _ _ _ _ _ _ _ _ _ H). }
  intros a. apply replays_pre. intros ->. cbn [stage p_upvalues]. rewrite length_map.
  eapply replays_then; [apply (upnames_replay hw P n m Hnm); exact ok11|].
  intros [] sw sr H. exists (VLight (PObj np)), sr. split; [reflexivity|].
  split; [reflexivity|]. split; [reflexivity|]. exists kids'. split; [exact Hlen|].
  unfold set_p. rewrite Hs. exact H.
Qed.
End ProtoBody.

Lemma gets_appends {B : Type} (f : PersistInfo -> B) : appends (gets f).
Proof. intros s a s' [= _ <-]. exists []. now rewrite app_nil_r. Qed.

Lemma lift_opt_appends {B : Type} (o : option B) : appends (lift_opt o).
Proof.
  intros s a s' H. destruct o; [|discriminate]. injection H as _ <-.
  exists []. now rewrite app_nil_r.
Qed.

Lemma p_proto_appends {host : LuaHost} n obj :
  appends (p_proto (persist n) (persist_keyed n) obj).
Proof.
  unfold p_proto.
  apply bind_appends; [apply gets_appends | intros h].
  apply bind_appends; [apply lift_opt_appends | intros pr].
  appends_tac.
Qed.

Lemma proto_replay {host : LuaHost} hw P n :
  forall m p l np swc src,
    (n <= m)%nat -> proto_tree hw P p l -> NoDup l ->
    replays (persist_keyed n (VLight (PObj p)) (VLight (PObj p)) LUA_TPROTO)
      (unpersist m (VLight (PObj np)))
      (fun sw sr => sw = swc /\ sr = src /\ proto_start hw P l np sw sr)
      (fun r sw sr => r = VLight (PObj np) /\ proto_done hw P swc src l np p sw sr).
Proof.
  induction n as [|n IH]; intros m p l np swc src Hnm Htree Hnd.
  { intros sw sw' sr bs rest Hrun. discriminate. }
  destruct m as [|m]; [lia|]. apply le_S_n in Hnm.
  destruct Htree as [p pr nodes Hp Hok Hnil Htrees].
  intros sw sw' sr bs rest Hrun (<- & <- & [HS HL HP Hfresh Hempty Hlast]) Hbound Hout Hzio.
  pose proof HS as [Hrc Hwf Hlen Hstr].
  assert (Hnone : reftbl_get (pi_reftbl sw) (VLight (PObj p)) = None).
  { apply Hfresh. apply elem_of_cons. now left. }
  rewrite (persist_keyed_fresh _ _ _ _ _ Hnone), persist_keyed_new_run in Hrun.
  cbn [pi_bind_ref pi_L pi_perms] in Hrun. rewrite HL, HP, Hnil in Hrun.
  unfold persist_typed in Hrun. apply bind_Ok in Hrun as ([] & sw1 & Hw1 & Hw2).
  change (persist_typed_switch (persist n) (persist_keyed n) LUA_TPROTO (VLight (PObj p)))
    with (p_proto (persist n) (persist_keyed n) (VLight (PObj p))) in Hw2.
  apply write_Ok_out in Hw1 as (R1 & C1 & L1 & P1 & _ & O1).
  cbn [pi_bind_ref pi_reftbl pi_refcount pi_L pi_perms] in R1, C1, L1, P1.
  change (pi_out (pi_bind_ref (VLight (PObj p)) sw)) with (pi_out sw) in O1.
  destruct (p_proto_appends _ _ _ _ _ Hw2) as (b2 & O2).
  assert (bs = le_encode sizeof_int LUA_TPROTO ++ b2) as ->.
  { rewrite O2, O1, <- app_assoc in Hout. now apply app_inv_head in Hout. }
  rewrite <- app_assoc in Hzio.
  rewrite (unpersist_tag m _ sr LUA_TPROTO (b2 ++ rest)); [|vm_compute; split; discriminate | exact Hzio].
  set (sr1 := upi_set_zio (b2 ++ rest) sr).
  assert (Hpre : reading hw P sw sr [p] np (p_p pr) empty_proto sw1
                   (upi_set_ref (upi_refcount sr1 + 1) (VLight (PObj np))
                      (upi_incr_refcount sr1))).
  { split.
    - split.
      + cbn [upi_refcount upi_set_ref upi_incr_refcount sr1 upi_set_zio]. lia.
      + pose proof (pi_bind_ref_wf _ _ Hnone Hwf) as Hwf1. unfold pi_wf in *.
        rewrite R1, C1. exact Hwf1.
      + rewrite C1, O1, length_app, length_le_encode. unfold sizeof_int. lia.
      + intros s i Hi. rewrite R1 in Hi. cbn [reftbl_get] in Hi.
        destruct (luaV_rawequalobj (VLight (PObj p)) (VStr s)) eqn:E.
        { unfold luaV_rawequalobj in E. apply bool_decide_eq_true in E. discriminate. }
        cbn [upi_reftbl upi_set_ref upi_incr_refcount sr1 upi_set_zio upi_refcount
             reftbl_rawgeti].
        destruct (Z.eqb_spec (upi_refcount sr + 1) i) as [Heq|Hne]; [|now apply Hstr].
        destruct Hwf as (_ & Hr & _). specialize (Hr _ _ Hi). lia.
    - congruence.
    - congruence.
    - exact Hempty.
    - intros a _. reflexivity.
    - apply le_n.
    - reflexivity.
    - intros q Hq. rewrite R1. cbn [reftbl_get].
      destruct (luaV_rawequalobj (VLight (PObj p)) (VLight (PObj q))) eqn:E; [|reflexivity].
      unfold luaV_rawequalobj in E. apply bool_decide_eq_true in E.
      exfalso. apply Hq. injection E as ->. apply list_elem_of_singleton. reflexivity.
    - constructor. }
  destruct (p_proto_replay hw P n m Hnm sw sr np p pr nodes
              (fun c lc npc swc src Ht Hn => IH m c lc npc swc src Hnm Ht Hn)
              Hp Hok Htrees Hnd
              (fun q Hq => Hfresh q (proj2 (elem_of_cons _ _ _) (or_intror Hq)))
              sw1 sw' sr1 b2 rest Hw2 Hpre Hbound O2 eq_refl)
    as (a & sr' & Hu & Hz & -> & kids' & Hlen' & Hrd).
  exists (VLight (PObj np)), sr'. split; [exact Hu|]. split; [exact Hz|].
  split; [reflexivity|].
  destruct Hrd as [HS' HL' HP' Hnow' Hbelow' Hlength' Hperms' Hids' Hkids'].
  split; try assumption.
  apply (proto_rel_node hw (upi_L sr') np p np pr kids' Hp Hnow' (le_n _)).
  cbn [set_p stage p_p] in Hkids'. rewrite Hlen', firstn_all in Hkids'.
  eapply Forall2_impl; [exact Hkids'|]. intros x y.
  apply proto_rel_mono; [lia|]. intros z _. reflexivity.
Qed.

(** Round trip of function prototypes. Take a tree of prototypes of the
    writer's heap, each of them once in the tree, none a permanent value and
    none with an id yet, every field within the range of the word it is
    written in, with debug information, the constants and names simple values
    or strings that are no permanent values. When [persist_keyed] writes the
    root with type [LUA_TPROTO], fewer than 2^31 bytes of output in all, and
    the reader, in step with the writer and with at least as much fuel, finds
    these bytes at the head of its input and holds the empty prototype [np]
    as the newest object of its heap, then [unpersist] succeeds, consumes
    exactly these bytes and returns [np]; [np] is then the root field by
    field, nested prototypes in order, the heap below [np] is as before, and
    the two sides are in step again. *)
Theorem proto_roundtrip {host : LuaHost} hw P n m p l np sw sw' sr rest :
  proto_tree hw P p l -> NoDup l ->
  proto_start hw P l np sw sr ->
  (n <= m)%nat ->
  persist_keyed n (VLight (PObj p)) (VLight (PObj p)) LUA_TPROTO sw = Ok (tt, sw') ->
  Z.of_nat (length (pi_out sw')) < 2 ^ 31 ->
  upi_zio sr = drop (length (pi_out sw)) (pi_out sw') ++ rest ->
  exists sr',
    unpersist m (VLight (PObj np)) sr = Ok (VLight (PObj np), sr') /\
    upi_zio sr' = rest /\
    proto_rel hw (upi_L sr') np p np /\
    (forall a, (a < np)%nat -> upi_L sr' !! a = upi_L sr !! a) /\
    lockstep sw' sr'.
Proof.
  intros Htree Hnd Hst Hnm Hrun Hbound Hzio.
  destruct (persist_keyed_appends_out _ _ _ _ _ _ _ Hrun) as (bs & Hout).
  rewrite Hout, drop_app_length in Hzio.
  destruct (proto_replay hw P n m p l np sw sr Hnm Htree Hnd sw sw' sr bs rest Hrun
              (conj eq_refl (conj eq_refl Hst)) Hbound Hout Hzio)
    as (a & sr' & Hu & Hz & -> & [HS _ _ Hrel Hbelow _ _ _]).
  exists sr'. auto.
Qed.

Ltac in_range := vm_compute; split; congruence.
Ltac is_string := eexists; split; [reflexivity|]; right; eexists; split; reflexivity.
Ltac each := repeat apply Forall_cons_2; try apply Forall_nil_2.
Ltac proto_ok_tac :=
  split;
    [ in_range | in_range | in_range | in_range | in_range
    | each; in_range | in_range
    | each; first [left; reflexivity | right; eexists; split; reflexivity] | in_range
    | in_range
    | each; (split; [in_range|]; split; [in_range|]; is_string) | in_range
    | is_string
    | each; in_range | in_range
    | each; (split; [in_range|]; split; [in_range|]; is_string) | in_range ].

Lemma proto_roundtrip_witness :
  exists sr',
    unpersist (host := plain_host) 4 (VLight (PObj 1%nat))
      (start_upi pt_rheap 0%nat (pi_out pt_pi'))
      = Ok (VLight (PObj 1%nat), sr') /\
    upi_zio sr' = [] /\
    proto_rel pt_heap (upi_L sr') 1%nat 1%nat 1%nat.
Proof.
  destruct (proto_roundtrip (host := plain_host) pt_heap 0%nat 4 4 1%nat [1; 2]%nat 1%nat
              (start_pi pt_heap 9%nat 0%nat) pt_pi'
              (start_upi pt_rheap 0%nat (pi_out pt_pi')) [])
    as (sr' & H1 & H2 & H3 & _).
  - apply (proto_tree_node pt_heap 0%nat 1%nat pt_main [[2%nat]]).
    + reflexivity.
    + proto_ok_tac.
    + reflexivity.
    + apply Forall2_cons_2; [|apply Forall2_nil_2].
      apply (proto_tree_node pt_heap 0%nat 2%nat pt_child []).
      * reflexivity.
      * proto_ok_tac.
      * reflexivity.
      * apply Forall2_nil_2.
  - apply (bool_decide_unpack (NoDup [1; 2]%nat)). vm_compute. exact I.
  - split.
    + split.
      * reflexivity.
      * split; [vm_compute; congruence|]. split; intros; discriminate.
      * vm_compute; congruence.
      * intros s i H; discriminate.
    + reflexivity.
    + reflexivity.
    + intros q _. reflexivity.
    + reflexivity.
    + reflexivity.
  - lia.
  - vm_compute. reflexivity.
  - vm_compute. reflexivity.
  - vm_compute. reflexivity.
  - exists sr'. auto.
Defined.

Lemma the_table_run a s t :
  heap_table (upi_L s) a = Some t -> the_table a s = Ok (t, s).
Proof. intros H. unfold the_table, bind, gets. rewrite H. reflexivity. Qed.

Lemma the_lcl_run a s c :
  heap_lcl (upi_L s) a = Some c -> the_lcl a s = Ok (c, s).
Proof. intros H. unfold the_lcl, bind, gets. rewrite H. reflexivity. Qed.

Lemma the_upval_run a s u :
  heap_upval (upi_L s) a = Some u -> the_upval a s = Ok (u, s).
Proof. intros H. unfold the_upval, bind, gets. rewrite H. reflexivity. Qed.

Lemma lua_rawgeti_run t i s tb :
  heap_table (upi_L s) t = Some tb ->
  lua_rawgeti t i s = Ok (luaH_get (t_pairs tb) (VNum (cast_num i)), s).
Proof.
  intros H. unfold lua_rawgeti. rewrite (bind_step _ _ _ _ _ (the_table_run _ _ _ H)).
  reflexivity.
Qed.

Lemma lua_rawseti_run t i v s tb :
  heap_table (upi_L s) t = Some tb ->
  lua_rawseti t i v s =
  Ok (tt, upi_set_L (<[t := OTable (set_pairs tb (luaH_set (t_pairs tb)
                                                    (VNum (cast_num i)) v))]> (upi_L s)) s).
Proof.
  intros H. unfold lua_rawseti. rewrite (bind_step _ _ _ _ _ (the_table_run _ _ _ H)).
  apply update_object_run.
Qed.

Lemma set_lcl_upval_run cl k uv s c :
  heap_lcl (upi_L s) cl = Some c -> (k < length (l_upvals c))%nat ->
  set_lcl_upval cl k uv s =
  Ok (tt, upi_set_L (<[cl := OLCl {| l_p := l_p c;
                                     l_upvals := <[k := Some uv]> (l_upvals c) |}]>
                       (upi_L s)) s).
Proof.
  intros H Hk. unfold set_lcl_upval.
  rewrite (bind_step _ _ _ _ _ (the_lcl_run _ _ _ H)).
  destruct (Nat.ltb_spec k (length (l_upvals c))) as [_|]; [|lia].
  unfold bind at 1, ret at 1. apply update_object_run.
Qed.

Lemma luaH_get_set_new k v :
  luaV_rawequalobj k k = true -> luaH_get (luaH_set [] k v) k = v.
Proof.
  intros Hk. cbn [luaH_set]. destruct (lua_isnil v) eqn:E.
  - destruct v; try discriminate. reflexivity.
  - cbn [luaH_get]. now rewrite Hk.
Qed.

(** What [persist_keyed] does for a key without an id that is no permanent
    value: the key gets the next id, the type word is written, and the
    body follows. *)
Lemma persist_keyed_writes {host : LuaHost} f obj key type sw sw' :
  reftbl_get (pi_reftbl sw) key = None ->
  lua_isnil (lua_gettable (pi_L sw) (pi_perms sw) key) = true ->
  persist_keyed (S f) obj key type sw = Ok (tt, sw') ->
  exists sw1,
    pi_reftbl sw1 = (key, pi_refcount sw + 1) :: pi_reftbl sw /\
    pi_refcount sw1 = pi_refcount sw + 1 /\
    pi_L sw1 = pi_L sw /\ pi_perms sw1 = pi_perms sw /\
    pi_out sw1 = pi_out sw ++ le_encode sizeof_int type /\
    persist_typed_switch (persist f) (persist_keyed f) type obj sw1 = Ok (tt, sw').
Proof.
  intros Hnone Hnil Hrun.
  rewrite (persist_keyed_fresh _ _ _ _ _ Hnone), persist_keyed_new_run in Hrun.
  cbn [pi_bind_ref pi_L pi_perms] in Hrun. rewrite Hnil in Hrun.
  unfold persist_typed in Hrun. apply bind_Ok in Hrun as ([] & sw1 & Hw1 & Hw2).
  apply write_Ok_out in Hw1 as (R1 & C1 & L1 & P1 & _ & O1).
  exists sw1. split; [exact R1|]. split; [exact C1|]. split; [exact L1|].
  split; [exact P1|]. split; [exact O1 | exact Hw2].
Qed.

Lemma lockstep_bind sw sw1 sr sr1 key obj x :
  lockstep sw sr ->
  reftbl_get (pi_reftbl sw) key = None -> (forall s, key <> VStr s) ->
  pi_reftbl sw1 = (key, pi_refcount sw + 1) :: pi_reftbl sw ->
  pi_refcount sw1 = pi_refcount sw + 1 ->
  pi_out sw1 = pi_out sw ++ le_encode sizeof_int x ->
  upi_refcount sr1 = upi_refcount sr + 1 ->
  upi_reftbl sr1 = (upi_refcount sr + 1, obj) :: upi_reftbl sr ->
  lockstep sw1 sr1.
Proof.
  intros [Hrc Hwf Hlen Hstr] Hnone Hkey R1 C1 O1 C2 R2. split.
  - lia.
  - pose proof (pi_bind_ref_wf _ _ Hnone Hwf) as Hwf1. unfold pi_wf in *.
    rewrite R1, C1. exact Hwf1.
  - rewrite C1, O1, length_app, length_le_encode. unfold sizeof_int. lia.
  - intros s i Hi. rewrite R1 in Hi. cbn [reftbl_get] in Hi.
    destruct (luaV_rawequalobj key (VStr s)) eqn:E.
    { exfalso. apply (Hkey s). rewrite rawequal_sym in E.
      apply rawequal_eq in E; [congruence | intros b; discriminate]. }
    rewrite R2. cbn [reftbl_rawgeti].
    destruct (Z.eqb_spec (upi_refcount sr + 1) i) as [Heq|Hne]; [|now apply Hstr].
    destruct Hwf as (_ & Hr & _). specialize (Hr _ _ Hi). lia.
Qed.

Lemma lookup_heap_app_r (h e : heap) (a : addr) :
  (length h <= a)%nat -> (h ++ e) !! a = e !! (a - length h)%nat.
Proof. apply lookup_app_r. Qed.

Lemma update_app_l (h e : heap) (a : addr) (o : obj) :
  (a < length h)%nat -> <[a := o]> (h ++ e) = <[a := o]> h ++ e.
Proof. apply insert_app_l. Qed.

Ltac run H := erewrite bind_step; [|exact H].

(** One round of the upvalue loop for an upvalue that has no id yet: the
    writer gives it an id and writes its value; the reader creates the
    record table and the upvalue, and binds the slot of the closure. *)
Lemma upvalue_round {host : LuaHost} hw P nk mr sw sw' sr bs rest cl c k uv u v :
  heap_upval hw uv = Some u -> upval_get hw u = Some v -> plain hw P v ->
  lua_isnil (lua_gettable hw P (VLight (PObj uv))) = true ->
  reftbl_get (pi_reftbl sw) (VLight (PObj uv)) = None ->
  pi_L sw = hw -> pi_perms sw = P -> lockstep sw sr ->
  heap_lcl (upi_L sr) cl = Some c -> (k < length (l_upvals c))%nat ->
  (nk <= mr)%nat ->
  p_closure_upvalue (persist_keyed nk) (Some uv) sw = Ok (tt, sw') ->
  Z.of_nat (length (pi_out sw')) < 2 ^ 31 ->
  pi_out sw' = pi_out sw ++ bs -> upi_zio sr = bs ++ rest ->
  exists sr' t',
    u_closure_upvalue (unpersist mr) cl (1 + Z.of_nat k) sr = Ok (tt, sr') /\
    upi_zio sr' = rest /\ lockstep sw' sr' /\ pi_L sw' = hw /\ pi_perms sw' = P /\
    upi_perms sr' = upi_perms sr /\
    upi_L sr' =
      <[cl := OLCl {| l_p := l_p c;
                      l_upvals := <[k := Some (S (length (upi_L sr)))]> (l_upvals c) |}]>
        (upi_L sr) ++ [OTable t'; OUpVal {| uv_v := UvClosed; uv_value := v |}] /\
    (forall key, (forall s, key <> VStr s) -> key <> VLight (PObj uv) ->
       reftbl_get (pi_reftbl sw') key = reftbl_get (pi_reftbl sw) key).
Proof.
  intros Hu Hv Hpl Hnil Hnone HL HP HS Hc Hk Hnm Hrun Hbound Hout Hzio.
  assert (Hrun' : persist_keyed nk v (VLight (PObj uv)) LUA_TUPVAL sw = Ok (tt, sw')).
  { revert Hrun. unfold p_closure_upvalue. cbn [lift_opt]. unfold bind, ret, gets.
    rewrite HL, Hu. cbn [lift_opt]. unfold ret. rewrite Hv. cbn [lift_opt]. unfold ret.
    auto. }
  destruct nk as [|f1]; [discriminate|]. destruct mr as [|m1]; [lia|]. apply le_S_n in Hnm.
  destruct (persist_keyed_writes f1 v _ LUA_TUPVAL sw sw' Hnone)
    as (sw1 & R1 & C1 & L1 & P1 & O1 & Hw2);
    [rewrite HL, HP; exact Hnil | exact Hrun' |].
  change (persist_typed_switch (persist f1) (persist_keyed f1) LUA_TUPVAL v)
    with (persist f1 v) in Hw2.
  destruct (persist_appends_out _ _ _ _ _ Hw2) as (b2 & O2).
  assert (bs = le_encode sizeof_int LUA_TUPVAL ++ b2) as ->.
  { rewrite O2, O1, <- app_assoc in Hout. now apply app_inv_head in Hout. }
  rewrite <- app_assoc in Hzio.
  pose proof (proj1 (heap_lcl_Some _ _ _) Hc) as Hc'.
  pose proof (lookup_Some_lt _ _ _ Hc') as Hcl.
  set (h0 := upi_L sr) in *. set (tbl := length h0) in *.
  set (s2 := upi_set_ref (upi_refcount sr + 1) (VTable tbl)
               (upi_incr_refcount
                  (upi_set_L (h0 ++ [OTable empty_table])
                     (upi_set_zio (b2 ++ rest) sr)))).
  assert (HS2 : lockstep sw1 s2).
  { apply (lockstep_bind sw sw1 sr s2 (VLight (PObj uv)) (VTable tbl) LUA_TUPVAL);
      try assumption; try reflexivity. intros s; discriminate. }
  destruct (plain_follows hw P f1 v sw1 sw' s2 (VTable tbl) m1 b2 rest Hpl Hw2
              (eq_trans L1 HL) (eq_trans P1 HP) HS2 Hbound O2 eq_refl Hnm)
    as (s3 & Hun & Hz3 & HS3 & HL3 & HP3 & HLr & HPr & Hk3).
  change (upi_L s2) with (h0 ++ [OTable empty_table]) in HLr.
  change (upi_perms s2) with (upi_perms sr) in HPr.
  set (t1 := set_pairs empty_table (luaH_set [] (VNum (cast_num 1)) v)).
  set (h1 := h0 ++ [OTable t1]).
  assert (Hupval : unpersist (S m1) (VLCl cl) sr = Ok (VTable tbl, upi_set_L h1 s3)).
  { rewrite (unpersist_tag m1 _ sr LUA_TUPVAL (b2 ++ rest));
      [|vm_compute; split; discriminate | exact Hzio].
    change (u_upval (unpersist m1) (VLCl cl) (upi_set_zio (b2 ++ rest) sr)
            = Ok (VTable tbl, upi_set_L h1 s3)).
    unfold u_upval.
    run (new_object_run (OTable empty_table) (upi_set_zio (b2 ++ rest) sr)).
    erewrite bind_step; [|apply registerobject_run].
    run Hun.
    erewrite bind_step; [|apply (lua_rawseti_run tbl 1 v s3 empty_table)].
    - unfold ret. rewrite HLr. unfold h1, t1, tbl. rewrite update_alloc_new. reflexivity.
    - rewrite HLr. apply heap_table_Some, lookup_alloc_new. }
  set (nuv := S tbl).
  set (c' := {| l_p := l_p c; l_upvals := <[k := Some nuv]> (l_upvals c) |}).
  set (nilup := {| uv_v := UvClosed; uv_value := VNil |}).
  set (t2 := set_pairs t1 (luaH_set (t_pairs t1) (VNum (cast_num 2)) (VLight (PObj nuv)))).
  set (up := {| uv_v := UvClosed; uv_value := v |}).
  set (bp := VLight (PSlot cl k)).
  set (h2 := h1 ++ [OUpVal nilup]).
  set (h3 := <[cl := OLCl c']> h2).
  set (h4 := <[tbl := OTable t2]> h3).
  set (h5 := <[nuv := OUpVal up]> h4).
  assert (Hlen1 : length h1 = nuv) by (unfold h1; apply length_alloc).
  assert (Hlen2 : length h2 = S nuv) by (unfold h2; rewrite length_alloc; lia).
  assert (Hlen3 : length h3 = S nuv) by (unfold h3; rewrite length_update; lia).
  assert (Hlen4 : length h4 = S nuv) by (unfold h4; rewrite length_update; lia).
  assert (Ht1 : heap_table h1 tbl = Some t1).
  { apply heap_table_Some. apply lookup_alloc_new. }
  assert (Hg2 : luaH_get (t_pairs t1) (VNum (cast_num 2)) = VNil).
  { unfold t1. cbn [t_pairs set_pairs]. rewrite luaH_get_set_other by reflexivity.
    reflexivity. }
  assert (Hc2 : heap_lcl h2 cl = Some c).
  { apply heap_lcl_Some. unfold h2, h1.
    rewrite !lookup_alloc_old by (rewrite ?length_alloc; lia). exact Hc'. }
  assert (Ht3 : heap_table h3 tbl = Some t1).
  { apply heap_table_Some. unfold h3, h2. rewrite lookup_update_ne by lia.
    rewrite lookup_alloc_old by lia. apply lookup_alloc_new. }
  assert (Ht4 : heap_table h4 tbl = Some t2).
  { apply heap_table_Some. unfold h4. apply lookup_update_eq. lia. }
  assert (Hg1 : luaH_get (t_pairs t2) (VNum (cast_num 1)) = v).
  { unfold t2, t1. cbn [t_pairs set_pairs]. rewrite luaH_get_set_other by reflexivity.
    apply luaH_get_set_new. reflexivity. }
  assert (Hu4 : heap_upval h4 nuv = Some nilup).
  { apply heap_upval_Some. unfold h4, h3, h2. rewrite !lookup_update_ne by lia.
    rewrite <- Hlen1. apply lookup_alloc_new. }
  assert (Ht5 : heap_table h5 tbl = Some t2).
  { apply heap_table_Some. unfold h5. rewrite lookup_update_ne by lia.
    apply heap_table_Some, Ht4. }
  assert (Hg3 : luaH_get (t_pairs t2) (VNum (cast_num 3)) = VNil).
  { unfold t2, t1. cbn [t_pairs set_pairs]. rewrite !luaH_get_set_other by reflexivity.
    reflexivity. }
  assert (Hblock :
    (nuv0 <- new_object (OUpVal nilup) ;;
     set_lcl_upval cl k nuv0 ;;
     lua_rawseti tbl 2 (VLight (PObj nuv0)) ;;
     ret nuv0) (upi_set_L h1 s3) = Ok (nuv, upi_set_L h4 s3)).
  { run (new_object_run (OUpVal nilup) (upi_set_L h1 s3)).
    cbn [upi_L upi_set_L]. rewrite Hlen1.
    erewrite bind_step; [|apply (set_lcl_upval_run cl k nuv _ c); [exact Hc2 | exact Hk]].
    erewrite bind_step; [|apply (lua_rawseti_run tbl 2 _ _ t1); exact Ht3].
    reflexivity. }
  assert (Hmain :
    u_closure_upvalue (unpersist (S m1)) cl (1 + Z.of_nat k) sr =
    (if 2 <=? luaL_len t2
     then lua_rawseti tbl (luaL_len t2 + 1) bp
     else i <- lift_opt (first_free (t_pairs t2) 3 (S (length (t_pairs t2)))) ;;
          lua_rawseti tbl i bp) (upi_set_L h5 s3)).
  { unfold u_closure_upvalue.
    replace (Z.to_nat (1 + Z.of_nat k - 1)) with k by lia.
    run Hupval. cbn [lift_opt]. unfold bind at 1, ret at 1.
    erewrite bind_step; [|apply (lua_rawgeti_run tbl 2 _ t1); exact Ht1].
    rewrite Hg2. cbn [lua_isnil].
    run Hblock.
    erewrite bind_step; [|apply (lua_rawgeti_run tbl 1 _ t2); exact Ht4].
    erewrite bind_step; [|apply (the_upval_run nuv _ nilup); exact Hu4].
    erewrite bind_step; [|apply update_object_run].
    erewrite bind_step; [|apply (the_table_run tbl _ t2); cbn [upi_L upi_set_L uv_v nilup];
                          rewrite Hg1; exact Ht5].
    cbn [upi_L upi_set_L uv_v nilup]. rewrite Hg1. reflexivity. }
  assert (Hlast : exists i,
    u_closure_upvalue (unpersist (S m1)) cl (1 + Z.of_nat k) sr =
    lua_rawseti tbl i bp (upi_set_L h5 s3)).
  { rewrite Hmain. destruct (Z.leb_spec 2 (luaL_len t2)).
    - eexists. reflexivity.
    - exists 3. cbn [first_free]. rewrite Hg3. reflexivity. }
  destruct Hlast as (i & Hlast).
  rewrite (lua_rawseti_run tbl i bp (upi_set_L h5 s3) t2 Ht5) in Hlast. cbn [upi_L upi_set_L] in Hlast.
  set (t3 := set_pairs t2 (luaH_set (t_pairs t2) (VNum (cast_num i)) bp)) in *.
  exists (upi_set_L (<[tbl := OTable t3]> h5) s3), t3.
  split; [exact Hlast|]. split; [exact Hz3|].
  split; [apply (lockstep_reader sw' s3); [exact HS3 | reflexivity | reflexivity]|].
  split; [exact HL3|]. split; [exact HP3|]. split; [exact HPr|]. split.
  - cbn [upi_L upi_set_L]. unfold h5, h4, h3, h2, h1.
    rewrite <- app_assoc. cbn [app].
    rewrite (update_app_l h0) by exact Hcl.
    assert (Hl : length (<[cl := OLCl c']> h0) = tbl) by apply length_update.
    rewrite (update_app_r (<[cl := OLCl c']> h0)) by lia.
    rewrite Hl. replace (tbl - tbl)%nat with 0%nat by lia. cbn [insert list_insert].
    rewrite (update_app_r (<[cl := OLCl c']> h0)) by lia.
    rewrite Hl. replace (nuv - tbl)%nat with 1%nat by lia. cbn [insert list_insert].
    rewrite (update_app_r (<[cl := OLCl c']> h0)) by lia.
    rewrite Hl. replace (tbl - tbl)%nat with 0%nat by lia. cbn [insert list_insert].
    reflexivity.
  - intros key Hns Hne. rewrite Hk3 by exact Hns. rewrite R1. cbn [reftbl_get].
    destruct (luaV_rawequalobj (VLight (PObj uv)) key) eqn:E; [|reflexivity].
    exfalso. apply Hne. symmetry. apply rawequal_eq in E; [exact E|]. intros b; discriminate.
Qed.

Lemma p_closure_upvalue_appends {host : LuaHost} n ou :
  appends (p_closure_upvalue (persist_keyed n) ou).
Proof.
  unfold p_closure_upvalue.
  apply bind_appends; [apply lift_opt_appends | intros uv].
  apply bind_appends; [apply gets_appends | intros h].
  apply bind_appends; [apply lift_opt_appends | intros u].
  apply bind_appends; [apply lift_opt_appends | intros v].
  apply persist_keyed_appends_out.
Qed.

Lemma stable_binding hw P h4 perms0 a' p' uvs vs j :
  stable (binding hw P h4 perms0 a' p' uvs vs j).
Proof.
  intros sw sr b z [[Hrc Hwf Hlen Hstr] HL HP Hperms Hlength Hbelow Hfresh Hbound] Hb.
  split; try assumption. split; try assumption.
  unfold pi_out in *. cbn [pi_ud pi_set_ud pi_refcount]. lia.
Qed.

Lemma upvalues_replay {host : LuaHost} hw P n m h4 perms0 a' p' uvs vs :
  (n <= m)%nat -> Forall2 (upvalue_ok hw P) uvs vs -> NoDup uvs ->
  (a' < length h4)%nat ->
  replays (for_each (p_closure_upvalue (persist_keyed n)) (map Some uvs))
    (for_range (u_closure_upvalue (unpersist m) a') 1 (length (map Some uvs)))
    (binding hw P h4 perms0 a' p' uvs vs 0)
    (fun _ => binding hw P h4 perms0 a' p' uvs vs (length uvs)).
Proof.
  intros Hnm Hok Hnd Ha.
  eapply replays_conseq;
    [| | apply (replays_loop _ _ 1 (map Some uvs)
                 (fun j => binding hw P h4 perms0 a' p' uvs vs j))].
  - intros sw sr H. exact H.
  - intros a sw sr H. cbv beta in H. now rewrite length_map in H.
  - intros x. apply p_closure_upvalue_appends.
  - intros j x Hx. rewrite list_lookup_fmap in Hx.
    destruct (uvs !! j) as [uv|] eqn:Huv; [|discriminate]. injection Hx as <-.
    destruct (Forall2_lookup_l _ _ _ _ _ Hok Huv) as (v & Hv & (u & Hu & Hget & Hpl & Hnil)).
    pose proof (lookup_lt_Some _ _ _ Huv) as Hj.
    intros sw sw' sr bs rest Hrun
      [HS HL HP Hperms Hlength Hbelow Hfresh (uvs' & Hlen & Hc & Hvals & Hge & Hnd')]
      Hbound Hout Hzio.
    assert (Hnone : reftbl_get (pi_reftbl sw) (VLight (PObj uv)) = None).
    { apply Hfresh. rewrite (drop_S _ _ _ Huv). apply elem_of_cons. now left. }
    assert (Hk : (j < length (l_upvals
                     {| l_p := p';
                        l_upvals := map Some uvs' ++ replicate (length uvs - j) None |}))%nat).
    { cbn [l_upvals]. rewrite length_app, length_map, length_replicate. lia. }
    destruct (upvalue_round hw P n m sw sw' sr bs rest a' _ j uv u v Hu Hget Hpl Hnil
                Hnone HL HP HS Hc Hk Hnm Hrun Hbound Hout Hzio)
      as (sr' & t' & Hr & Hz & HS' & HL' & HP' & Hperms' & Hheap & Hids).
    exists tt, sr'. split; [exact Hr|]. split; [exact Hz|].
    set (h := upi_L sr) in *. set (nuv := S (length h)) in *.
    cbn [l_p l_upvals] in Hheap.
    assert (Hold : forall x, (x < length h)%nat -> x <> a' -> upi_L sr' !! x = h !! x).
    { intros x Hx Hne. rewrite Hheap. rewrite lookup_heap_app_l by (rewrite length_update; lia).
      apply lookup_update_ne. congruence. }
    assert (Hup : forall uv', uv' ∈ uvs' -> (length h4 <= uv' < length h)%nat).
    { intros uv' Hin. split; [exact (proj1 (Forall_forall _ _) Hge uv' Hin)|].
      apply list_elem_of_lookup in Hin as (i & Hi).
      destruct (Forall2_lookup_l _ _ _ _ _ Hvals Hi) as (w & _ & Hw).
      apply heap_upval_Some in Hw. now apply lookup_lt_Some in Hw. }
    split; try assumption.
    + congruence.
    + rewrite Hheap, length_app, length_update. lia.
    + intros x Hx Hne. rewrite Hold by (try lia; exact Hne). auto.
    + intros q Hq. rewrite Hids.
      * apply Hfresh. rewrite (drop_S _ _ _ Huv). apply elem_of_cons. now right.
      * intros s; discriminate.
      * intros [= ->]. rewrite <- (take_drop j uvs), (drop_S _ _ _ Huv) in Hnd.
        apply NoDup_app in Hnd as (_ & _ & Hnd). apply NoDup_cons in Hnd as [Hnotin _].
        contradiction.
    + exists (uvs' ++ [nuv]). split; [rewrite length_app; cbn [length]; lia|].
      split; [|split; [|split]].
      * apply heap_lcl_Some. rewrite Hheap.
        rewrite lookup_heap_app_l by (rewrite length_update; lia).
        rewrite lookup_update_eq by lia. do 2 f_equal. f_equal.
        rewrite map_app, <- app_assoc. cbn [map app].
        replace j with (length (map Some uvs') + 0)%nat at 1 by (rewrite length_map; lia).
        rewrite insert_app_r.
        replace (length uvs - j)%nat with (S (length uvs - S j)) by lia.
        reflexivity.
      * rewrite (take_S_r _ _ _ Hv). apply Forall2_app.
        -- eapply Forall2_impl; [exact Hvals|]. intros uv' w Hw. cbv beta in *.
           apply heap_upval_Some. apply heap_upval_Some in Hw.
           pose proof (lookup_lt_Some _ _ _ Hw) as Hlt.
           destruct (decide (uv' = a')) as [->|Hne].
           { apply heap_lcl_Some in Hc. fold h in Hc. congruence. }
           rewrite Hold by assumption. exact Hw.
        -- constructor; [|constructor]. apply heap_upval_Some. rewrite Hheap.
           rewrite lookup_heap_app_r by (rewrite length_update; lia).
           rewrite length_update. replace (nuv - length h)%nat with 1%nat by lia.
           reflexivity.
      * apply Forall_app. split; [exact Hge|]. constructor; [|constructor]. lia.
      * apply NoDup_app. split; [exact Hnd'|]. split; [|apply NoDup_singleton].
        intros x Hx Hin. apply list_elem_of_singleton in Hin. subst x.
        apply Hup in Hx. lia.
Qed.

Lemma replays_pin {A : Type} (w : W unit) (r : R A)
    (Pre : PersistInfo -> UnpersistInfo -> Prop) Post :
  (forall swc src, Pre swc src ->
     replays w r (fun sw sr => sw = swc /\ sr = src) Post) ->
  replays w r Pre Post.
Proof.
  intros H sw sw' sr bs rest Hrun Hpre.
  exact (H sw sr Hpre sw sw' sr bs rest Hrun (conj eq_refl eq_refl)).
Qed.

Lemma stable_entering hw P fr h perms0 reg : stable (entering hw P fr h perms0 reg).
Proof.
  intros sw sr b z [HS HL HP Hfresh Hheap Hperms] Hb.
  split; try assumption.
  destruct reg; destruct HS as [Hrc Hwf Hlen Hstr]; (split; try assumption);
    unfold pi_out in *; cbn [pi_ud pi_set_ud pi_refcount]; lia.
Qed.

Ltac appends_all :=
  repeat first
    [ apply p_closure_upvalue_appends
    | apply persist_appends_out
    | apply persist_keyed_appends_out
    | apply WRITE_RAW_appends
    | apply gets_appends
    | apply lift_opt_appends
    | apply for_each_appends; intros ?
    | apply bind_appends; [|intros ?] ].

Lemma list_insert_same (h : heap) (a : addr) (o : obj) :
  h !! a = Some o -> <[a := o]> h = h.
Proof. apply list_insert_id. Qed.

Lemma proto_rel_heap hw hr lo p p' :
  proto_rel hw hr lo p p' -> exists now, heap_proto hr p' = Some now.
Proof. intros [p0 p0' pr kids' _ H _ _]. eauto. Qed.

Section ClosureReplay.
Context {host : LuaHost}.
Variables (hw : heap) (P : addr) (n m : nat).
Hypothesis Hnm : (n <= m)%nat.
Variables (a : addr) (cl : lclosure) (p : addr) (l uvs : list addr) (vs : list value).
Variables (h0 : heap) (perms0 : addr).
Hypothesis Ha : heap_lcl hw a = Some cl.
Hypothesis Hp : l_p cl = Some p.
Hypothesis Hups : l_upvals cl = map Some uvs.
Hypothesis Htree : proto_tree hw P p l.
Hypothesis Hndl : NoDup l.
Hypothesis Hok : Forall2 (upvalue_ok hw P) uvs vs.
Hypothesis Hndu : NoDup uvs.
Hypothesis Hdisj : forall q, q ∈ l -> q ∉ uvs.
Hypothesis Hnups : in_byte (Z.of_nat (length uvs)).

Lemma p_closure_replay top :
  replays (p_closure (persist n) (persist_keyed n) (VLCl a))
    (u_closure (unpersist m) top)
    (entering hw P (l ++ uvs) h0 perms0 (Some (VLCl (length h0))))
    (fun r sw sr => r = VLCl (length h0) /\ closure_done hw P h0 perms0 p vs sw sr).
Proof using Hnm Ha Hp Hups Htree Hndl Hok Hndu Hdisj Hnups.
  set (a' := length h0). set (np := S a').
  set (c0 := {| l_p := None; l_upvals := replicate (length uvs) (@None addr) |}).
  set (c1 := {| l_p := Some np; l_upvals := replicate (length uvs) (@None addr) |}).
  set (h1 := h0 ++ [OLCl c0]).
  set (h2 := h1 ++ [OProto empty_proto]).
  set (h3 := <[a' := OLCl c1]> h2).
  unfold p_closure, u_closure.
  apply replays_gets_eq with (x0 := hw); [intros sw sr H; apply H|].
  rewrite Ha. apply replays_lift_opt. intros x [= <-].
  apply replays_byte_bind; [apply stable_entering | unfold in_byte; lia | appends_all |].
  rewrite Hups, length_map.
  apply replays_byte_bind; [apply stable_entering | exact Hnups | appends_all |].
  cbv beta. change (negb (0 =? 0)) with false. cbv iota.
  rewrite Hp. apply replays_lift_opt. intros x [= <-].
  rewrite Nat2Z.id. fold c0.
  eapply replays_reader with
    (Pre1 := fun r sw sr =>
       r = a' /\ entering hw P (l ++ uvs) h1 perms0 (Some (VLCl a')) sw sr).
  { intros sw sr [HS HL HP Hfresh Hheap Hperms]. eexists _, _.
    rewrite new_object_run. split; [reflexivity|]. split; [reflexivity|].
    split; [now rewrite Hheap|]. split; try assumption.
    - apply (lockstep_reader _ _ _ HS); reflexivity.
    - cbn [upi_L upi_set_L]. now rewrite Hheap. }
  intros r. apply replays_pre. intros ->.
  eapply replays_reader with
    (Pre1 := fun _ => entering hw P (l ++ uvs) h1 perms0 None).
  { intros sw sr [HS HL HP Hfresh Hheap Hperms]. eexists _, _.
    rewrite registerobject_run. split; [reflexivity|]. split; [reflexivity|].
    split; assumption. }
  intros _.
  eapply replays_reader with
    (Pre1 := fun r sw sr => r = np /\ entering hw P (l ++ uvs) h2 perms0 None sw sr).
  { intros sw sr [HS HL HP Hfresh Hheap Hperms]. eexists _, _.
    rewrite new_object_run. split; [reflexivity|]. split; [reflexivity|].
    split; [rewrite Hheap; unfold h1; apply length_alloc|]. split; try assumption.
    - apply (lockstep_reader _ _ _ HS); reflexivity.
    - cbn [upi_L upi_set_L]. now rewrite Hheap. }
  intros r. apply replays_pre. intros ->.
  assert (Hc0 : heap_lcl h2 a' = Some c0).
  { apply heap_lcl_Some. unfold h2, h1.
    rewrite lookup_alloc_old by (rewrite length_alloc; lia). apply lookup_alloc_new. }
  eapply replays_reader with
    (Pre1 := fun r sw sr => r = c0 /\ entering hw P (l ++ uvs) h2 perms0 None sw sr).
  { intros sw sr H. exists c0, sr. split; [|auto].
    apply the_lcl_run. rewrite (en_heap _ _ _ _ _ _ _ _ H). exact Hc0. }
  intros r. apply replays_pre. intros ->. cbn [l_upvals c0]. fold c1.
  eapply replays_reader with
    (Pre1 := fun _ => entering hw P (l ++ uvs) h3 perms0 None).
  { intros sw sr [HS HL HP Hfresh Hheap Hperms]. eexists _, _.
    rewrite update_object_run. split; [reflexivity|]. split; [reflexivity|].
    split; try assumption.
    - apply (lockstep_reader _ _ _ HS); reflexivity.
    - cbn [upi_L upi_set_L]. now rewrite Hheap. }
  intros _.
  assert (Hlen3 : length h3 = S np).
  { unfold h3, h2, h1. rewrite length_update, !length_alloc. reflexivity. }
  assert (Hc1 : h3 !! a' = Some (OLCl c1)).
  { unfold h3. apply lookup_update_eq. unfold h2, h1. rewrite !length_alloc. lia. }
  assert (Hnp : h3 !! np = Some (OProto empty_proto)).
  { unfold h3. rewrite lookup_update_ne by (unfold np; lia). unfold h2.
    replace np with (length h1) by (unfold h1; apply length_alloc).
    apply lookup_alloc_new. }
  assert (Hh0 : forall x, (x < length h0)%nat -> h3 !! x = h0 !! x).
  { intros x Hx. unfold h3, h2, h1. rewrite lookup_update_ne by (unfold a'; lia).
    rewrite !lookup_alloc_old by (rewrite ?length_alloc; lia). reflexivity. }
  eapply replays_bind with
    (Mid := fun r sw sr =>
       r = VLight (PObj np) /\
       (lockstep sw sr /\ pi_L sw = hw /\ pi_perms sw = P /\ upi_perms sr = perms0 /\
        (forall x, (x < np)%nat -> upi_L sr !! x = h3 !! x) /\
        proto_rel hw (upi_L sr) np p np /\
        forall q, q ∈ uvs -> reftbl_get (pi_reftbl sw) (VLight (PObj q)) = None));
    [appends_all | appends_all | |].
  { apply replays_pin. intros swc src [HS HL HP Hfresh Hheap Hperms].
    eapply replays_conseq; [| | apply (proto_replay hw P n m p l np swc src Hnm Htree Hndl)].
    - intros sw sr [-> ->]. split; [reflexivity|]. split; [reflexivity|].
      split; try assumption.
      + intros q Hq. apply Hfresh. apply elem_of_app. now left.
      + rewrite Hheap. apply heap_proto_Some. exact Hnp.
      + rewrite Hheap. symmetry. exact Hlen3.
    - intros r sw sr [-> [HS' HL' HP' Hrel Hbelow Hlength Hperms' Hids]].
      split; [reflexivity|]. split; [exact HS'|]. split; [exact HL'|].
      split; [exact HP'|]. split; [congruence|]. split; [|split; [exact Hrel|]].
      + intros x Hx. rewrite Hbelow by exact Hx. now rewrite Hheap.
      + intros q Hq. rewrite Hids.
        * apply Hfresh. apply elem_of_app. now right.
        * intros Hin. exact (Hdisj q Hin Hq). }
  intros r. apply replays_pre. intros ->. cbn [lua_touserdata lift_opt].
  apply replays_ret_bind.
  apply replays_pin.
  intros swc src (HS & HL & HP & Hperms & Hbelow & Hrel & Hfresh).
  destruct (proto_rel_heap _ _ _ _ _ Hrel) as (now & Hnow).
  assert (Hcl : upi_L src !! a' = Some (OLCl c1)).
  { rewrite Hbelow by (unfold np; lia). exact Hc1. }
  eapply replays_reader with (Pre1 := fun _ sw sr => sw = swc /\ sr = src).
  { intros sw sr [-> ->]. eexists _, src. split; [|auto]. apply the_proto_run. exact Hnow. }
  intros _.
  eapply replays_reader with (Pre1 := fun r sw sr => r = c1 /\ (sw = swc /\ sr = src)).
  { intros sw sr [-> ->]. exists c1, src. split; [|auto].
    apply the_lcl_run, heap_lcl_Some, Hcl. }
  intros r. apply replays_pre. intros ->. cbn [l_upvals c1]. fold c1.
  eapply replays_reader with
    (Pre1 := fun _ sw sr => sw = swc /\ sr = upi_set_L (upi_L src) src).
  { intros sw sr [-> ->]. eexists _, _. rewrite update_object_run.
    split; [reflexivity|]. split; [reflexivity|]. split; [reflexivity|].
    change (upi_set_L (<[a' := OLCl c1]> (upi_L src)) src = upi_set_L (upi_L src) src).
    exact (f_equal (fun h => upi_set_L h src) (list_insert_same _ _ _ Hcl)). }
  intros _.
  pose proof (upvalues_replay hw P n m (upi_L src) perms0 a' (Some np) uvs vs Hnm Hok Hndu
                (lookup_Some_lt _ _ _ Hcl)) as Hloop.
  rewrite length_map in Hloop.
  eapply replays_then.
  { eapply replays_conseq; [| | exact Hloop].
    - intros sw sr [-> ->]. split; try assumption; try reflexivity.
      + apply (lockstep_reader _ _ _ HS); reflexivity.
      + exists []. split; [reflexivity|]. split; [|split; [|split]].
        * cbn [map app upi_L upi_set_L]. rewrite Nat.sub_0_r.
          apply heap_lcl_Some. exact Hcl.
        * rewrite take_0. constructor.
        * constructor.
        * constructor.
    - intros r sw sr H. exact H. }
  intros [] sw sr [HS' HL' HP' Hperms' Hlength' Hbelow' Hfresh'
                     (uvs' & Hlen' & Hc' & Hvals' & Hge' & Hnd')].
  exists (VLCl a'), sr. split; [reflexivity|]. split; [reflexivity|].
  split; [reflexivity|]. split; try assumption.
  - intros x Hx. rewrite Hbelow' by (try (unfold a'; lia);
      apply lookup_Some_lt in Hcl; unfold a' in *; lia).
    rewrite Hbelow by (unfold np, a'; lia). now apply Hh0.
  - revert Hrel. apply proto_rel_mono; [lia|].
    intros x Hx. apply Hbelow'; [lia | unfold np in Hx; lia].
  - exists uvs'. rewrite Nat.sub_diag in Hc'. cbn [replicate] in Hc'.
    rewrite app_nil_r in Hc'. split; [exact Hc'|]. split; [|exact Hnd'].
    rewrite (Forall2_length _ _ _ Hok), firstn_all in Hvals'. exact Hvals'.
Qed.
End ClosureReplay.

Lemma proto_tree_nodes hw P p l :
  proto_tree hw P p l -> Forall (fun q => exists pr, heap_proto hw q = Some pr) l.
Proof.
  revert p l. fix IH 3. intros p l [p0 pr nodes H1 _ _ H4].
  constructor; [eauto|]. revert H4. generalize (p_p pr) nodes. fix IH2 3.
  intros l1 l2 [|x y l1' l2' Hxy Hrest]; cbn [concat].
  - constructor.
  - apply Forall_app. split; [exact (IH _ _ Hxy) | exact (IH2 _ _ Hrest)].
Qed.

Lemma p_closure_appends {host : LuaHost} n a :
  appends (p_closure (persist n) (persist_keyed n) (VLCl a)).
Proof. unfold p_closure. appends_all. Qed.


